(** * democracy-bot: the Condorcet / Ranked-Pairs pipeline

    A shallow embedding of the three stages implemented twice in the
    repository's Python tools,

    - [visualize_condorcet.py]: [compute_user_rankings],
      [compute_condorcet_matrix], [compute_ranked_pairs];
    - [visualize_vote.py]: [compute_user_rankings], [compute_vote_matrix];

    followed by the properties the specification states about them.

    Layout: [Py] models the pieces of the Python runtime the code relies
    on (exceptions, lists, dicts, sets, int64 scalars, the stable sort);
    [Condorcet] and [Vote] hold one definition per source function, in the
    order of the source; the theorems come last. *)

From Stdlib Require Import String Ascii.
From Stdlib Require Import List ZArith Lia Bool Arith PeanoNat.
From Stdlib Require Import Permutation Sorted Relations.
Import ListNotations.

(* ================================================================== *)
(** * The Python runtime, as far as the code uses it *)
(* ================================================================== *)

Module Py.

(** Exceptions.  [IndexError] and [KeyError] are Python's.  [LoopBound]
    is not: every [while] loop of the source is run for at most a number
    of rounds computed from its data, and [LoopBound] marks a loop that
    would need more.  The theorems show it is never raised. *)
Inductive exn : Type :=
| IndexError
| KeyError
| LoopBound.

Inductive result (A : Type) : Type :=
| Ok (a : A)
| Raise (e : exn).

Arguments Ok {A} a.
Arguments Raise {A} e.

Definition bind {A B : Type} (m : result A) (f : A -> result B) : result B :=
  match m with
  | Ok a => f a
  | Raise e => Raise e
  end.

Notation "x <- m ;; k" := (bind m (fun x => k))
  (at level 61, m at next level, right associativity).
Notation "' pat <- m ;; k" := (bind m (fun x => match x with pat => k end))
  (at level 61, pat pattern, m at next level, right associativity).

(** [for x in l: s = f(s, x)] *)
Fixpoint foldM {A S : Type} (f : S -> A -> result S) (l : list A) (s : S)
  : result S :=
  match l with
  | [] => Ok s
  | x :: l' => s' <- f s x ;; foldM f l' s'
  end.

(** [[x for x in l if p(x)]] where [p] may raise. *)
Fixpoint filterM {A : Type} (p : A -> result bool) (l : list A)
  : result (list A) :=
  match l with
  | [] => Ok []
  | x :: l' =>
      b <- p x ;;
      r <- filterM p l' ;;
      Ok (if b then x :: r else r)
  end.

(** [[f(x) for x in l]] where [f] may raise. *)
Fixpoint mapM {A B : Type} (f : A -> result B) (l : list A)
  : result (list B) :=
  match l with
  | [] => Ok []
  | x :: l' =>
      y <- f x ;;
      r <- mapM f l' ;;
      Ok (y :: r)
  end.

(** [range(a, b)] *)
Definition range (a b : nat) : list nat := seq a (b - a).

(** [l[i]] for an index that is not negative. *)
Definition getitem {A : Type} (l : list A) (i : nat) : result A :=
  match nth_error l i with
  | Some x => Ok x
  | None => Raise IndexError
  end.

(** ** Hashable keys: values compared with [==]. *)
Class Key (K : Type) : Type := {
  keqb : K -> K -> bool;
  keqb_eq : forall x y, keqb x y = true <-> x = y
}.

#[export] Instance Key_nat : Key nat :=
  {| keqb := Nat.eqb; keqb_eq := Nat.eqb_eq |}.
#[export] Instance Key_Z : Key Z :=
  {| keqb := Z.eqb; keqb_eq := Z.eqb_eq |}.
#[export] Instance Key_string : Key string :=
  {| keqb := String.eqb; keqb_eq := String.eqb_eq |}.

(** ** Dictionaries

    A Python [dict] keeps its keys in insertion order and assigning to a
    key that is present keeps its place; an association list with that
    update is the same object. *)
Definition dict (K V : Type) : Type := list (K * V).

Section Dict.
Context {K V : Type} `{Key K}.

(** [d.get(k)] *)
Fixpoint dict_get (k : K) (d : dict K V) : option V :=
  match d with
  | [] => None
  | (k', v) :: d' => if keqb k k' then Some v else dict_get k d'
  end.

(** [d[k] = v] *)
Fixpoint dict_set (k : K) (v : V) (d : dict K V) : dict K V :=
  match d with
  | [] => [(k, v)]
  | (k', v') :: d' =>
      if keqb k k' then (k', v) :: d' else (k', v') :: dict_set k v d'
  end.

(** [d[k]] *)
Definition dict_getitem (k : K) (d : dict K V) : result V :=
  match dict_get k d with
  | Some v => Ok v
  | None => Raise KeyError
  end.

(** [d.get(k, dflt)] *)
Definition dict_get_default (k : K) (dflt : V) (d : dict K V) : V :=
  match dict_get k d with
  | Some v => v
  | None => dflt
  end.

Definition dict_keys (d : dict K V) : list K := map fst d.
End Dict.

(** [d[k] += z] on a dict of Python integers. *)
Definition dict_incr {K : Type} `{Key K} (k : K) (z : Z) (d : dict K Z)
  : result (dict K Z) :=
  v <- dict_getitem k d ;;
  Ok (dict_set k (v + z)%Z d).

(** [{k: v for k in l}] *)
Definition dict_const {K V : Type} `{Key K} (l : list K) (v : V) : dict K V :=
  fold_left (fun d k => dict_set k v d) l [].

(** ** Sets

    Python does not say in which order a [set] is iterated; CPython
    derives it from the hash values and the history of the table, not
    from the order of insertion.  A set is therefore an abstract object:
    whatever its state is, iterating it lists its elements once each, in
    an order that is a function of that state.  Everything below holds
    for every implementation of this interface. *)
Class PySet (A : Type) : Type := {
  pyset : Type;
  set_empty : pyset;                              (* set() *)
  set_add : A -> pyset -> pyset;                  (* s.add(x) *)
  set_discard : A -> pyset -> pyset;              (* s.discard(x) *)
  set_mem : A -> pyset -> bool;                   (* x in s *)
  set_iter : pyset -> list A;                     (* for x in s *)
  set_iter_NoDup : forall s, NoDup (set_iter s);
  set_iter_empty : set_iter set_empty = [];
  set_mem_iter : forall x s, set_mem x s = true <-> In x (set_iter s);
  set_add_iter : forall x y s,
    In x (set_iter (set_add y s)) <-> x = y \/ In x (set_iter s);
  set_discard_iter : forall x y s,
    In x (set_iter (set_discard y s)) <-> x <> y /\ In x (set_iter s)
}.

(** [set(l)] *)
Definition set_of_list {A : Type} `{PySet A} (l : list A) : pyset :=
  fold_left (fun s x => set_add x s) l set_empty.

(** [len(s)] *)
Definition set_len {A : Type} `{PySet A} (s : pyset) : nat :=
  length (set_iter s).

(** A [defaultdict(set)]: [g[k]] creates an empty entry on first use. *)
Definition setdict (A : Type) `{PySet A} : Type := dict A pyset.

Section SetDict.
Context {A : Type} `{Key A} `{PySet A}.

(** [g[k]]: the entry, inserted empty when missing. *)
Definition sd_touch (k : A) (g : setdict A) : setdict A :=
  match dict_get k g with
  | Some _ => g
  | None => dict_set k set_empty g
  end.

(** [g[k].add(x)] *)
Definition sd_add (k x : A) (g : setdict A) : setdict A :=
  dict_set k (set_add x (dict_get_default k set_empty g)) g.

(** [g.get(k, [])], as the list the [for] loop walks. *)
Definition sd_get (k : A) (g : setdict A) : list A :=
  match dict_get k g with
  | Some s => set_iter s
  | None => []
  end.

(** Number of stored successors: the bound of the traversal loops. *)
Definition sd_size (g : setdict A) : nat :=
  list_sum (map (fun kv => set_len (snd kv)) g).
End SetDict.

(** ** numpy int64 scalars: arithmetic wraps around. *)
Definition wrap64 (z : Z) : Z := ((z + 2 ^ 63) mod 2 ^ 64 - 2 ^ 63)%Z.
Definition add64 (a b : Z) : Z := wrap64 (a + b).
Definition sub64 (a b : Z) : Z := wrap64 (a - b).
Definition neg64 (a : Z) : Z := wrap64 (- a).
Definition is_int64 (z : Z) : Prop := (- 2 ^ 63 <= z < 2 ^ 63)%Z.

(** ** [list.sort(key=...)] and [sorted(..., key=...)]

    Python's sort is stable and compares keys with [<].  For keys that
    are totally ordered the result of a stable sort is unique, so the
    insertion sort below returns the list Python returns. *)
Section Sort.
Context {A K : Type} (ltb : K -> K -> bool) (key : A -> K).

Fixpoint insert_by (x : A) (l : list A) : list A :=
  match l with
  | [] => [x]
  | y :: l' =>
      if ltb (key y) (key x) then y :: insert_by x l' else x :: l
  end.

Definition sort_by (l : list A) : list A := fold_right insert_by [] l.
End Sort.

(** Tuples compare lexicographically. *)
Definition lex_ltb (a b : Z * Z) : bool :=
  ((fst a <? fst b) || ((fst a =? fst b) && (snd a <? snd b)))%Z.

End Py.

Export Py.

(* ================================================================== *)
(** * visualize_condorcet.py *)
(* ================================================================== *)

Module Condorcet.

(** A row of [pairwise_preferences]: [(movie_a, movie_b, pref)]. *)
Definition pref : Type := (Z * Z * Z)%type.

(** A numpy [n] x [n] array of [dtype=int], row by row. *)
Definition matrix : Type := list (list Z).

Section UserRankings.
Context `{PySet Z}.

(** ** [compute_user_rankings], lines 55-166 *)

(** Lines 64-67: every movie the user has compared. *)
Definition compared_movie_ids (prefs : list pref) : pyset :=
  fold_left
    (fun s (p : pref) =>
       let '(movie_a, movie_b, _) := p in
       set_add movie_b (set_add movie_a s))
    prefs set_empty.

(** Line 70: the list comprehension walks the set. *)
Definition movies_to_rank (prefs : list pref) (unwatched_movie_ids : pyset)
  : list Z :=
  filter (fun mid => set_mem mid unwatched_movie_ids)
         (set_iter (compared_movie_ids prefs)).

(** Lines 76-80 fill [compared_pairs], which nothing reads afterwards;
    it has no counterpart here. *)

(** Lines 91-93 and 96-98: [if to not in graph[from]: graph[from].add(to);
    in_degree[to] += 1].  Reading [graph[from]] creates the entry. *)
Definition add_edge (from to : Z) (st : setdict Z * dict Z Z)
  : result (setdict Z * dict Z Z) :=
  let '(graph, in_degree) := st in
  let graph := sd_touch from graph in
  if set_mem to (dict_get_default from set_empty graph)
  then Ok (graph, in_degree)
  else
    in_degree <- dict_incr to 1 in_degree ;;
    Ok (sd_add from to graph, in_degree).

(** Lines 86-99: one statement. *)
Definition build_graph_step (movie_ids_set : pyset)
    (st : setdict Z * dict Z Z) (p : pref)
  : result (setdict Z * dict Z Z) :=
  let '(movie_a, movie_b, pref) := p in
  if negb (set_mem movie_a movie_ids_set)
     || negb (set_mem movie_b movie_ids_set)
  then Ok st
  else if (pref >? 0)%Z then add_edge movie_a movie_b st
  else if (pref <? 0)%Z then add_edge movie_b movie_a st
  else Ok st.

(** Lines 83-99: the directed graph and the in-degrees. *)
Definition build_graph (prefs : list pref) (movie_ids_set : pyset)
    (to_rank : list Z) : result (setdict Z * dict Z Z) :=
  foldM (build_graph_step movie_ids_set) prefs ([], dict_const to_rank 0%Z).

(** Lines 102-106: the undirected comparison graph. *)
Definition build_comparison_graph (prefs : list pref) (movie_ids_set : pyset)
  : setdict Z :=
  fold_left
    (fun cg (p : pref) =>
       let '(movie_a, movie_b, _) := p in
       if set_mem movie_a movie_ids_set && set_mem movie_b movie_ids_set
       then sd_add movie_b movie_a (sd_add movie_a movie_b cg)
       else cg)
    prefs [].

(** Lines 121-123: push the neighbours that are not visited.  The
    Python stack grows at its end; here its top is the head. *)
Definition push_unvisited (visited : pyset) (neighbors stack : list Z)
  : list Z :=
  fold_left
    (fun st neighbor => if set_mem neighbor visited then st else neighbor :: st)
    neighbors stack.

(** Lines 115-123: the [while stack] loop of [dfs]. *)
Fixpoint dfs_loop (fuel : nat) (comparison_graph : setdict Z)
    (visited : pyset) (component stack : list Z)
  : result (pyset * list Z) :=
  match fuel with
  | 0 => Raise LoopBound
  | S fuel =>
      match stack with
      | [] => Ok (visited, component)
      | node :: stack =>
          if set_mem node visited
          then dfs_loop fuel comparison_graph visited component stack
          else
            let visited := set_add node visited in
            dfs_loop fuel comparison_graph visited (component ++ [node])
              (push_unvisited visited (sd_get node comparison_graph) stack)
      end
  end.

(** Lines 112-124: [dfs(start)]; [visited] is the enclosing variable. *)
Definition dfs (comparison_graph : setdict Z) (visited : pyset) (start : Z)
  : result (pyset * list Z) :=
  dfs_loop (2 + sd_size comparison_graph) comparison_graph visited [] [start].

(** Lines 109-128. *)
Definition find_components (comparison_graph : setdict Z) (to_rank : list Z)
  : result (pyset * list (list Z)) :=
  foldM
    (fun (st : pyset * list (list Z)) mid =>
       let '(visited, components) := st in
       if set_mem mid visited then Ok st
       else
         '(visited, component) <- dfs comparison_graph visited mid ;;
         Ok (visited, components ++ [component]))
    to_rank (set_empty, []).

(** Line 131: [components.sort(key=lambda x: -len(x))]. *)
Definition sort_components (components : list (list Z)) : list (list Z) :=
  sort_by Z.ltb (fun x : list Z => (- Z.of_nat (length x))%Z) components.

(** Line 132. *)
Definition main_component_of (components : list (list Z)) : pyset :=
  match sort_components components with
  | c :: _ => set_of_list c
  | [] => set_empty
  end.

(** Lines 141-145. *)
Definition component_in_degree (graph : setdict Z) (main_component : pyset)
  : result (dict Z Z) :=
  foldM
    (fun d from_node =>
       foldM
         (fun d to_node =>
            if set_mem to_node main_component then dict_incr to_node 1 d
            else Ok d)
         (sd_get from_node graph) d)
    (set_iter main_component)
    (dict_const (set_iter main_component) 0%Z).

(** Line 149. *)
Definition sources_of (remaining : pyset) (component_in_degree : dict Z Z)
  : list Z :=
  filter (fun mid => (dict_get_default mid 0 component_in_degree =? 0)%Z)
         (set_iter remaining).

(** Lines 157-162: one source. *)
Definition process_source (graph : setdict Z) (current_rank : Z)
    (st : dict Z Z * pyset * dict Z Z) (mid : Z)
  : result (dict Z Z * pyset * dict Z Z) :=
  let '(rank_map, remaining, component_in_degree) := st in
  let rank_map := dict_set mid current_rank rank_map in
  let remaining := set_discard mid remaining in
  component_in_degree <-
    foldM
      (fun d neighbor =>
         if set_mem neighbor remaining then dict_incr neighbor (-1) d
         else Ok d)
      (sd_get mid graph) component_in_degree ;;
  Ok (rank_map, remaining, component_in_degree).

(** Lines 147-164: the layered topological sort. *)
Fixpoint rank_loop (fuel : nat) (graph : setdict Z) (rank_map : dict Z Z)
    (remaining : pyset) (component_in_degree : dict Z Z)
    (unranked_ids : list Z) (current_rank : Z)
  : result (dict Z Z * list Z) :=
  match fuel with
  | 0 => Raise LoopBound
  | S fuel =>
      match set_iter remaining with
      | [] => Ok (rank_map, unranked_ids)
      | _ :: _ =>
          match sources_of remaining component_in_degree with
          | [] => Ok (rank_map, unranked_ids ++ set_iter remaining)
          | sources =>
              '(rank_map, remaining, component_in_degree) <-
                foldM (process_source graph current_rank) sources
                      (rank_map, remaining, component_in_degree) ;;
              rank_loop fuel graph rank_map remaining component_in_degree
                        unranked_ids (current_rank + 1)%Z
          end
      end
  end.

Definition compute_user_rankings (prefs : list pref)
    (unwatched_movie_ids : pyset) : result (dict Z Z * pyset) :=
  match prefs with
  | [] => Ok ([], set_empty)
  | _ :: _ =>
      let to_rank := movies_to_rank prefs unwatched_movie_ids in
      match to_rank with
      | [] => Ok ([], set_empty)
      | _ :: _ =>
          let movie_ids_set := set_of_list to_rank in
          '(graph, in_degree) <- build_graph prefs movie_ids_set to_rank ;;
          let comparison_graph :=
            build_comparison_graph prefs movie_ids_set in
          '(visited, components) <-
            find_components comparison_graph to_rank ;;
          let main_component := main_component_of components in
          let unranked_ids :=
            filter (fun mid => negb (set_mem mid main_component)) to_rank in
          let remaining := set_of_list (set_iter main_component) in
          component_in_degree <- component_in_degree graph main_component ;;
          '(rank_map, unranked_ids) <-
            rank_loop (S (set_len remaining)) graph [] remaining
                      component_in_degree unranked_ids 1%Z ;;
          Ok (rank_map, set_of_list unranked_ids)
      end
  end.

(** ** [compute_condorcet_matrix], lines 169-224

    The database is outside the model: [movies] is what
    [get_unwatched_movies] returned and [attendees] pairs every user id
    of the loop of line 193 with what [get_user_preferences] returned
    for it. *)

(** The value stored per user at line 197. *)
Record ranking : Type := {
  rank_map : dict Z Z;
  unranked_set : pyset
}.

(** Lines 192-197. *)
Definition collect_user_rankings (attendees : list (string * list pref))
    (movie_ids_set : pyset) : result (dict string ranking) :=
  foldM
    (fun user_rankings (a : string * list pref) =>
       let '(user_id, prefs) := a in
       match prefs with
       | [] => Ok user_rankings
       | _ :: _ =>
           '(rank_map, unranked_set) <-
             compute_user_rankings prefs movie_ids_set ;;
           Ok (dict_set user_id
                 {| rank_map := rank_map; unranked_set := unranked_set |}
                 user_rankings)
       end)
    attendees [].
End UserRankings.

(** [np.zeros((n, n), dtype=int)] *)
Definition mat_zeros (n : nat) : matrix := repeat (repeat 0%Z n) n.

(** [matrix[i][j]] *)
Definition mat_get (m : matrix) (i j : nat) : result Z :=
  row <- getitem m i ;;
  getitem row j.

(** [l[i] = x] for an index in range. *)
Fixpoint list_set {A : Type} (i : nat) (x : A) (l : list A) : list A :=
  match l, i with
  | [], _ => []
  | _ :: l', 0 => x :: l'
  | y :: l', S i' => y :: list_set i' x l'
  end.

(** [matrix[i][j] += 1] *)
Definition mat_incr (m : matrix) (i j : nat) : result matrix :=
  row <- getitem m i ;;
  v <- getitem row j ;;
  Ok (list_set i (list_set j (add64 v 1) row) m).

(** [enumerate(l)] *)
Definition enumerate {A : Type} (l : list A) : list (nat * A) :=
  combine (seq 0 (length l)) l.

Section Matrix.
Context `{PySet Z}.

(** Lines 210-222: one user's ranking at the cell [(i, j)]. *)
Definition tally_user (i j : nat) (movie_a movie_b : Z) (m : matrix)
    (entry : string * ranking) : result matrix :=
  let rank_map := rank_map (snd entry) in
  let rank_a := dict_get movie_a rank_map in
  let rank_b := dict_get movie_b rank_map in
  match rank_a, rank_b with
  | Some rank_a, Some rank_b =>
      if (rank_a <? rank_b)%Z then mat_incr m i j else Ok m
  | Some _, None => mat_incr m i j
  | _, _ => Ok m
  end.

(** Lines 202-222. *)
Definition build_matrix (movie_ids : list Z)
    (user_rankings : dict string ranking) : result matrix :=
  foldM
    (fun m (ia : nat * Z) =>
       let '(i, movie_a) := ia in
       foldM
         (fun m (jb : nat * Z) =>
            let '(j, movie_b) := jb in
            if i =? j then Ok m
            else foldM (tally_user i j movie_a movie_b) user_rankings m)
         (enumerate movie_ids) m)
    (enumerate movie_ids) (mat_zeros (length movie_ids)).

Definition compute_condorcet_matrix (movies : dict Z string)
    (attendees : list (string * list pref))
  : result (list Z * list string * matrix) :=
  let movie_ids := dict_keys movies in
  movie_titles <- mapM (fun mid => dict_getitem mid movies) movie_ids ;;
  let movie_ids_set := set_of_list movie_ids in
  user_rankings <- collect_user_rankings attendees movie_ids_set ;;
  matrix <- build_matrix movie_ids user_rankings ;;
  Ok (movie_ids, movie_titles, matrix).
End Matrix.

(** ** [compute_ranked_pairs], lines 227-291 *)

(** The tuples of [pairs]: [(winner, loser, margin, votes)]. *)
Definition pair_record : Type := (nat * nat * Z * Z)%type.

Definition pair_winner (p : pair_record) : nat := fst (fst (fst p)).
Definition pair_loser (p : pair_record) : nat := snd (fst (fst p)).
Definition pair_margin (p : pair_record) : Z := snd (fst p).
Definition pair_votes (p : pair_record) : Z := snd p.

(** Lines 235-241: the body of the double loop. *)
Definition collect_pair (m : matrix) (i j : nat) (pairs : list pair_record)
  : result (list pair_record) :=
  votes_i <- mat_get m i j ;;
  votes_j <- mat_get m j i ;;
  if (votes_i >? votes_j)%Z
  then Ok (pairs ++ [(i, j, sub64 votes_i votes_j, votes_i)])
  else if (votes_j >? votes_i)%Z
  then Ok (pairs ++ [(j, i, sub64 votes_j votes_i, votes_j)])
  else Ok pairs.

(** Lines 232-241. *)
Definition collect_pairs (n : nat) (m : matrix) : result (list pair_record) :=
  foldM
    (fun pairs i =>
       foldM (fun pairs j => collect_pair m i j pairs) (range (i + 1) n) pairs)
    (range 0 n) [].

(** Line 244: [key=lambda x: (-x[2], -x[3])]. *)
Definition pair_key (p : pair_record) : Z * Z :=
  (neg64 (pair_margin p), neg64 (pair_votes p)).

Definition sort_pairs (pairs : list pair_record) : list pair_record :=
  sort_by lex_ltb pair_key pairs.

(** [key=lambda i: movie_titles[i]]: the keys are computed first, then
    the indices are sorted by them.  Python compares [str] values code
    point by code point; a title is kept here as the string of its
    UTF-8 bytes, and the order of UTF-8 byte strings is the order of
    the code points. *)
Definition sort_by_title (movie_titles : list string) (l : list nat)
  : result (list nat) :=
  keys <- mapM (getitem movie_titles) l ;;
  Ok (map snd (sort_by String.ltb fst (combine keys l))).

Section RankedPairs.
Context `{PySet nat}.

(** Lines 252-260: the loop of [would_create_cycle]; the top of the
    Python stack is the head of [stack]. *)
Fixpoint cycle_loop (fuel : nat) (locked : setdict nat) (winner : nat)
    (visited : pyset) (stack : list nat) : result bool :=
  match fuel with
  | 0 => Raise LoopBound
  | S fuel =>
      match stack with
      | [] => Ok false
      | current :: stack =>
          if current =? winner then Ok true
          else if set_mem current visited
          then cycle_loop fuel locked winner visited stack
          else
            cycle_loop fuel locked winner (set_add current visited)
              (rev (sd_get current locked) ++ stack)
      end
  end.

(** Lines 249-260. *)
Definition would_create_cycle (locked : setdict nat) (winner loser : nat)
  : result bool :=
  cycle_loop (2 + sd_size locked) locked winner set_empty [loser].

(** Lines 263-264. *)
Definition lock_pair (locked : setdict nat) (p : pair_record)
  : result (setdict nat) :=
  let '(winner, loser, margin, _) := p in
  cyc <- would_create_cycle locked winner loser ;;
  if cyc then Ok locked else Ok (sd_add winner loser locked).

(** Lines 247-264. *)
Definition lock_pairs (pairs : list pair_record) : result (setdict nat) :=
  foldM lock_pair pairs [].

(** Lines 267-270. *)
Definition locked_in_degree (n : nat) (locked : setdict nat)
  : result (dict nat Z) :=
  foldM
    (fun d (item : nat * pyset) =>
       let '(winner, losers) := item in
       foldM (fun d loser => dict_incr loser 1 d) (set_iter losers) d)
    locked (dict_const (range 0 n) 0%Z).

(** Line 276. *)
Definition zero_in_degree (in_degree : dict nat Z) (remaining : pyset)
  : result (list nat) :=
  filterM
    (fun i => v <- dict_getitem i in_degree ;; Ok (v =? 0)%Z)
    (set_iter remaining).

(** Lines 285-289: one source. *)
Definition emit_source (locked : setdict nat)
    (st : dict nat Z * list nat * pyset) (s : nat)
  : result (dict nat Z * list nat * pyset) :=
  let '(in_degree, ranking, remaining) := st in
  let ranking := ranking ++ [s] in
  let remaining := set_discard s remaining in
  in_degree <-
    foldM (fun d neighbor => dict_incr neighbor (-1) d)
          (sd_get s locked) in_degree ;;
  Ok (in_degree, ranking, remaining).

(** Lines 275-289. *)
Fixpoint topo_loop (fuel : nat) (movie_titles : list string)
    (locked : setdict nat) (in_degree : dict nat Z) (ranking : list nat)
    (remaining : pyset) : result (list nat) :=
  match fuel with
  | 0 => Raise LoopBound
  | S fuel =>
      match set_iter remaining with
      | [] => Ok ranking
      | _ :: _ =>
          sources <- zero_in_degree in_degree remaining ;;
          match sources with
          | [] =>
              remaining_sorted <-
                sort_by_title movie_titles (set_iter remaining) ;;
              Ok (ranking ++ remaining_sorted)
          | _ :: _ =>
              sources <- sort_by_title movie_titles sources ;;
              '(in_degree, ranking, remaining) <-
                foldM (emit_source locked) sources
                      (in_degree, ranking, remaining) ;;
              topo_loop fuel movie_titles locked in_degree ranking remaining
          end
      end
  end.

Definition compute_ranked_pairs (movie_ids : list Z)
    (movie_titles : list string) (m : matrix)
  : result (list nat * setdict nat) :=
  let n := length movie_ids in
  pairs <- collect_pairs n m ;;
  let pairs := sort_pairs pairs in
  locked <- lock_pairs pairs ;;
  in_degree <- locked_in_degree n locked ;;
  ranking <-
    topo_loop (S n) movie_titles locked in_degree []
              (set_of_list (range 0 n)) ;;
  Ok (ranking, locked).
End RankedPairs.

End Condorcet.

(* ================================================================== *)
(** * visualize_vote.py *)
(* ================================================================== *)

Module Vote.

(** A row of [vote_preferences]: [(option_a_id, option_b_id, preference)]. *)
Definition pref : Type := (Z * Z * Z)%type.

Definition matrix : Type := list (list Z).

Section UserRankings.
Context `{PySet Z}.

(** ** [compute_user_rankings], lines 34-114 *)

(** Lines 39-42. *)
Definition compared (prefs : list pref) : pyset :=
  fold_left
    (fun s (x : pref) => let '(a, b, _) := x in set_add b (set_add a s))
    prefs set_empty.

(** Line 44. *)
Definition to_rank_of (prefs : list pref) (option_ids_set : pyset) : list Z :=
  filter (fun oid => set_mem oid option_ids_set) (set_iter (compared prefs)).

(** Lines 57-59 and 61-63. *)
Definition add_edge (f t : Z) (st : setdict Z * dict Z Z)
  : result (setdict Z * dict Z Z) :=
  let '(graph, in_degree) := st in
  let graph := sd_touch f graph in
  if set_mem t (dict_get_default f set_empty graph)
  then Ok (graph, in_degree)
  else
    in_degree <- dict_incr t 1 in_degree ;;
    Ok (sd_add f t graph, in_degree).

(** Lines 50-63. *)
Definition build_graph (prefs : list pref) (to_rank_set : pyset)
    (to_rank : list Z) : result (setdict Z * dict Z Z) :=
  foldM
    (fun st (x : pref) =>
       let '(a, b, p) := x in
       if negb (set_mem a to_rank_set) || negb (set_mem b to_rank_set)
       then Ok st
       else if (p >? 0)%Z then add_edge a b st
       else if (p <? 0)%Z then add_edge b a st
       else Ok st)
    prefs ([], dict_const to_rank 0%Z).

(** Lines 66-70. *)
Definition build_comp_graph (prefs : list pref) (to_rank_set : pyset)
  : setdict Z :=
  fold_left
    (fun cg (x : pref) =>
       let '(a, b, _) := x in
       if set_mem a to_rank_set && set_mem b to_rank_set
       then sd_add b a (sd_add a b cg)
       else cg)
    prefs [].

(** Lines 79-87: the inner [while stack] loop. *)
Fixpoint component_loop (fuel : nat) (comp_graph : setdict Z)
    (visited : pyset) (component stack : list Z)
  : result (pyset * list Z) :=
  match fuel with
  | 0 => Raise LoopBound
  | S fuel =>
      match stack with
      | [] => Ok (visited, component)
      | node :: stack =>
          if set_mem node visited
          then component_loop fuel comp_graph visited component stack
          else
            let visited := set_add node visited in
            component_loop fuel comp_graph visited (component ++ [node])
              (fold_left
                 (fun st n => if set_mem n visited then st else n :: st)
                 (sd_get node comp_graph) stack)
      end
  end.

(** Lines 72-88. *)
Definition find_components (comp_graph : setdict Z) (to_rank : list Z)
  : result (pyset * list (list Z)) :=
  foldM
    (fun (st : pyset * list (list Z)) oid =>
       let '(visited, components) := st in
       if set_mem oid visited then Ok st
       else
         '(visited, component) <-
           component_loop (2 + sd_size comp_graph) comp_graph visited []
                          [oid] ;;
         Ok (visited, components ++ [component]))
    to_rank (set_empty, []).

(** Lines 90-91. *)
Definition main_of (components : list (list Z)) : pyset :=
  match sort_by Z.ltb (fun x : list Z => (- Z.of_nat (length x))%Z)
                components with
  | c :: _ => set_of_list c
  | [] => set_empty
  end.

(** Lines 93-97. *)
Definition comp_in_deg (graph : setdict Z) (main : pyset)
  : result (dict Z Z) :=
  foldM
    (fun d f =>
       foldM
         (fun d t => if set_mem t main then dict_incr t 1 d else Ok d)
         (sd_get f graph) d)
    (set_iter main) (dict_const (set_iter main) 0%Z).

(** Lines 102-112. *)
Fixpoint rank_loop (fuel : nat) (graph : setdict Z) (rank_map : dict Z Z)
    (remaining : pyset) (comp_in_deg : dict Z Z) (rank : Z)
  : result (dict Z Z) :=
  match fuel with
  | 0 => Raise LoopBound
  | S fuel =>
      match set_iter remaining with
      | [] => Ok rank_map
      | _ :: _ =>
          match filter
                  (fun oid => (dict_get_default oid 0 comp_in_deg =? 0)%Z)
                  (set_iter remaining) with
          | [] => Ok rank_map
          | sources =>
              '(rank_map, remaining, comp_in_deg) <-
                foldM
                  (fun (st : dict Z Z * pyset * dict Z Z) oid =>
                     let '(rank_map, remaining, comp_in_deg) := st in
                     let rank_map := dict_set oid rank rank_map in
                     let remaining := set_discard oid remaining in
                     comp_in_deg <-
                       foldM
                         (fun d n =>
                            if set_mem n remaining then dict_incr n (-1) d
                            else Ok d)
                         (sd_get oid graph) comp_in_deg ;;
                     Ok (rank_map, remaining, comp_in_deg))
                  sources (rank_map, remaining, comp_in_deg) ;;
              rank_loop fuel graph rank_map remaining comp_in_deg
                        (rank + 1)%Z
          end
      end
  end.

Definition compute_user_rankings (prefs : list pref)
    (option_ids_set : pyset) : result (dict Z Z) :=
  match prefs with
  | [] => Ok []
  | _ :: _ =>
      let to_rank := to_rank_of prefs option_ids_set in
      match to_rank with
      | [] => Ok []
      | _ :: _ =>
          let to_rank_set := set_of_list to_rank in
          '(graph, in_degree) <- build_graph prefs to_rank_set to_rank ;;
          let comp_graph := build_comp_graph prefs to_rank_set in
          '(visited, components) <- find_components comp_graph to_rank ;;
          let main := main_of components in
          comp_in_deg <- comp_in_deg graph main ;;
          let remaining := set_of_list (set_iter main) in
          rank_loop (S (set_len remaining)) graph [] remaining comp_in_deg
                    1%Z
      end
  end.

(** ** [compute_vote_matrix], lines 117-154

    [options] is what [get_vote_options] returned; [voters] pairs every
    user id of line 129 with what [get_vote_preferences] returned. *)

(** Lines 146-152. *)
Definition tally_user (i j : nat) (a b : Z) (m : matrix)
    (entry : string * dict Z Z) : result matrix :=
  let rank_map := snd entry in
  let ra := dict_get a rank_map in
  let rb := dict_get b rank_map in
  match ra, rb with
  | Some ra, Some rb =>
      if (ra <? rb)%Z then Condorcet.mat_incr m i j else Ok m
  | Some _, None => Condorcet.mat_incr m i j
  | _, _ => Ok m
  end.

(** Lines 135-139. *)
Definition collect_user_rankings (voters : list (string * list pref))
    (option_ids_set : pyset) : result (dict string (dict Z Z)) :=
  foldM
    (fun user_rankings (v : string * list pref) =>
       let '(uid, prefs) := v in
       match prefs with
       | [] => Ok user_rankings
       | _ :: _ =>
           rank_map <- compute_user_rankings prefs option_ids_set ;;
           Ok (dict_set uid rank_map user_rankings)
       end)
    voters [].

(** Lines 141-152. *)
Definition fill_matrix (option_ids : list Z)
    (user_rankings : dict string (dict Z Z)) (m : matrix) : result matrix :=
  foldM
    (fun m (ia : nat * Z) =>
       let '(i, a) := ia in
       foldM
         (fun m (jb : nat * Z) =>
            let '(j, b) := jb in
            if i =? j then Ok m
            else foldM (tally_user i j a b) user_rankings m)
         (Condorcet.enumerate option_ids) m)
    (Condorcet.enumerate option_ids) m.

Definition compute_vote_matrix (options : dict Z string)
    (voters : list (string * list pref))
  : result (list Z * list string * matrix) :=
  let option_ids := dict_keys options in
  labels <- mapM (fun oid => dict_getitem oid options) option_ids ;;
  let n := length option_ids in
  let option_ids_set := set_of_list option_ids in
  let m := Condorcet.mat_zeros n in
  match voters with
  | [] => Ok (option_ids, labels, m)
  | _ :: _ =>
      user_rankings <- collect_user_rankings voters option_ids_set ;;
      m <- fill_matrix option_ids user_rankings m ;;
      Ok (option_ids, labels, m)
  end.
End UserRankings.

End Vote.


(* ================================================================== *)
(** * What the graphs show: [create_loose_graph], [create_vote_graph],
      [create_ranked_graph]                                             *)
(* ================================================================== *)

(** The drawing itself (networkx, matplotlib) is outside the model; the
    numbers and labels handed to it are computed by the code below. *)
Module Display.
Import Condorcet.

(** ** Head-to-head scores and arrows

    [visualize_condorcet.py], lines 301-329, and [visualize_vote.py],
    lines 162-184, are the same code. *)

(** Lines 305-309: the body of the double loop.  The [elif] reads the
    two entries again. *)
Definition score_cell (m : matrix) (i j : nat)
    (st : dict nat Z * dict nat Z) : result (dict nat Z * dict nat Z) :=
  let '(wins, losses) := st in
  if negb (i =? j) then
    a <- mat_get m i j ;;
    b <- mat_get m j i ;;
    if (a >? b)%Z then
      wins <- dict_incr i 1 wins ;;
      Ok (wins, losses)
    else
      a <- mat_get m i j ;;
      b <- mat_get m j i ;;
      if (a <? b)%Z then
        losses <- dict_incr i 1 losses ;;
        Ok (wins, losses)
      else Ok (wins, losses)
  else Ok (wins, losses).

(** Lines 301-309: [wins] and [losses]. *)
Definition head_to_head (n : nat) (m : matrix)
  : result (dict nat Z * dict nat Z) :=
  foldM
    (fun st i => foldM (fun st j => score_cell m i j st) (range 0 n) st)
    (range 0 n)
    (dict_const (range 0 n) 0%Z, dict_const (range 0 n) 0%Z).

(** An entry of [edge_data]: [(loser, winner, margin)], the arrow points
    to the winner. *)
Definition arrow : Type := (nat * nat * Z)%type.

(** Lines 321-328. *)
Definition arrow_cell (m : matrix) (i j : nat) (edge_data : list arrow)
  : result (list arrow) :=
  if negb (i =? j) then
    votes_for <- mat_get m i j ;;
    votes_against <- mat_get m j i ;;
    if (votes_for >? votes_against)%Z then
      let margin := sub64 votes_for votes_against in
      Ok (edge_data ++ [(j, i, margin)])
    else Ok edge_data
  else Ok edge_data.

(** Lines 317-329: [edge_data]. *)
Definition arrows (n : nat) (m : matrix) : result (list arrow) :=
  foldM
    (fun edge_data i =>
       foldM (fun edge_data j => arrow_cell m i j edge_data)
             (range 0 n) edge_data)
    (range 0 n) [].

(** ** The labels of the nodes

    A Python [str] is a sequence of code points, and the code takes its
    length and a slice of it only: the label is defined for every type
    of characters, [dot] being the full stop. *)
Section Titles.
Context {char : Type} (dot : char).

(** Lines 380-383: [if len(title) > 12: title = title[:11] + '..']
    ([visualize_vote.py], lines 196 and 247-249). *)
Definition short_title (title : list char) : list char :=
  if 12 <? length title then firstn 11 title ++ [dot; dot] else title.

End Titles.

(** ** [create_ranked_graph], lines 412-452 *)
Section Ranked.
Context `{PySet nat}.

(** An edge handed to the graph with its [weight], and the margin put
    into [edge_data]: [(winner, loser, weight, margin)]. *)
Definition locked_arrow : Type := (nat * nat * Z * Z)%type.

(** Lines 422-426. *)
Definition locked_arrows (m : matrix) (locked : setdict nat)
  : result (list locked_arrow) :=
  foldM
    (fun edge_data (item : nat * pyset) =>
       let '(winner, losers) := item in
       foldM
         (fun edge_data loser =>
            a <- mat_get m winner loser ;;
            b <- mat_get m loser winner ;;
            let margin := sub64 a b in
            Ok (edge_data ++ [(winner, loser, Z.max 1 margin, margin)]))
         (set_iter losers) edge_data)
    locked [].

(** Line 451: [{i: len(locked.get(i, [])) for i in range(n)}]. *)
Definition locked_wins (n : nat) (locked : setdict nat) : dict nat Z :=
  fold_left
    (fun d i => dict_set i (Z.of_nat (length (sd_get i locked))) d)
    (range 0 n) [].

(** Line 452: [{i: sum(1 for w, losers in locked.items() if i in losers)
    for i in range(n)}]. *)
Definition locked_losses (n : nat) (locked : setdict nat) : dict nat Z :=
  fold_left
    (fun d i =>
       dict_set i
         (Z.of_nat
            (length (filter (fun item : nat * pyset => set_mem i (snd item))
                            locked)))
         d)
    (range 0 n) [].

(** Lines 412-430 and 451-452: what [create_ranked_graph] computes
    before it draws; [None] is the early return of lines 428-430. *)
Definition ranked_graph_data (movie_ids : list Z)
    (movie_titles : list string) (m : matrix)
  : result (option (list nat * list locked_arrow * dict nat Z * dict nat Z)) :=
  '(ranking, locked) <- compute_ranked_pairs movie_ids movie_titles m ;;
  let n := length movie_ids in
  edge_data <- locked_arrows m locked ;;
  match edge_data with
  | [] => Ok None
  | _ :: _ =>
      Ok (Some (ranking, edge_data, locked_wins n locked,
                locked_losses n locked))
  end.

End Ranked.

(** ** The rows and the numbers of the ranked graph *)

(** [l.index(x)]: the first position of [x]; [None] is Python's
    [ValueError]. *)
Fixpoint index (x : nat) (l : list nat) : option nat :=
  match l with
  | [] => None
  | y :: l' => if y =? x then Some 0 else option_map S (index x l')
  end.

(** Lines 433-437: [pos].  Of a position the model keeps the
    [rank_pos] from which its y-coordinate [-rank_pos * 1.2] is
    computed; the x-coordinate is computed from the [hash] of
    [movie_titles[node_idx]]. *)
Definition rows (movie_titles : list string) (ranking : list nat)
  : result (dict nat nat) :=
  foldM
    (fun pos (item : nat * nat) =>
       let '(rank_pos, node_idx) := item in
       title <- getitem movie_titles node_idx ;;
       Ok (dict_set node_idx rank_pos pos))
    (enumerate ranking) [].

(** Lines 493-496: the number written beside a node.
    [edge_pos[node_idx]] has the keys of [pos] (line 460), and the
    number is [ranking.index(node_idx) + 1]; [None] is the [KeyError]
    of the first or the [ValueError] of the second. *)
Definition label_of (ranking : list nat) (pos : dict nat nat)
    (node_idx : nat) : option (nat * nat) :=
  match dict_get node_idx pos with
  | None => None
  | Some row =>
      match index node_idx ranking with
      | None => None
      | Some i => Some (row, i + 1)
      end
  end.

(** Lines 301-333 of [visualize_condorcet.py]: what [create_loose_graph]
    computes before it draws; [None] is the early return of lines
    331-333. *)
Definition loose_graph_data (movie_ids : list Z) (m : matrix)
  : result (option (dict nat Z * dict nat Z * list arrow)) :=
  let n := length movie_ids in
  '(wins, losses) <- head_to_head n m ;;
  edge_data <- arrows n m ;;
  match edge_data with
  | [] => Ok None
  | _ :: _ => Ok (Some (wins, losses, edge_data))
  end.

End Display.

(* ================================================================== *)
(** * [get_next_wednesday], [visualize_condorcet.py], lines 26-34       *)
(* ================================================================== *)

Module Calendar.

(** A [datetime.date] is kept as its proleptic Gregorian ordinal
    ([toordinal()]): day 1 is 0001-01-01, a Monday, and [date.max] is
    9999-12-31, day 3652059. *)
Definition max_ordinal : Z := 3652059.

(** [d.weekday()]: Monday is 0, Sunday is 6. *)
Definition weekday (d : Z) : Z := ((d + 6) mod 7)%Z.

(** [d + datetime.timedelta(days=k)]; [None] is Python's
    [OverflowError] for a result outside [date.min .. date.max]. *)
Definition add_days (d k : Z) : option Z :=
  let r := (d + k)%Z in
  if ((1 <=? r) && (r <=? max_ordinal))%Z then Some r else None.

(** Lines 28-33: the date of the event. *)
Definition next_wednesday (today : Z) : option Z :=
  let day_of_week := weekday today in
  let days_until_wed := ((2 - day_of_week + 7) mod 7)%Z in
  let days_until_wed :=
    if (days_until_wed =? 0)%Z then 0%Z else days_until_wed in
  add_days today days_until_wed.

Section Format.
(** [d.strftime("%Y-%m-%d")] *)
Variable strftime : Z -> string.

(** Lines 26-34, for [datetime.date.today() = today]. *)
Definition get_next_wednesday (today : Z) : option string :=
  match next_wednesday today with
  | Some next_wed => Some (strftime next_wed)
  | None => None
  end.
End Format.

End Calendar.

(* ================================================================== *)
(** * The command lines of the two [main] functions                     *)
(* ================================================================== *)

Module Cli.
Import Condorcet.

(** ** [main] of [visualize_condorcet.py], lines 525-538 and 588-594 *)

(** The values [graph_type] takes: ["both"], ["loose"], ["ranked"]. *)
Inductive graph_kind : Type :=
| Both
| Loose
| Ranked.

Record options : Type := {
  output_path : option string;
  graph_type : graph_kind;
  verbose : bool
}.

(** Lines 525-527. *)
Definition defaults : options :=
  {| output_path := None; graph_type := Both; verbose := true |}.

(** Lines 531-538: one argument of [enumerate(args)]. *)
Definition parse_arg (args : list string) (o : options) (ia : nat * string)
  : result options :=
  let '(i, arg) := ia in
  if (arg =? "--output")%string && (i + 1 <? length args) then
    v <- getitem args (i + 1) ;;
    Ok {| output_path := Some v;
          graph_type := graph_type o;
          verbose := verbose o |}
  else if (arg =? "--loose")%string then
    Ok {| output_path := output_path o;
          graph_type := Loose;
          verbose := verbose o |}
  else if (arg =? "--ranked")%string then
    Ok {| output_path := output_path o;
          graph_type := Ranked;
          verbose := verbose o |}
  else if (arg =? "--quiet")%string then
    Ok {| output_path := output_path o;
          graph_type := graph_type o;
          verbose := false |}
  else Ok o.

(** Lines 525-538. *)
Definition parse_args (args : list string) : result options :=
  foldM (parse_arg args) (enumerate args) defaults.

Definition kind_eqb (a b : graph_kind) : bool :=
  match a, b with
  | Both, Both | Loose, Loose | Ranked, Ranked => true
  | _, _ => false
  end.

(** [output_path if output_path and graph_type == kind else default]:
    [output_path] counts when it is neither [None] nor empty. *)
Definition path_for (o : options) (kind : graph_kind) (default : string)
  : string :=
  match output_path o with
  | Some s =>
      if negb (s =? EmptyString)%string && kind_eqb (graph_type o) kind then s
      else default
  | None => default
  end.

(** Lines 588-594: the pictures that are made, in this order, each with
    the file it is saved to. *)
Definition pictures (o : options) : list (graph_kind * string) :=
  (match graph_type o with
   | Both | Loose => [(Loose, path_for o Loose "condorcet_loose.png")]
   | Ranked => []
   end)
  ++
  (match graph_type o with
   | Both | Ranked => [(Ranked, path_for o Ranked "condorcet_ranked.png")]
   | Loose => []
   end).

(** ** [main] of [visualize_vote.py], lines 275-296 *)

(** How the parsing can end other than with the three values:
    [ValueError] is raised by [int], [Usage] is the exit of lines
    294-296; [IndexError] and [LoopBound] are shown not to occur. *)
Inductive failure : Type :=
| ValueError
| Usage
| BadIndex
| OutOfFuel.

Inductive outcome (A : Type) : Type :=
| Done (a : A)
| Failed (f : failure).

Arguments Done {A} a.
Arguments Failed {A} f.

Record vote_options : Type := {
  db_path : option string;
  vote_id : option Z;
  vote_output : option string
}.

Section VoteMain.
(** [int(s)] on a string; [None] is its [ValueError]. *)
Variable int : string -> option Z.

(** Lines 281-292: the [while] loop over the index [i]. *)
Fixpoint vote_loop (fuel : nat) (args : list string) (i : nat)
    (o : vote_options) : outcome vote_options :=
  match fuel with
  | 0 => Failed OutOfFuel
  | S fuel =>
      if i <? length args then
        match nth_error args i with
        | None => Failed BadIndex
        | Some arg =>
            if (arg =? "--db")%string && (i + 1 <? length args) then
              match nth_error args (i + 1) with
              | None => Failed BadIndex
              | Some v =>
                  vote_loop fuel args (i + 2)
                    {| db_path := Some v;
                       vote_id := vote_id o;
                       vote_output := vote_output o |}
              end
            else if (arg =? "--vote-id")%string && (i + 1 <? length args) then
              match nth_error args (i + 1) with
              | None => Failed BadIndex
              | Some v =>
                  match int v with
                  | None => Failed ValueError
                  | Some z =>
                      vote_loop fuel args (i + 2)
                        {| db_path := db_path o;
                           vote_id := Some z;
                           vote_output := vote_output o |}
                  end
              end
            else if (arg =? "--output")%string && (i + 1 <? length args) then
              match nth_error args (i + 1) with
              | None => Failed BadIndex
              | Some v =>
                  vote_loop fuel args (i + 2)
                    {| db_path := db_path o;
                       vote_id := vote_id o;
                       vote_output := Some v |}
              end
            else vote_loop fuel args (i + 1) o
        end
      else Done o
  end.

(** Lines 294-296. *)
Definition check_usage (o : vote_options) : outcome (string * Z * string) :=
  match db_path o, vote_id o, vote_output o with
  | Some db, Some id, Some out =>
      if (db =? EmptyString)%string || (out =? EmptyString)%string
      then Failed Usage
      else Done (db, id, out)
  | _, _, _ => Failed Usage
  end.

(** Lines 275-296: the loop starts at [i = 0] and needs at most one
    round per argument. *)
Definition parse_from (o : vote_options) (args : list string)
  : outcome vote_options :=
  vote_loop (S (length args)) args 0 o.

Definition parse_vote_args (args : list string)
  : outcome (string * Z * string) :=
  match parse_from {| db_path := None; vote_id := None; vote_output := None |}
                   args with
  | Done o => check_usage o
  | Failed f => Failed f
  end.

End VoteMain.

End Cli.

(* ================================================================== *)
(** * Iteration orders a Python set can have                            *)
(* ================================================================== *)

Module SetOrders.

(** A set kept as the list of its elements in iteration order; [ins]
    says where a new element goes. *)
Section ListSet.
Context {A : Type} `{Key A}.
Variable ins : A -> list A -> list A.
Hypothesis ins_In : forall x y s, In x (ins y s) <-> x = y \/ In x s.

Definition ls_mem (x : A) (s : list A) : bool := existsb (keqb x) s.

Definition ls_add (x : A) (s : list A) : list A :=
  if ls_mem x s then s else ins x s.

Definition ls_discard (x : A) (s : list A) : list A :=
  filter (fun y => negb (keqb x y)) s.

Definition ls_iter (s : list A) : list A :=
  fold_left (fun acc x => if ls_mem x acc then acc else acc ++ [x]) s [].

Definition list_set : PySet A.
Proof.
  assert (mem_In : forall x s, ls_mem x s = true <-> In x s).
  { intros x s. unfold ls_mem. rewrite existsb_exists. split.
    - intros (y & Hy & E). apply keqb_eq in E. now subst.
    - intros Hx. exists x. split; [assumption | now apply keqb_eq]. }
  assert (iter_acc : forall s acc, NoDup acc ->
            let r := fold_left
                       (fun acc x => if ls_mem x acc then acc else acc ++ [x])
                       s acc in
            NoDup r /\ forall x, In x r <-> In x acc \/ In x s).
  { induction s as [|y s IH]; intros acc Hnd; simpl.
    - split; [assumption | intros x; tauto].
    - destruct (ls_mem y acc) eqn:E.
      + destruct (IH acc Hnd) as [H1 H2]. split; [exact H1|].
        intros x. rewrite H2. apply mem_In in E.
        split; [tauto | intros [?|[->|?]]; tauto].
      + assert (Hy : ~ In y acc)
          by (intros Hy; apply mem_In in Hy; congruence).
        assert (Hnd' : NoDup (acc ++ [y])).
        { apply NoDup_app; [assumption | repeat constructor; intros [] | ].
          intros z Hz [->|[]]. contradiction. }
        destruct (IH _ Hnd') as [H1 H2]. split; [exact H1|].
        intros x. rewrite H2, in_app_iff. simpl. tauto. }
  assert (iter_In : forall x s, In x (ls_iter s) <-> In x s).
  { intros x s. unfold ls_iter.
    destruct (iter_acc s [] (NoDup_nil A)) as [_ H2]. rewrite H2.
    simpl. tauto. }
  refine {| pyset := list A;
            set_empty := [];
            set_add := ls_add;
            set_discard := ls_discard;
            set_mem := ls_mem;
            set_iter := ls_iter |}.
  - intros s. exact (proj1 (iter_acc s [] (NoDup_nil A))).
  - reflexivity.
  - intros x s. rewrite iter_In. apply mem_In.
  - intros x y s. rewrite !iter_In. unfold ls_add.
    destruct (ls_mem y s) eqn:E.
    + apply mem_In in E. split; [tauto | intros [->|?]; assumption].
    + apply ins_In.
  - intros x y s. rewrite !iter_In. unfold ls_discard.
    rewrite filter_In, negb_true_iff. split.
    + intros [Hx E]. split; [|assumption]. intros ->.
      assert (keqb y y = true) by now apply keqb_eq. congruence.
    + intros [Hne Hx]. split; [assumption|].
      destruct (keqb y x) eqn:E; [|reflexivity].
      apply keqb_eq in E. congruence.
Defined.
End ListSet.

(** Iteration in order of insertion (what a JavaScript [Set] does). *)
Definition insertion_order (A : Type) `{Key A} : PySet A.
Proof.
  refine (list_set (fun x s => s ++ [x]) _).
  intros x y s. rewrite in_app_iff. simpl. intuition congruence.
Defined.

(** Insertion into an ascending list. *)
Fixpoint insert_asc (x : Z) (s : list Z) : list Z :=
  match s with
  | [] => [x]
  | y :: s' => if (x <? y)%Z then x :: s else y :: insert_asc x s'
  end.

(** Iteration in ascending order.  This is the order in which CPython
    walks a set of small non-negative integers: an integer hashes to
    itself, so in a table with more slots than the largest element every
    element sits in the slot of its own value, and the table is walked
    slot by slot.  A set of four integers below eight (the initial table
    has eight slots and grows at the fifth element) is such a set. *)
Definition ascending_order : PySet Z.
Proof.
  refine (list_set insert_asc _).
  intros x y s. induction s as [|z s IH]; simpl.
  - intuition congruence.
  - destruct (y <? z)%Z; simpl; [intuition congruence|].
    rewrite IH. intuition congruence.
Defined.

(** The same for candidate positions. *)
Fixpoint insert_asc_nat (x : nat) (s : list nat) : list nat :=
  match s with
  | [] => [x]
  | y :: s' => if x <? y then x :: s else y :: insert_asc_nat x s'
  end.

Definition ascending_positions : PySet nat.
Proof.
  refine (list_set insert_asc_nat _).
  intros x y s. induction s as [|z s IH]; simpl.
  - intuition congruence.
  - destruct (y <? z); simpl; [intuition congruence|].
    rewrite IH. intuition congruence.
Defined.

End SetOrders.

(* ================================================================== *)
(** * The vocabulary of the statements                                  *)
(* ================================================================== *)

Module Spec.
Import Condorcet.

(** ** Graphs kept as a [defaultdict(set)] *)

Section Graph.
Context {A : Type} `{Key A} `{PySet A}.
Implicit Types (g : setdict A) (x y : A).

(** [x -> y] is an edge of the graph: [y in g[x]]. *)
Definition edge g x y : Prop := In y (sd_get x g).

(** [y] can be reached from [x] over edges (in zero or more steps). *)
Definition reaches g : A -> A -> Prop := clos_refl_trans_1n A (edge g).

(** A path of at least one edge. *)
Definition path g : A -> A -> Prop := clos_trans_1n A (edge g).

Definition acyclic g : Prop := forall x, ~ path g x x.

(** A set of nodes that no edge leaves. *)
Definition closed g (visited : pyset) : Prop :=
  forall u, In u (set_iter visited) ->
  forall v, edge g u v -> In v (set_iter visited).

(** The graph is undirected. *)
Definition symmetric g : Prop := forall x y, edge g x y -> edge g y x.

(** The successors still to be expanded: the measure of the traversals. *)
Definition sd_weight (visited : pyset) (g : setdict A) : nat :=
  list_sum (map (fun kv : A * pyset =>
                   if set_mem (fst kv) visited then 0 else set_len (snd kv)) g).

End Graph.

(** ** Sorted lists *)

(** Keys as Python compares them: [<] is a strict total order. *)
Class StrictTotal {K : Type} (ltb : K -> K -> bool) : Prop := {
  ltb_irrefl : forall x, ltb x x = false;
  ltb_trans : forall x y z, ltb x y = true -> ltb y z = true -> ltb x z = true;
  ltb_total : forall x y, ltb x y = false -> ltb y x = false -> x = y
}.

Section SortKeys.
Context {A K : Type} (ltb : K -> K -> bool) (key : A -> K).

(** [x] may stand before [y] in a sorted list. *)
Definition key_le (x y : A) : Prop := ltb (key y) (key x) = false.

End SortKeys.

(** ** The locked graph of ranked pairs *)

Section Locked.
Context `{PySet nat}.
Implicit Types (locked : setdict nat) (winner loser : nat).

(** What the loop maintains until it answers [False]. *)
Definition closed_upto locked winner (visited : pyset) (stack : list nat)
  : Prop :=
  forall u, In u (set_iter visited) ->
    u <> winner /\
    forall v, edge locked u v -> In v (set_iter visited) \/ In v stack.

(** Every stored successor is a candidate position. *)
Definition sd_bounded (n : nat) (locked : setdict nat) : Prop :=
  forall k s, In (k, s) locked -> forall y, In y (set_iter s) -> y < n.

End Locked.

(** The keys of [in_degree] are the candidate positions. *)
Definition keys_are (n : nat) (d : dict nat Z) : Prop :=
  forall i, In i (dict_keys d) <-> i < n.

(** ** Matrices and pair records *)

(** An [n] x [n] array. *)
Definition mat_wf (n : nat) (m : matrix) : Prop :=
  length m = n /\ Forall (fun row => length row = n) m.

(** The entry [m[i][j]] of a well-formed matrix. *)
Definition entry (m : matrix) (i j : nat) : Z := nth j (nth i m []) 0%Z.

(** All entries are counts: non-negative int64 values. *)
Definition mat_counts (m : matrix) : Prop :=
  Forall (Forall (fun v => (0 <= v < 2 ^ 63)%Z)) m.

(** The record of the unordered pair [{i, j}], if any (lines 235-241). *)
Definition pair_of (m : matrix) (i j : nat) : list pair_record :=
  let votes_i := entry m i j in
  let votes_j := entry m j i in
  if (votes_i >? votes_j)%Z then [(i, j, sub64 votes_i votes_j, votes_i)]
  else if (votes_j >? votes_i)%Z then [(j, i, sub64 votes_j votes_i, votes_j)]
  else [].

(** The records in the order the double loop produces them. *)
Definition all_pairs (n : nat) (m : matrix) : list pair_record :=
  flat_map (fun i => flat_map (pair_of m i) (range (i + 1) n)) (range 0 n).

(** Picking the records of one unordered pair out of a list. *)
Definition on_pair (i j : nat) (p : pair_record) : bool :=
  ((pair_winner p =? i) && (pair_loser p =? j))
  || ((pair_winner p =? j) && (pair_loser p =? i)).

(** The order of line 244 on records whose numbers are counts. *)
Definition stronger_pair (p q : Condorcet.pair_record) : Prop :=
  (Condorcet.pair_margin p > Condorcet.pair_margin q)%Z \/
  (Condorcet.pair_margin p = Condorcet.pair_margin q /\
   (Condorcet.pair_votes p >= Condorcet.pair_votes q)%Z).

(** The record the claim describes for a pair with unequal counts. *)
Definition expected_pair (m : Condorcet.matrix) (i j : nat)
  : Condorcet.pair_record :=
  let a := entry m i j in
  let b := entry m j i in
  (if (a >? b)%Z then i else j,
   if (a >? b)%Z then j else i,
   Z.abs (a - b), Z.max a b).

(** The order of the labels: [i] may stand before [j]. *)
Definition title_of (movie_titles : list string) (i : nat) : string :=
  nth i movie_titles EmptyString.

Definition title_le (movie_titles : list string) (i j : nat) : Prop :=
  String.ltb (title_of movie_titles j) (title_of movie_titles i) = false.

(** ** What a voter contributes to the matrix *)

(** What one voter's rank map adds to the cell of [(a, b)]: one when
    both are ranked and [a] has the lower rank number, one when [a] is
    ranked and [b] is not, nothing otherwise. *)
Definition contribution (rank_map : dict Z Z) (a b : Z) : Z :=
  match dict_get a rank_map, dict_get b rank_map with
  | Some rank_a, Some rank_b => if (rank_a <? rank_b)%Z then 1 else 0
  | Some _, None => 1
  | None, _ => 0
  end.

(** The sum of the contributions of a list of rank maps. *)
Definition votes_for (rank_maps : list (dict Z Z)) (a b : Z) : Z :=
  fold_right Z.add 0%Z (map (fun rank_map => contribution rank_map a b) rank_maps).

(** Lines 210-222 with the rank map at hand; both files have this body. *)
Definition tally (rank_map : dict Z Z) (i j : nat) (a b : Z) (m : matrix)
  : result matrix :=
  match dict_get a rank_map, dict_get b rank_map with
  | Some rank_a, Some rank_b =>
      if (rank_a <? rank_b)%Z then mat_incr m i j else Ok m
  | Some _, None => mat_incr m i j
  | _, _ => Ok m
  end.

Section Voters.
Context {E : Type} (rank_map_of : E -> dict Z Z).
Variable step : nat -> nat -> Z -> Z -> matrix -> E -> result matrix.

(** Lines 204-222 as both files have them. *)
Definition fill (ids : list Z) (user_rankings : list E) (m : matrix)
  : result matrix :=
  foldM
    (fun m (ia : nat * Z) =>
       let '(i, a) := ia in
       foldM
         (fun m (jb : nat * Z) =>
            let '(j, b) := jb in
            if i =? j then Ok m
            else foldM (step i j a b) user_rankings m)
         (enumerate ids) m)
    (enumerate ids) m.

(** The value the loops leave in a cell. *)
Definition cell (ids : list Z) (user_rankings : list E) (i j : nat) : Z :=
  if i =? j then 0%Z
  else votes_for (map rank_map_of user_rankings) (nth i ids 0%Z) (nth j ids 0%Z).

End Voters.

(** Two voters over three candidates: [1 > 2 > 3] and [1 > 3] with 2
    unranked. *)
Definition two_voters
  : dict string (@Condorcet.ranking SetOrders.ascending_order) :=
  [("v1"%string,
    @Condorcet.Build_ranking SetOrders.ascending_order
      [(1, 1); (2, 2); (3, 3)]%Z (@set_empty Z SetOrders.ascending_order));
   ("v2"%string,
    @Condorcet.Build_ranking SetOrders.ascending_order
      [(1, 1); (3, 2)]%Z (@set_of_list Z SetOrders.ascending_order [2%Z]))].

(** ** The statements of one voter *)

(** The directed edge a statement asks for, if any: winner first. *)
Definition directed_edge (p : pref) : option (Z * Z) :=
  let '(movie_a, movie_b, pref) := p in
  if (pref >? 0)%Z then Some (movie_a, movie_b)
  else if (pref <? 0)%Z then Some (movie_b, movie_a)
  else None.

(** Two statements about the same unordered pair. *)
Definition same_pair (p q : pref) : Prop :=
  let '(a, b, _) := p in
  let '(c, d, _) := q in
  (a = c /\ b = d) \/ (a = d /\ b = c).

(** [x] occurs in a statement. *)
Definition appears (x : Z) (prefs : list pref) : Prop :=
  exists a b p, In (a, b, p) prefs /\ (x = a \/ x = b).

(** The candidates of the statements in the order in which they first
    appear, as the specification words it. *)
Definition first_appearance (prefs : list pref) : list Z :=
  fold_left
    (fun seen x => if existsb (Z.eqb x) seen then seen else seen ++ [x])
    (flat_map (fun p : pref => let '(a, b, _) := p in [a; b]) prefs) [].

Section Statements.
Context `{PySet Z}.
Implicit Types (graph cg : setdict Z) (prefs : list pref).

(** The edges the statements [prefs] ask for among the movies to rank. *)
Definition wanted (to_rank : list Z) prefs (x y : Z) : Prop :=
  exists p, In p prefs /\ directed_edge p = Some (x, y) /\
            In x to_rank /\ In y to_rank.

(** Two movies of [to_rank] that a statement compares. *)
Definition compared_pair (to_rank : list Z) (prefs : list pref) (x y : Z)
  : Prop :=
  exists a b p, In (a, b, p) prefs /\ In a to_rank /\ In b to_rank /\
                ((x = a /\ y = b) \/ (x = b /\ y = a)).

(** [c] is the connected component of [x], as [dfs(x)] lists it. *)
Definition is_component (cg : setdict Z) (x : Z) (c : list Z) : Prop :=
  NoDup c /\ (exists rest, c = x :: rest) /\
  forall y, In y c <-> reaches cg x y.

(** The components in the order of discovery: walking the list, every
    candidate that no component found so far contains starts the next
    component, which is its connected component. *)
Inductive discovered (cg : setdict Z) : list Z -> list (list Z) -> Prop :=
| disc_nil : discovered cg [] []
| disc_old (walked : list Z) (cs : list (list Z)) (x : Z) :
    discovered cg walked cs ->
    (exists c, In c cs /\ In x c) ->
    discovered cg (walked ++ [x]) cs
| disc_new (walked : list Z) (cs : list (list Z)) (x : Z) (c : list Z) :
    discovered cg walked cs ->
    (forall c', In c' cs -> ~ In x c') ->
    is_component cg x c ->
    discovered cg (walked ++ [x]) (cs ++ [c]).

(** The rank map of a result of [visualize_condorcet.py]'s function. *)
Definition rank_map_part (r : result (dict Z Z * pyset))
  : result (dict Z Z) :=
  match r with
  | Ok (rank_map, _) => Ok rank_map
  | Raise e => Raise e
  end.

End Statements.

(** [c] is the first of the largest components of the list. *)
Definition first_largest (components : list (list Z)) (c : list Z) : Prop :=
  exists before after,
    components = before ++ c :: after /\
    (forall c', In c' before -> length c' < length c) /\
    (forall c', In c' after -> length c' <= length c).

(** [d.get(x, 0)] *)
Definition val (d : dict Z Z) (x : Z) : Z := dict_get_default x 0%Z d.

Section Dfs.
Context `{PySet Z}.
Variable cg : setdict Z.
Variable visited0 : pyset.
Variable start : Z.

(** What the loop of [dfs] maintains. *)
Definition dfs_inv (visited : pyset) (component stack : list Z) : Prop :=
  (forall x, In x (set_iter visited) <->
             In x (set_iter visited0) \/ In x component) /\
  NoDup component /\
  (forall x, In x component -> reaches cg start x) /\
  (forall x, In x stack -> reaches cg start x) /\
  (forall u, In u (set_iter visited) ->
   forall v, edge cg u v -> In v (set_iter visited) \/ In v stack) /\
  ((component = [] /\ stack = [start]) \/
   exists rest, component = start :: rest).

End Dfs.

Section ThreeCycle.
Variables a b c pa pb pc : Z.

(** The voter states [a > b], [b > c], [c > a]. *)
Definition cycle_prefs : list pref := [(a, b, pa); (b, c, pb); (c, a, pc)].

Definition is_abc (x : Z) : Prop := x = a \/ x = b \/ x = c.

End ThreeCycle.

(** ** Two sentences of the description, as they are worded *)

(** C8 as the claim states it: a later statement about an unordered
    pair that an earlier statement already mentioned changes neither the
    graph nor the in-degrees, whatever its direction. *)
Definition later_duplicates_ignored (S : PySet Z) : Prop :=
  forall (to_rank : list Z) (pre : list Condorcet.pref)
         (s : Condorcet.pref) (mid : list Condorcet.pref)
         (s' : Condorcet.pref),
    same_pair s s' ->
    Condorcet.build_graph (pre ++ s :: mid ++ [s']) (set_of_list to_rank) to_rank
    = Condorcet.build_graph (pre ++ s :: mid) (set_of_list to_rank) to_rank.

(** C9 as the claim states it: the components are discovered in the
    order in which the candidates first appear in the statements. *)
Definition discovered_in_first_appearance_order (S : PySet Z) : Prop :=
  forall (prefs : list Condorcet.pref) (targets : pyset)
         (visited : pyset) (components : list (list Z)),
    let to_rank := Condorcet.movies_to_rank prefs targets in
    let cg := Condorcet.build_comparison_graph prefs (set_of_list to_rank) in
    Condorcet.find_components cg to_rank = Ok (visited, components) ->
    discovered cg
      (filter (fun x => set_mem x targets) (first_appearance prefs))
      components.

End Spec.

Import Spec.


(* ================================================================== *)
(** * Orders and counts                                                 *)
(* ================================================================== *)

Module Order.
Import Condorcet.

Section Predecessors.
Context {A : Type} `{Key A} `{PySet A}.

(** The nodes of [nodes] with an edge to [v]. *)
Definition preds_in (g : setdict A) (nodes : list A) (v : A) : list A :=
  filter (fun u => existsb (keqb v) (sd_get u g)) nodes.

End Predecessors.

(** A strict majority prefers candidate [i] to candidate [j]. *)
Definition beats (m : matrix) (i j : nat) : Prop :=
  (entry m i j > entry m j i)%Z.

(** The majority relation among the candidates [0 .. n-1]. *)
Definition majority (n : nat) (m : matrix) (i j : nat) : Prop :=
  i < n /\ j < n /\ beats m i j.

(** [x] stands before [y] in the list. *)
Definition precedes {A : Type} (l : list A) (x y : A) : Prop :=
  exists l1 l2 l3, l = l1 ++ x :: l2 ++ y :: l3.

Section RankedPairsOrder.
Context `{PySet nat}.

(** Every element of the list stands after all its predecessors. *)
Definition topo_ordered (locked : setdict nat) (ranking : list nat) : Prop :=
  forall l1 v l2, ranking = l1 ++ v :: l2 ->
  forall u, edge locked u v -> In u l1.

(** What the topological loop of [compute_ranked_pairs] maintains: the
    in-degree of a candidate is the number of its predecessors that are
    still in [remaining]. *)
Definition topo_inv (n : nat) (locked : setdict nat) (d : dict nat Z)
    (remaining : pyset) : Prop :=
  keys_are n d /\
  forall v, v < n ->
    dict_get v d
    = Some (Z.of_nat (length (preds_in locked (set_iter remaining) v))).

End RankedPairsOrder.

Section Layers.
Context `{PySet Z}.

(** What the layered sort of [compute_user_rankings] maintains about
    the in-degrees: the in-degree of a remaining movie is the number of
    its predecessors that remain. *)
Definition deg_inv (graph : setdict Z) (remaining : pyset) (cdeg : dict Z Z)
  : Prop :=
  (forall x, In x (set_iter remaining) -> In x (dict_keys cdeg)) /\
  forall v, In v (set_iter remaining) ->
    val cdeg v
    = Z.of_nat (length (preds_in graph (set_iter remaining) v)).

(** The ranks handed out are layers: they start at 1, a ranked movie
    stands below all its predecessors, and one of them stands directly
    above it. *)
Definition layered (graph : setdict Z) (rank_map : dict Z Z) : Prop :=
  (forall x rx, dict_get x rank_map = Some rx -> (1 <= rx)%Z) /\
  (forall u v rv, edge graph u v -> dict_get v rank_map = Some rv ->
     exists ru, dict_get u rank_map = Some ru /\ (ru < rv)%Z) /\
  (forall v rv, dict_get v rank_map = Some rv -> (1 < rv)%Z ->
     exists u, edge graph u v /\ dict_get u rank_map = Some (rv - 1)%Z).

(** What the layered sort maintains about the ranks, before the round
    of rank [r]. *)
Definition layer_inv (graph : setdict Z) (rank_map : dict Z Z)
    (remaining : pyset) (r : Z) : Prop :=
  (1 <= r)%Z /\
  (forall x, In x (dict_keys rank_map) -> ~ In x (set_iter remaining)) /\
  (forall x rx, dict_get x rank_map = Some rx -> (rx < r)%Z) /\
  layered graph rank_map /\
  (forall u v, edge graph u v -> In v (set_iter remaining) ->
     In u (dict_keys rank_map) \/ In u (set_iter remaining)) /\
  ((1 < r)%Z ->
   forall v, In v (set_iter remaining) ->
     preds_in graph (set_iter remaining) v = [] ->
     exists u, edge graph u v /\ dict_get u rank_map = Some (r - 1)%Z).

End Layers.

(** The voter states that [x] is preferred to [y]. *)
Definition states (prefs : list pref) (x y : Z) : Prop :=
  exists p, In p prefs /\ directed_edge p = Some (x, y).

(** ** Head-to-head scores *)

(** Candidate [i] wins against [j]. *)
Definition wins_against (m : matrix) (i j : nat) : bool :=
  negb (i =? j) && (entry m i j >? entry m j i)%Z.

(** Candidate [i] loses against [j]. *)
Definition loses_against (m : matrix) (i j : nat) : bool :=
  negb (i =? j) && (entry m i j <? entry m j i)%Z.

(** The arrow the cell [(i, j)] adds to [edge_data], if any. *)
Definition arrow_of (m : matrix) (i j : nat) : list Display.arrow :=
  if wins_against m i j
  then [(j, i, sub64 (entry m i j) (entry m j i))]
  else [].

(** [edge_data] in the order of the double loop. *)
Definition all_arrows (n : nat) (m : matrix) : list Display.arrow :=
  flat_map (fun i => flat_map (arrow_of m i) (range 0 n)) (range 0 n).

(** The arrows that point to [i], and those that leave [i]. *)
Definition arrows_to (i : nat) (edge_data : list Display.arrow)
  : list Display.arrow :=
  filter (fun e : Display.arrow => snd (fst e) =? i) edge_data.

Definition arrows_from (i : nat) (edge_data : list Display.arrow)
  : list Display.arrow :=
  filter (fun e : Display.arrow => fst (fst e) =? i) edge_data.

(** Every pair of candidates is tied. *)
Definition all_tied (n : nat) (m : matrix) : Prop :=
  forall i j, i < n -> j < n -> entry m i j = entry m j i.

(** ** The arrows of the ranked graph *)

Section LockedArrows.
Context `{PySet nat}.

(** The arrows of one entry of [locked]. *)
Definition arrows_of_entry (m : matrix) (item : nat * pyset)
  : list Display.locked_arrow :=
  map (fun loser =>
         let margin := sub64 (entry m (fst item) loser)
                             (entry m loser (fst item)) in
         (fst item, loser, Z.max 1 margin, margin))
      (set_iter (snd item)).

(** [edge_data] and the edges of the graph, in the order of the loop. *)
Definition all_locked_arrows (m : matrix) (locked : setdict nat)
  : list Display.locked_arrow :=
  flat_map (arrows_of_entry m) locked.

End LockedArrows.

(** The arrows a candidate wins, and those it loses. *)
Definition won_by (i : nat) (edge_data : list Display.locked_arrow)
  : list Display.locked_arrow :=
  filter (fun e : Display.locked_arrow => fst (fst (fst e)) =? i) edge_data.

Definition lost_by (i : nat) (edge_data : list Display.locked_arrow)
  : list Display.locked_arrow :=
  filter (fun e : Display.locked_arrow => snd (fst (fst e)) =? i) edge_data.

(** ** Two orders of iteration

    The same program run with two implementations of Python's sets:
    graphs are compared by their edges. *)
Definition same_edges {A : Type} `{Key A} (S1 S2 : PySet A)
    (g1 : @setdict A S1) (g2 : @setdict A S2) : Prop :=
  forall u v, @edge A _ S1 g1 u v <-> @edge A _ S2 g2 u v.

(** The candidates of [member] that the voter's statements mention are
    all linked by comparisons: the voter has one connected component. *)
Definition compares (prefs : list pref) (member : Z -> Prop) (x y : Z)
  : Prop :=
  exists a b p, In (a, b, p) prefs /\ member a /\ member b /\
                ((x = a /\ y = b) \/ (x = b /\ y = a)).

Definition connected_statements (prefs : list pref) (member : Z -> Prop)
  : Prop :=
  forall x y,
    appears x prefs -> member x -> appears y prefs -> member y ->
    clos_refl_trans_1n Z (compares prefs member) x y.

(** Two rank maps that answer every [get] alike. *)
Definition same_ranks (rm1 rm2 : dict Z Z) : Prop :=
  forall x, dict_get x rm1 = dict_get x rm2.

(** Two entries of [user_rankings] for the same user whose rank maps
    answer alike. *)
Definition same_entry (S1 S2 : PySet Z) (e1 : string * @ranking S1)
    (e2 : string * @ranking S2) : Prop :=
  fst e1 = fst e2 /\
  same_ranks (@rank_map S1 (snd e1)) (@rank_map S2 (snd e2)).

End Order.

(* ================================================================== *)
(** * Facts about the runtime model *)
(* ================================================================== *)

Module PyFacts.

Lemma bind_Ok {A B : Type} (m : result A) (f : A -> result B) (b : B) :
  bind m f = Ok b <-> exists a, m = Ok a /\ f a = Ok b.
Proof.
  destruct m as [a|e]; simpl; split.
  - intros E. now exists a.
  - now intros (a' & [= <-] & E).
  - discriminate.
  - now intros (a' & [=] & _).
Qed.

(** Invert a hypothesis [bind m f = Ok b]. *)
Ltac inv_bind H :=
  let a := fresh "a" in
  let E := fresh "E" in
  apply bind_Ok in H; destruct H as (a & E & H).

(** A loop whose body never raises on states satisfying the invariant
    returns, in a state satisfying the invariant. *)
Lemma foldM_inv {A S : Type} (P : S -> Prop) (f : S -> A -> result S)
    (l : list A) :
  (forall s x, In x l -> P s -> exists s', f s x = Ok s' /\ P s') ->
  forall s, P s -> exists s', foldM f l s = Ok s' /\ P s'.
Proof.
  induction l as [|x l IH]; intros Hf s Hs; simpl.
  - now exists s.
  - destruct (Hf s x (or_introl eq_refl) Hs) as (s1 & E1 & H1).
    rewrite E1. simpl. apply IH; [|assumption].
    intros s2 y Hy. apply Hf. now right.
Qed.

(** The same with an invariant that tracks the elements walked so far. *)
Lemma foldM_inv_prefix {A S : Type} (P : list A -> S -> Prop)
    (f : S -> A -> result S) (l : list A) :
  (forall pre x s, (exists post, l = pre ++ x :: post) -> P pre s ->
     exists s', f s x = Ok s' /\ P (pre ++ [x]) s') ->
  forall s, P [] s -> exists s', foldM f l s = Ok s' /\ P l s'.
Proof.
  intros Hf.
  assert (G : forall post pre s, l = pre ++ post -> P pre s ->
            exists s', foldM f post s = Ok s' /\ P l s').
  { induction post as [|x post IH]; intros pre s E Hs; simpl.
    - rewrite app_nil_r in E. subst. now exists s.
    - destruct (Hf pre x s) as (s1 & E1 & H1); [now exists post | assumption |].
      rewrite E1. simpl. apply (IH (pre ++ [x])); [|assumption].
      now rewrite <- app_assoc. }
  intros s Hs. now apply (G l []).
Qed.

Lemma foldM_Ok_inv {A S : Type} (P : S -> Prop) (f : S -> A -> result S)
    (l : list A) :
  (forall s x s', In x l -> P s -> f s x = Ok s' -> P s') ->
  forall s s', P s -> foldM f l s = Ok s' -> P s'.
Proof.
  induction l as [|x l IH]; intros Hf s s' Hs E; simpl in E.
  - now injection E as <-.
  - inv_bind E. apply (IH (fun s x s' Hx => Hf s x s' (or_intror Hx)) a s');
      [|assumption].
    apply (Hf s x a); [now left | assumption | assumption].
Qed.

Lemma foldM_app {A S : Type} (f : S -> A -> result S) (l1 l2 : list A) (s : S) :
  foldM f (l1 ++ l2) s = (s' <- foldM f l1 s ;; foldM f l2 s').
Proof.
  revert s. induction l1 as [|x l1 IH]; intros s; simpl; [reflexivity|].
  destruct (f s x); simpl; [apply IH | reflexivity].
Qed.

(** A loop whose body cannot raise is a plain fold. *)
Lemma foldM_pure {A S : Type} (f : S -> A -> result S) (g : S -> A -> S)
    (l : list A) (s : S) :
  (forall s x, In x l -> f s x = Ok (g s x)) ->
  foldM f l s = Ok (fold_left g l s).
Proof.
  revert s. induction l as [|x l IH]; intros s Hf; simpl; [reflexivity|].
  rewrite Hf by now left. simpl. apply IH. intros s' y Hy. apply Hf.
  now right.
Qed.

Lemma mapM_Ok {A B : Type} (f : A -> result B) (g : A -> B) (l : list A) :
  (forall x, In x l -> f x = Ok (g x)) -> mapM f l = Ok (map g l).
Proof.
  induction l as [|x l IH]; intros Hf; simpl; [reflexivity|].
  rewrite Hf by now left. simpl. rewrite IH; [reflexivity|].
  intros y Hy. apply Hf. now right.
Qed.

Lemma filterM_Ok {A : Type} (p : A -> result bool) (q : A -> bool)
    (l : list A) :
  (forall x, In x l -> p x = Ok (q x)) -> filterM p l = Ok (filter q l).
Proof.
  induction l as [|x l IH]; intros Hp; simpl; [reflexivity|].
  rewrite Hp by now left. simpl. rewrite IH; [reflexivity|].
  intros y Hy. apply Hp. now right.
Qed.

Lemma range_In (a b x : nat) : In x (range a b) <-> a <= x < b.
Proof. unfold range. rewrite in_seq. lia. Qed.

Lemma range_NoDup (a b : nat) : NoDup (range a b).
Proof. apply seq_NoDup. Qed.

Lemma getitem_Ok {A : Type} (l : list A) (i : nat) (d : A) :
  i < length l -> getitem l i = Ok (nth i l d).
Proof.
  intros Hi. unfold getitem. now rewrite (nth_error_nth' l d Hi).
Qed.

Lemma getitem_Ok_lt {A : Type} (l : list A) (i : nat) (x : A) :
  getitem l i = Ok x -> i < length l.
Proof.
  unfold getitem. destruct (nth_error l i) eqn:E; [|discriminate].
  intros _. apply nth_error_Some. congruence.
Qed.

(** ** Keys *)
Section KeyFacts.
Context {K : Type} `{Key K}.

Lemma keqb_refl (x : K) : keqb x x = true.
Proof. now apply keqb_eq. Qed.

Lemma keqb_neq (x y : K) : keqb x y = false <-> x <> y.
Proof.
  split.
  - intros E ->. rewrite keqb_refl in E. discriminate.
  - intros Hne. destruct (keqb x y) eqn:E; [|reflexivity].
    apply keqb_eq in E. contradiction.
Qed.

Lemma key_eq_dec (x y : K) : {x = y} + {x <> y}.
Proof.
  destruct (keqb x y) eqn:E.
  - left. now apply keqb_eq.
  - right. now apply keqb_neq.
Qed.
End KeyFacts.

(** ** Dictionaries *)
Section DictFacts.
Context {K V : Type} `{Key K}.
Implicit Types (d : dict K V) (k : K) (v : V).

Lemma dict_get_set_eq k v d : dict_get k (dict_set k v d) = Some v.
Proof.
  induction d as [|[k' v'] d IH]; simpl.
  - now rewrite keqb_refl.
  - destruct (keqb k k') eqn:E; simpl; rewrite E; [reflexivity | exact IH].
Qed.

Lemma dict_get_set_ne k k' v d :
  k <> k' -> dict_get k' (dict_set k v d) = dict_get k' d.
Proof.
  intros Hne. induction d as [|[k1 v1] d IH]; simpl.
  - assert (keqb k' k = false) as -> by (apply keqb_neq; congruence).
    reflexivity.
  - destruct (keqb k k1) eqn:E; simpl.
    + apply keqb_eq in E. subst k1.
      assert (keqb k' k = false) as -> by (apply keqb_neq; congruence).
      reflexivity.
    + now rewrite IH.
Qed.

Lemma dict_get_In k v d : dict_get k d = Some v -> In (k, v) d.
Proof.
  induction d as [|[k' v'] d IH]; simpl; [discriminate|].
  destruct (keqb k k') eqn:E.
  - apply keqb_eq in E. intros [= ->]. left. now subst.
  - intros Hg. right. now apply IH.
Qed.

Lemma dict_get_keys k d : dict_get k d <> None <-> In k (dict_keys d).
Proof.
  induction d as [|[k' v'] d IH]; simpl; [tauto|].
  destruct (keqb k k') eqn:E.
  - apply keqb_eq in E. split; [intros _; now left | discriminate].
  - apply keqb_neq in E. rewrite IH. intuition congruence.
Qed.

Lemma dict_get_None k d : dict_get k d = None <-> ~ In k (dict_keys d).
Proof.
  rewrite <- dict_get_keys. destruct (dict_get k d); intuition congruence.
Qed.

Lemma dict_keys_set k k' v d :
  In k' (dict_keys (dict_set k v d)) <-> k' = k \/ In k' (dict_keys d).
Proof.
  induction d as [|[k1 v1] d IH]; simpl.
  - intuition congruence.
  - destruct (keqb k k1) eqn:E; simpl.
    + apply keqb_eq in E. subst. intuition congruence.
    + rewrite IH. intuition congruence.
Qed.

Lemma dict_keys_set_present k v d :
  In k (dict_keys d) -> dict_keys (dict_set k v d) = dict_keys d.
Proof.
  induction d as [|[k1 v1] d IH]; simpl; [tauto|].
  destruct (keqb k k1) eqn:E; simpl; [reflexivity|].
  apply keqb_neq in E. intros [->|Hk]; [congruence|].
  now rewrite IH.
Qed.

Lemma dict_keys_set_absent k v d :
  ~ In k (dict_keys d) -> dict_keys (dict_set k v d) = dict_keys d ++ [k].
Proof.
  induction d as [|[k1 v1] d IH]; simpl; [reflexivity|].
  intros Hk. destruct (keqb k k1) eqn:E; simpl.
  - apply keqb_eq in E. subst. tauto.
  - rewrite IH; tauto.
Qed.

Lemma dict_set_NoDup k v d :
  NoDup (dict_keys d) -> NoDup (dict_keys (dict_set k v d)).
Proof.
  intros Hnd. destruct (in_dec key_eq_dec k (dict_keys d)) as [Hk|Hk].
  - now rewrite dict_keys_set_present.
  - rewrite dict_keys_set_absent by assumption.
    apply NoDup_app; [assumption | repeat constructor; intros [] |].
    intros x Hx [->|[]]. contradiction.
Qed.

Lemma dict_const_keys (l : list K) v k :
  In k (dict_keys (dict_const l v)) <-> In k l.
Proof.
  unfold dict_const.
  assert (G : forall d, In k (dict_keys (fold_left
               (fun d k => dict_set k v d) l d)) <-> In k (dict_keys d) \/ In k l).
  { induction l as [|x l IH]; intros d; simpl; [tauto|].
    rewrite IH, dict_keys_set. intuition congruence. }
  rewrite G. simpl. tauto.
Qed.

Lemma dict_const_vals (l : list K) v k v' :
  dict_get k (dict_const l v) = Some v' -> v' = v.
Proof.
  unfold dict_const.
  assert (G : forall d,
            (forall k v', dict_get k d = Some v' -> v' = v) ->
            forall k v',
              dict_get k (fold_left (fun d k => dict_set k v d) l d) = Some v' ->
              v' = v).
  { induction l as [|x l IH]; intros d Hd k0 v0; simpl; [apply Hd|].
    apply IH. intros k1 v1. destruct (key_eq_dec x k1) as [->|Hne].
    - rewrite dict_get_set_eq. congruence.
    - rewrite dict_get_set_ne by assumption. apply Hd. }
  apply G. intros k0 v0. discriminate.
Qed.

Lemma dict_const_get (l : list K) v k :
  In k l -> dict_get k (dict_const l v) = Some v.
Proof.
  intros Hk. apply (dict_const_keys l v) in Hk. apply dict_get_keys in Hk.
  destruct (dict_get k (dict_const l v)) as [v'|] eqn:E; [|congruence].
  now rewrite (dict_const_vals _ _ _ _ E).
Qed.
End DictFacts.

End PyFacts.

Import PyFacts.

Module SetFacts.

Section PySetFacts.
Context {A : Type} `{PySet A}.
Implicit Types (s : pyset) (x y : A).

Lemma set_mem_false x s : set_mem x s = false <-> ~ In x (set_iter s).
Proof.
  rewrite <- set_mem_iter. destruct (set_mem x s); intuition congruence.
Qed.

Lemma set_mem_empty x : set_mem x set_empty = false.
Proof. apply set_mem_false. rewrite set_iter_empty. intros []. Qed.

Lemma set_mem_add x y s :
  set_mem x (set_add y s) = true <-> x = y \/ set_mem x s = true.
Proof. now rewrite !set_mem_iter, set_add_iter. Qed.

Lemma set_of_list_acc (l : list A) s x :
  In x (set_iter (fold_left (fun s x => set_add x s) l s)) <->
  In x (set_iter s) \/ In x l.
Proof.
  revert s. induction l as [|y l IH]; intros s; simpl; [tauto|].
  rewrite IH, set_add_iter. intuition congruence.
Qed.

Lemma set_of_list_In (l : list A) x :
  In x (set_iter (set_of_list l)) <-> In x l.
Proof.
  unfold set_of_list. rewrite set_of_list_acc, set_iter_empty. simpl. tauto.
Qed.

Lemma set_mem_of_list (l : list A) x :
  set_mem x (set_of_list l) = true <-> In x l.
Proof. now rewrite set_mem_iter, set_of_list_In. Qed.

Lemma set_of_list_perm (l : list A) :
  NoDup l -> Permutation (set_iter (set_of_list l)) l.
Proof.
  intros Hnd. apply NoDup_Permutation; [apply set_iter_NoDup | assumption |].
  intros x. apply set_of_list_In.
Qed.

Lemma set_discard_len x s :
  In x (set_iter s) -> S (set_len (set_discard x s)) <= set_len s.
Proof.
  intros Hx. unfold set_len.
  change (length (x :: set_iter (set_discard x s)) <= length (set_iter s)).
  apply NoDup_incl_length.
  - constructor; [|apply set_iter_NoDup].
    rewrite set_discard_iter. tauto.
  - intros y [<-|Hy]; [assumption|]. now apply set_discard_iter in Hy.
Qed.

Lemma set_discard_len_le x s : set_len (set_discard x s) <= set_len s.
Proof.
  unfold set_len. apply NoDup_incl_length; [apply set_iter_NoDup|].
  intros y Hy. now apply set_discard_iter in Hy.
Qed.
End PySetFacts.

(** ** Graphs kept as a [defaultdict(set)] *)
Section SetDictFacts.
Context {A : Type} `{Key A} `{PySet A}.
Implicit Types (g : setdict A) (x y k : A).

Lemma sd_get_touch k k' g : sd_get k' (sd_touch k g) = sd_get k' g.
Proof.
  unfold sd_touch, sd_get. destruct (dict_get k g) eqn:E; [reflexivity|].
  destruct (key_eq_dec k k') as [->|Hne].
  - now rewrite dict_get_set_eq, E, set_iter_empty.
  - now rewrite dict_get_set_ne.
Qed.

Lemma sd_get_default k g :
  set_iter (dict_get_default k set_empty g) = sd_get k g.
Proof.
  unfold dict_get_default, sd_get. destruct (dict_get k g); [reflexivity|].
  apply set_iter_empty.
Qed.

Lemma sd_get_add k x k' y g :
  In y (sd_get k' (sd_add k x g)) <-> (k' = k /\ y = x) \/ In y (sd_get k' g).
Proof.
  unfold sd_add. destruct (key_eq_dec k k') as [->|Hne].
  - unfold sd_get at 1. rewrite dict_get_set_eq, set_add_iter, sd_get_default.
    intuition congruence.
  - unfold sd_get. rewrite dict_get_set_ne by assumption.
    intuition congruence.
Qed.

Lemma sd_get_NoDup k g : NoDup (sd_get k g).
Proof.
  unfold sd_get. destruct (dict_get k g); [apply set_iter_NoDup | constructor].
Qed.

Lemma sd_weight_le_size visited g : sd_weight visited g <= sd_size g.
Proof.
  unfold sd_weight, sd_size. induction g as [|[k s] g IH]; simpl; [lia|].
  destruct (set_mem k visited); lia.
Qed.

Lemma sd_weight_add_le visited g k :
  sd_weight (set_add k visited) g <= sd_weight visited g.
Proof.
  unfold sd_weight. induction g as [|[k' s] g IH]; simpl; [lia|].
  destruct (set_mem k' visited) eqn:E.
  - assert (set_mem k' (set_add k visited) = true) as ->
        by (apply set_mem_add; now right).
    lia.
  - destruct (set_mem k' (set_add k visited)); lia.
Qed.

Lemma sd_weight_add visited g k :
  set_mem k visited = false ->
  sd_weight (set_add k visited) g + length (sd_get k g) <= sd_weight visited g.
Proof.
  intros Hk. unfold sd_get. destruct (dict_get k g) as [s|] eqn:E.
  - apply dict_get_In in E. unfold sd_weight.
    induction g as [|[k' s'] g IH]; [destruct E|].
    simpl. destruct E as [[= -> ->]|E].
    + rewrite Hk.
      assert (set_mem k (set_add k visited) = true) as ->
          by (apply set_mem_add; now left).
      pose proof (sd_weight_add_le visited g k) as Hle.
      unfold sd_weight in Hle. unfold set_len in *. lia.
    + specialize (IH E).
      destruct (set_mem k' visited) eqn:E'.
      * assert (set_mem k' (set_add k visited) = true) as ->
            by (apply set_mem_add; now right).
        lia.
      * destruct (set_mem k' (set_add k visited)); lia.
  - simpl. pose proof (sd_weight_add_le visited g k). lia.
Qed.
End SetDictFacts.

End SetFacts.

Import SetFacts.

(* ================================================================== *)
(** * Reachability in a graph of successor sets                         *)
(* ================================================================== *)

Module GraphFacts.

Section Reach.
Context {A : Type} `{Key A} `{PySet A}.
Implicit Types (g : setdict A) (x y z k : A).

Lemma edge_touch g k x y : edge (sd_touch k g) x y <-> edge g x y.
Proof. unfold edge. now rewrite sd_get_touch. Qed.

Lemma edge_add g k z x y :
  edge (sd_add k z g) x y <-> (x = k /\ y = z) \/ edge g x y.
Proof. apply sd_get_add. Qed.

Lemma reaches_trans g x y z : reaches g x y -> reaches g y z -> reaches g x z.
Proof.
  induction 1 as [|a b c Hab Hbc IH]; [tauto|].
  intros Hz. econstructor; [exact Hab | now apply IH].
Qed.

Lemma reaches_step g x y z : reaches g x y -> edge g y z -> reaches g x z.
Proof.
  intros Hxy Hyz. apply reaches_trans with y; [assumption|].
  econstructor; [exact Hyz | constructor].
Qed.

Lemma reaches_sym g x y : symmetric g -> reaches g x y -> reaches g y x.
Proof.
  intros Hs. induction 1 as [|a b c Hab Hbc IH]; [constructor|].
  apply reaches_step with b; [assumption | now apply Hs].
Qed.

(** A property that edges preserve holds all along a walk. *)
Lemma reaches_closed g (P : A -> Prop) :
  (forall u v, P u -> edge g u v -> P v) ->
  forall u w, reaches g u w -> P u -> P w.
Proof.
  intros Hc u w Hr. induction Hr as [|a b c Hab Hbc IH]; [tauto|].
  intros Hu. apply IH. eapply Hc; eassumption.
Qed.

Lemma path_reaches g x y : path g x y -> reaches g x y.
Proof.
  induction 1 as [a b Hab|a b c Hab Hbc IH].
  - econstructor; [exact Hab | constructor].
  - econstructor; [exact Hab | exact IH].
Qed.

Lemma reaches_path g x y z : reaches g x y -> edge g y z -> path g x z.
Proof.
  induction 1 as [|a b c Hab Hbc IH]; intros Hz.
  - now constructor.
  - econstructor 2; [exact Hab | now apply IH].
Qed.

Lemma edge_path_reaches g x y z : edge g x y -> reaches g y z -> path g x z.
Proof.
  intros Hxy Hyz. revert x Hxy. induction Hyz as [|a b c Hab Hbc IH];
    intros x0 Hx0.
  - now constructor.
  - econstructor 2; [exact Hx0 | now apply IH].
Qed.

End Reach.

End GraphFacts.

Import GraphFacts.

(* ================================================================== *)
(** * Facts about the stable sort *)
(* ================================================================== *)

Module SortFacts.

Section SortBy.
Context {A K : Type} (ltb : K -> K -> bool) (key : A -> K).

Lemma insert_by_perm (x : A) (l : list A) :
  Permutation (insert_by ltb key x l) (x :: l).
Proof.
  induction l as [|y l IH]; simpl; [reflexivity|].
  destruct (ltb (key y) (key x)); [|reflexivity].
  rewrite IH. apply perm_swap.
Qed.

Lemma sort_by_perm (l : list A) : Permutation (sort_by ltb key l) l.
Proof.
  induction l as [|x l IH]; simpl; [reflexivity|].
  rewrite insert_by_perm. now constructor.
Qed.

Lemma sort_by_In (l : list A) (x : A) : In x (sort_by ltb key l) <-> In x l.
Proof.
  split; apply Permutation_in;
    [apply sort_by_perm | symmetry; apply sort_by_perm].
Qed.

Lemma sort_by_length (l : list A) : length (sort_by ltb key l) = length l.
Proof. apply Permutation_length, sort_by_perm. Qed.

(** Stability: elements that share a key keep their order. *)
Lemma insert_by_stable (p : A -> bool) (x : A) (l : list A) :
  (forall y, ltb (key y) (key y) = false) ->
  (forall y z, p y = true -> p z = true -> key y = key z) ->
  filter p (insert_by ltb key x l) = filter p (x :: l).
Proof.
  intros Hirr Hp. induction l as [|y l IH]; [reflexivity|].
  simpl insert_by. destruct (ltb (key y) (key x)) eqn:E; [|reflexivity].
  simpl in *. rewrite IH.
  destruct (p x) eqn:Ex, (p y) eqn:Ey; try reflexivity.
  rewrite (Hp y x Ey Ex), Hirr in E. discriminate.
Qed.

Lemma sort_by_stable (p : A -> bool) (l : list A) :
  (forall y, ltb (key y) (key y) = false) ->
  (forall y z, p y = true -> p z = true -> key y = key z) ->
  filter p (sort_by ltb key l) = filter p l.
Proof.
  intros Hirr Hp. induction l as [|x l IH]; [reflexivity|].
  simpl sort_by. rewrite insert_by_stable by assumption.
  simpl. now rewrite IH.
Qed.

Context `{!StrictTotal ltb}.

Lemma ltb_asym (a b : K) : ltb a b = true -> ltb b a = false.
Proof.
  intros Hab. destruct (ltb b a) eqn:E; [|reflexivity].
  rewrite <- (ltb_irrefl a). symmetry. now apply ltb_trans with b.
Qed.

Lemma key_le_trans (x y z : A) :
  key_le ltb key x y -> key_le ltb key y z -> key_le ltb key x z.
Proof.
  unfold key_le. intros Hxy Hyz.
  destruct (ltb (key z) (key x)) eqn:E; [|reflexivity].
  destruct (ltb (key x) (key y)) eqn:E1.
  - rewrite (ltb_trans _ _ _ E E1) in Hyz. discriminate.
  - rewrite (ltb_total _ _ E1 Hxy) in E. congruence.
Qed.

Lemma insert_by_sorted (x : A) (l : list A) :
  StronglySorted (key_le ltb key) l ->
  StronglySorted (key_le ltb key) (insert_by ltb key x l).
Proof.
  induction 1 as [|y l Hs IH Hy]; simpl.
  - repeat constructor.
  - destruct (ltb (key y) (key x)) eqn:E.
    + constructor; [assumption|].
      rewrite Forall_forall in *. intros z Hz.
      apply (Permutation_in _ (insert_by_perm x l)) in Hz.
      destruct Hz as [<-|Hz]; [|now apply Hy].
      now apply ltb_asym.
    + constructor; [now constructor|].
      constructor; [exact E|].
      rewrite Forall_forall in *. intros z Hz.
      apply key_le_trans with y; [exact E | now apply Hy].
Qed.

Lemma sort_by_sorted (l : list A) :
  StronglySorted (key_le ltb key) (sort_by ltb key l).
Proof.
  induction l as [|x l IH]; simpl; [constructor | now apply insert_by_sorted].
Qed.

(** The head of the sorted list is the first element of the input whose
    key is least. *)
Lemma sort_by_head (l : list A) (c : A) (rest : list A) :
  sort_by ltb key l = c :: rest ->
  exists l1 l2,
    l = l1 ++ c :: l2 /\
    (forall x, In x l1 -> ltb (key c) (key x) = true) /\
    (forall x, In x l2 -> ltb (key x) (key c) = false).
Proof.
  revert c rest. induction l as [|x l IH]; intros c rest; [discriminate|].
  simpl. destruct (sort_by ltb key l) as [|y r] eqn:E; simpl.
  - intros [= <- <-]. exists [], l. split; [reflexivity|].
    pose proof (sort_by_length l) as Hl. rewrite E in Hl.
    destruct l; [|discriminate]. split; intros z [].
  - destruct (IH y r eq_refl) as (l1 & l2 & -> & H1 & H2).
    destruct (ltb (key y) (key x)) eqn:Eyx.
    + intros [= <- <-]. exists (x :: l1), l2. split; [reflexivity|].
      split; [|assumption]. intros z [<-|Hz]; [assumption | now apply H1].
    + intros [= <- <-]. exists [], (l1 ++ y :: l2). split; [reflexivity|].
      split; [intros z []|]. intros z Hz.
      apply (key_le_trans x y z); [exact Eyx|].
      apply in_app_or in Hz. destruct Hz as [Hz|[<-|Hz]].
      * apply ltb_asym. now apply H1.
      * apply ltb_irrefl.
      * now apply H2.
Qed.
End SortBy.

(** ** The orders the code sorts by *)

#[export] Instance Z_ltb_total : StrictTotal Z.ltb.
Proof.
  constructor.
  - intros x. apply Z.ltb_irrefl.
  - intros x y z. rewrite !Z.ltb_lt. lia.
  - intros x y. rewrite !Z.ltb_ge. lia.
Qed.

#[export] Instance lex_ltb_total : StrictTotal lex_ltb.
Proof.
  unfold lex_ltb. constructor.
  - intros [a b]. simpl. rewrite !Z.ltb_irrefl, andb_false_r. reflexivity.
  - intros [a b] [c d] [e f]. simpl.
    rewrite !orb_true_iff, !andb_true_iff, !Z.ltb_lt, !Z.eqb_eq. lia.
  - intros [a b] [c d]. simpl.
    rewrite !orb_false_iff, !andb_false_iff, !Z.ltb_ge, !Z.eqb_neq.
    intros ? ?. f_equal; lia.
Qed.

Lemma ascii_compare_refl (a : ascii) : Ascii.compare a a = Eq.
Proof. unfold Ascii.compare. apply N.compare_refl. Qed.

Lemma ascii_compare_trans (c : comparison) (x y z : ascii) :
  Ascii.compare x y = c -> Ascii.compare y z = c -> Ascii.compare x z = c.
Proof.
  unfold Ascii.compare. destruct c.
  - rewrite !N.compare_eq_iff. congruence.
  - rewrite !N.compare_lt_iff. lia.
  - rewrite !N.compare_gt_iff. lia.
Qed.

Lemma string_compare_refl (s : string) : String.compare s s = Eq.
Proof.
  induction s as [|a s IH]; simpl; [reflexivity|].
  now rewrite ascii_compare_refl.
Qed.

Lemma string_compare_lt_trans (a b c : string) :
  String.compare a b = Lt -> String.compare b c = Lt -> String.compare a c = Lt.
Proof.
  revert b c. induction a as [|x a IH]; intros [|y b] [|z c]; simpl;
    try congruence.
  destruct (Ascii.compare x y) eqn:Exy, (Ascii.compare y z) eqn:Eyz;
    try congruence.
  - rewrite (ascii_compare_trans Eq _ _ _ Exy Eyz). apply IH.
  - apply Ascii.compare_eq_iff in Exy. subst. now rewrite Eyz.
  - apply Ascii.compare_eq_iff in Eyz. subst. now rewrite Exy.
  - now rewrite (ascii_compare_trans Lt _ _ _ Exy Eyz).
Qed.

#[export] Instance string_ltb_total : StrictTotal String.ltb.
Proof.
  unfold String.ltb. constructor.
  - intros x. now rewrite string_compare_refl.
  - intros x y z.
    destruct (String.compare x y) eqn:E1; try discriminate.
    destruct (String.compare y z) eqn:E2; try discriminate.
    now rewrite (string_compare_lt_trans _ _ _ E1 E2).
  - intros x y. rewrite (String.compare_antisym y x).
    destruct (String.compare x y) eqn:E; simpl; try discriminate.
    intros _ _. now apply String.compare_eq_iff.
Qed.

End SortFacts.

Import SortFacts.

(* ================================================================== *)
(** * The locked graph of [compute_ranked_pairs] *)
(* ================================================================== *)

Module LockedGraph.
Import Condorcet.

Section Locked.
Context `{PySet nat}.
Implicit Types (locked : setdict nat) (winner loser : nat).

(** ** [would_create_cycle] *)

Lemma cycle_loop_false locked winner fuel :
  forall visited stack,
    cycle_loop fuel locked winner visited stack = Ok false ->
    closed_upto locked winner visited stack ->
    forall u, In u (set_iter visited) \/ In u stack ->
              ~ reaches locked u winner.
Proof.
  induction fuel as [|fuel IH]; intros visited stack; simpl; [discriminate|].
  destruct stack as [|current stack].
  - intros _ Hinv u [Hu|[]] Hr.
    assert (G : In winner (set_iter visited)).
    { apply (reaches_closed locked (fun x => In x (set_iter visited)))
        with (u := u); [|assumption..].
      intros a b Ha Hab. destruct (Hinv a Ha) as [_ Hc].
      destruct (Hc b Hab) as [?|[]]. assumption. }
    now destruct (Hinv winner G).
  - destruct (Nat.eqb_spec current winner) as [->|Hne]; [discriminate|].
    destruct (set_mem current visited) eqn:Ev.
    + apply set_mem_iter in Ev. intros E Hinv u Hu.
      apply (IH visited stack E).
      * intros u' Hu'. destruct (Hinv u' Hu') as [H1 H2]. split; [exact H1|].
        intros v Hv. destruct (H2 v Hv) as [?|[<-|?]]; tauto.
      * destruct Hu as [?|[<-|?]]; tauto.
    + intros E Hinv u Hu.
      apply (IH _ _ E).
      * intros u' Hu'. apply set_add_iter in Hu'.
        destruct Hu' as [->|Hu'].
        -- split; [assumption|]. intros v Hv. right.
           apply in_or_app. left. now apply -> in_rev.
        -- destruct (Hinv u' Hu') as [H1 H2]. split; [exact H1|].
           intros v Hv. rewrite set_add_iter, in_app_iff.
           destruct (H2 v Hv) as [?|[<-|?]]; tauto.
      * rewrite set_add_iter, in_app_iff.
        destruct Hu as [?|[<-|?]]; tauto.
Qed.

Lemma cycle_loop_true locked winner loser fuel :
  forall visited stack,
    cycle_loop fuel locked winner visited stack = Ok true ->
    (forall u, In u stack -> reaches locked loser u) ->
    reaches locked loser winner.
Proof.
  induction fuel as [|fuel IH]; intros visited stack; simpl; [discriminate|].
  destruct stack as [|current stack]; [discriminate|].
  destruct (Nat.eqb_spec current winner) as [->|Hne].
  - intros _ Hst. apply Hst. now left.
  - destruct (set_mem current visited) eqn:Ev; intros E Hst.
    + apply (IH _ _ E). intros u Hu. apply Hst. now right.
    + apply (IH _ _ E). intros u Hu. apply in_app_or in Hu.
      destruct Hu as [Hu|Hu]; [|apply Hst; now right].
      apply in_rev in Hu.
      apply reaches_trans with current; [apply Hst; now left|].
      econstructor; [exact Hu | constructor].
Qed.

Lemma cycle_loop_returns locked winner fuel :
  forall visited stack,
    length stack + sd_weight visited locked < fuel ->
    exists b, cycle_loop fuel locked winner visited stack = Ok b.
Proof.
  induction fuel as [|fuel IH]; intros visited stack Hlt; [lia|].
  simpl. destruct stack as [|current stack]; [now exists false|].
  destruct (current =? winner); [now exists true|].
  simpl in Hlt. destruct (set_mem current visited) eqn:Ev.
  - apply IH. lia.
  - apply IH. rewrite length_app, length_rev.
    pose proof (sd_weight_add visited locked current Ev). lia.
Qed.

(** [would_create_cycle] returns, and answers [True] exactly when the
    winner can be reached from the loser. *)
Lemma would_create_cycle_spec locked winner loser :
  exists b, would_create_cycle locked winner loser = Ok b /\
            (b = true <-> reaches locked loser winner).
Proof.
  unfold would_create_cycle.
  destruct (cycle_loop_returns locked winner (2 + sd_size locked)
              set_empty [loser]) as [b Hb].
  { pose proof (sd_weight_le_size set_empty locked). simpl. lia. }
  exists b. split; [exact Hb|]. destruct b.
  - split; [intros _ | reflexivity].
    apply (cycle_loop_true _ _ _ _ _ _ Hb).
    intros u [<-|[]]. constructor.
  - split; [discriminate|]. intros Hr. exfalso.
    apply (cycle_loop_false _ _ _ _ _ Hb) with (u := loser);
      [|now right; left | exact Hr].
    intros u Hu. rewrite set_iter_empty in Hu. destruct Hu.
Qed.

(** ** Locking *)

(** A path of the extended graph either was there before or runs
    through the new edge. *)
Lemma path_sd_add locked winner loser x y :
  ~ reaches locked loser winner ->
  path (sd_add winner loser locked) x y ->
  path locked x y \/ (reaches locked x winner /\ reaches locked loser y).
Proof.
  intros Hno Hp. induction Hp as [a b Hab|a b c Hab Hbc IH].
  - apply edge_add in Hab. destruct Hab as [[-> ->]|Hab].
    + right. split; constructor.
    + left. now constructor.
  - apply edge_add in Hab. destruct Hab as [[-> ->]|Hab].
    + destruct IH as [IH|[IH _]].
      * right. split; [constructor | now apply path_reaches].
      * contradiction.
    + destruct IH as [IH|[IH1 IH2]].
      * left. econstructor 2; eassumption.
      * right. split; [|assumption]. econstructor; eassumption.
Qed.

Lemma acyclic_sd_add locked winner loser :
  acyclic locked -> ~ reaches locked loser winner ->
  acyclic (sd_add winner loser locked).
Proof.
  intros Hac Hno x Hx. apply path_sd_add in Hx; [|assumption].
  destruct Hx as [Hx|[H1 H2]]; [now apply (Hac x)|].
  apply Hno. now apply reaches_trans with x.
Qed.

Lemma acyclic_nil : acyclic [].
Proof.
  intros x Hx. destruct Hx as [? Hxy|? ? Hxy _]; destruct Hxy.
Qed.

(** One step of the locking loop: it returns; the graph stays acyclic;
    it changes only by the edge of the pair, and only when the winner
    was not reachable from the loser. *)
Lemma lock_pair_spec locked (p : pair_record) :
  acyclic locked ->
  exists locked',
    lock_pair locked p = Ok locked' /\
    acyclic locked' /\
    ((reaches locked (pair_loser p) (pair_winner p) /\ locked' = locked) \/
     (~ reaches locked (pair_loser p) (pair_winner p) /\
      locked' = sd_add (pair_winner p) (pair_loser p) locked)).
Proof.
  intros Hac. destruct p as [[[winner loser] margin] votes].
  unfold lock_pair, pair_loser, pair_winner. simpl.
  destruct (would_create_cycle_spec locked winner loser) as (b & -> & Hb).
  simpl. destruct b.
  - exists locked. repeat split; [assumption|]. left. split; [|reflexivity].
    now apply Hb.
  - assert (Hno : ~ reaches locked loser winner).
    { intros Hr. apply Hb in Hr. discriminate. }
    eexists. split; [reflexivity|]. split; [now apply acyclic_sd_add|].
    right. now split.
Qed.

Lemma lock_pairs_from locked (pairs : list pair_record) :
  acyclic locked ->
  exists locked', foldM lock_pair pairs locked = Ok locked' /\ acyclic locked'.
Proof.
  intros Hac. apply (foldM_inv acyclic); [|assumption].
  intros s p _ Hs. destruct (lock_pair_spec s p Hs) as (s' & E & Hs' & _).
  now exists s'.
Qed.

Lemma lock_pairs_acyclic (pairs : list pair_record) :
  exists locked, lock_pairs pairs = Ok locked /\ acyclic locked.
Proof. apply lock_pairs_from, acyclic_nil. Qed.

(** Locked edges are edges of the pairs. *)
Lemma lock_pairs_edges (pairs : list pair_record) locked x y :
  lock_pairs pairs = Ok locked -> edge locked x y ->
  exists p, In p pairs /\ pair_winner p = x /\ pair_loser p = y.
Proof.
  unfold lock_pairs. intros E.
  apply (foldM_Ok_inv
           (fun g => forall x y, edge g x y ->
              exists p, In p pairs /\ pair_winner p = x /\ pair_loser p = y)
           lock_pair pairs) with (s := []) (s' := locked); [| |exact E].
  - intros s p s' Hp Hs Es x' y' He.
    destruct p as [[[winner loser] margin] votes]. unfold lock_pair in Es.
    inv_bind Es. destruct a; injection Es as <-; [now apply Hs|].
    apply edge_add in He. destruct He as [[-> ->]|He]; [|now apply Hs].
    now exists (winner, loser, margin, votes).
  - intros x' y' [].
Qed.
End Locked.

End LockedGraph.

Import LockedGraph.

(* ================================================================== *)
(** * Matrices and the pair records *)
(* ================================================================== *)

Module Pairs.
Import Condorcet.

Lemma mat_wf_row (n : nat) (m : matrix) (i : nat) :
  mat_wf n m -> i < n -> length (nth i m []) = n.
Proof.
  intros [Hl Hr] Hi. rewrite Forall_forall in Hr. apply Hr, nth_In. lia.
Qed.

Lemma mat_get_Ok (n : nat) (m : matrix) (i j : nat) :
  mat_wf n m -> i < n -> j < n -> mat_get m i j = Ok (entry m i j).
Proof.
  intros Hwf Hi Hj. unfold mat_get, entry.
  rewrite (getitem_Ok m i []) by (destruct Hwf; lia). simpl.
  apply getitem_Ok. now rewrite (mat_wf_row n).
Qed.

Lemma mat_counts_entry (n : nat) (m : matrix) (i j : nat) :
  mat_wf n m -> mat_counts m -> i < n -> j < n ->
  (0 <= entry m i j < 2 ^ 63)%Z.
Proof.
  intros Hwf Hc Hi Hj. unfold mat_counts in Hc. rewrite Forall_forall in Hc.
  assert (Hrow : In (nth i m []) m) by (apply nth_In; destruct Hwf; lia).
  specialize (Hc _ Hrow). rewrite Forall_forall in Hc. apply Hc.
  apply nth_In. now rewrite (mat_wf_row n).
Qed.

Lemma mat_zeros_wf (n : nat) : mat_wf n (mat_zeros n).
Proof.
  unfold mat_wf, mat_zeros. rewrite repeat_length. split; [reflexivity|].
  apply Forall_forall. intros row Hrow. apply repeat_spec in Hrow. subst.
  apply repeat_length.
Qed.

Lemma nth_repeat_default {A : Type} (x : A) (n i : nat) :
  nth i (repeat x n) x = x.
Proof.
  revert i. induction n as [|n IH]; intros [|i]; simpl; auto.
Qed.

Lemma mat_zeros_entry (n i j : nat) : i < n -> entry (mat_zeros n) i j = 0%Z.
Proof.
  intros Hi. unfold entry, mat_zeros.
  rewrite (nth_indep _ [] (repeat 0%Z n)) by now rewrite repeat_length.
  rewrite nth_repeat_default. apply nth_repeat_default.
Qed.

Lemma foldM_append {A B : Type} (f : list B -> A -> result (list B))
    (g : A -> list B) (l : list A) (acc : list B) :
  (forall x acc, In x l -> f acc x = Ok (acc ++ g x)) ->
  foldM f l acc = Ok (acc ++ flat_map g l).
Proof.
  revert acc. induction l as [|x l IH]; intros acc Hf; simpl.
  - now rewrite app_nil_r.
  - rewrite Hf by now left. simpl. rewrite IH.
    + now rewrite app_assoc.
    + intros y acc' Hy. apply Hf. now right.
Qed.

Lemma collect_pair_Ok (n : nat) (m : matrix) (i j : nat)
    (pairs : list pair_record) :
  mat_wf n m -> i < n -> j < n ->
  collect_pair m i j pairs = Ok (pairs ++ pair_of m i j).
Proof.
  intros Hwf Hi Hj. unfold collect_pair, pair_of.
  rewrite (mat_get_Ok n m i j), (mat_get_Ok n m j i) by assumption. simpl.
  destruct (entry m i j >? entry m j i)%Z; [reflexivity|].
  destruct (entry m j i >? entry m i j)%Z; [reflexivity|].
  now rewrite app_nil_r.
Qed.

Lemma collect_pairs_Ok (n : nat) (m : matrix) :
  mat_wf n m -> collect_pairs n m = Ok (all_pairs n m).
Proof.
  intros Hwf. unfold collect_pairs, all_pairs.
  rewrite (foldM_append _
             (fun i => flat_map (pair_of m i) (range (i + 1) n)));
    [reflexivity|].
  intros i acc Hi. apply range_In in Hi. apply foldM_append.
  intros j acc' Hj. apply range_In in Hj.
  apply (collect_pair_Ok n); [assumption | lia | lia].
Qed.

Lemma pair_of_In (m : matrix) (i j : nat) (p : pair_record) :
  In p (pair_of m i j) ->
  (pair_winner p = i /\ pair_loser p = j) \/
  (pair_winner p = j /\ pair_loser p = i).
Proof.
  unfold pair_of.
  destruct (entry m i j >? entry m j i)%Z;
    [|destruct (entry m j i >? entry m i j)%Z].
  - intros [<-|[]]. now left.
  - intros [<-|[]]. now right.
  - intros [].
Qed.

Lemma all_pairs_In (n : nat) (m : matrix) (p : pair_record) :
  In p (all_pairs n m) <->
  exists i j, i < j < n /\ In p (pair_of m i j).
Proof.
  unfold all_pairs. rewrite in_flat_map. split.
  - intros (i & Hi & Hp). apply in_flat_map in Hp. destruct Hp as (j & Hj & Hp).
    apply range_In in Hi, Hj. exists i, j. split; [lia | assumption].
  - intros (i & j & Hij & Hp). exists i. split; [apply range_In; lia|].
    apply in_flat_map. exists j. split; [apply range_In; lia | assumption].
Qed.

Lemma all_pairs_range (n : nat) (m : matrix) (p : pair_record) :
  In p (all_pairs n m) ->
  pair_winner p < n /\ pair_loser p < n /\ pair_winner p <> pair_loser p.
Proof.
  intros Hp. apply all_pairs_In in Hp. destruct Hp as (i & j & Hij & Hp).
  apply pair_of_In in Hp. lia.
Qed.

Lemma all_pairs_zeros (n : nat) : all_pairs n (mat_zeros n) = [].
Proof.
  unfold all_pairs.
  assert (G : forall l, (forall i, In i l -> i < n) ->
            flat_map (fun i => flat_map (pair_of (mat_zeros n) i)
                                        (range (i + 1) n)) l = []).
  { induction l as [|i l IH]; intros Hl; simpl; [reflexivity|].
    rewrite IH by (intros; apply Hl; now right). rewrite app_nil_r.
    assert (Hi : i < n) by (apply Hl; now left).
    assert (G2 : forall l2, (forall j, In j l2 -> j < n) ->
              flat_map (pair_of (mat_zeros n) i) l2 = []).
    { induction l2 as [|j l2 IH2]; intros Hl2; simpl; [reflexivity|].
      rewrite IH2 by (intros; apply Hl2; now right). rewrite app_nil_r.
      unfold pair_of.
      rewrite !mat_zeros_entry by (assumption || (apply Hl2; now left)).
      reflexivity. }
    apply G2. intros j Hj. apply range_In in Hj. lia. }
  apply G. intros i Hi. apply range_In in Hi. lia.
Qed.

Lemma filter_flat_map {A B : Type} (p : B -> bool) (f : A -> list B)
    (l : list A) :
  filter p (flat_map f l) = flat_map (fun x => filter p (f x)) l.
Proof.
  induction l as [|x l IH]; simpl; [reflexivity|].
  now rewrite filter_app, IH.
Qed.

Lemma flat_map_nil {A B : Type} (f : A -> list B) (l : list A) :
  (forall x, In x l -> f x = []) -> flat_map f l = [].
Proof.
  induction l as [|x l IH]; intros Hf; simpl; [reflexivity|].
  rewrite Hf by now left. apply IH. intros y Hy. apply Hf. now right.
Qed.

Lemma flat_map_single {A B : Type} (f : A -> list B) (l : list A) (a : A) :
  NoDup l -> In a l -> (forall x, In x l -> x <> a -> f x = []) ->
  flat_map f l = f a.
Proof.
  induction l as [|x l IH]; intros Hnd Ha Hf; [destruct Ha|].
  inversion Hnd as [|? ? Hx Hnd']; subst. simpl. destruct Ha as [->|Ha].
  - rewrite flat_map_nil; [apply app_nil_r|].
    intros y Hy. apply Hf; [now right|]. intros ->. contradiction.
  - rewrite (Hf x); [|now left | intros ->; contradiction]. simpl.
    apply IH; [assumption..|]. intros y Hy. apply Hf. now right.
Qed.

Lemma filter_none {A : Type} (p : A -> bool) (l : list A) :
  (forall x, In x l -> p x = false) -> filter p l = [].
Proof.
  induction l as [|x l IH]; intros Hp; simpl; [reflexivity|].
  rewrite Hp by now left. apply IH. intros y Hy. apply Hp. now right.
Qed.

Lemma filter_all {A : Type} (p : A -> bool) (l : list A) :
  (forall x, In x l -> p x = true) -> filter p l = l.
Proof.
  induction l as [|x l IH]; intros Hp; simpl; [reflexivity|].
  rewrite Hp by now left. f_equal. apply IH. intros y Hy. apply Hp. now right.
Qed.

Lemma on_pair_pair_of (m : matrix) (i j i' j' : nat) :
  i < j -> i' < j' ->
  filter (on_pair i j) (pair_of m i' j') =
  if (i' =? i) && (j' =? j) then pair_of m i j else [].
Proof.
  intros Hij Hij'.
  destruct (Nat.eqb_spec i' i) as [->|Hi]; simpl.
  - destruct (Nat.eqb_spec j' j) as [->|Hj].
    + apply filter_all. intros p Hp. apply pair_of_In in Hp. unfold on_pair.
      destruct Hp as [[-> ->]|[-> ->]]; rewrite !Nat.eqb_refl; simpl;
        [reflexivity | apply orb_true_r].
    + apply filter_none. intros p Hp. apply pair_of_In in Hp. unfold on_pair.
      apply orb_false_iff. rewrite !andb_false_iff, !Nat.eqb_neq. lia.
  - apply filter_none. intros p Hp. apply pair_of_In in Hp. unfold on_pair.
    apply orb_false_iff. rewrite !andb_false_iff, !Nat.eqb_neq. lia.
Qed.

(** The list holds exactly the record of [{i, j}] for that pair. *)
Lemma all_pairs_on_pair (n : nat) (m : matrix) (i j : nat) :
  i < j < n -> filter (on_pair i j) (all_pairs n m) = pair_of m i j.
Proof.
  intros Hij. unfold all_pairs. rewrite filter_flat_map.
  rewrite (flat_map_single _ (range 0 n) i);
    [| apply range_NoDup | apply range_In; lia |].
  - rewrite filter_flat_map.
    rewrite (flat_map_single _ (range (i + 1) n) j);
      [| apply range_NoDup | apply range_In; lia |].
    + rewrite on_pair_pair_of by lia. now rewrite !Nat.eqb_refl.
    + intros j' Hj' Hne. apply range_In in Hj'.
      rewrite on_pair_pair_of by lia.
      rewrite Nat.eqb_refl. simpl.
      destruct (Nat.eqb_spec j' j); [contradiction | reflexivity].
  - intros i' Hi' Hne. rewrite filter_flat_map.
    assert (G : forall l, (forall j', In j' l -> i' < j') ->
              flat_map (fun j' => filter (on_pair i j) (pair_of m i' j')) l = []).
    { induction l as [|j' l IH]; intros Hl; simpl; [reflexivity|].
      rewrite IH by (intros; apply Hl; now right). rewrite app_nil_r.
      rewrite on_pair_pair_of by (lia || (apply Hl; now left)).
      destruct (Nat.eqb_spec i' i); [contradiction | reflexivity]. }
    apply G. intros j' Hj'. apply range_In in Hj'. lia.
Qed.

End Pairs.

Import Pairs.

(* ================================================================== *)
(** * The final topological sort of [compute_ranked_pairs] *)
(* ================================================================== *)

Module Topo.
Import Condorcet.

Lemma dict_set_In {K V : Type} `{Key K} (k k' : K) (v v' : V) (d : dict K V) :
  In (k', v') (dict_set k v d) -> (k' = k /\ v' = v) \/ In (k', v') d.
Proof.
  induction d as [|[k1 v1] d IH]; simpl.
  - intros [[= <- <-]|[]]. now left.
  - destruct (keqb k k1) eqn:E; simpl.
    + apply keqb_eq in E. subst k1. intros [[= <- <-]|Hin]; [now left | tauto].
    + intros [Heq|Hin]; [tauto|]. destruct (IH Hin); tauto.
Qed.

Lemma dict_incr_Ok {K : Type} `{Key K} (k : K) (z : Z) (d : dict K Z) :
  In k (dict_keys d) ->
  exists d', dict_incr k z d = Ok d' /\ dict_keys d' = dict_keys d.
Proof.
  intros Hk. unfold dict_incr, dict_getitem.
  destruct (dict_get k d) as [v|] eqn:E.
  - simpl. eexists. split; [reflexivity|]. now apply dict_keys_set_present.
  - apply dict_get_None in E. contradiction.
Qed.

Lemma undecorate_insert {A K : Type} (ltb : K -> K -> bool) (key : A -> K)
    (x : A) (L : list (K * A)) :
  (forall a b, In (a, b) L -> a = key b) ->
  map snd (insert_by ltb fst (key x, x) L) = insert_by ltb key x (map snd L).
Proof.
  induction L as [|[a b] L IH]; intros HL; simpl; [reflexivity|].
  rewrite (HL a b) by now left.
  destruct (ltb (key b) (key x)); simpl; [|reflexivity].
  f_equal. apply IH. intros a' b' Hin. apply HL. now right.
Qed.

Lemma undecorate_sort {A K : Type} (ltb : K -> K -> bool) (key : A -> K)
    (l : list A) :
  map snd (sort_by ltb fst (combine (map key l) l)) = sort_by ltb key l.
Proof.
  assert (G : forall l, (forall a b,
              In (a, b) (sort_by ltb fst (combine (map key l) l)) -> a = key b)).
  { intros l0 a b Hin. apply sort_by_In in Hin.
    clear - Hin. induction l0 as [|x l0 IH]; simpl in Hin; [destruct Hin|].
    destruct Hin as [[= <- <-]|Hin]; [reflexivity | now apply IH]. }
  induction l as [|x l IH]; simpl; [reflexivity|].
  rewrite undecorate_insert by apply G. now rewrite IH.
Qed.

(** Sorting by title is sorting by the key [title_of]. *)
Lemma sort_by_title_Ok (movie_titles : list string) (l : list nat) :
  (forall i, In i l -> i < length movie_titles) ->
  sort_by_title movie_titles l
  = Ok (sort_by String.ltb (title_of movie_titles) l).
Proof.
  intros Hl. unfold sort_by_title.
  rewrite (mapM_Ok _ (title_of movie_titles)).
  - simpl. now rewrite undecorate_sort.
  - intros i Hi. apply getitem_Ok. now apply Hl.
Qed.

Lemma sort_by_title_sorted (movie_titles : list string) (l : list nat) :
  StronglySorted (title_le movie_titles)
                 (sort_by String.ltb (title_of movie_titles) l).
Proof. apply (sort_by_sorted String.ltb (title_of movie_titles)). Qed.

Section TopoSort.
Context `{PySet nat}.
Implicit Types (locked : setdict nat) (remaining : pyset).

Lemma sd_bounded_edge n locked x y :
  sd_bounded n locked -> edge locked x y -> y < n.
Proof.
  unfold edge, sd_get. intros Hb He.
  destruct (dict_get x locked) as [s|] eqn:E; [|destruct He].
  apply dict_get_In in E. exact (Hb _ _ E _ He).
Qed.

Lemma sd_bounded_add n locked winner loser :
  sd_bounded n locked -> loser < n -> sd_bounded n (sd_add winner loser locked).
Proof.
  intros Hb Hl k s Hin y Hy. unfold sd_add in Hin.
  apply dict_set_In in Hin. destruct Hin as [[-> ->]|Hin].
  - apply set_add_iter in Hy. destruct Hy as [->|Hy]; [assumption|].
    rewrite sd_get_default in Hy. apply (sd_bounded_edge n locked winner y Hb Hy).
  - exact (Hb _ _ Hin _ Hy).
Qed.

Lemma lock_pairs_bounded n (pairs : list pair_record) locked :
  (forall p, In p pairs -> pair_loser p < n) ->
  lock_pairs pairs = Ok locked -> sd_bounded n locked.
Proof.
  intros Hp E. unfold lock_pairs in E.
  apply (foldM_Ok_inv (sd_bounded n) lock_pair pairs) with (s := []) (s' := locked);
    [| intros k s [] | exact E].
  intros g p g' Hin Hg Eg. specialize (Hp p Hin).
  destruct p as [[[winner loser] margin] votes]. unfold lock_pair in Eg.
  inv_bind Eg. destruct a; injection Eg as <-; [assumption|].
  now apply sd_bounded_add.
Qed.

Lemma keys_are_const n : keys_are n (dict_const (range 0 n) 0%Z).
Proof. intros i. rewrite dict_const_keys, range_In. lia. Qed.

Lemma decrement_all n (d : dict nat Z) (z : Z) (l : list nat) :
  keys_are n d -> (forall y, In y l -> y < n) ->
  exists d', foldM (fun d y => dict_incr y z d) l d = Ok d' /\ keys_are n d'.
Proof.
  intros Hd Hl. apply (foldM_inv (keys_are n)); [|assumption].
  intros d0 y Hy Hd0.
  destruct (dict_incr_Ok y z d0) as (d' & E & Hk); [apply Hd0; auto|].
  exists d'. split; [exact E|]. intros i. rewrite Hk. apply Hd0.
Qed.

Lemma locked_in_degree_Ok n locked :
  sd_bounded n locked ->
  exists d, locked_in_degree n locked = Ok d /\ keys_are n d.
Proof.
  intros Hb. unfold locked_in_degree.
  apply (foldM_inv (keys_are n)); [|apply keys_are_const].
  intros d [winner losers] Hin Hd. apply decrement_all; [assumption|].
  intros y Hy. exact (Hb _ _ Hin _ Hy).
Qed.

Lemma zero_in_degree_Ok n (d : dict nat Z) remaining :
  keys_are n d -> (forall i, In i (set_iter remaining) -> i < n) ->
  zero_in_degree d remaining
  = Ok (filter (fun i => (dict_get_default i 1 d =? 0)%Z) (set_iter remaining)).
Proof.
  intros Hd Hr. unfold zero_in_degree. apply filterM_Ok.
  intros i Hi. unfold dict_getitem, dict_get_default.
  destruct (dict_get i d) eqn:E; [reflexivity|].
  apply dict_get_None in E. exfalso. apply E, Hd, Hr, Hi.
Qed.

Lemma set_discard_perm (x : nat) remaining :
  In x (set_iter remaining) ->
  Permutation (x :: set_iter (set_discard x remaining)) (set_iter remaining).
Proof.
  intros Hx. apply NoDup_Permutation.
  - constructor; [|apply set_iter_NoDup]. rewrite set_discard_iter. tauto.
  - apply set_iter_NoDup.
  - intros y. simpl. rewrite set_discard_iter.
    destruct (Nat.eq_dec x y) as [->|Hne]; intuition congruence.
Qed.

(** The inner loop over the sorted sources. *)
Lemma emit_sources n locked (sources : list nat) (d : dict nat Z)
    (ranking : list nat) remaining :
  sd_bounded n locked -> keys_are n d -> NoDup sources ->
  (forall s, In s sources -> In s (set_iter remaining)) ->
  exists d' remaining',
    foldM (emit_source locked) sources (d, ranking, remaining)
    = Ok (d', ranking ++ sources, remaining') /\
    keys_are n d' /\
    (forall x, In x (set_iter remaining') <->
               In x (set_iter remaining) /\ ~ In x sources) /\
    (locked = [] -> d' = d).
Proof.
  intros Hb. revert d ranking remaining.
  induction sources as [|s sources IH]; intros d ranking remaining Hd Hnd Hs.
  - exists d, remaining. simpl. rewrite app_nil_r.
    split; [reflexivity|]. split; [assumption|].
    split; [intros x; tauto | reflexivity].
  - inversion Hnd as [|? ? Hs' Hnd']; subst. simpl.
    destruct (decrement_all n d (-1) (sd_get s locked) Hd) as (d1 & E1 & Hd1).
    { intros y Hy. exact (sd_bounded_edge n locked s y Hb Hy). }
    rewrite E1. simpl.
    destruct (IH d1 (ranking ++ [s]) (set_discard s remaining) Hd1 Hnd')
      as (d' & remaining' & E & Hd' & Hr & Hl).
    { intros x Hx. apply set_discard_iter. split; [|apply Hs; now right].
      intros ->. contradiction. }
    exists d', remaining'. rewrite E, <- app_assoc. simpl.
    split; [reflexivity|]. split; [assumption|]. split.
    + intros x. rewrite Hr, set_discard_iter. intuition congruence.
    + intros ->. rewrite Hl by reflexivity. simpl in E1. now injection E1.
Qed.

Lemma topo_loop_unfold fuel (movie_titles : list string) locked
    (d : dict nat Z) (ranking : list nat) remaining :
  set_iter remaining <> [] ->
  topo_loop (S fuel) movie_titles locked d ranking remaining
  = (sources <- zero_in_degree d remaining ;;
     match sources with
     | [] =>
         remaining_sorted <-
           sort_by_title movie_titles (set_iter remaining) ;;
         Ok (ranking ++ remaining_sorted)
     | _ :: _ =>
         sources <- sort_by_title movie_titles sources ;;
         '(in_degree, ranking, remaining) <-
           foldM (emit_source locked) sources (d, ranking, remaining) ;;
         topo_loop fuel movie_titles locked in_degree ranking remaining
     end).
Proof.
  intros Hne. simpl. destruct (set_iter remaining); [congruence | reflexivity].
Qed.

(** What the loop maintains: [ranking] and [remaining] split the
    candidate positions. *)
Lemma topo_loop_perm n (movie_titles : list string) locked :
  sd_bounded n locked -> n <= length movie_titles ->
  forall fuel (d : dict nat Z) (ranking : list nat) remaining,
    set_len remaining < fuel ->
    keys_are n d ->
    Permutation (ranking ++ set_iter remaining) (range 0 n) ->
    exists r, topo_loop fuel movie_titles locked d ranking remaining = Ok r /\
              Permutation r (range 0 n).
Proof.
  intros Hb Ht. induction fuel as [|fuel IH];
    intros d ranking remaining Hfuel Hd Hperm; [lia|].
  assert (Hrem : forall i, In i (set_iter remaining) -> i < n).
  { intros i Hi.
    assert (Hin : In i (range 0 n)).
    { apply (Permutation_in _ Hperm), in_or_app. now right. }
    apply range_In in Hin. lia. }
  destruct (list_eq_dec Nat.eq_dec (set_iter remaining) []) as [Erem|Erem].
  - exists ranking. simpl. rewrite Erem. split; [reflexivity|].
    now rewrite Erem, app_nil_r in Hperm.
  - rewrite topo_loop_unfold by assumption.
    rewrite (zero_in_degree_Ok n d remaining Hd Hrem). cbn [bind].
    set (sources := filter (fun i => (dict_get_default i 1 d =? 0)%Z)
                           (set_iter remaining)).
    assert (Hsrc : forall s, In s sources -> In s (set_iter remaining)).
    { intros s Hs. unfold sources in Hs. now apply filter_In in Hs. }
    assert (Hnds : NoDup sources).
    { unfold sources. apply NoDup_filter, set_iter_NoDup. }
    clearbody sources. destruct sources as [|s0 sources'].
    + rewrite sort_by_title_Ok by (intros i Hi; specialize (Hrem i Hi); lia).
      cbn [bind]. eexists. split; [reflexivity|].
      rewrite sort_by_perm. exact Hperm.
    + rewrite sort_by_title_Ok
        by (intros i Hi; specialize (Hrem i (Hsrc i Hi)); lia).
      cbn [bind].
      set (sorted := sort_by String.ltb (title_of movie_titles)
                             (s0 :: sources')).
      assert (Hps : Permutation sorted (s0 :: sources')) by apply sort_by_perm.
      assert (Hnd : NoDup sorted)
        by exact (Permutation_NoDup (Permutation_sym Hps) Hnds).
      clearbody sorted.
      destruct (emit_sources n locked sorted d ranking remaining Hb Hd Hnd)
        as (d' & remaining' & E & Hd' & Hr & _).
      { intros s Hs. apply Hsrc. now apply (Permutation_in _ Hps). }
      rewrite E. cbn [bind]. apply IH; [|assumption|].
      * assert (Hs0 : In s0 (set_iter remaining)) by (apply Hsrc; now left).
        assert (Hlt : S (set_len remaining') <= set_len remaining).
        { unfold set_len.
          change (length (s0 :: set_iter remaining')
                  <= length (set_iter remaining)).
          apply NoDup_incl_length.
          - constructor; [|apply set_iter_NoDup]. rewrite Hr.
            intros [_ Hn]. apply Hn.
            apply (Permutation_in _ (Permutation_sym Hps)). now left.
          - intros y [<-|Hy]; [assumption|]. now apply Hr in Hy. }
        lia.
      * rewrite <- Hperm, <- app_assoc. apply Permutation_app_head.
        apply NoDup_Permutation.
        -- apply NoDup_app; [assumption | apply set_iter_NoDup |].
           intros y Hy Hy'. apply Hr in Hy'. tauto.
        -- apply set_iter_NoDup.
        -- intros y. rewrite in_app_iff, Hr.
           destruct (in_dec Nat.eq_dec y sorted) as [Hin|Hin].
           ++ split; [intros _ | tauto]. apply Hsrc.
              now apply (Permutation_in _ Hps).
           ++ tauto.
Qed.

Lemma nil_of_no_elements {A : Type} (l : list A) :
  (forall x, ~ In x l) -> l = [].
Proof.
  destruct l as [|x l]; [reflexivity|]. intros Hl. destruct (Hl x). now left.
Qed.

(** With nothing locked the loop emits everything in one step. *)
Lemma topo_loop_unconstrained n (movie_titles : list string) fuel remaining :
  n <= length movie_titles -> set_len remaining < fuel ->
  (forall i, In i (set_iter remaining) -> i < n) ->
  topo_loop fuel movie_titles [] (dict_const (range 0 n) 0%Z) [] remaining
  = Ok (sort_by String.ltb (title_of movie_titles) (set_iter remaining)).
Proof.
  intros Ht Hfuel Hrem. destruct fuel as [|fuel]; [lia|].
  destruct (list_eq_dec Nat.eq_dec (set_iter remaining) []) as [Erem|Erem].
  - simpl. now rewrite Erem.
  - rewrite topo_loop_unfold by assumption.
    rewrite (zero_in_degree_Ok n _ remaining (keys_are_const n) Hrem).
    cbn [bind]. rewrite filter_all.
    2:{ intros i Hi. unfold dict_get_default.
        rewrite dict_const_get; [reflexivity|]. apply range_In.
        specialize (Hrem i Hi). lia. }
    destruct (set_iter remaining) as [|r0 rest] eqn:Er; [congruence|].
    rewrite sort_by_title_Ok by (intros i Hi; specialize (Hrem i Hi); lia).
    cbn [bind].
    set (sorted := sort_by String.ltb (title_of movie_titles) (r0 :: rest)).
    assert (Hps : Permutation sorted (r0 :: rest)) by apply sort_by_perm.
    assert (Hnd : NoDup sorted).
    { apply (Permutation_NoDup (Permutation_sym Hps)). rewrite <- Er.
      apply set_iter_NoDup. }
    clearbody sorted.
    destruct (emit_sources n [] sorted (dict_const (range 0 n) 0%Z) []
                remaining) as (d' & remaining' & E & _ & Hr & Hl).
    { intros k s []. }
    { apply keys_are_const. }
    { assumption. }
    { intros s Hs. rewrite Er. now apply (Permutation_in _ Hps). }
    rewrite E, (Hl eq_refl). cbn [bind].
    assert (Hempty : set_iter remaining' = []).
    { apply nil_of_no_elements. intros x Hx. apply Hr in Hx.
      destruct Hx as [Hx Hn]. apply Hn. rewrite Er in Hx.
      now apply (Permutation_in _ (Permutation_sym Hps)). }
    assert (Hf : 1 <= fuel).
    { unfold set_len in Hfuel. rewrite Er in Hfuel. simpl in Hfuel. lia. }
    destruct fuel as [|fuel]; [lia|]. simpl. now rewrite Hempty.
Qed.

(** [compute_ranked_pairs] on a well-formed input, stage by stage. *)
Lemma compute_ranked_pairs_stages (movie_ids : list Z)
    (movie_titles : list string) (m : matrix) :
  let n := length movie_ids in
  mat_wf n m -> n <= length movie_titles ->
  exists ranking locked,
    compute_ranked_pairs movie_ids movie_titles m = Ok (ranking, locked) /\
    lock_pairs (sort_pairs (all_pairs n m)) = Ok locked /\
    acyclic locked /\
    Permutation ranking (range 0 n).
Proof.
  intros n Hwf Ht. unfold compute_ranked_pairs. fold n.
  rewrite (collect_pairs_Ok n m Hwf). cbn [bind].
  destruct (lock_pairs_acyclic (sort_pairs (all_pairs n m)))
    as (locked & El & Hac).
  rewrite El. cbn [bind].
  assert (Hb : sd_bounded n locked).
  { apply (lock_pairs_bounded n _ locked) in El; [assumption|].
    intros p Hp. apply sort_by_In in Hp. now apply all_pairs_range in Hp. }
  destruct (locked_in_degree_Ok n locked Hb) as (d & Ed & Hd).
  rewrite Ed. cbn [bind].
  destruct (topo_loop_perm n movie_titles locked Hb Ht (S n) d []
              (set_of_list (range 0 n))) as (r & Er & Hr).
  - unfold set_len.
    rewrite (Permutation_length (set_of_list_perm _ (range_NoDup 0 n))).
    unfold range. rewrite length_seq. lia.
  - assumption.
  - simpl. apply set_of_list_perm, range_NoDup.
  - rewrite Er. cbn [bind]. exists r, locked. repeat split; assumption.
Qed.
End TopoSort.

End Topo.

Import Topo.

(* ================================================================== *)
(** * Properties of [compute_ranked_pairs] *)
(* ================================================================== *)

Lemma wrap64_small (z : Z) : is_int64 z -> wrap64 z = z.
Proof.
  unfold is_int64, wrap64. intros Hz. rewrite Z.mod_small; lia.
Qed.

Lemma StronglySorted_weaken {A : Type} (R R' : A -> A -> Prop) (l : list A) :
  (forall x y, In x l -> In y l -> R x y -> R' x y) ->
  StronglySorted R l -> StronglySorted R' l.
Proof.
  intros HR Hs. induction Hs as [|x l Hs IH Hx]; constructor.
  - apply IH. intros a b Ha Hb. apply HR; now right.
  - rewrite Forall_forall in *. intros y Hy.
    apply HR; [now left | now right | now apply Hx].
Qed.

(** C1.  For every candidate list and every [n] x [n] matrix,
    [compute_ranked_pairs] returns, and the ranking it returns is a
    permutation of the candidate positions [0 .. n-1]: it has length [n]
    and every position occurs in it exactly once.  Nothing is assumed of
    the entries, so the zero matrix and matrices whose locked graph
    leaves candidates unconstrained are covered. *)
Theorem C1_ranking_is_permutation `{PySet nat} (movie_ids : list Z)
    (movie_titles : list string) (m : Condorcet.matrix) :
  mat_wf (length movie_ids) m ->
  length movie_titles = length movie_ids ->
  exists ranking locked,
    Condorcet.compute_ranked_pairs movie_ids movie_titles m
    = Ok (ranking, locked) /\
    Permutation ranking (range 0 (length movie_ids)) /\
    length ranking = length movie_ids /\
    forall i, i < length movie_ids ->
              count_occ Nat.eq_dec ranking i = 1.
Proof.
  intros Hwf Ht.
  destruct (compute_ranked_pairs_stages movie_ids movie_titles m Hwf)
    as (ranking & locked & E & _ & _ & Hp); [lia|].
  exists ranking, locked. split; [exact E|]. split; [exact Hp|]. split.
  - rewrite (Permutation_length Hp). unfold range. rewrite length_seq. lia.
  - intros i Hi.
    assert (Hnd : NoDup ranking).
    { apply (Permutation_NoDup (Permutation_sym Hp)), range_NoDup. }
    assert (Hin : In i ranking).
    { apply (Permutation_in _ (Permutation_sym Hp)), range_In. lia. }
    apply (NoDup_count_occ' Nat.eq_dec); assumption.
Qed.

Lemma C1_ranking_is_permutation_witness :
  exists ranking locked,
    @Condorcet.compute_ranked_pairs SetOrders.ascending_positions
      [1; 2; 3]%Z ["M1"; "M2"; "M3"]%string
      [[0; 2; 2]; [0; 0; 1]; [0; 1; 0]]%Z
    = Ok (ranking, locked) /\
    Permutation ranking (range 0 3) /\
    length ranking = 3 /\
    forall i, i < 3 -> count_occ Nat.eq_dec ranking i = 1.
Proof.
  apply (@C1_ranking_is_permutation SetOrders.ascending_positions
           [1; 2; 3]%Z ["M1"; "M2"; "M3"]%string
           [[0; 2; 2]; [0; 0; 1]; [0; 1; 0]]%Z).
  - split; [reflexivity | repeat constructor].
  - reflexivity.
Defined.

(** C2.  The locked graph is acyclic.  (1) [would_create_cycle] returns,
    and answers [True] exactly when the winner can be reached from the
    loser over the edges locked so far.  (2) One locking step keeps an
    acyclic graph acyclic; it adds the edge winner -> loser only if the
    winner is not reachable from the loser, and changes nothing
    otherwise.  (3) Hence the graph is acyclic after every prefix of any
    list of pairs, and (4) the graph [compute_ranked_pairs] returns is
    acyclic, for every input on which it returns; (5) it returns on every
    [n] x [n] matrix. *)
Theorem C2_locked_graph_acyclic `{PySet nat} :
  (forall locked winner loser,
     exists b, Condorcet.would_create_cycle locked winner loser = Ok b /\
               (b = true <-> reaches locked loser winner)) /\
  (forall locked p,
     acyclic locked ->
     exists locked',
       Condorcet.lock_pair locked p = Ok locked' /\
       acyclic locked' /\
       ((reaches locked (Condorcet.pair_loser p) (Condorcet.pair_winner p) /\
         locked' = locked) \/
        (~ reaches locked (Condorcet.pair_loser p) (Condorcet.pair_winner p) /\
         locked' = sd_add (Condorcet.pair_winner p) (Condorcet.pair_loser p)
                          locked))) /\
  (forall pairs k,
     exists locked,
       Condorcet.lock_pairs (firstn k pairs) = Ok locked /\ acyclic locked) /\
  (forall movie_ids movie_titles m ranking locked,
     Condorcet.compute_ranked_pairs movie_ids movie_titles m
     = Ok (ranking, locked) ->
     acyclic locked) /\
  (forall movie_ids movie_titles m,
     mat_wf (length movie_ids) m ->
     length movie_titles = length movie_ids ->
     exists ranking locked,
       Condorcet.compute_ranked_pairs movie_ids movie_titles m
       = Ok (ranking, locked) /\ acyclic locked).
Proof.
  split; [exact would_create_cycle_spec|].
  split; [exact lock_pair_spec|].
  split; [intros pairs k; apply lock_pairs_acyclic|].
  split.
  - intros movie_ids movie_titles m ranking locked E.
    unfold Condorcet.compute_ranked_pairs in E.
    inv_bind E. inv_bind E.
    destruct (lock_pairs_acyclic (Condorcet.sort_pairs a)) as (l & El & Hac).
    rewrite El in E1. injection E1 as <-.
    inv_bind E. inv_bind E. now injection E as _ <-.
  - intros movie_ids movie_titles m Hwf Ht.
    destruct (compute_ranked_pairs_stages movie_ids movie_titles m Hwf)
      as (ranking & locked & E & _ & Hac & _); [lia|].
    now exists ranking, locked.
Qed.

Lemma C2_locked_graph_acyclic_witness :
  exists ranking locked,
    @Condorcet.compute_ranked_pairs SetOrders.ascending_positions
      [1; 2; 3]%Z ["C"; "B"; "A"]%string
      [[0; 2; 1]; [1; 0; 2]; [2; 1; 0]]%Z
    = Ok (ranking, locked) /\ acyclic locked.
Proof.
  apply (proj2 (proj2 (proj2 (proj2
           (@C2_locked_graph_acyclic SetOrders.ascending_positions))))
           [1; 2; 3]%Z ["C"; "B"; "A"]%string
           [[0; 2; 1]; [1; 0; 2]; [2; 1; 0]]%Z).
  - split; [reflexivity | repeat constructor].
  - reflexivity.
Defined.

Lemma pair_of_expected (n : nat) (m : Condorcet.matrix) (i j : nat) :
  mat_wf n m -> mat_counts m -> i < n -> j < n ->
  pair_of m i j
  = if (entry m i j =? entry m j i)%Z then [] else [expected_pair m i j].
Proof.
  intros Hwf Hc Hi Hj. unfold pair_of, expected_pair.
  pose proof (mat_counts_entry n m i j Hwf Hc Hi Hj) as Ha.
  pose proof (mat_counts_entry n m j i Hwf Hc Hj Hi) as Hb.
  destruct (Z.eqb_spec (entry m i j) (entry m j i)) as [E|E].
  - rewrite E. now rewrite Z.gtb_ltb, Z.ltb_irrefl.
  - destruct (entry m i j >? entry m j i)%Z eqn:E1.
    + apply Z.gtb_lt in E1. unfold sub64.
      rewrite wrap64_small by (unfold is_int64; lia).
      rewrite Z.abs_eq, Z.max_l by lia. reflexivity.
    + destruct (entry m j i >? entry m i j)%Z eqn:E2.
      * apply Z.gtb_lt in E2. unfold sub64.
        rewrite wrap64_small by (unfold is_int64; lia).
        rewrite Z.abs_neq, Z.max_r by lia.
        now replace (- (entry m i j - entry m j i))%Z
          with (entry m j i - entry m i j)%Z by lia.
      * rewrite Z.gtb_ltb, Z.ltb_ge in E1, E2. lia.
Qed.

(** C4.  On an [n] x [n] matrix of counts: (1) the double loop returns
    the list [all_pairs]; (2) for every unordered pair [{i, j}] that list
    holds no record when [m[i][j] = m[j][i]] and otherwise exactly one,
    whose winner is the side with the larger count, whose margin is the
    absolute difference and whose votes are the larger count; (3) every
    record is the record of such a pair; (4) the sorted list is a
    permutation of the records, (5) in descending order of margin, then
    of votes, and (6) records equal on both keys keep the order in which
    they were generated. *)
Theorem C4_pairs_generated_and_sorted (n : nat) (m : Condorcet.matrix) :
  mat_wf n m -> mat_counts m ->
  let pairs := all_pairs n m in
  let sorted := Condorcet.sort_pairs pairs in
  Condorcet.collect_pairs n m = Ok pairs /\
  (forall i j, i < j < n ->
     filter (on_pair i j) pairs
     = if (entry m i j =? entry m j i)%Z then []
       else [expected_pair m i j]) /\
  (forall p, In p pairs -> exists i j, i < j < n /\ on_pair i j p = true) /\
  Permutation sorted pairs /\
  StronglySorted stronger_pair sorted /\
  (forall margin votes,
     let tied := fun p => ((Condorcet.pair_margin p =? margin)
                           && (Condorcet.pair_votes p =? votes))%Z in
     filter tied sorted = filter tied pairs).
Proof.
  intros Hwf Hc pairs sorted.
  assert (Hrange : forall p, In p pairs ->
            (0 < Condorcet.pair_margin p < 2 ^ 63)%Z /\
            (0 < Condorcet.pair_votes p < 2 ^ 63)%Z).
  { intros p Hp. apply all_pairs_In in Hp. destruct Hp as (i & j & Hij & Hp).
    rewrite (pair_of_expected n) in Hp by (assumption || lia).
    pose proof (mat_counts_entry n m i j Hwf Hc) as Ha.
    pose proof (mat_counts_entry n m j i Hwf Hc) as Hb.
    destruct (Z.eqb_spec (entry m i j) (entry m j i)) as [E|E];
      [destruct Hp|].
    destruct Hp as [<-|[]]. unfold expected_pair. simpl.
    unfold Condorcet.pair_margin, Condorcet.pair_votes. simpl. lia. }
  split; [now apply collect_pairs_Ok|].
  split.
  { intros i j Hij. unfold pairs. rewrite all_pairs_on_pair by assumption.
    apply (pair_of_expected n); assumption || lia. }
  split.
  { intros p Hp. apply all_pairs_In in Hp. destruct Hp as (i & j & Hij & Hp).
    exists i, j. split; [assumption|]. apply pair_of_In in Hp. unfold on_pair.
    destruct Hp as [[-> ->]|[-> ->]]; rewrite !Nat.eqb_refl; simpl;
      [reflexivity | apply orb_true_r]. }
  split; [apply sort_by_perm|].
  split.
  - apply (StronglySorted_weaken (key_le lex_ltb Condorcet.pair_key)).
    + intros p q Hp Hq. apply sort_by_In in Hp, Hq.
      destruct (Hrange p Hp) as [Hmp Hvp]. destruct (Hrange q Hq) as [Hmq Hvq].
      unfold key_le, lex_ltb, Condorcet.pair_key, stronger_pair, neg64. simpl.
      rewrite !wrap64_small by (unfold is_int64; lia).
      rewrite orb_false_iff, andb_false_iff, !Z.ltb_ge, Z.eqb_neq. lia.
    + apply sort_by_sorted. exact lex_ltb_total.
  - intros margin votes tied. apply sort_by_stable.
    + intros y. apply (ltb_irrefl (ltb := lex_ltb)).
    + intros y z Hy Hz. unfold tied in Hy, Hz.
      apply andb_true_iff in Hy, Hz. rewrite !Z.eqb_eq in Hy, Hz.
      unfold Condorcet.pair_key. destruct Hy as [-> ->], Hz as [-> ->].
      reflexivity.
Qed.

Lemma C4_pairs_generated_and_sorted_witness :
  let m := [[0; 2; 2]; [0; 0; 1]; [0; 1; 0]]%Z in
  Condorcet.collect_pairs 3 m = Ok (all_pairs 3 m) /\
  Condorcet.sort_pairs (all_pairs 3 m)
  = [(0, 1, 2%Z, 2%Z); (0, 2, 2%Z, 2%Z)].
Proof.
  intros m.
  destruct (C4_pairs_generated_and_sorted 3 m) as (E & _).
  - split; [reflexivity | repeat constructor].
  - unfold mat_counts, m. repeat constructor; lia.
  - split; [exact E | reflexivity].
Defined.

(* ================================================================== *)
(** * The pairwise matrix *)
(* ================================================================== *)

Module MatrixFacts.
Import Condorcet.

Lemma contribution_range (rank_map : dict Z Z) (a b : Z) :
  (0 <= contribution rank_map a b <= 1)%Z.
Proof.
  unfold contribution.
  destruct (dict_get a rank_map), (dict_get b rank_map); try lia.
  destruct (_ <? _)%Z; lia.
Qed.

Lemma votes_for_range (rank_maps : list (dict Z Z)) (a b : Z) :
  (0 <= votes_for rank_maps a b <= Z.of_nat (length rank_maps))%Z.
Proof.
  unfold votes_for. induction rank_maps as [|rm l IH]; simpl; [lia|].
  pose proof (contribution_range rm a b). lia.
Qed.

Lemma list_set_length {A : Type} (i : nat) (x : A) (l : list A) :
  length (list_set i x l) = length l.
Proof.
  revert i. induction l as [|y l IH]; intros [|i]; simpl; auto.
Qed.

Lemma list_set_nth {A : Type} (i k : nat) (x d : A) (l : list A) :
  i < length l ->
  nth k (list_set i x l) d = if k =? i then x else nth k l d.
Proof.
  revert i k. induction l as [|y l IH]; intros i k Hi; simpl in Hi; [lia|].
  destruct i as [|i], k as [|k]; simpl; try reflexivity.
  apply IH. lia.
Qed.

Lemma list_set_In {A : Type} (i : nat) (x y : A) (l : list A) :
  In y (list_set i x l) -> y = x \/ In y l.
Proof.
  revert i. induction l as [|z l IH]; intros i; destruct i as [|i]; simpl;
    try tauto.
  - intros [->|Hy]; tauto.
  - intros [->|Hy]; [tauto|]. destruct (IH i Hy); tauto.
Qed.

(** [matrix[i][j] += 1] inside the array. *)
Lemma mat_incr_Ok (n : nat) (m : matrix) (i j : nat) :
  mat_wf n m -> i < n -> j < n ->
  exists m',
    mat_incr m i j = Ok m' /\ mat_wf n m' /\
    forall i' j',
      entry m' i' j'
      = if (i' =? i) && (j' =? j) then add64 (entry m i j) 1
        else entry m i' j'.
Proof.
  intros Hwf Hi Hj. unfold mat_incr.
  pose proof (mat_wf_row n m i Hwf Hi) as Hrow. destruct Hwf as [Hl Hr].
  rewrite (getitem_Ok m i []) by lia. cbn [bind].
  rewrite (getitem_Ok _ j 0%Z) by lia. cbn [bind].
  eexists. split; [reflexivity|]. split.
  - split; [now rewrite list_set_length|].
    apply Forall_forall. intros row Hin. apply list_set_In in Hin.
    destruct Hin as [->|Hin].
    + now rewrite list_set_length.
    + rewrite Forall_forall in Hr. now apply Hr.
  - intros i' j'. unfold entry. rewrite list_set_nth by lia.
    destruct (Nat.eqb_spec i' i) as [->|Hne]; simpl; [|reflexivity].
    rewrite list_set_nth by lia. now destruct (j' =? j).
Qed.

(** One voter at one cell: the cell grows by the voter's contribution
    and no other cell changes. *)
Lemma tally_spec (n : nat) (rank_map : dict Z Z) (i j : nat) (a b : Z)
    (m : matrix) :
  mat_wf n m -> i < n -> j < n ->
  (0 <= entry m i j < 2 ^ 63 - 1)%Z ->
  exists m',
    tally rank_map i j a b m = Ok m' /\ mat_wf n m' /\
    entry m' i j = (entry m i j + contribution rank_map a b)%Z /\
    forall i' j', (i', j') <> (i, j) -> entry m' i' j' = entry m i' j'.
Proof.
  intros Hwf Hi Hj Hv.
  assert (Hsame : exists m', Ok m = Ok m' /\ mat_wf n m' /\
            entry m' i j = (entry m i j + 0)%Z /\
            forall i' j', (i', j') <> (i, j) -> entry m' i' j' = entry m i' j').
  { exists m. split; [reflexivity|]. split; [assumption|].
    split; [lia | reflexivity]. }
  assert (Hincr : exists m', mat_incr m i j = Ok m' /\ mat_wf n m' /\
            entry m' i j = (entry m i j + 1)%Z /\
            forall i' j', (i', j') <> (i, j) -> entry m' i' j' = entry m i' j').
  { destruct (mat_incr_Ok n m i j Hwf Hi Hj) as (m' & E & Hwf' & He).
    exists m'. split; [exact E|]. split; [exact Hwf'|]. split.
    - rewrite He, !Nat.eqb_refl. simpl. unfold add64.
      apply wrap64_small. unfold is_int64. lia.
    - intros i' j' Hne. rewrite He.
      destruct (Nat.eqb_spec i' i) as [->|]; [|reflexivity].
      destruct (Nat.eqb_spec j' j) as [->|]; [congruence | reflexivity]. }
  unfold tally, contribution.
  destruct (dict_get a rank_map) as [ra|]; [|exact Hsame].
  destruct (dict_get b rank_map) as [rb|]; [|exact Hincr].
  destruct (ra <? rb)%Z; assumption.
Qed.

Lemma foldM_id {A St : Type} (f : St -> A -> result St) (l : list A) (s : St) :
  (forall s x, In x l -> f s x = Ok s) -> foldM f l s = Ok s.
Proof.
  intros Hf. induction l as [|x l IH]; simpl; [reflexivity|].
  rewrite Hf by now left. simpl. apply IH. intros s' y Hy. apply Hf.
  now right.
Qed.

Section Voters.
Context {E : Type} (rank_map_of : E -> dict Z Z).
Variable step : nat -> nat -> Z -> Z -> matrix -> E -> result matrix.
Hypothesis step_tally : forall i j a b m e,
    step i j a b m e = tally (rank_map_of e) i j a b m.

(** Lines 209-222: all voters at one cell. *)
Lemma tally_all (n i j : nat) (a b : Z) (user_rankings : list E) :
  i < n -> j < n ->
  forall m,
    mat_wf n m ->
    (0 <= entry m i j)%Z ->
    (entry m i j + Z.of_nat (length user_rankings) < 2 ^ 63)%Z ->
    exists m',
      foldM (step i j a b) user_rankings m = Ok m' /\ mat_wf n m' /\
      entry m' i j
      = (entry m i j + votes_for (map rank_map_of user_rankings) a b)%Z /\
      forall i' j', (i', j') <> (i, j) -> entry m' i' j' = entry m i' j'.
Proof.
  intros Hi Hj. induction user_rankings as [|e l IH]; intros m Hwf H0 Hlt.
  - exists m. unfold votes_for. simpl. split; [reflexivity|].
    split; [assumption|]. split; [lia | reflexivity].
  - simpl foldM. rewrite step_tally.
    simpl length in Hlt. rewrite Nat2Z.inj_succ in Hlt.
    destruct (tally_spec n (rank_map_of e) i j a b m Hwf Hi Hj)
      as (m1 & E1 & Hwf1 & Hc1 & Ho1); [lia|].
    rewrite E1. cbn [bind].
    pose proof (contribution_range (rank_map_of e) a b) as Hr.
    destruct (IH m1 Hwf1) as (m' & E' & Hwf' & Hc' & Ho'); [lia | lia |].
    exists m'. split; [exact E'|]. split; [exact Hwf'|]. split.
    + rewrite Hc', Hc1. unfold votes_for. simpl. lia.
    + intros i' j' Hne. rewrite Ho', Ho1 by assumption. reflexivity.
Qed.

Lemma foldM_enumerate {St : Type} (P : nat -> St -> Prop)
    (f : St -> nat * Z -> result St) (ids : list Z) :
  (forall k s, k < length ids -> P k s ->
     exists s', f s (k, nth k ids 0%Z) = Ok s' /\ P (k + 1) s') ->
  forall s, P 0 s ->
  exists s', foldM f (enumerate ids) s = Ok s' /\ P (length ids) s'.
Proof.
  unfold enumerate.
  assert (G : forall l a,
            (forall k s, k < length l -> P (a + k) s ->
               exists s', f s (a + k, nth k l 0%Z) = Ok s' /\ P (a + k + 1) s') ->
            forall s, P a s ->
            exists s', foldM f (combine (seq a (length l)) l) s = Ok s' /\
                       P (a + length l) s').
  { induction l as [|x l IH]; intros a Hf s Hs; simpl.
    - exists s. now rewrite Nat.add_0_r.
    - destruct (Hf 0 s) as (s1 & E1 & H1); [simpl; lia | now rewrite Nat.add_0_r |].
      rewrite Nat.add_0_r in E1. simpl in E1. rewrite E1. cbn [bind].
      destruct (IH (S a)) with (s := s1) as (s' & E' & H').
      + intros k s0 Hk Hs0.
        destruct (Hf (S k) s0) as (s2 & E2 & H2); [simpl; lia | |].
        * now replace (a + S k) with (S a + k) by lia.
        * exists s2. replace (S a + k) with (a + S k) by lia.
          split; [exact E2 | exact H2].
      + replace (S a) with (a + 0 + 1) by lia. exact H1.
      + exists s'. split; [exact E'|].
        now replace (a + S (length l)) with (S a + length l) by lia. }
  intros Hf s Hs. apply (G ids 0); assumption.
Qed.

Lemma fill_spec (ids : list Z) (user_rankings : list E) :
  let n := length ids in
  (Z.of_nat (length user_rankings) < 2 ^ 63)%Z ->
  exists m,
    fill step ids user_rankings (mat_zeros n) = Ok m /\ mat_wf n m /\
    forall i j, i < n -> j < n ->
                entry m i j = cell rank_map_of ids user_rankings i j.
Proof.
  intros n Hlt. unfold fill.
  set (P := fun (k : nat) (m : matrix) =>
              mat_wf n m /\
              forall i j, i < n -> j < n ->
                entry m i j
                = if i <? k then cell rank_map_of ids user_rankings i j
                  else 0%Z).
  destruct (foldM_enumerate P
    (fun m (ia : nat * Z) =>
       let '(i, a) := ia in
       foldM
         (fun m (jb : nat * Z) =>
            let '(j, b) := jb in
            if i =? j then Ok m
            else foldM (step i j a b) user_rankings m)
         (enumerate ids) m) ids) with (s := mat_zeros n)
    as (m & Em & Hwf & Hm).
  - intros i m Hi [Hwf Hm]. cbv beta iota.
    set (Q := fun (k : nat) (m' : matrix) =>
                mat_wf n m' /\
                forall i' j, i' < n -> j < n ->
                  entry m' i' j
                  = if i' <? i then cell rank_map_of ids user_rankings i' j
                    else if (i' =? i) && (j <? k)
                         then cell rank_map_of ids user_rankings i j else 0%Z).
    destruct (foldM_enumerate Q
      (fun m (jb : nat * Z) =>
         let '(j, b) := jb in
         if i =? j then Ok m
         else foldM (step i j (nth i ids 0%Z) b) user_rankings m) ids)
      with (s := m) as (m' & Em' & Hwf' & Hm').
    + intros j m1 Hj [Hwf1 Hm1]. cbv beta iota.
      destruct (Nat.eqb_spec i j) as [<-|Hne].
      * exists m1. split; [reflexivity|]. split; [assumption|].
        intros i' j' Hi' Hj'. rewrite Hm1 by assumption.
        destruct (i' <? i) eqn:E1; [reflexivity|].
        destruct (Nat.eqb_spec i' i) as [->|Hn]; simpl; [|reflexivity].
        destruct (Nat.ltb_spec j' i), (Nat.ltb_spec j' (i + 1));
          try reflexivity; try lia.
        assert (j' = i) as -> by lia.
        unfold cell. now rewrite Nat.eqb_refl.
      * destruct (tally_all n i j (nth i ids 0%Z) (nth j ids 0%Z)
                    user_rankings Hi Hj m1 Hwf1)
          as (m2 & E2 & Hwf2 & Hc2 & Ho2).
        { rewrite Hm1 by assumption.
          rewrite Nat.ltb_irrefl, Nat.eqb_refl, Nat.ltb_irrefl. simpl. lia. }
        { rewrite Hm1 by assumption.
          rewrite Nat.ltb_irrefl, Nat.eqb_refl, Nat.ltb_irrefl. simpl. lia. }
        exists m2. split; [exact E2|]. split; [assumption|].
        intros i' j' Hi' Hj'.
        destruct (Nat.eq_dec i' i) as [->|Hni];
          [destruct (Nat.eq_dec j' j) as [->|Hnj]|].
        -- rewrite Hc2, Hm1 by assumption.
           rewrite Nat.ltb_irrefl, Nat.eqb_refl, Nat.ltb_irrefl. simpl.
           replace (j <? j + 1) with true by (symmetry; apply Nat.ltb_lt; lia).
           unfold cell. destruct (Nat.eqb_spec i j); [contradiction|].
           reflexivity.
        -- rewrite Ho2 by congruence. rewrite Hm1 by assumption.
           rewrite Nat.ltb_irrefl, Nat.eqb_refl. simpl.
           destruct (Nat.ltb_spec j' j), (Nat.ltb_spec j' (j + 1));
             try reflexivity; lia.
        -- rewrite Ho2 by congruence. rewrite Hm1 by assumption.
           destruct (i' <? i); [reflexivity|].
           destruct (Nat.eqb_spec i' i); [contradiction | reflexivity].
    + split; [assumption|]. intros i' j Hi' Hj. rewrite Hm by assumption.
      destruct (i' <? i); [reflexivity|].
      replace (j <? 0) with false by (symmetry; apply Nat.ltb_ge; lia).
      now rewrite andb_false_r.
    + exists m'. split; [exact Em'|]. split; [assumption|].
      intros i' j Hi' Hj. rewrite Hm' by assumption. fold n.
      destruct (Nat.ltb_spec i' i), (Nat.ltb_spec i' (i + 1));
        try reflexivity; try lia.
      * assert (i' = i) as -> by lia. rewrite Nat.eqb_refl. simpl.
        now replace (j <? n) with true by (symmetry; apply Nat.ltb_lt; lia).
      * destruct (Nat.eqb_spec i' i); [lia | reflexivity].
  - split; [apply mat_zeros_wf|]. intros i j Hi Hj. simpl.
    now apply mat_zeros_entry.
  - exists m. split; [exact Em|]. split; [assumption|].
    intros i j Hi Hj. rewrite Hm by assumption.
    now replace (i <? length ids) with true
      by (symmetry; apply Nat.ltb_lt; exact Hi).
Qed.

(** Without voters the loops leave the matrix as it is. *)
Lemma fill_no_voters (ids : list Z) (m : matrix) : fill step ids [] m = Ok m.
Proof.
  unfold fill. apply foldM_id. intros m1 [i a] _.
  apply foldM_id. intros m2 [j b] _. now destruct (i =? j).
Qed.
End Voters.

Lemma mat_ext (n : nat) (m m' : matrix) :
  mat_wf n m -> mat_wf n m' ->
  (forall i j, i < n -> j < n -> entry m i j = entry m' i j) -> m = m'.
Proof.
  intros Hwf Hwf' He. apply (nth_ext m m' [] []).
  - destruct Hwf, Hwf'. congruence.
  - intros i Hi. assert (Hin : i < n) by (destruct Hwf; lia).
    apply (nth_ext _ _ 0%Z 0%Z).
    + now rewrite (mat_wf_row n m), (mat_wf_row n m').
    + intros j Hj. rewrite (mat_wf_row n m) in Hj by assumption.
      now apply He.
Qed.

End MatrixFacts.

Import MatrixFacts.

(** C3.  For every ordered pair [(i, j)], [i <> j], and every voter the
    matrix builder adds to [matrix[i][j]] exactly that voter's
    [contribution]: one when both candidates are in the rank map and
    [rank(i) < rank(j)], one when [i] is in the rank map and [j] is not,
    and nothing in every other case (1, 2); and the entry the builder
    returns is the unweighted sum of the contributions of all voters (3).
    Both files hold: [compute_condorcet_matrix] (a) and
    [compute_vote_matrix] (b).  The entries are int64 values, so the
    number of voters is taken below 2^63. *)
Theorem C3_matrix_counts_contributions `{PySet Z} :
  (forall rank_map a b,
     (contribution rank_map a b = 1%Z <->
      (exists ra rb, dict_get a rank_map = Some ra /\
                     dict_get b rank_map = Some rb /\ (ra < rb)%Z) \/
      (exists ra, dict_get a rank_map = Some ra /\
                  dict_get b rank_map = None)) /\
     (contribution rank_map a b = 0%Z \/ contribution rank_map a b = 1%Z)) /\
  (forall n m i j a b (e : string * Condorcet.ranking),
     mat_wf n m -> i < n -> j < n -> (0 <= entry m i j < 2 ^ 63 - 1)%Z ->
     exists m',
       Condorcet.tally_user i j a b m e = Ok m' /\ mat_wf n m' /\
       entry m' i j
       = (entry m i j + contribution (Condorcet.rank_map (snd e)) a b)%Z /\
       forall i' j', (i', j') <> (i, j) -> entry m' i' j' = entry m i' j') /\
  (forall n m i j a b (e : string * dict Z Z),
     mat_wf n m -> i < n -> j < n -> (0 <= entry m i j < 2 ^ 63 - 1)%Z ->
     exists m',
       Vote.tally_user i j a b m e = Ok m' /\ mat_wf n m' /\
       entry m' i j = (entry m i j + contribution (snd e) a b)%Z /\
       forall i' j', (i', j') <> (i, j) -> entry m' i' j' = entry m i' j') /\
  (forall movie_ids (user_rankings : dict string Condorcet.ranking),
     (Z.of_nat (length user_rankings) < 2 ^ 63)%Z ->
     exists m,
       Condorcet.build_matrix movie_ids user_rankings = Ok m /\
       mat_wf (length movie_ids) m /\
       forall i j, i < length movie_ids -> j < length movie_ids ->
         entry m i j
         = if i =? j then 0%Z
           else votes_for
                  (map (fun e => Condorcet.rank_map (snd e)) user_rankings)
                  (nth i movie_ids 0%Z) (nth j movie_ids 0%Z)) /\
  (forall option_ids (user_rankings : dict string (dict Z Z)),
     (Z.of_nat (length user_rankings) < 2 ^ 63)%Z ->
     exists m,
       Vote.fill_matrix option_ids user_rankings
                        (Condorcet.mat_zeros (length option_ids)) = Ok m /\
       mat_wf (length option_ids) m /\
       forall i j, i < length option_ids -> j < length option_ids ->
         entry m i j
         = if i =? j then 0%Z
           else votes_for (map snd user_rankings)
                          (nth i option_ids 0%Z) (nth j option_ids 0%Z)).
Proof.
  split.
  { intros rank_map a b. unfold contribution.
    destruct (dict_get a rank_map) as [ra|], (dict_get b rank_map) as [rb|].
    - destruct (Z.ltb_spec ra rb); split; try tauto.
      + split; [intros _ | reflexivity]. left. now exists ra, rb.
      + split; [discriminate|].
        intros [(ra' & rb' & [= <-] & [= <-] & Hlt)|(ra' & _ & [=])]. lia.
    - split; [|tauto]. split; [intros _ | reflexivity]. right. now exists ra.
    - split; [|tauto]. split; [discriminate|].
      intros [(ra' & rb' & [=] & _)|(ra' & [=] & _)].
    - split; [|tauto]. split; [discriminate|].
      intros [(ra' & rb' & [=] & _)|(ra' & [=] & _)]. }
  split.
  { intros n m i j a b e. apply (tally_spec n (Condorcet.rank_map (snd e))). }
  split.
  { intros n m i j a b e. apply (tally_spec n (snd e)). }
  split.
  - intros movie_ids user_rankings Hlt.
    apply (fill_spec (fun e : string * Condorcet.ranking =>
                        Condorcet.rank_map (snd e)) Condorcet.tally_user);
      [reflexivity | assumption].
  - intros option_ids user_rankings Hlt.
    apply (fill_spec (fun e : string * dict Z Z => snd e) Vote.tally_user);
      [reflexivity | assumption].
Qed.

Lemma C3_matrix_counts_contributions_witness :
  exists m,
    @Condorcet.build_matrix SetOrders.ascending_order [1; 2; 3]%Z two_voters
    = Ok m /\
    entry m 0 1 = 2%Z /\ entry m 2 1 = 1%Z /\ entry m 1 2 = 1%Z.
Proof.
  destruct (proj1 (proj2 (proj2 (proj2
             (@C3_matrix_counts_contributions SetOrders.ascending_order))))
             [1; 2; 3]%Z two_voters)
    as (m & E & _ & He).
  - reflexivity.
  - exists m. split; [exact E|].
    rewrite (He 0 1), (He 2 1), (He 1 2) by (simpl; lia).
    repeat split.
Defined.

Lemma collect_no_prefs_condorcet `{PySet Z}
    (attendees : list (string * list Condorcet.pref)) (s : pyset) :
  Forall (fun a => snd a = []) attendees ->
  Condorcet.collect_user_rankings attendees s = Ok [].
Proof.
  intros Ha. unfold Condorcet.collect_user_rankings. apply foldM_id.
  intros ur [uid prefs] Hin. rewrite Forall_forall in Ha.
  specialize (Ha _ Hin). simpl in Ha. now subst.
Qed.

Lemma collect_no_prefs_vote `{PySet Z}
    (voters : list (string * list Vote.pref)) (s : pyset) :
  Forall (fun a => snd a = []) voters ->
  Vote.collect_user_rankings voters s = Ok [].
Proof.
  intros Ha. unfold Vote.collect_user_rankings. apply foldM_id.
  intros ur [uid prefs] Hin. rewrite Forall_forall in Ha.
  specialize (Ha _ Hin). simpl in Ha. now subst.
Qed.

Lemma titles_Ok (movies : dict Z string) :
  exists titles,
    mapM (fun mid => dict_getitem mid movies) (dict_keys movies) = Ok titles /\
    length titles = length movies.
Proof.
  exists (map (fun mid => dict_get_default mid EmptyString movies)
              (dict_keys movies)).
  split.
  - apply mapM_Ok. intros mid Hmid. unfold dict_getitem, dict_get_default.
    destruct (dict_get mid movies) eqn:E; [reflexivity|].
    apply dict_get_None in E. contradiction.
  - unfold dict_keys. now rewrite !length_map.
Qed.

(** C7.  With no participating voter (every attendee's list of
    statements is empty, or there is no attendee) both builders return
    the all-zero matrix; on it no pair record is generated, nothing is
    locked, and the ranking [compute_ranked_pairs] returns is the list of
    all candidates sorted ascending by label: the single topological
    step emits every candidate, sorted by label. *)
Theorem C7_no_voters_alphabetical {SZ : PySet Z} {SN : PySet nat}
    (movies : dict Z string) (attendees : list (string * list Condorcet.pref)) :
  Forall (fun a => snd a = []) attendees ->
  let n := length movies in
  exists titles ranking,
    Condorcet.compute_condorcet_matrix movies attendees
    = Ok (dict_keys movies, titles, Condorcet.mat_zeros n) /\
    Vote.compute_vote_matrix movies attendees
    = Ok (dict_keys movies, titles, Condorcet.mat_zeros n) /\
    Condorcet.collect_pairs n (Condorcet.mat_zeros n) = Ok [] /\
    Condorcet.compute_ranked_pairs (dict_keys movies) titles
                                   (Condorcet.mat_zeros n)
    = Ok (ranking, []) /\
    ranking = sort_by String.ltb (title_of titles)
                      (set_iter (set_of_list (range 0 n))) /\
    Permutation ranking (range 0 n) /\
    StronglySorted (title_le titles) ranking.
Proof.
  intros Ha n. destruct (titles_Ok movies) as (titles & Et & Hlen).
  assert (Hn : length (dict_keys movies) = n)
    by (unfold dict_keys; apply length_map).
  exists titles. eexists. split; [|split; [|split; [|split; [|split;
    [reflexivity|split]]]]].
  - unfold Condorcet.compute_condorcet_matrix. rewrite Et. cbn [bind].
    rewrite collect_no_prefs_condorcet by assumption. cbn [bind].
    change (Condorcet.build_matrix (dict_keys movies) [])
      with (fill Condorcet.tally_user (dict_keys movies) []
                 (Condorcet.mat_zeros (length (dict_keys movies)))).
    rewrite fill_no_voters, Hn. reflexivity.
  - unfold Vote.compute_vote_matrix. rewrite Et, Hn. cbn [bind].
    destruct attendees as [|a attendees]; [reflexivity|].
    rewrite collect_no_prefs_vote by assumption. cbn [bind].
    change (Vote.fill_matrix (dict_keys movies) [] (Condorcet.mat_zeros n))
      with (fill Vote.tally_user (dict_keys movies) [] (Condorcet.mat_zeros n)).
    rewrite fill_no_voters. reflexivity.
  - rewrite (collect_pairs_Ok n) by apply mat_zeros_wf.
    now rewrite all_pairs_zeros.
  - unfold Condorcet.compute_ranked_pairs. rewrite Hn.
    rewrite (collect_pairs_Ok n) by apply mat_zeros_wf.
    rewrite all_pairs_zeros. cbn [bind].
    change (Condorcet.sort_pairs []) with (@nil Condorcet.pair_record).
    change (Condorcet.lock_pairs []) with (@Ok (setdict nat) []).
    cbn [bind].
    change (Condorcet.locked_in_degree n [])
      with (Ok (dict_const (range 0 n) 0%Z)).
    cbn [bind].
    rewrite (topo_loop_unconstrained n).
    + reflexivity.
    + lia.
    + unfold set_len.
      rewrite (Permutation_length (set_of_list_perm _ (range_NoDup 0 n))).
      unfold range. rewrite length_seq. lia.
    + intros i Hi. apply set_of_list_In, range_In in Hi. lia.
  - rewrite sort_by_perm. apply set_of_list_perm, range_NoDup.
  - apply sort_by_title_sorted.
Qed.

Lemma C7_no_voters_alphabetical_witness :
  exists titles ranking,
    @Condorcet.compute_condorcet_matrix SetOrders.ascending_order
      [(7, "Casablanca"); (8, "Alien"); (9, "Brazil")]%Z%string
      [("u1"%string, [])]
    = Ok ([7; 8; 9]%Z, titles, Condorcet.mat_zeros 3) /\
    @Condorcet.compute_ranked_pairs SetOrders.ascending_positions
      [7; 8; 9]%Z titles (Condorcet.mat_zeros 3)
    = Ok (ranking, []) /\
    ranking = [1; 2; 0].
Proof.
  destruct (@C7_no_voters_alphabetical SetOrders.ascending_order
              SetOrders.ascending_positions
              [(7, "Casablanca"); (8, "Alien"); (9, "Brazil")]%Z%string
              [("u1"%string, [])])
    as (titles & ranking & E1 & _ & _ & E2 & E3 & _).
  - repeat constructor.
  - exists titles, ranking. split; [exact E1|]. split; [exact E2|].
    rewrite E3. simpl in E1. injection E1 as <-. reflexivity.
Defined.

(* ================================================================== *)
(** * One voter's graphs *)
(* ================================================================== *)

Module VoterGraph.
Import Condorcet.

Section Graphs.
Context `{PySet Z}.
Implicit Types (graph : setdict Z) (prefs : list pref).

Lemma compared_In prefs x :
  In x (set_iter (compared_movie_ids prefs)) <-> appears x prefs.
Proof.
  unfold compared_movie_ids, appears.
  assert (G : forall s,
            In x (set_iter (fold_left
              (fun s (p : pref) =>
                 let '(movie_a, movie_b, _) := p in
                 set_add movie_b (set_add movie_a s)) prefs s)) <->
            In x (set_iter s) \/
            exists a b p, In (a, b, p) prefs /\ (x = a \/ x = b)).
  { induction prefs as [|[[a b] p] prefs IH]; intros s; simpl.
    - split; [tauto | intros [?|(a & b & p & [] & _)]; assumption].
    - rewrite IH, !set_add_iter. split.
      + intros [[->|[->|Hs]]|(a' & b' & p' & Hin & Hx)].
        * right. exists a, b, p. tauto.
        * right. exists a, b, p. tauto.
        * now left.
        * right. exists a', b', p'. tauto.
      + intros [Hs|(a' & b' & p' & [[= <- <- <-]|Hin] & Hx)].
        * tauto.
        * tauto.
        * right. exists a', b', p'. tauto. }
  rewrite G, set_iter_empty. simpl. tauto.
Qed.

Lemma movies_to_rank_In prefs (unwatched : pyset) x :
  In x (movies_to_rank prefs unwatched) <->
  appears x prefs /\ set_mem x unwatched = true.
Proof.
  unfold movies_to_rank. now rewrite filter_In, compared_In.
Qed.

Lemma movies_to_rank_NoDup prefs (unwatched : pyset) :
  NoDup (movies_to_rank prefs unwatched).
Proof. apply NoDup_filter, set_iter_NoDup. Qed.

(** ** The directed graph *)

Lemma sd_touch_present graph k y : edge graph k y -> sd_touch k graph = graph.
Proof.
  unfold edge, sd_get, sd_touch.
  destruct (dict_get k graph); [reflexivity | intros []].
Qed.

(** An edge that is already there: nothing changes. *)
Lemma add_edge_present graph (in_degree : dict Z Z) from to :
  edge graph from to ->
  add_edge from to (graph, in_degree) = Ok (graph, in_degree).
Proof.
  intros He. unfold add_edge. rewrite (sd_touch_present graph from to He).
  assert (set_mem to (dict_get_default from set_empty graph) = true) as ->.
  { apply set_mem_iter. now rewrite sd_get_default. }
  reflexivity.
Qed.

Lemma add_edge_spec graph (in_degree : dict Z Z) from to :
  In to (dict_keys in_degree) ->
  exists graph' in_degree',
    add_edge from to (graph, in_degree) = Ok (graph', in_degree') /\
    dict_keys in_degree' = dict_keys in_degree /\
    forall x y, edge graph' x y <-> (x = from /\ y = to) \/ edge graph x y.
Proof.
  intros Hk. unfold add_edge.
  destruct (set_mem to (dict_get_default from set_empty (sd_touch from graph)))
    eqn:E.
  - exists (sd_touch from graph), in_degree. split; [reflexivity|].
    split; [reflexivity|]. intros x y. rewrite edge_touch.
    apply set_mem_iter in E. rewrite sd_get_default, sd_get_touch in E.
    split; [tauto | intros [[-> ->]|?]; assumption].
  - destruct (dict_incr_Ok to 1 in_degree Hk) as (d' & -> & Hd').
    cbn [bind]. exists (sd_add from to (sd_touch from graph)), d'.
    split; [reflexivity|]. split; [assumption|].
    intros x y. now rewrite edge_add, edge_touch.
Qed.

Lemma build_graph_step_spec (to_rank : list Z) graph (in_degree : dict Z Z)
    (p : pref) :
  (forall x, In x (dict_keys in_degree) <-> In x to_rank) ->
  exists graph' in_degree',
    build_graph_step (set_of_list to_rank) (graph, in_degree) p
    = Ok (graph', in_degree') /\
    (forall x, In x (dict_keys in_degree') <-> In x to_rank) /\
    forall x y, edge graph' x y <->
                wanted to_rank [p] x y \/ edge graph x y.
Proof.
  intros Hk. destruct p as [[a b] pref]. unfold build_graph_step.
  assert (Hnone : directed_edge (a, b, pref) = None \/
                  ~ In a to_rank \/ ~ In b to_rank ->
            exists graph' in_degree',
              Ok (graph, in_degree) = Ok (graph', in_degree') /\
              (forall x, In x (dict_keys in_degree') <-> In x to_rank) /\
              forall x y, edge graph' x y <->
                          wanted to_rank [(a, b, pref)] x y \/ edge graph x y).
  { intros Hn. exists graph, in_degree. split; [reflexivity|].
    split; [assumption|]. intros x y. split; [tauto|].
    intros [(p & [<-|[]] & Hp & Hx & Hy)|?]; [|assumption].
    destruct Hn as [Hn|Hn]; [congruence|]. simpl in Hp.
    destruct (pref >? 0)%Z; [injection Hp as <- <-; tauto|].
    destruct (pref <? 0)%Z; [injection Hp as <- <-; tauto | discriminate]. }
  destruct (set_mem a (set_of_list to_rank)) eqn:Ea; simpl.
  2:{ apply Hnone. right. left. intros Hin.
      apply set_mem_of_list in Hin. congruence. }
  destruct (set_mem b (set_of_list to_rank)) eqn:Eb; simpl.
  2:{ apply Hnone. right. right. intros Hin.
      apply set_mem_of_list in Hin. congruence. }
  apply set_mem_of_list in Ea, Eb.
  assert (Hedge : forall from to,
            directed_edge (a, b, pref) = Some (from, to) ->
            exists graph' in_degree',
              add_edge from to (graph, in_degree) = Ok (graph', in_degree') /\
              (forall x, In x (dict_keys in_degree') <-> In x to_rank) /\
              forall x y, edge graph' x y <->
                          wanted to_rank [(a, b, pref)] x y \/ edge graph x y).
  { intros from to Hd.
    assert (Hft : In from to_rank /\ In to to_rank).
    { simpl in Hd. destruct (pref >? 0)%Z; [injection Hd as <- <-; tauto|].
      destruct (pref <? 0)%Z; [injection Hd as <- <-; tauto | discriminate]. }
    destruct (add_edge_spec graph in_degree from to) as (g' & d' & E & Hd' & He).
    { apply Hk. tauto. }
    exists g', d'. split; [exact E|]. split.
    - intros x. rewrite Hd'. apply Hk.
    - intros x y. rewrite He. split.
      + intros [[-> ->]|?]; [|tauto]. left. exists (a, b, pref).
        simpl. tauto.
      + intros [(p & [<-|[]] & Hp & _)|?]; [|tauto].
        left. rewrite Hd in Hp. injection Hp as <- <-. tauto. }
  destruct (pref >? 0)%Z eqn:E1.
  - apply Hedge. simpl. now rewrite E1.
  - destruct (pref <? 0)%Z eqn:E2.
    + apply Hedge. simpl. now rewrite E1, E2.
    + apply Hnone. left. simpl. now rewrite E1, E2.
Qed.

Lemma wanted_app (to_rank : list Z) prefs1 prefs2 x y :
  wanted to_rank (prefs1 ++ prefs2) x y <->
  wanted to_rank prefs1 x y \/ wanted to_rank prefs2 x y.
Proof.
  unfold wanted. split.
  - intros (p & Hin & Hp). apply in_app_or in Hin.
    destruct Hin; [left | right]; exists p; tauto.
  - intros [(p & Hin & Hp)|(p & Hin & Hp)]; exists p;
      (split; [apply in_or_app; tauto | assumption]).
Qed.

(** The loop of lines 86-99 from any state whose in-degree table has
    the movies to rank as keys. *)
Lemma build_graph_from (to_rank : list Z) prefs graph (in_degree : dict Z Z) :
  (forall x, In x (dict_keys in_degree) <-> In x to_rank) ->
  exists graph' in_degree',
    foldM (build_graph_step (set_of_list to_rank)) prefs (graph, in_degree)
    = Ok (graph', in_degree') /\
    (forall x, In x (dict_keys in_degree') <-> In x to_rank) /\
    forall x y, edge graph' x y <->
                wanted to_rank prefs x y \/ edge graph x y.
Proof.
  revert graph in_degree.
  induction prefs as [|p prefs IH]; intros graph in_degree Hk.
  - exists graph, in_degree. split; [reflexivity|]. split; [assumption|].
    intros x y. split; [tauto | intros [(p & [] & _)|?]; assumption].
  - simpl foldM.
    destruct (build_graph_step_spec to_rank graph in_degree p Hk)
      as (g1 & d1 & -> & Hk1 & He1).
    cbn [bind]. destruct (IH g1 d1 Hk1) as (g2 & d2 & E2 & Hk2 & He2).
    exists g2, d2. split; [exact E2|]. split; [assumption|].
    intros x y. rewrite He2, He1.
    change (p :: prefs) with ([p] ++ prefs). rewrite wanted_app. tauto.
Qed.

(** [build_graph] returns, and its edges are the wanted ones. *)
Lemma build_graph_spec (to_rank : list Z) prefs :
  exists graph in_degree,
    build_graph prefs (set_of_list to_rank) to_rank = Ok (graph, in_degree) /\
    forall x y, edge graph x y <-> wanted to_rank prefs x y.
Proof.
  unfold build_graph.
  destruct (build_graph_from to_rank prefs [] (dict_const to_rank 0%Z))
    as (g & d & E & _ & He).
  { intros x. apply dict_const_keys. }
  exists g, d. split; [exact E|]. intros x y. rewrite He.
  split; [intros [?|[]]; assumption | tauto].
Qed.

(** The state after the loop: the in-degree table has the movies to
    rank as keys and the edges are the wanted ones. *)
Lemma build_graph_state (to_rank : list Z) prefs :
  exists graph in_degree,
    build_graph prefs (set_of_list to_rank) to_rank = Ok (graph, in_degree) /\
    (forall x, In x (dict_keys in_degree) <-> In x to_rank) /\
    forall x y, edge graph x y <-> wanted to_rank prefs x y.
Proof.
  unfold build_graph.
  destruct (build_graph_from to_rank prefs [] (dict_const to_rank 0%Z))
    as (g & d & E & Hk & He).
  { intros x. apply dict_const_keys. }
  exists g, d. split; [exact E|]. split; [exact Hk|]. intros x y.
  rewrite He. split; [intros [?|[]]; assumption | tauto].
Qed.

(** A statement that asks for no edge, or for an edge that is already
    there, leaves the graph and the in-degrees as they are. *)
Lemma build_graph_step_ignored (to_rank : list Z) graph
    (in_degree : dict Z Z) (p : pref) :
  (forall x y, directed_edge p = Some (x, y) ->
               In x to_rank -> In y to_rank -> edge graph x y) ->
  build_graph_step (set_of_list to_rank) (graph, in_degree) p
  = Ok (graph, in_degree).
Proof.
  intros Hw. destruct p as [[a b] pref]. unfold build_graph_step.
  destruct (set_mem a (set_of_list to_rank)) eqn:Ea; [|reflexivity].
  destruct (set_mem b (set_of_list to_rank)) eqn:Eb; [|reflexivity].
  apply set_mem_of_list in Ea, Eb. cbn [negb orb]. simpl in Hw.
  destruct (pref >? 0)%Z.
  - rewrite add_edge_present; [reflexivity|]. now apply Hw.
  - destruct (pref <? 0)%Z; [|reflexivity].
    rewrite add_edge_present; [reflexivity|]. now apply Hw.
Qed.

(** An edge that is not there yet is added, and the in-degree of its
    head goes up by one. *)
Lemma add_edge_new graph (in_degree : dict Z Z) from to :
  ~ edge graph from to -> In to (dict_keys in_degree) ->
  exists k,
    dict_get to in_degree = Some k /\
    add_edge from to (graph, in_degree)
    = Ok (sd_add from to (sd_touch from graph),
          dict_set to (k + 1)%Z in_degree).
Proof.
  intros Hn Hk. unfold add_edge.
  assert (set_mem to (dict_get_default from set_empty (sd_touch from graph))
          = false) as ->.
  { apply set_mem_false. now rewrite sd_get_default, sd_get_touch. }
  destruct (dict_get to in_degree) as [k|] eqn:E.
  - exists k. split; [reflexivity|].
    unfold dict_incr, dict_getitem. now rewrite E.
  - apply dict_get_None in E. contradiction.
Qed.

Lemma build_graph_step_new (to_rank : list Z) graph (in_degree : dict Z Z)
    (p : pref) (x y : Z) :
  directed_edge p = Some (x, y) -> In x to_rank -> In y to_rank ->
  ~ edge graph x y -> In y (dict_keys in_degree) ->
  exists k,
    dict_get y in_degree = Some k /\
    build_graph_step (set_of_list to_rank) (graph, in_degree) p
    = Ok (sd_add x y (sd_touch x graph), dict_set y (k + 1)%Z in_degree).
Proof.
  intros Hd Hx Hy Hn Hk. destruct p as [[a b] pref].
  unfold build_graph_step. simpl in Hd.
  assert (Hab : In a to_rank /\ In b to_rank).
  { destruct (pref >? 0)%Z; [injection Hd as <- <-; tauto|].
    destruct (pref <? 0)%Z; [injection Hd as <- <-; tauto | discriminate]. }
  destruct Hab as [Ha Hb].
  apply set_mem_of_list in Ha, Hb. rewrite Ha, Hb. cbn [negb orb].
  destruct (pref >? 0)%Z.
  - injection Hd as <- <-. now apply add_edge_new.
  - destruct (pref <? 0)%Z; [|discriminate].
    injection Hd as <- <-. now apply add_edge_new.
Qed.
End Graphs.

End VoterGraph.

Import VoterGraph.

(** C8, counterexample.  A voter states [1 > 2] and then [2 > 1]
    ([(1, 2, 1)] and [(1, 2, -1)]): the second statement adds the edge
    [2 -> 1] and raises the in-degree of 1. *)
Lemma C8_counterexample :
  @Condorcet.build_graph SetOrders.ascending_order
    [(1, 2, 1)]%Z (set_of_list [1; 2]%Z) [1; 2]%Z
  = Ok ([(1, [2])], [(1, 0); (2, 1)])%Z /\
  @Condorcet.build_graph SetOrders.ascending_order
    [(1, 2, 1); (1, 2, -1)]%Z (set_of_list [1; 2]%Z) [1; 2]%Z
  = Ok ([(1, [2]); (2, [1])], [(1, 1); (2, 1)])%Z /\
  ~ later_duplicates_ignored SetOrders.ascending_order.
Proof.
  split; [reflexivity|]. split; [reflexivity|].
  intros Hc.
  specialize (Hc [1; 2]%Z [] (1, 2, 1)%Z [] (1, 2, -1)%Z).
  simpl in Hc. specialize (Hc (or_introl (conj eq_refl eq_refl))).
  vm_compute in Hc. discriminate Hc.
Qed.

(** C8, as the code has it.  The graph keeps one edge per ordered pair.
    [build_graph] returns on every list of statements, in both files,
    with the edges the statements ask for among the movies to rank.

    (1) A later statement is ignored when it is a tie, or when it asks
    for a directed edge that an earlier statement asked for: the
    function returns the same graph and the same in-degrees as without
    it, wherever it stands after the earlier one.

    (2) A later statement that asks for a directed edge [x -> y] which
    no earlier statement asked for is not ignored, whatever was said
    about the pair before: the edge is not yet there, it is added and
    is the only edge added, the in-degree of [y] goes up by one and no
    other in-degree changes, and the edge is still there at the end of
    the loop.  When an earlier statement asked for the opposite edge
    [y -> x], the graph has both edges afterwards, so the second
    statement about an unordered pair is recorded when it reverses the
    first. *)
Theorem C8_first_directed_edge_kept `{PySet Z} (to_rank : list Z) :
  (forall prefs,
     exists graph in_degree,
       Condorcet.build_graph prefs (set_of_list to_rank) to_rank
       = Ok (graph, in_degree) /\
       Vote.build_graph prefs (set_of_list to_rank) to_rank
       = Ok (graph, in_degree) /\
       forall x y, edge graph x y <-> wanted to_rank prefs x y) /\
  (forall pre s' post,
     directed_edge s' = None \/
     (exists s, In s pre /\ directed_edge s = directed_edge s') ->
     Condorcet.build_graph (pre ++ s' :: post) (set_of_list to_rank) to_rank
     = Condorcet.build_graph (pre ++ post) (set_of_list to_rank) to_rank /\
     Vote.build_graph (pre ++ s' :: post) (set_of_list to_rank) to_rank
     = Vote.build_graph (pre ++ post) (set_of_list to_rank) to_rank) /\
  (forall pre s' x y,
     directed_edge s' = Some (x, y) -> In x to_rank -> In y to_rank ->
     (forall s, In s pre -> directed_edge s <> Some (x, y)) ->
     exists graph in_degree graph' in_degree',
       Condorcet.build_graph pre (set_of_list to_rank) to_rank
       = Ok (graph, in_degree) /\
       Condorcet.build_graph (pre ++ [s']) (set_of_list to_rank) to_rank
       = Ok (graph', in_degree') /\
       Vote.build_graph pre (set_of_list to_rank) to_rank
       = Ok (graph, in_degree) /\
       Vote.build_graph (pre ++ [s']) (set_of_list to_rank) to_rank
       = Ok (graph', in_degree') /\
       ~ edge graph x y /\
       (forall u v, edge graph' u v <-> (u = x /\ v = y) \/ edge graph u v) /\
       (exists k, dict_get y in_degree = Some k /\
                  dict_get y in_degree' = Some (k + 1)%Z) /\
       (forall z, z <> y -> dict_get z in_degree' = dict_get z in_degree) /\
       (forall s, In s pre -> directed_edge s = Some (y, x) ->
                  edge graph y x /\ edge graph' y x /\ edge graph' x y) /\
       (forall post,
          exists graph'' in_degree'',
            Condorcet.build_graph (pre ++ s' :: post) (set_of_list to_rank)
                                  to_rank
            = Ok (graph'', in_degree'') /\
            edge graph'' x y)).
Proof.
  split; [|split].
  - intros prefs.
    destruct (build_graph_spec to_rank prefs) as (g & d & E & He).
    exists g, d. split; [exact E|]. split; [exact E | exact He].
  - intros pre s' post Hs.
    assert (G : Condorcet.build_graph (pre ++ s' :: post)
                  (set_of_list to_rank) to_rank
                = Condorcet.build_graph (pre ++ post)
                    (set_of_list to_rank) to_rank);
      [|split; exact G].
    destruct (build_graph_state to_rank pre) as (g & d & E & _ & He).
    unfold Condorcet.build_graph in *. rewrite !foldM_app, E.
    cbn [bind foldM]. rewrite build_graph_step_ignored; [reflexivity|].
    intros x y Hxy Hx Hy. destruct Hs as [Hn|(s & Hin & Hd)]; [congruence|].
    apply He. exists s. split; [assumption|]. rewrite Hd. tauto.
  - intros pre s' x y Hd Hx Hy Hnew.
    destruct (build_graph_state to_rank pre) as (g & d & E & Hk & He).
    assert (Hn : ~ edge g x y).
    { intros Hxy. apply He in Hxy. destruct Hxy as (s & Hin & Hs & _).
      exact (Hnew s Hin Hs). }
    destruct (build_graph_step_new to_rank g d s' x y Hd Hx Hy Hn)
      as (k & Ek & Es); [now apply Hk|].
    assert (G : Condorcet.build_graph (pre ++ [s']) (set_of_list to_rank)
                  to_rank
                = Ok (sd_add x y (sd_touch x g), dict_set y (k + 1)%Z d)).
    { unfold Condorcet.build_graph in *. rewrite foldM_app, E.
      cbn [bind foldM]. rewrite Es. reflexivity. }
    assert (Hedges : forall u v,
              edge (sd_add x y (sd_touch x g)) u v
              <-> (u = x /\ v = y) \/ edge g u v).
    { intros u v. now rewrite edge_add, edge_touch. }
    exists g, d, (sd_add x y (sd_touch x g)), (dict_set y (k + 1)%Z d).
    split; [exact E|]. split; [exact G|]. split; [exact E|].
    split; [exact G|]. split; [exact Hn|]. split; [exact Hedges|].
    split; [|split; [|split]].
    + exists k. split; [exact Ek | apply dict_get_set_eq].
    + intros z Hz. apply dict_get_set_ne. congruence.
    + intros s Hin Hs.
      assert (Hyx : edge g y x).
      { apply He. exists s. tauto. }
      split; [exact Hyx|]. split; apply Hedges; tauto.
    + intros post.
      destruct (build_graph_spec to_rank (pre ++ s' :: post))
        as (g2 & d2 & E2 & He2).
      exists g2, d2. split; [exact E2|]. apply He2. exists s'.
      split; [apply in_or_app; right; now left | tauto].
Qed.

Lemma C8_first_directed_edge_kept_witness :
  (@Condorcet.build_graph SetOrders.ascending_order
     ([(1, 2, 1); (2, 3, 1)]%Z ++ (2, 1, -5)%Z :: [(3, 1, 0)%Z])
     (set_of_list [1; 2; 3]%Z) [1; 2; 3]%Z
   = @Condorcet.build_graph SetOrders.ascending_order
       ([(1, 2, 1); (2, 3, 1)]%Z ++ [(3, 1, 0)%Z])
       (set_of_list [1; 2; 3]%Z) [1; 2; 3]%Z) /\
  exists graph in_degree graph' in_degree',
    @Condorcet.build_graph SetOrders.ascending_order
      [(1, 2, 1); (2, 3, 1)]%Z (set_of_list [1; 2; 3]%Z) [1; 2; 3]%Z
    = Ok (graph, in_degree) /\
    @Condorcet.build_graph SetOrders.ascending_order
      ([(1, 2, 1); (2, 3, 1)]%Z ++ [(1, 2, -1)%Z])
      (set_of_list [1; 2; 3]%Z) [1; 2; 3]%Z
    = Ok (graph', in_degree') /\
    edge graph 1%Z 2%Z /\ ~ edge graph 2%Z 1%Z /\
    edge graph' 1%Z 2%Z /\ edge graph' 2%Z 1%Z /\
    (exists k, dict_get 1%Z in_degree = Some k /\
               dict_get 1%Z in_degree' = Some (k + 1)%Z).
Proof.
  pose proof (@C8_first_directed_edge_kept SetOrders.ascending_order
                [1; 2; 3]%Z) as (_ & Hsame & Hnew).
  split.
  - apply (Hsame [(1, 2, 1); (2, 3, 1)]%Z (2, 1, -5)%Z [(3, 1, 0)%Z]).
    right. exists (1, 2, 1)%Z. split; [now left | reflexivity].
  - destruct (Hnew [(1, 2, 1); (2, 3, 1)]%Z (1, 2, -1)%Z 2%Z 1%Z)
      as (g & d & g' & d' & E & E' & _ & _ & Hn & _ & Hk & _ & Hopp & _).
    + reflexivity.
    + right. now left.
    + now left.
    + intros s [<-|[<-|[]]]; discriminate.
    + destruct (Hopp (1, 2, 1)%Z) as (H12 & H12' & H21');
        [now left | reflexivity |].
      exists g, d, g', d'. split; [exact E|]. split; [exact E'|].
      split; [exact H12|]. split; [exact Hn|]. split; [exact H12'|].
      split; [exact H21' | exact Hk].
Defined.

(* ================================================================== *)
(** * Connected components of one voter's comparisons *)
(* ================================================================== *)

Module Components.
Import Condorcet.

Section Comps.
Context `{PySet Z}.
Implicit Types (cg : setdict Z) (visited : pyset).

Lemma comparison_graph_spec (to_rank : list Z) (prefs : list pref) x y :
  edge (build_comparison_graph prefs (set_of_list to_rank)) x y <->
  compared_pair to_rank prefs x y.
Proof.
  unfold build_comparison_graph, compared_pair.
  assert (G : forall cg,
    edge (fold_left
      (fun cg (p : pref) =>
         let '(movie_a, movie_b, _) := p in
         if set_mem movie_a (set_of_list to_rank)
            && set_mem movie_b (set_of_list to_rank)
         then sd_add movie_b movie_a (sd_add movie_a movie_b cg)
         else cg) prefs cg) x y <->
    edge cg x y \/
    exists a b p, In (a, b, p) prefs /\ In a to_rank /\ In b to_rank /\
                  ((x = a /\ y = b) \/ (x = b /\ y = a))).
  { induction prefs as [|[[a b] p] prefs IH]; intros cg; simpl.
    - split; [tauto | intros [?|(a & b & p & [] & _)]; assumption].
    - rewrite IH. clear IH.
      destruct (set_mem a (set_of_list to_rank)) eqn:Ea;
        [destruct (set_mem b (set_of_list to_rank)) eqn:Eb|]; simpl.
      + apply set_mem_of_list in Ea, Eb. rewrite !edge_add. split.
        * intros [[[-> ->]|[[-> ->]|Hc]]|(a' & b' & p' & Hin & Hx)].
          -- right. exists a, b, p. tauto.
          -- right. exists a, b, p. tauto.
          -- now left.
          -- right. exists a', b', p'. tauto.
        * intros [Hc|(a' & b' & p' & [[= <- <- <-]|Hin] & Ha & Hb & Hx)].
          -- tauto.
          -- tauto.
          -- right. exists a', b', p'. tauto.
      + split.
        * intros [Hc|(a' & b' & p' & Hin & Hx)]; [now left|].
          right. exists a', b', p'. tauto.
        * intros [Hc|(a' & b' & p' & [[= <- <- <-]|Hin] & Ha & Hb & Hx)].
          -- now left.
          -- apply set_mem_of_list in Hb. congruence.
          -- right. exists a', b', p'. tauto.
      + split.
        * intros [Hc|(a' & b' & p' & Hin & Hx)]; [now left|].
          right. exists a', b', p'. tauto.
        * intros [Hc|(a' & b' & p' & [[= <- <- <-]|Hin] & Ha & Hb & Hx)].
          -- now left.
          -- apply set_mem_of_list in Ha. congruence.
          -- right. exists a', b', p'. tauto. }
  rewrite G. split; [intros [[]|?]; assumption | tauto].
Qed.

Lemma comparison_graph_symmetric (to_rank : list Z) (prefs : list pref) :
  symmetric (build_comparison_graph prefs (set_of_list to_rank)).
Proof.
  intros x y. rewrite !comparison_graph_spec.
  intros (a & b & p & Hin & Ha & Hb & Hxy). exists a, b, p. tauto.
Qed.

Lemma comparison_graph_nodes (to_rank : list Z) (prefs : list pref) x y :
  edge (build_comparison_graph prefs (set_of_list to_rank)) x y ->
  In x to_rank /\ In y to_rank.
Proof.
  rewrite comparison_graph_spec.
  intros (a & b & p & Hin & Ha & Hb & [[-> ->]|[-> ->]]); tauto.
Qed.

(** ** [dfs] *)

Lemma push_unvisited_In visited (neighbors stack : list Z) x :
  In x (push_unvisited visited neighbors stack) <->
  (In x neighbors /\ set_mem x visited = false) \/ In x stack.
Proof.
  unfold push_unvisited. revert stack.
  induction neighbors as [|n neighbors IH]; intros stack; simpl; [tauto|].
  rewrite IH. destruct (set_mem n visited) eqn:E; simpl.
  - split; [tauto|]. intros [[[->|Hx] Hv]|Hs]; try tauto. congruence.
  - split; [intros [?|[->|?]]; tauto | tauto].
Qed.

Lemma push_unvisited_length visited (neighbors stack : list Z) :
  length (push_unvisited visited neighbors stack)
  <= length neighbors + length stack.
Proof.
  unfold push_unvisited. revert stack.
  induction neighbors as [|n neighbors IH]; intros stack; simpl; [lia|].
  destruct (set_mem n visited); [specialize (IH stack); lia|].
  specialize (IH (n :: stack)). simpl in IH. lia.
Qed.

Section Dfs.
Variable cg : setdict Z.
Hypothesis cg_sym : symmetric cg.
Variable visited0 : pyset.
Hypothesis visited0_closed : closed cg visited0.
Variable start : Z.
Hypothesis start_new : ~ In start (set_iter visited0).

Lemma dfs_loop_spec fuel :
  forall visited component stack,
    length stack + sd_weight visited cg < fuel ->
    dfs_inv cg visited0 start visited component stack ->
    exists visited' c,
      dfs_loop fuel cg visited component stack = Ok (visited', c) /\
      (forall x, In x (set_iter visited') <->
                 In x (set_iter visited0) \/ In x c) /\
      is_component cg start c /\
      closed cg visited'.
Proof.
  induction fuel as [|fuel IH]; intros visited component stack Hfuel Hinv;
    [lia|].
  destruct Hinv as (I1 & I2 & I3 & I4 & I5 & I6).
  simpl. destruct stack as [|node stack].
  - destruct I6 as [[_ [=]]|(rest & ->)].
    exists visited, (start :: rest). split; [reflexivity|].
    split; [assumption|].
    assert (Hcl : closed cg visited).
    { intros u Hu v Hv. destruct (I5 u Hu v Hv) as [?|[]]. assumption. }
    split; [|assumption]. split; [assumption|]. split; [now exists rest|].
    intros y. split; [apply I3|]. intros Hy.
    assert (Hv : In y (set_iter visited)).
    { apply (reaches_closed cg (fun x => In x (set_iter visited)))
        with (u := start); [| assumption |].
      - intros u v Hu Huv. exact (Hcl u Hu v Huv).
      - apply I1. right. now left. }
    apply I1 in Hv. destruct Hv as [Hv|Hv]; [|assumption].
    exfalso. apply start_new.
    apply (reaches_closed cg (fun x => In x (set_iter visited0)))
      with (u := y); [| now apply reaches_sym | assumption].
    intros u v Hu Huv. exact (visited0_closed u Hu v Huv).
  - simpl in Hfuel. destruct (set_mem node visited) eqn:Ev.
    + apply set_mem_iter in Ev. apply IH; [lia|].
      split; [assumption|]. split; [assumption|]. split; [assumption|].
      split; [intros x Hx; apply I4; now right|].
      split.
      * intros u Hu v Hv. destruct (I5 u Hu v Hv) as [?|[<-|?]]; tauto.
      * destruct I6 as [[-> [= -> ->]]|?]; [|now right].
        exfalso. apply I1 in Ev. destruct Ev as [?|[]]. contradiction.
    + apply set_mem_false in Ev.
      assert (Hnode : reaches cg start node) by (apply I4; now left).
      apply IH.
      * pose proof (push_unvisited_length (set_add node visited)
                      (sd_get node cg) stack).
        assert (Ev' : set_mem node visited = false)
          by now apply set_mem_false.
        pose proof (sd_weight_add visited cg node Ev'). lia.
      * split; [|split; [|split; [|split; [|split]]]].
        -- intros x. rewrite set_add_iter, I1, in_app_iff. simpl.
           intuition congruence.
        -- apply NoDup_app; [assumption | repeat constructor; intros [] |].
           intros x Hx [<-|[]]. apply Ev, I1. now right.
        -- intros x Hx. apply in_app_or in Hx.
           destruct Hx as [Hx|[<-|[]]]; [now apply I3 | assumption].
        -- intros x Hx. apply push_unvisited_In in Hx.
           destruct Hx as [[Hx _]|Hx]; [|apply I4; now right].
           now apply reaches_step with node.
        -- intros u Hu v Hv. rewrite push_unvisited_In.
           destruct (set_mem v (set_add node visited)) eqn:E.
           ++ left. now apply set_mem_iter.
           ++ right. apply set_add_iter in Hu.
              destruct Hu as [->|Hu]; [now left|].
              destruct (I5 u Hu v Hv) as [Hin|[<-|Hin]].
              ** apply set_mem_false in E. exfalso. apply E.
                 apply set_add_iter. now right.
              ** apply set_mem_false in E. exfalso. apply E.
                 apply set_add_iter. now left.
              ** now right.
        -- right. destruct I6 as [[-> [= -> ->]]|(rest & ->)].
           ++ now exists [].
           ++ now exists (rest ++ [node]).
Qed.

Lemma dfs_spec :
  exists visited' c,
    dfs cg visited0 start = Ok (visited', c) /\
    (forall x, In x (set_iter visited') <->
               In x (set_iter visited0) \/ In x c) /\
    is_component cg start c /\
    closed cg visited'.
Proof.
  unfold dfs. apply dfs_loop_spec.
  - pose proof (sd_weight_le_size visited0 cg). simpl. lia.
  - split; [intros x; simpl; tauto|]. split; [constructor|].
    split; [intros x []|].
    split; [intros x [<-|[]]; constructor|].
    split; [|now left].
    intros u Hu v Hv. left. exact (visited0_closed u Hu v Hv).
Qed.
End Dfs.

(** ** [find_components] *)

Lemma find_components_spec cg (to_rank : list Z) :
  symmetric cg ->
  exists visited components,
    find_components cg to_rank = Ok (visited, components) /\
    discovered cg to_rank components /\
    (forall x, In x to_rank -> exists c, In c components /\ In x c).
Proof.
  intros Hsym. unfold find_components.
  set (P := fun (walked : list Z) (st : pyset * list (list Z)) =>
              closed cg (fst st) /\
              (forall x, In x (set_iter (fst st)) <->
                         exists c, In c (snd st) /\ In x c) /\
              (forall x, In x walked -> In x (set_iter (fst st))) /\
              discovered cg walked (snd st)).
  destruct (foldM_inv_prefix P
    (fun (st : pyset * list (list Z)) mid =>
       let '(visited, components) := st in
       if set_mem mid visited then Ok st
       else
         '(visited, component) <- dfs cg visited mid ;;
         Ok (visited, components ++ [component]))
    to_rank) with (s := (set_empty, @nil (list Z)))
    as ([visited components] & E & Hcl & Hv & Hw & Hd).
  - intros walked mid [visited components] _ (Hcl & Hv & Hw & Hd).
    simpl in Hcl, Hv, Hw, Hd.
    destruct (set_mem mid visited) eqn:Em.
    + apply set_mem_iter in Em. exists (visited, components).
      split; [reflexivity|]. split; [assumption|]. split; [assumption|].
      split.
      * intros x Hx. apply in_app_or in Hx.
        destruct Hx as [Hx|[<-|[]]]; [now apply Hw | assumption].
      * apply disc_old; [assumption|]. now apply Hv.
    + apply set_mem_false in Em.
      destruct (dfs_spec cg Hsym visited Hcl mid Em)
        as (visited' & c & -> & Hv' & Hc & Hcl').
      cbn [bind]. exists (visited', components ++ [c]).
      split; [reflexivity|]. split; [assumption|]. split; [|split].
      * intros x. simpl. rewrite Hv', Hv. split.
        -- intros [(c' & Hc' & Hx)|Hx].
           ++ exists c'. split; [apply in_or_app; now left | assumption].
           ++ exists c. split; [apply in_or_app; right; now left | assumption].
        -- intros (c' & Hc' & Hx). apply in_app_or in Hc'.
           destruct Hc' as [Hc'|[<-|[]]]; [left; now exists c' | now right].
      * intros x Hx. simpl. apply Hv'. apply in_app_or in Hx.
        destruct Hx as [Hx|[<-|[]]]; [left; now apply Hw|].
        right. destruct Hc as (_ & (rest & ->) & _). now left.
      * apply disc_new; [assumption | | assumption].
        intros c' Hc' Hx. apply Em, Hv. now exists c'.
  - split; [|split; [|split]]; simpl.
    + intros u Hu. rewrite set_iter_empty in Hu. destruct Hu.
    + intros x. rewrite set_iter_empty. split; [intros [] |].
      intros (c & [] & _).
    + intros x [].
    + constructor.
  - exists visited, components. split; [exact E|]. split; [assumption|].
    intros x Hx. apply Hv, Hw, Hx.
Qed.

(** ** The main component *)

Lemma sort_components_head (components : list (list Z)) (c : list Z)
    (rest : list (list Z)) :
  sort_components components = c :: rest -> first_largest components c.
Proof.
  intros E. unfold sort_components in E.
  destruct (sort_by_head Z.ltb _ components c rest E)
    as (l1 & l2 & E' & H1 & H2).
  exists l1, l2.
  split; [assumption|]. split.
  - intros c' Hc'. specialize (H1 c' Hc'). apply Z.ltb_lt in H1. lia.
  - intros c' Hc'. specialize (H2 c' Hc'). apply Z.ltb_ge in H2. lia.
Qed.

Lemma main_component_spec (components : list (list Z)) :
  components <> [] ->
  exists c, first_largest components c /\
            main_component_of components = set_of_list c.
Proof.
  intros Hne. unfold main_component_of.
  destruct (sort_components components) as [|c rest] eqn:E.
  - exfalso. apply Hne.
    pose proof (sort_by_length Z.ltb
                  (fun x : list Z => (- Z.of_nat (length x))%Z) components)
      as Hl.
    unfold sort_components in E. rewrite E in Hl.
    destruct components; [reflexivity | discriminate].
  - exists c. split; [now apply sort_components_head with rest | reflexivity].
Qed.
End Comps.

End Components.

Import Components.

(* ================================================================== *)
(** * One voter's layered topological sort *)
(* ================================================================== *)

Module RankFacts.
Import Condorcet.

Lemma foldM_cons {A St : Type} (f : St -> A -> result St) (x : A)
    (l : list A) (s : St) :
  foldM f (x :: l) s = (s' <- f s x ;; foldM f l s').
Proof. reflexivity. Qed.

Section Rank.
Context `{PySet Z}.
Implicit Types (graph : setdict Z) (remaining main : pyset).

Lemma dict_incr_val (k : Z) (z : Z) (d : dict Z Z) :
  In k (dict_keys d) ->
  exists d',
    dict_incr k z d = Ok d' /\ dict_keys d' = dict_keys d /\
    val d' k = (val d k + z)%Z /\
    forall x, x <> k -> val d' x = val d x.
Proof.
  intros Hk. unfold dict_incr, dict_getitem, val, dict_get_default.
  destruct (dict_get k d) as [v|] eqn:E.
  - cbn [bind]. eexists. split; [reflexivity|].
    split; [now apply dict_keys_set_present|]. split.
    + now rewrite dict_get_set_eq.
    + intros x Hx. rewrite dict_get_set_ne by congruence. reflexivity.
  - apply dict_get_None in E. contradiction.
Qed.

(** ** [component_in_degree], lines 141-145 *)

Lemma count_successors main (neighbors : list Z) (d : dict Z Z) :
  (forall x, In x (dict_keys d) <-> In x (set_iter main)) ->
  exists d',
    foldM (fun d to_node =>
             if set_mem to_node main then dict_incr to_node 1 d else Ok d)
          neighbors d = Ok d' /\
    (forall x, In x (dict_keys d') <-> In x (set_iter main)) /\
    (forall x, (val d x <= val d' x)%Z) /\
    (forall x, In x neighbors -> In x (set_iter main) ->
               (val d x + 1 <= val d' x)%Z).
Proof.
  revert d. induction neighbors as [|n neighbors IH]; intros d Hk.
  - exists d. split; [reflexivity|]. split; [assumption|].
    split; [intros; lia | intros x []].
  - rewrite foldM_cons. destruct (set_mem n main) eqn:En.
    + apply set_mem_iter in En.
      destruct (dict_incr_val n 1 d) as (d1 & -> & Hk1 & Hv1 & Ho1);
        [now apply Hk|].
      cbn [bind].
      destruct (IH d1) as (d' & E' & Hk' & Hm' & Hn').
      { intros x. rewrite Hk1. apply Hk. }
      assert (Hmono : forall x, (val d x <= val d1 x)%Z).
      { intros x. destruct (Z.eq_dec x n) as [->|Hne];
          [rewrite Hv1; lia | rewrite Ho1 by assumption; lia]. }
      exists d'. split; [exact E'|]. split; [assumption|]. split.
      * intros x. specialize (Hm' x). specialize (Hmono x). lia.
      * intros x [<-|Hx] Hmain.
        -- specialize (Hm' n). lia.
        -- specialize (Hn' x Hx Hmain). specialize (Hmono x). lia.
    + cbn [bind]. destruct (IH d Hk) as (d' & E' & Hk' & Hm' & Hn').
      exists d'. split; [exact E'|]. split; [assumption|].
      split; [assumption|]. intros x [<-|Hx] Hmain.
      * apply set_mem_iter in Hmain. congruence.
      * now apply Hn'.
Qed.

Lemma component_in_degree_from graph main (nodes : list Z) (d : dict Z Z) :
  (forall x, In x (dict_keys d) <-> In x (set_iter main)) ->
  exists d',
    foldM (fun d from_node =>
             foldM (fun d to_node =>
                      if set_mem to_node main then dict_incr to_node 1 d
                      else Ok d)
                   (sd_get from_node graph) d)
          nodes d = Ok d' /\
    (forall x, In x (dict_keys d') <-> In x (set_iter main)) /\
    (forall x, (val d x <= val d' x)%Z) /\
    (forall y x, In y nodes -> edge graph y x -> In x (set_iter main) ->
                 (val d x + 1 <= val d' x)%Z).
Proof.
  revert d. induction nodes as [|n nodes IH]; intros d Hk.
  - exists d. split; [reflexivity|]. split; [assumption|].
    split; [intros; lia | intros y x []].
  - rewrite foldM_cons.
    destruct (count_successors main (sd_get n graph) d Hk)
      as (d1 & -> & Hk1 & Hm1 & Hn1).
    cbn [bind]. destruct (IH d1 Hk1) as (d' & E' & Hk' & Hm' & Hn').
    exists d'. split; [exact E'|]. split; [assumption|]. split.
    + intros x. specialize (Hm1 x). specialize (Hm' x). lia.
    + intros y x [<-|Hy] He Hmain.
      * specialize (Hn1 x He Hmain). specialize (Hm' x). lia.
      * specialize (Hn' y x Hy He Hmain). specialize (Hm1 x). lia.
Qed.

(** [component_in_degree] returns a table over the main component in
    which every node with a predecessor inside the component has a
    positive count. *)
Lemma component_in_degree_spec graph main :
  exists d,
    component_in_degree graph main = Ok d /\
    (forall x, In x (dict_keys d) <-> In x (set_iter main)) /\
    (forall y x, In y (set_iter main) -> edge graph y x ->
                 In x (set_iter main) -> (1 <= val d x)%Z).
Proof.
  unfold component_in_degree.
  destruct (component_in_degree_from graph main (set_iter main)
              (dict_const (set_iter main) 0%Z))
    as (d & E & Hk & Hm & Hn).
  { intros x. apply dict_const_keys. }
  exists d. split; [exact E|]. split; [assumption|].
  intros y x Hy He Hx. specialize (Hn y x Hy He Hx).
  assert (val (dict_const (set_iter main) 0%Z) x = 0%Z).
  { unfold val, dict_get_default. now rewrite dict_const_get. }
  lia.
Qed.

(** ** The loop of lines 147-164 *)

Lemma process_source_spec graph (current_rank : Z) (rank_map : dict Z Z)
    remaining (cdeg : dict Z Z) (mid : Z) :
  (forall x, In x (set_iter remaining) -> In x (dict_keys cdeg)) ->
  exists cdeg',
    process_source graph current_rank (rank_map, remaining, cdeg) mid
    = Ok (dict_set mid current_rank rank_map, set_discard mid remaining,
          cdeg') /\
    dict_keys cdeg' = dict_keys cdeg.
Proof.
  intros Hk. unfold process_source.
  assert (G : forall l d, dict_keys d = dict_keys cdeg ->
            exists d',
              foldM (fun d neighbor =>
                       if set_mem neighbor (set_discard mid remaining)
                       then dict_incr neighbor (-1) d else Ok d) l d = Ok d' /\
              dict_keys d' = dict_keys cdeg).
  { induction l as [|n l IH]; intros d Hd; simpl.
    - now exists d.
    - destruct (set_mem n (set_discard mid remaining)) eqn:En.
      + apply set_mem_iter, set_discard_iter in En.
        destruct (dict_incr_Ok n (-1) d) as (d1 & -> & Hd1).
        { rewrite Hd. apply Hk. tauto. }
        cbn [bind]. apply IH. congruence.
      + cbn [bind]. now apply IH. }
  destruct (G (sd_get mid graph) cdeg eq_refl) as (d' & -> & Hd').
  cbn [bind]. now exists d'.
Qed.

Lemma process_sources_spec graph (current_rank : Z) (sources : list Z) :
  forall (rank_map : dict Z Z) remaining (cdeg : dict Z Z),
    (forall x, In x (set_iter remaining) -> In x (dict_keys cdeg)) ->
    exists rank_map' remaining' cdeg',
      foldM (process_source graph current_rank) sources
            (rank_map, remaining, cdeg)
      = Ok (rank_map', remaining', cdeg') /\
      dict_keys cdeg' = dict_keys cdeg /\
      (forall x, In x (set_iter remaining') <->
                 In x (set_iter remaining) /\ ~ In x sources) /\
      (forall x, In x (dict_keys rank_map') <->
                 In x (dict_keys rank_map) \/ In x sources).
Proof.
  induction sources as [|s sources IH]; intros rank_map remaining cdeg Hk.
  - exists rank_map, remaining, cdeg. split; [reflexivity|].
    split; [reflexivity|]. split; intros x; simpl; tauto.
  - rewrite foldM_cons.
    destruct (process_source_spec graph current_rank rank_map remaining
                cdeg s Hk) as (d1 & -> & Hd1).
    cbn [bind].
    destruct (IH (dict_set s current_rank rank_map)
                 (set_discard s remaining) d1)
      as (rm' & rem' & d' & E & Hd' & Hr & Hm).
    { intros x Hx. rewrite Hd1. apply Hk.
      now apply set_discard_iter in Hx. }
    exists rm', rem', d'. split; [exact E|]. split; [congruence|]. split.
    + intros x. rewrite Hr, set_discard_iter. simpl. intuition congruence.
    + intros x. rewrite Hm, dict_keys_set. simpl. intuition congruence.
Qed.

Lemma rank_loop_unfold fuel graph (rank_map : dict Z Z) remaining
    (cdeg : dict Z Z) (unranked_ids : list Z) (current_rank : Z) :
  set_iter remaining <> [] ->
  rank_loop (S fuel) graph rank_map remaining cdeg unranked_ids current_rank
  = match sources_of remaining cdeg with
    | [] => Ok (rank_map, unranked_ids ++ set_iter remaining)
    | sources =>
        '(rank_map, remaining, cdeg) <-
          foldM (process_source graph current_rank) sources
                (rank_map, remaining, cdeg) ;;
        rank_loop fuel graph rank_map remaining cdeg unranked_ids
                  (current_rank + 1)%Z
    end.
Proof.
  intros Hne. simpl. destruct (set_iter remaining); [congruence | reflexivity].
Qed.

(** The cycle exit of lines 151-154. *)
Lemma rank_loop_cycle fuel graph (rank_map : dict Z Z) remaining
    (cdeg : dict Z Z) (unranked_ids : list Z) (current_rank : Z) :
  set_iter remaining <> [] ->
  sources_of remaining cdeg = [] ->
  rank_loop (S fuel) graph rank_map remaining cdeg unranked_ids current_rank
  = Ok (rank_map, unranked_ids ++ set_iter remaining).
Proof.
  intros Hne Hs. rewrite rank_loop_unfold by assumption. now rewrite Hs.
Qed.

(** The loop returns; the candidates of [remaining] end up either with
    a rank or, appended to the unranked ones, without. *)
Lemma rank_loop_spec graph fuel :
  forall (rank_map : dict Z Z) remaining (cdeg : dict Z Z)
         (unranked_ids : list Z) (current_rank : Z),
    set_len remaining < fuel ->
    (forall x, In x (set_iter remaining) -> In x (dict_keys cdeg)) ->
    exists rank_map' left,
      rank_loop fuel graph rank_map remaining cdeg unranked_ids current_rank
      = Ok (rank_map', unranked_ids ++ left) /\
      (forall x, In x left -> In x (set_iter remaining)) /\
      (forall x, In x (dict_keys rank_map') <->
                 In x (dict_keys rank_map) \/
                 (In x (set_iter remaining) /\ ~ In x left)).
Proof.
  induction fuel as [|fuel IH];
    intros rank_map remaining cdeg unranked_ids current_rank Hfuel Hk; [lia|].
  destruct (list_eq_dec Z.eq_dec (set_iter remaining) []) as [Erem|Erem].
  - exists rank_map, []. simpl. rewrite Erem, app_nil_r.
    split; [reflexivity|]. split; [intros x [] | intros x; simpl; tauto].
  - rewrite rank_loop_unfold by assumption.
    destruct (sources_of remaining cdeg) as [|s0 sources] eqn:Es.
    + exists rank_map, (set_iter remaining). split; [reflexivity|].
      split; [tauto | intros x; tauto].
    + assert (Hsrc : forall x, In x (s0 :: sources) ->
                               In x (set_iter remaining)).
      { intros x Hx. rewrite <- Es in Hx. unfold sources_of in Hx.
        now apply filter_In in Hx. }
      destruct (process_sources_spec graph current_rank (s0 :: sources)
                  rank_map remaining cdeg Hk)
        as (rm1 & rem1 & d1 & -> & Hd1 & Hr1 & Hm1).
      cbn [bind].
      destruct (IH rm1 rem1 d1 unranked_ids (current_rank + 1)%Z)
        as (rm' & left & E & Hl & Hm').
      { assert (Hlt : S (set_len rem1) <= set_len remaining).
        { unfold set_len.
          change (length (s0 :: set_iter rem1) <= length (set_iter remaining)).
          apply NoDup_incl_length.
          - constructor; [|apply set_iter_NoDup]. rewrite Hr1.
            intros [_ Hn]. apply Hn. now left.
          - intros y [<-|Hy]; [apply Hsrc; now left | now apply Hr1 in Hy]. }
        lia. }
      { intros x Hx. rewrite Hd1. apply Hk. now apply Hr1 in Hx. }
      exists rm', left. split; [exact E|]. split.
      * intros x Hx. now apply Hl, Hr1 in Hx.
      * intros x. rewrite Hm', Hm1, Hr1.
        destruct (in_dec Z.eq_dec x (s0 :: sources)) as [Hin|Hin].
        -- split; [intros _ | tauto]. right. split; [now apply Hsrc|].
           intros Hx. apply Hl, Hr1 in Hx. tauto.
        -- tauto.
Qed.
End Rank.

End RankFacts.

Import RankFacts.

(* ================================================================== *)
(** * [compute_user_rankings], stage by stage *)
(* ================================================================== *)

Module Resolver.
Import Condorcet.

Section Stages.
Context `{PySet Z}.

Lemma discovered_components (cg : setdict Z) (l : list Z)
    (cs : list (list Z)) :
  discovered cg l cs ->
  forall c, In c cs -> exists x, In x l /\ is_component cg x c.
Proof.
  induction 1 as [|walked cs x Hd IH Hold|walked cs x c0 Hd IH Hnew Hc];
    intros c Hin.
  - destruct Hin.
  - destruct (IH c Hin) as (y & Hy & Hcy). exists y.
    split; [apply in_or_app; now left | assumption].
  - apply in_app_or in Hin. destruct Hin as [Hin|[<-|[]]].
    + destruct (IH c Hin) as (y & Hy & Hcy). exists y.
      split; [apply in_or_app; now left | assumption].
    + exists x. split; [apply in_or_app; right; now left | assumption].
Qed.

Lemma movies_to_rank_nil (unwatched : pyset) : movies_to_rank [] unwatched = [].
Proof.
  unfold movies_to_rank, compared_movie_ids. simpl.
  now rewrite set_iter_empty.
Qed.

Lemma compute_user_rankings_unfold (prefs : list pref) (unwatched : pyset) :
  movies_to_rank prefs unwatched <> [] ->
  compute_user_rankings prefs unwatched
  = (let to_rank := movies_to_rank prefs unwatched in
     let movie_ids_set := set_of_list to_rank in
     '(graph, in_degree) <- build_graph prefs movie_ids_set to_rank ;;
     let comparison_graph := build_comparison_graph prefs movie_ids_set in
     '(visited, components) <- find_components comparison_graph to_rank ;;
     let main_component := main_component_of components in
     let unranked_ids :=
       filter (fun mid => negb (set_mem mid main_component)) to_rank in
     let remaining := set_of_list (set_iter main_component) in
     component_in_degree <- component_in_degree graph main_component ;;
     '(rank_map, unranked_ids) <-
       rank_loop (S (set_len remaining)) graph [] remaining
                 component_in_degree unranked_ids 1%Z ;;
     Ok (rank_map, set_of_list unranked_ids)).
Proof.
  intros Hne. unfold compute_user_rankings.
  destruct prefs as [|p prefs]; [now rewrite movies_to_rank_nil in Hne|].
  destruct (movies_to_rank (p :: prefs) unwatched); [congruence | reflexivity].
Qed.

Lemma compute_user_rankings_early (prefs : list pref) (unwatched : pyset) :
  movies_to_rank prefs unwatched = [] ->
  compute_user_rankings prefs unwatched = Ok ([], set_empty).
Proof.
  intros E. unfold compute_user_rankings.
  destruct prefs as [|p prefs]; [reflexivity|]. now rewrite E.
Qed.

(** Everything [compute_user_rankings] computes on the way, when there
    is something to rank. *)
Lemma compute_user_rankings_stages (prefs : list pref) (unwatched : pyset) :
  let to_rank := movies_to_rank prefs unwatched in
  let cg := build_comparison_graph prefs (set_of_list to_rank) in
  to_rank <> [] ->
  exists graph in_degree visited components c cdeg rank_map left,
    build_graph prefs (set_of_list to_rank) to_rank = Ok (graph, in_degree) /\
    (forall x y, edge graph x y <-> wanted to_rank prefs x y) /\
    find_components cg to_rank = Ok (visited, components) /\
    discovered cg to_rank components /\
    first_largest components c /\
    main_component_of components = set_of_list c /\
    (exists h, In h to_rank /\ is_component cg h c) /\
    component_in_degree graph (set_of_list c) = Ok cdeg /\
    (forall y x, In y c -> edge graph y x -> In x c -> (1 <= val cdeg x)%Z) /\
    (forall x, In x (dict_keys cdeg) <-> In x c) /\
    rank_loop (S (set_len (set_of_list (set_iter (set_of_list c))))) graph []
              (set_of_list (set_iter (set_of_list c))) cdeg
              (filter (fun mid => negb (set_mem mid (set_of_list c))) to_rank)
              1%Z
    = Ok (rank_map,
          filter (fun mid => negb (set_mem mid (set_of_list c))) to_rank
          ++ left) /\
    (forall x, In x left -> In x c) /\
    (forall x, In x (dict_keys rank_map) <-> In x c /\ ~ In x left) /\
    compute_user_rankings prefs unwatched
    = Ok (rank_map,
          set_of_list
            (filter (fun mid => negb (set_mem mid (set_of_list c))) to_rank
             ++ left)).
Proof.
  intros to_rank cg Hne.
  rewrite compute_user_rankings_unfold by assumption.
  fold to_rank. cbv zeta. fold cg.
  destruct (build_graph_spec to_rank prefs) as (graph & in_degree & Eg & Hg).
  rewrite Eg. cbn [bind].
  destruct (find_components_spec cg to_rank
              (comparison_graph_symmetric to_rank prefs))
    as (visited & components & Ec & Hd & Hcover).
  rewrite Ec. cbn [bind].
  assert (Hcs : components <> []).
  { destruct to_rank as [|x l]; [congruence|].
    destruct (Hcover x (or_introl eq_refl)) as (c & Hc & _).
    intros ->. destruct Hc. }
  destruct (main_component_spec components Hcs) as (c & Hfl & Em).
  rewrite Em.
  assert (Hc : exists h, In h to_rank /\ is_component cg h c).
  { apply (discovered_components cg to_rank components Hd).
    destruct Hfl as (before & after & -> & _). apply in_or_app.
    right. now left. }
  destruct (component_in_degree_spec graph (set_of_list c))
    as (cdeg & Ed & Hk & Hpos).
  rewrite Ed. cbn [bind].
  set (remaining := set_of_list (set_iter (set_of_list c))).
  assert (Hrem : forall x, In x (set_iter remaining) <-> In x c).
  { intros x. unfold remaining. now rewrite !set_of_list_In. }
  destruct (rank_loop_spec graph (S (set_len remaining)) [] remaining cdeg
              (filter (fun mid => negb (set_mem mid (set_of_list c))) to_rank)
              1%Z) as (rank_map & left & Er & Hl & Hm).
  { lia. }
  { intros x Hx. apply Hk, set_of_list_In, Hrem, Hx. }
  rewrite Er. cbn [bind].
  exists graph, in_degree, visited, components, c, cdeg, rank_map, left.
  do 8 (split; [first [reflexivity | assumption]|]). split.
  { intros y x Hy He Hx.
    apply (Hpos y x);
      [now apply set_of_list_In | assumption | now apply set_of_list_In]. }
  split.
  { intros x. rewrite Hk. apply set_of_list_In. }
  split; [exact Er|].
  split.
  { intros x Hx. now apply Hrem, Hl. }
  split; [|reflexivity].
  intros x. rewrite Hm, Hrem. simpl. tauto.
Qed.

(** The main component lies within the movies to rank. *)
Lemma component_within (to_rank : list Z) (prefs : list pref) (h : Z)
    (c : list Z) :
  In h to_rank ->
  is_component (build_comparison_graph prefs (set_of_list to_rank)) h c ->
  forall x, In x c -> In x to_rank.
Proof.
  intros Hh (_ & _ & Hc) x Hx. apply Hc in Hx.
  apply (reaches_closed
           (build_comparison_graph prefs (set_of_list to_rank))
           (fun y => In y to_rank)) with (u := h);
    [| assumption | assumption].
  intros u v _ Huv. now apply comparison_graph_nodes in Huv.
Qed.
(** [compute_user_rankings] returns on every input. *)
Lemma compute_user_rankings_returns (prefs : list pref) (unwatched : pyset) :
exists rank_map unranked_set,
  compute_user_rankings prefs unwatched = Ok (rank_map, unranked_set).
Proof.
destruct (list_eq_dec Z.eq_dec (movies_to_rank prefs unwatched) [])
  as [E|Hne].
- exists [], set_empty. now apply compute_user_rankings_early.
- destruct (compute_user_rankings_stages prefs unwatched Hne)
    as (graph & in_degree & visited & components & c & cdeg & rank_map
        & left & _ & _ & _ & _ & _ & _ & _ & _ & _ & _ & _ & _ & _ & E).
  eexists. eexists. exact E.
Qed.
End Stages.

End Resolver.

Import Resolver.

(** C5.  For every list of statements and every target set,
    [compute_user_rankings] returns a rank map and an unranked set such
    that no candidate is in both, and a candidate is in one of them
    exactly when it appears in a statement and is in the target set. *)
Theorem C5_ranked_and_unranked_partition `{PySet Z}
    (prefs : list Condorcet.pref) (unwatched_movie_ids : pyset) :
  exists rank_map unranked_set,
    Condorcet.compute_user_rankings prefs unwatched_movie_ids
    = Ok (rank_map, unranked_set) /\
    (forall x, ~ (In x (dict_keys rank_map) /\ In x (set_iter unranked_set))) /\
    (forall x, In x (dict_keys rank_map) \/ In x (set_iter unranked_set) <->
               appears x prefs /\ set_mem x unwatched_movie_ids = true).
Proof.
  destruct (list_eq_dec Z.eq_dec
              (Condorcet.movies_to_rank prefs unwatched_movie_ids) [])
    as [E|Hne].
  - exists [], set_empty.
    split; [now apply compute_user_rankings_early|]. split.
    + intros x [[] _].
    + intros x. rewrite <- movies_to_rank_In, E, set_iter_empty. simpl. tauto.
  - destruct (compute_user_rankings_stages prefs unwatched_movie_ids Hne)
      as (graph & in_degree & visited & components & c & cdeg & rank_map
          & left & _ & _ & _ & _ & _ & _ & (h & Hh & Hc) & _ & _ & _ & _
          & Hl & Hm & E).
    pose proof (component_within _ prefs h c Hh Hc) as Hin.
    eexists. eexists. split; [exact E|]. split.
    + intros x [Hx Hu]. apply Hm in Hx.
      apply set_of_list_In, in_app_or in Hu. destruct Hu as [Hu|Hu]; [|tauto].
      apply filter_In in Hu. destruct Hu as [_ Hu].
      apply negb_true_iff, set_mem_false in Hu. apply Hu.
      now apply set_of_list_In.
    + intros x. rewrite <- movies_to_rank_In, Hm, set_of_list_In, in_app_iff,
        filter_In, negb_true_iff, set_mem_false, set_of_list_In.
      split.
      * intros [[Hx _]|[[Hx _]|Hx]]; auto.
      * intros Hx. destruct (in_dec Z.eq_dec x c) as [Hc'|Hc'];
          [destruct (in_dec Z.eq_dec x left)|]; tauto.
Qed.

(* ================================================================== *)
(** * The two implementations of [compute_user_rankings] *)
(* ================================================================== *)

Module Agreement.

Section Agree.
Context `{PySet Z}.

Lemma vote_rank_loop_unfold fuel (graph : setdict Z) (rank_map : dict Z Z)
    (remaining : pyset) (cdeg : dict Z Z) (rank : Z) :
  set_iter remaining <> [] ->
  Vote.rank_loop (S fuel) graph rank_map remaining cdeg rank
  = match Condorcet.sources_of remaining cdeg with
    | [] => Ok rank_map
    | sources =>
        '(rank_map, remaining, cdeg) <-
          foldM (Condorcet.process_source graph rank) sources
                (rank_map, remaining, cdeg) ;;
        Vote.rank_loop fuel graph rank_map remaining cdeg (rank + 1)%Z
    end.
Proof.
  intros Hne. unfold Condorcet.sources_of.
  change (Vote.rank_loop (S fuel) graph rank_map remaining cdeg rank)
    with (match set_iter remaining with
          | [] => Ok rank_map
          | _ :: _ =>
              match filter
                      (fun oid => (dict_get_default oid 0 cdeg =? 0)%Z)
                      (set_iter remaining) with
              | [] => Ok rank_map
              | sources =>
                  '(rank_map, remaining, cdeg) <-
                    foldM (Condorcet.process_source graph rank) sources
                          (rank_map, remaining, cdeg) ;;
                  Vote.rank_loop fuel graph rank_map remaining cdeg
                                 (rank + 1)%Z
              end
          end).
  destruct (set_iter remaining); [congruence | reflexivity].
Qed.

Lemma rank_loop_agree (graph : setdict Z) (unranked_ids : list Z) fuel :
  forall (rank_map : dict Z Z) (remaining : pyset) (cdeg : dict Z Z)
         (rank : Z),
    Vote.rank_loop fuel graph rank_map remaining cdeg rank
    = match Condorcet.rank_loop fuel graph rank_map remaining cdeg
                                unranked_ids rank with
      | Ok (rank_map', _) => Ok rank_map'
      | Raise e => Raise e
      end.
Proof.
  induction fuel as [|fuel IH]; intros rank_map remaining cdeg rank;
    [reflexivity|].
  destruct (list_eq_dec Z.eq_dec (set_iter remaining) []) as [Er|Er].
  - simpl. now rewrite Er.
  - rewrite vote_rank_loop_unfold, rank_loop_unfold by assumption.
    destruct (Condorcet.sources_of remaining cdeg) as [|s0 sources];
      [reflexivity|].
    destruct (foldM (Condorcet.process_source graph rank) (s0 :: sources)
                    (rank_map, remaining, cdeg)) as [[[rm rem] d]|e];
      [|reflexivity].
    cbn [bind]. apply IH.
Qed.

(** [visualize_vote.py]'s function returns the rank map of
    [visualize_condorcet.py]'s, and raises when that one raises. *)
Lemma compute_user_rankings_agree (prefs : list Vote.pref)
    (option_ids_set : pyset) :
  Vote.compute_user_rankings prefs option_ids_set
  = rank_map_part (Condorcet.compute_user_rankings prefs option_ids_set).
Proof.
  unfold Vote.compute_user_rankings, Condorcet.compute_user_rankings.
  destruct prefs as [|p prefs]; [reflexivity|].
  change (Vote.to_rank_of (p :: prefs) option_ids_set)
    with (Condorcet.movies_to_rank (p :: prefs) option_ids_set).
  destruct (Condorcet.movies_to_rank (p :: prefs) option_ids_set)
    as [|z to_rank]; [reflexivity|].
  change (Vote.build_graph (p :: prefs) (set_of_list (z :: to_rank))
                           (z :: to_rank))
    with (Condorcet.build_graph (p :: prefs) (set_of_list (z :: to_rank))
                                (z :: to_rank)).
  destruct (Condorcet.build_graph (p :: prefs) (set_of_list (z :: to_rank))
                                  (z :: to_rank)) as [[graph in_degree]|e];
    [|reflexivity].
  cbn [bind].
  change (Vote.find_components
            (Vote.build_comp_graph (p :: prefs) (set_of_list (z :: to_rank)))
            (z :: to_rank))
    with (Condorcet.find_components
            (Condorcet.build_comparison_graph (p :: prefs)
               (set_of_list (z :: to_rank)))
            (z :: to_rank)).
  destruct (Condorcet.find_components
              (Condorcet.build_comparison_graph (p :: prefs)
                 (set_of_list (z :: to_rank)))
              (z :: to_rank)) as [[visited components]|e]; [|reflexivity].
  cbn [bind].
  change (Vote.main_of components)
    with (Condorcet.main_component_of components).
  change (Vote.comp_in_deg graph (Condorcet.main_component_of components))
    with (Condorcet.component_in_degree graph
            (Condorcet.main_component_of components)).
  destruct (Condorcet.component_in_degree graph
              (Condorcet.main_component_of components)) as [cdeg|e];
    [|reflexivity].
  cbn [bind].
  rewrite (rank_loop_agree graph
             (filter (fun mid =>
                        negb (set_mem mid
                                (Condorcet.main_component_of components)))
                     (z :: to_rank))).
  destruct (Condorcet.rank_loop _ _ _ _ _ _ _) as [[rm un]|e]; reflexivity.
Qed.
End Agree.

End Agreement.

Import Agreement.

(** C10.  The two implementations agree: for every list of statements
    and every target set, [compute_user_rankings] of
    [visualize_condorcet.py] returns a rank map and an unranked set, and
    [compute_user_rankings] of [visualize_vote.py] returns that same rank
    map (the same keys with the same ranks, in the same insertion
    order), whatever order sets are iterated in. *)
Theorem C10_implementations_agree `{PySet Z} (prefs : list Condorcet.pref)
    (target_ids : pyset) :
  exists rank_map unranked_set,
    Condorcet.compute_user_rankings prefs target_ids
    = Ok (rank_map, unranked_set) /\
    Vote.compute_user_rankings prefs target_ids = Ok rank_map.
Proof.
  destruct (compute_user_rankings_returns prefs target_ids)
    as (rank_map & unranked_set & E).
  exists rank_map, unranked_set. split; [exact E|].
  rewrite compute_user_rankings_agree, E. reflexivity.
Qed.

(* ================================================================== *)
(** * A voter whose statements form a cycle *)
(* ================================================================== *)

Module Cycle.
Import Condorcet.

Lemma foldM_ext {A St : Type} (f g : St -> A -> result St) (l : list A) (s : St) :
  (forall s x, f s x = g s x) -> foldM f l s = foldM g l s.
Proof.
  intros Hfg. revert s. induction l as [|x l IH]; intros s; simpl;
    [reflexivity|].
  rewrite Hfg. destruct (g s x); simpl; [apply IH | reflexivity].
Qed.

Section ThreeCycle.
Context `{PySet Z}.
Variables a b c pa pb pc : Z.
Variable targets : pyset.
Hypothesis pa_pos : (pa > 0)%Z.
Hypothesis pb_pos : (pb > 0)%Z.
Hypothesis pc_pos : (pc > 0)%Z.
Hypothesis a_target : set_mem a targets = true.
Hypothesis b_target : set_mem b targets = true.
Hypothesis c_target : set_mem c targets = true.

Local Abbreviation stated := (cycle_prefs a b c pa pb pc).
Local Abbreviation abc := (is_abc a b c).

Lemma cycle_to_rank x :
  In x (movies_to_rank stated targets) <-> abc x.
Proof.
  rewrite movies_to_rank_In. unfold appears, cycle_prefs, is_abc. split.
  - intros [(a' & b' & p' & Hin & Hx) _]. simpl in Hin.
    destruct Hin as [[= <- <- <-]|[[= <- <- <-]|[[= <- <- <-]|[]]]]; tauto.
  - intros [-> | [-> | ->]].
    + split; [|assumption]. exists a, b, pa. simpl. tauto.
    + split; [|assumption]. exists a, b, pa. simpl. tauto.
    + split; [|assumption]. exists b, c, pb. simpl. tauto.
Qed.

Let to_rank := movies_to_rank stated targets.
Let cg := build_comparison_graph stated (set_of_list to_rank).

Lemma cycle_adjacent u v : abc u -> abc v -> u = v \/ edge cg u v.
Proof.
  assert (Ha : In a to_rank) by (apply cycle_to_rank; unfold is_abc; tauto).
  assert (Hb : In b to_rank) by (apply cycle_to_rank; unfold is_abc; tauto).
  assert (Hc : In c to_rank) by (apply cycle_to_rank; unfold is_abc; tauto).
  assert (Eab : compared_pair to_rank stated a b /\
                compared_pair to_rank stated b a).
  { split; exists a, b, pa; simpl; tauto. }
  assert (Ebc : compared_pair to_rank stated b c /\
                compared_pair to_rank stated c b).
  { split; exists b, c, pb; simpl; tauto. }
  assert (Eca : compared_pair to_rank stated c a /\
                compared_pair to_rank stated a c).
  { split; exists c, a, pc; simpl; tauto. }
  unfold cg. intros [-> | [-> | ->]] [-> | [-> | ->]];
    try (left; reflexivity); right; apply comparison_graph_spec; tauto.
Qed.

Lemma cycle_connected u v : abc u -> abc v -> reaches cg u v.
Proof.
  intros Hu Hv. destruct (cycle_adjacent u v Hu Hv) as [->|He].
  - constructor.
  - econstructor; [exact He | constructor].
Qed.

(** Every candidate of the cycle has a predecessor in it. *)
Lemma cycle_predecessor graph x :
  (forall u v, edge graph u v <-> wanted to_rank stated u v) ->
  abc x -> exists y, abc y /\ edge graph y x.
Proof.
  assert (Ha : In a to_rank) by (apply cycle_to_rank; unfold is_abc; tauto).
  assert (Hb : In b to_rank) by (apply cycle_to_rank; unfold is_abc; tauto).
  assert (Hc : In c to_rank) by (apply cycle_to_rank; unfold is_abc; tauto).
  assert (Hgt : forall p, (p > 0)%Z -> (p >? 0)%Z = true)
    by (intros p Hp; apply Z.gtb_lt; lia).
  intros Hg [-> | [-> | ->]].
  - exists c. split; [unfold is_abc; tauto|]. apply Hg.
    exists (c, a, pc). simpl. rewrite (Hgt pc pc_pos). tauto.
  - exists a. split; [unfold is_abc; tauto|]. apply Hg.
    exists (a, b, pa). simpl. rewrite (Hgt pa pa_pos). tauto.
  - exists b. split; [unfold is_abc; tauto|]. apply Hg.
    exists (b, c, pb). simpl. rewrite (Hgt pb pb_pos). tauto.
Qed.

(** Scenario B: nobody is ranked, all three are unranked. *)
Lemma cycle_unranked :
  exists unranked_set,
    compute_user_rankings stated targets = Ok ([], unranked_set) /\
    forall x, In x (set_iter unranked_set) <-> abc x.
Proof.
  assert (Hne : to_rank <> []).
  { intros E. assert (Ha : In a to_rank)
      by (apply cycle_to_rank; unfold is_abc; tauto).
    rewrite E in Ha. destruct Ha. }
  destruct (compute_user_rankings_stages stated targets Hne)
    as (graph & in_degree & visited & components & c0 & cdeg & rank_map
        & left & _ & Hg & _ & _ & _ & _ & (h & Hh & Hc) & _ & Hpos & Hk
        & Er & Hl & Hm & E).
  fold to_rank in Hg, Hh, Hpos, Er, E. fold cg in Hc.
  assert (Hc0 : forall x, In x c0 <-> abc x).
  { intros x. split.
    - intros Hx. apply cycle_to_rank.
      exact (component_within to_rank stated h c0 Hh Hc x Hx).
    - intros Hx. destruct Hc as (_ & _ & Hc). apply Hc.
      apply cycle_connected; [now apply cycle_to_rank | assumption]. }
  set (remaining := set_of_list (set_iter (set_of_list c0))) in *.
  assert (Hrem : forall x, In x (set_iter remaining) <-> In x c0).
  { intros x. unfold remaining. now rewrite !set_of_list_In. }
  assert (Hrne : set_iter remaining <> []).
  { intros Er'. assert (Ha : In a (set_iter remaining)).
    { apply Hrem, Hc0. unfold is_abc. tauto. }
    rewrite Er' in Ha. destruct Ha. }
  assert (Hsrc : sources_of remaining cdeg = []).
  { unfold sources_of. apply filter_none. intros x Hx.
    apply Hrem in Hx. pose proof Hx as Hx'. apply Hc0 in Hx'.
    destruct (cycle_predecessor graph x Hg Hx') as (y & Hy & Hyx).
    apply Hc0 in Hy. specialize (Hpos y x Hy Hyx Hx).
    apply Z.eqb_neq. unfold val in Hpos. lia. }
  rewrite (rank_loop_cycle _ graph [] remaining cdeg _ 1%Z Hrne Hsrc) in Er.
  injection Er as <- Eleft. apply app_inv_head in Eleft. subst left.
  eexists. split; [exact E|].
  intros x. rewrite set_of_list_In, in_app_iff, filter_In, Hrem, Hc0.
  unfold to_rank. rewrite (cycle_to_rank x). tauto.
Qed.
End ThreeCycle.

Section NoContribution.
Context `{PySet Z}.

(** A voter with an empty rank map leaves every cell as it is. *)
Lemma tally_user_empty (i j : nat) (x y : Z) (m : matrix) (uid : string)
    (unranked : pyset) :
  tally_user i j x y m
    (uid, {| rank_map := []; unranked_set := unranked |}) = Ok m.
Proof. reflexivity. Qed.

Lemma build_matrix_skip (movie_ids : list Z)
    (before after : dict string ranking) (uid : string) (unranked : pyset) :
  build_matrix movie_ids
    (before ++ (uid, {| rank_map := []; unranked_set := unranked |}) :: after)
  = build_matrix movie_ids (before ++ after).
Proof.
  unfold build_matrix. apply foldM_ext. intros m [i x].
  apply foldM_ext. intros m' [j y]. destruct (i =? j); [reflexivity|].
  rewrite !foldM_app. destruct (foldM (tally_user i j x y) before m');
    reflexivity.
Qed.
End NoContribution.

End Cycle.

Import Cycle.

(** C6.  (1) When the layered sort finds no candidate of in-degree zero
    while candidates remain, the loop stops: the rank map stays as it is
    (no remaining candidate receives a rank) and all remaining
    candidates are appended to the unranked ones.  (2) For a voter
    stating exactly [a > b], [b > c], [c > a] over target candidates,
    [compute_user_rankings] returns the empty rank map and the unranked
    set [{a, b, c}] (and [visualize_vote.py] the empty rank map).
    (3) Such a voter contributes nothing to the matrix: the contribution
    of an empty rank map to every cell is zero, and the matrix built
    with the voter equals the matrix built without. *)
Theorem C6_cycle_leaves_candidates_unranked `{PySet Z} :
  (forall fuel graph rank_map remaining cdeg unranked_ids current_rank,
     set_iter remaining <> [] ->
     Condorcet.sources_of remaining cdeg = [] ->
     Condorcet.rank_loop (S fuel) graph rank_map remaining cdeg unranked_ids
                         current_rank
     = Ok (rank_map, unranked_ids ++ set_iter remaining)) /\
  (forall a b c pa pb pc (targets : pyset),
     (pa > 0)%Z -> (pb > 0)%Z -> (pc > 0)%Z ->
     set_mem a targets = true -> set_mem b targets = true ->
     set_mem c targets = true ->
     exists unranked_set,
       Condorcet.compute_user_rankings [(a, b, pa); (b, c, pb); (c, a, pc)]
                                       targets
       = Ok ([], unranked_set) /\
       (forall x, In x (set_iter unranked_set) <-> x = a \/ x = b \/ x = c) /\
       Vote.compute_user_rankings [(a, b, pa); (b, c, pb); (c, a, pc)] targets
       = Ok []) /\
  (forall x y, contribution [] x y = 0%Z) /\
  (forall movie_ids before after uid (unranked : pyset),
     Condorcet.build_matrix movie_ids
       (before
        ++ (uid, {| Condorcet.rank_map := [];
                    Condorcet.unranked_set := unranked |}) :: after)
     = Condorcet.build_matrix movie_ids (before ++ after)).
Proof.
  split; [intros; now apply rank_loop_cycle|].
  split.
  - intros a b c pa pb pc targets Ha Hb Hc Ta Tb Tc.
    destruct (cycle_unranked a b c pa pb pc targets Ha Hb Hc Ta Tb Tc)
      as (un & E & Hun).
    exists un. split; [exact E|]. split; [exact Hun|].
    rewrite compute_user_rankings_agree.
    unfold cycle_prefs in E. now rewrite E.
  - split; [reflexivity | apply build_matrix_skip].
Qed.

Lemma C6_cycle_leaves_candidates_unranked_witness :
  exists unranked_set,
    @Condorcet.compute_user_rankings SetOrders.ascending_order
      [(1, 2, 1); (2, 3, 1); (3, 1, 1)]%Z (set_of_list [1; 2; 3; 4]%Z)
    = Ok ([], unranked_set) /\
    (forall x, In x (set_iter unranked_set) <-> x = 1 \/ x = 2 \/ x = 3)%Z /\
    @Vote.compute_user_rankings SetOrders.ascending_order
      [(1, 2, 1); (2, 3, 1); (3, 1, 1)]%Z (set_of_list [1; 2; 3; 4]%Z)
    = Ok [].
Proof.
  apply (proj1 (proj2 (@C6_cycle_leaves_candidates_unranked
                          SetOrders.ascending_order))
           1 2 3 1 1 1 (set_of_list [1; 2; 3; 4]))%Z;
    reflexivity.
Defined.

(* ================================================================== *)
(** * The order in which components are discovered *)
(* ================================================================== *)

Module Discovery.
Import Condorcet.

Section Order.
Context `{PySet Z}.

Lemma discovered_nil_inv (cg : setdict Z) (cs : list (list Z)) :
  discovered cg [] cs -> cs = [].
Proof.
  intros Hd. inversion Hd as [|walked cs' x _ _ E|walked cs' x c _ _ _ E];
    [reflexivity | |]; now destruct walked.
Qed.

(** The first candidate walked starts the first component. *)
Lemma discovered_first (cg : setdict Z) (l : list Z) (cs : list (list Z)) :
  discovered cg l cs ->
  forall x l', l = x :: l' -> exists rest cs', cs = (x :: rest) :: cs'.
Proof.
  induction 1 as [|walked cs y Hd IH Hold|walked cs y c Hd IH Hnew Hc];
    intros x l' E.
  - discriminate.
  - destruct walked as [|w ws].
    + apply discovered_nil_inv in Hd. subst cs.
      destruct Hold as (c & [] & _).
    + injection E as -> _. now apply (IH x ws).
  - destruct walked as [|w ws].
    + apply discovered_nil_inv in Hd. subst cs. injection E as -> _.
      destruct Hc as (_ & (rest & ->) & _). now exists rest, [].
    + injection E as -> _. destruct (IH x ws eq_refl) as (rest & cs' & ->).
      now exists rest, (cs' ++ [c]).
Qed.
End Order.

End Discovery.

Import Discovery.

(** C9, counterexample.  A voter states [5 > 3] and then [1 > 2] over
    the targets [{1, 2, 3, 5}], with sets iterated as CPython iterates
    sets of small integers (ascending).  Candidate 5 appears first, but
    the component of 1 is discovered first; both components have two
    members, so [{1, 2}] becomes the main component and is ranked, and
    5 and 3 are unranked, in both files.  With sets walked in the order
    of insertion (the order of a JavaScript [Set], whose algorithm the
    functions say they follow) the same code discovers the component of
    5 first, as the description asks: 5 and 3 are ranked, 1 and 2 are
    unranked.  The result of the Python code depends on the iteration
    order of a set. *)
Lemma C9_counterexample :
  let prefs := [(5, 3, 1); (1, 2, 1)]%Z in
  let targets := @set_of_list Z SetOrders.ascending_order [1; 2; 3; 5]%Z in
  first_appearance prefs = [5; 3; 1; 2]%Z /\
  @Condorcet.movies_to_rank SetOrders.ascending_order prefs targets
  = [1; 2; 3; 5]%Z /\
  @Condorcet.find_components SetOrders.ascending_order
    (Condorcet.build_comparison_graph prefs (set_of_list [1; 2; 3; 5]%Z))
    [1; 2; 3; 5]%Z
  = Ok ([1; 2; 3; 5]%Z, [[1; 2]; [3; 5]]%Z) /\
  @Condorcet.compute_user_rankings SetOrders.ascending_order prefs targets
  = Ok ([(1, 1); (2, 2)]%Z, [3; 5]%Z) /\
  @Vote.compute_user_rankings SetOrders.ascending_order prefs targets
  = Ok [(1, 1); (2, 2)]%Z /\
  @Condorcet.movies_to_rank (SetOrders.insertion_order Z) prefs
    (@set_of_list Z (SetOrders.insertion_order Z) [1; 2; 3; 5]%Z)
  = [5; 3; 1; 2]%Z /\
  @Condorcet.compute_user_rankings (SetOrders.insertion_order Z) prefs
    (@set_of_list Z (SetOrders.insertion_order Z) [1; 2; 3; 5]%Z)
  = Ok ([(5, 1); (3, 2)]%Z, [1; 2]%Z) /\
  ~ discovered_in_first_appearance_order SetOrders.ascending_order.
Proof.
  intros prefs targets.
  split; [reflexivity|]. split; [reflexivity|]. split; [reflexivity|].
  split; [reflexivity|]. split; [reflexivity|]. split; [reflexivity|].
  split; [reflexivity|].
  intros Hc. specialize (Hc prefs targets [1; 2; 3; 5]%Z
                           [[1; 2]; [3; 5]]%Z eq_refl).
  apply (discovered_first (H := SetOrders.ascending_order)) with
    (x := 5%Z) (l' := [3; 1; 2]%Z) in Hc; [|reflexivity].
  destruct Hc as (rest & cs' & [=]).
Qed.

(** C9, what the code does.  The description asks for the order of
    first appearance; the code walks a Python set instead.  The
    components of the undirected comparison graph are discovered in the
    order in which the set [compared_movie_ids], filtered by the target
    set, is iterated: walking that list, each candidate not yet in a
    component starts the next one, which is its connected component.
    The main component is the first of the largest components of that
    list; every candidate to rank outside it is unranked, and only its
    members are ranked.  Which of several largest components is ranked
    therefore depends on the iteration order of the set, as the
    counterexample shows. *)
Theorem C9_components_in_iteration_order `{PySet Z}
    (prefs : list Condorcet.pref) (targets : pyset) :
  let to_rank :=
    filter (fun mid => set_mem mid targets)
           (set_iter (Condorcet.compared_movie_ids prefs)) in
  let cg := Condorcet.build_comparison_graph prefs (set_of_list to_rank) in
  exists visited components rank_map unranked_set,
    Condorcet.find_components cg to_rank = Ok (visited, components) /\
    (forall x y, edge cg x y <-> compared_pair to_rank prefs x y) /\
    discovered cg to_rank components /\
    (components <> [] ->
     exists c, first_largest components c /\
               Condorcet.main_component_of components = set_of_list c) /\
    Condorcet.compute_user_rankings prefs targets
    = Ok (rank_map, unranked_set) /\
    (forall x, In x to_rank ->
               set_mem x (Condorcet.main_component_of components) = false ->
               In x (set_iter unranked_set)) /\
    (forall x, In x (dict_keys rank_map) ->
               set_mem x (Condorcet.main_component_of components) = true).
Proof.
  intros to_rank cg.
  change to_rank with (Condorcet.movies_to_rank prefs targets) in *.
  clear to_rank. set (to_rank := Condorcet.movies_to_rank prefs targets) in *.
  assert (Hgraph : forall x y, edge cg x y <-> compared_pair to_rank prefs x y)
    by (intros x y; apply comparison_graph_spec).
  destruct (list_eq_dec Z.eq_dec to_rank []) as [E|Hne].
  - exists set_empty, [], [], set_empty. rewrite E.
    split; [reflexivity|]. split; [now rewrite <- E|].
    split; [constructor|]. split; [congruence|].
    split; [now apply compute_user_rankings_early|].
    split; [intros x [] | intros x []].
  - destruct (compute_user_rankings_stages prefs targets Hne)
      as (graph & in_degree & visited & components & c & cdeg & rank_map
          & left & _ & _ & Ec & Hd & Hfl & Em & _ & _ & _ & _ & _ & Hl & Hm
          & E).
    exists visited, components, rank_map.
    eexists. split; [exact Ec|]. split; [exact Hgraph|].
    split; [exact Hd|]. split; [intros _; now exists c|].
    split; [exact E|]. rewrite Em. split.
    + intros x Hx Hmain. apply set_of_list_In, in_or_app. left.
      apply filter_In. split; [assumption | now rewrite Hmain].
    + intros x Hx. apply set_mem_of_list. now apply Hm in Hx.
Qed.

Import Order.

(* ================================================================== *)
(** * Sources of a finite acyclic graph                                 *)
(* ================================================================== *)

Module Sources.

Lemma filter_perm {A : Type} (p : A -> bool) (l l' : list A) :
  Permutation l l' -> Permutation (filter p l) (filter p l').
Proof.
  induction 1 as [|x l l' Hp IH|x y l|l l' l'' H1 IH1 H2 IH2]; simpl.
  - constructor.
  - destruct (p x); [now constructor | assumption].
  - destruct (p x), (p y); try reflexivity. apply perm_swap.
  - now transitivity (filter p l').
Qed.

Section Src.
Context {A : Type} `{Key A} `{PySet A}.
Implicit Types (g : setdict A) (nodes : list A).

Lemma existsb_keqb (v : A) (l : list A) :
  existsb (keqb v) l = true <-> In v l.
Proof.
  rewrite existsb_exists. split.
  - intros (y & Hy & E). apply keqb_eq in E. now subst.
  - intros Hv. exists v. split; [assumption | apply keqb_refl].
Qed.

Lemma preds_in_In g nodes v u :
  In u (preds_in g nodes v) <-> In u nodes /\ edge g u v.
Proof.
  unfold preds_in, edge. now rewrite filter_In, existsb_keqb.
Qed.

Lemma preds_in_perm g nodes nodes' v :
  Permutation nodes nodes' ->
  Permutation (preds_in g nodes v) (preds_in g nodes' v).
Proof. apply filter_perm. Qed.

Lemma preds_in_cons g nodes u v :
  preds_in g (u :: nodes) v
  = if existsb (keqb v) (sd_get u g) then u :: preds_in g nodes v
    else preds_in g nodes v.
Proof. reflexivity. Qed.

Lemma preds_in_nil g nodes v :
  preds_in g nodes v = [] <-> forall u, In u nodes -> ~ edge g u v.
Proof.
  split.
  - intros E u Hu He.
    assert (Hin : In u (preds_in g nodes v)) by (apply preds_in_In; tauto).
    rewrite E in Hin. destruct Hin.
  - intros Hno. destruct (preds_in g nodes v) as [|u l] eqn:E; [reflexivity|].
    assert (Hin : In u (preds_in g nodes v)) by (rewrite E; now left).
    apply preds_in_In in Hin. destruct Hin as [Hu He].
    now destruct (Hno u Hu).
Qed.

(** Walking backwards over edges from [v] inside [nodes]: the nodes met
    are all different, so the walk ends, and it ends at a node that has
    no predecessor among [nodes]. *)
Lemma backward_walk g nodes :
  acyclic g ->
  forall k visited v,
    length nodes < k + length visited ->
    NoDup visited -> incl visited nodes -> In v nodes ->
    (forall w, In w visited -> path g v w) ->
    exists s, In s nodes /\ preds_in g nodes s = [].
Proof.
  intros Hac. induction k as [|k IH]; intros visited v Hlen Hnd Hincl Hv Hp.
  - pose proof (NoDup_incl_length Hnd Hincl). simpl in Hlen. lia.
  - destruct (preds_in g nodes v) as [|u l] eqn:E.
    + exists v. split; assumption.
    + assert (Hu : In u (preds_in g nodes v)) by (rewrite E; now left).
      apply preds_in_In in Hu. destruct Hu as [Hu He].
      assert (Hnv : ~ In v visited).
      { intros Hin. exact (Hac v (Hp v Hin)). }
      apply (IH (v :: visited) u).
      * simpl. lia.
      * now constructor.
      * intros w [<-|Hw]; [assumption | now apply Hincl].
      * assumption.
      * intros w [<-|Hw].
        -- now constructor.
        -- econstructor 2; [exact He | now apply Hp].
Qed.

(** A finite acyclic graph has a source among any of its nodes. *)
Lemma acyclic_has_source g nodes :
  acyclic g -> nodes <> [] ->
  exists s, In s nodes /\ preds_in g nodes s = [].
Proof.
  intros Hac Hne. destruct nodes as [|v nodes]; [congruence|].
  apply (backward_walk g (v :: nodes) Hac (S (length (v :: nodes))) [] v).
  - simpl. lia.
  - constructor.
  - intros w [].
  - now left.
  - intros w [].
Qed.

End Src.

End Sources.

Import Sources.

(* ================================================================== *)
(** * The ranking is a topological order of the locked graph            *)
(* ================================================================== *)

Module TopoOrder.
Import Condorcet.

Lemma dict_get_of_In {K V : Type} `{Key K} (k : K) (v : V) (d : dict K V) :
  NoDup (dict_keys d) -> In (k, v) d -> dict_get k d = Some v.
Proof.
  induction d as [|[k' v'] d IH]; simpl; intros Hnd Hin; [destruct Hin|].
  inversion Hnd as [|? ? Hk Hnd']; subst.
  destruct Hin as [[= -> ->]|Hin].
  - now rewrite keqb_refl.
  - destruct (keqb k k') eqn:E.
    + apply keqb_eq in E. subst. exfalso. apply Hk.
      apply in_map_iff. now exists (k', v).
    + now apply IH.
Qed.

Lemma length_filter_map {A B : Type} (f : A -> B) (p : A -> bool)
    (q : B -> bool) (l : list A) :
  (forall x, In x l -> p x = q (f x)) ->
  length (filter p l) = length (filter q (map f l)).
Proof.
  induction l as [|x l IH]; simpl; intros Hpq; [reflexivity|].
  rewrite <- (Hpq x) by now left.
  destruct (p x); simpl; rewrite IH; auto.
Qed.

Lemma precedes_of_split {A : Type} (l l1 l2 : list A) (x y : A) :
  l = l1 ++ y :: l2 -> In x l1 -> precedes l x y.
Proof.
  intros -> Hx. apply in_split in Hx. destruct Hx as (a & b & ->).
  exists a, b, l2. now rewrite <- app_assoc.
Qed.

Section Ordered.
Context `{PySet nat}.
Implicit Types (locked : setdict nat) (d : dict nat Z).

Lemma dict_incr_get (k : nat) (z x : Z) d :
  dict_get k d = Some x -> dict_incr k z d = Ok (dict_set k (x + z)%Z d).
Proof. intros E. unfold dict_incr, dict_getitem. now rewrite E. Qed.

(** [in_degree[y] += z] for all [y] of a list without repetitions. *)
Lemma decrement_vals n d (z : Z) (l : list nat) :
  keys_are n d -> NoDup l -> (forall y, In y l -> y < n) ->
  exists d',
    foldM (fun d y => dict_incr y z d) l d = Ok d' /\ keys_are n d' /\
    forall v x, dict_get v d = Some x ->
                dict_get v d'
                = Some (if existsb (keqb v) l then x + z else x)%Z.
Proof.
  revert d. induction l as [|y l IH]; intros d Hd Hnd Hl.
  - exists d. simpl. split; [reflexivity|]. split; [assumption|]. auto.
  - inversion Hnd as [|? ? Hy Hnd']; subst.
    assert (Hyk : In y (dict_keys d)) by (apply Hd, Hl; now left).
    apply dict_get_keys in Hyk.
    destruct (dict_get y d) as [x0|] eqn:E0; [|congruence].
    simpl. rewrite (dict_incr_get y z x0 d E0). simpl.
    destruct (IH (dict_set y (x0 + z)%Z d)) as (d' & E & Hd' & Hv).
    + intros i. rewrite dict_keys_set. split.
      * intros [->|Hi]; [apply Hl; now left | now apply Hd].
      * intros Hi. right. now apply Hd.
    + assumption.
    + intros y' Hy'. apply Hl. now right.
    + exists d'. split; [exact E|]. split; [exact Hd'|].
      intros v x Hx. destruct (Nat.eq_dec v y) as [->|Hne].
      * rewrite (Hv y (x0 + z)%Z) by apply dict_get_set_eq.
        assert (Hn : existsb (keqb y) l = false).
        { apply not_true_is_false. rewrite existsb_keqb. exact Hy. }
        rewrite Hn. simpl. rewrite Nat.eqb_refl. simpl. congruence.
      * rewrite (Hv v x) by (rewrite dict_get_set_ne; auto).
        simpl. destruct (Nat.eqb_spec v y); [contradiction|]. reflexivity.
Qed.

(** Lines 267-270 over a list of entries. *)
Lemma in_degree_from n (entries : list (nat * pyset)) d :
  (forall k s, In (k, s) entries -> forall y, In y (set_iter s) -> y < n) ->
  keys_are n d ->
  exists d',
    foldM
      (fun d (item : nat * pyset) =>
         let '(winner, losers) := item in
         foldM (fun d loser => dict_incr loser 1 d) (set_iter losers) d)
      entries d = Ok d' /\
    keys_are n d' /\
    forall v x,
      dict_get v d = Some x ->
      dict_get v d'
      = Some (x + Z.of_nat
                    (length (filter (fun ws : nat * pyset => set_mem v (snd ws))
                                    entries)))%Z.
Proof.
  revert d. induction entries as [|[w s] entries IH]; intros d Hb Hd.
  - exists d. simpl. split; [reflexivity|]. split; [assumption|].
    intros v x Hx. rewrite Hx. f_equal. lia.
  - destruct (decrement_vals n d 1 (set_iter s) Hd (set_iter_NoDup s))
      as (d1 & E1 & Hd1 & Hv1).
    { intros y Hy. apply (Hb w s); [now left | assumption]. }
    destruct (IH d1) as (d' & E & Hd' & Hv).
    { intros k s' Hin. apply (Hb k s'). now right. }
    { assumption. }
    exists d'. rewrite foldM_cons. rewrite E1. cbn [bind].
    split; [exact E|]. split; [exact Hd'|].
    intros v x Hx. specialize (Hv1 v x Hx).
    assert (Em : existsb (keqb v) (set_iter s) = set_mem v s).
    { apply eq_true_iff_eq. now rewrite existsb_keqb, set_mem_iter. }
    rewrite Em in Hv1. rewrite (Hv v _ Hv1). cbn [filter snd].
    destruct (set_mem v s); cbn [length]; f_equal; lia.
Qed.

Lemma lock_pair_cases locked (p : pair_record) locked' :
  lock_pair locked p = Ok locked' ->
  locked' = locked \/ locked' = sd_add (pair_winner p) (pair_loser p) locked.
Proof.
  destruct p as [[[winner loser] margin] votes]. unfold lock_pair.
  intros E. inv_bind E. destruct a; injection E as <-; auto.
Qed.

Lemma lock_pairs_NoDup (pairs : list pair_record) locked :
  lock_pairs pairs = Ok locked -> NoDup (dict_keys locked).
Proof.
  intros E.
  apply (foldM_Ok_inv (fun g : setdict nat => NoDup (dict_keys g))
                      lock_pair pairs) with (s := []) (s' := locked);
    [|constructor|exact E].
  intros g p g' _ Hg Eg. apply lock_pair_cases in Eg.
  destruct Eg as [->| ->]; [assumption|]. now apply dict_set_NoDup.
Qed.

Lemma edge_key locked u v : edge locked u v -> In u (dict_keys locked).
Proof.
  unfold edge, sd_get. intros Hin. apply dict_get_keys.
  destruct (dict_get u locked); [congruence | destruct Hin].
Qed.

(** The number of entries of [locked] that hold [v] is the number of
    candidates with an edge to [v]. *)
Lemma entries_preds locked (nodes : list nat) (v : nat) :
  NoDup (dict_keys locked) -> NoDup nodes ->
  (forall u w, edge locked u w -> In u nodes) ->
  length (filter (fun ws : nat * pyset => set_mem v (snd ws)) locked)
  = length (preds_in locked nodes v).
Proof.
  intros Hnd Hnn Hk.
  rewrite (length_filter_map fst _
             (fun u => existsb (keqb v) (sd_get u locked))).
  - apply Permutation_length, NoDup_Permutation.
    + apply NoDup_filter, Hnd.
    + apply NoDup_filter, Hnn.
    + intros u. change (In u (preds_in locked (dict_keys locked) v)
                        <-> In u (preds_in locked nodes v)).
      rewrite !preds_in_In. split; intros [Hu He]; split; try assumption.
      * exact (Hk _ _ He).
      * exact (edge_key _ _ _ He).
  - intros [w s] Hin. cbn [fst snd]. unfold sd_get.
    rewrite (dict_get_of_In w s locked Hnd Hin).
    apply eq_true_iff_eq. now rewrite existsb_keqb, set_mem_iter.
Qed.

Lemma locked_in_degree_vals n locked :
  sd_bounded n locked -> NoDup (dict_keys locked) ->
  (forall u v, edge locked u v -> u < n) ->
  exists d, locked_in_degree n locked = Ok d /\
            topo_inv n locked d (set_of_list (range 0 n)).
Proof.
  intros Hb Hnd Hk. unfold locked_in_degree.
  destruct (in_degree_from n locked (dict_const (range 0 n) 0%Z))
    as (d & E & Hd & Hv); [exact Hb | apply keys_are_const |].
  exists d. split; [exact E|]. split; [exact Hd|].
  intros v Hv'. rewrite (Hv v 0%Z).
  - f_equal. simpl. f_equal. apply entries_preds; [assumption| |].
    + apply set_iter_NoDup.
    + intros u w He. apply set_of_list_In, range_In.
      specialize (Hk _ _ He). lia.
  - apply dict_const_get, range_In. lia.
Qed.

(** One source leaves: the in-degrees follow. *)
Lemma emit_source_inv n locked d (ranking : list nat) remaining (s : nat) :
  sd_bounded n locked -> topo_inv n locked d remaining ->
  In s (set_iter remaining) ->
  exists d',
    emit_source locked (d, ranking, remaining) s
    = Ok (d', ranking ++ [s], set_discard s remaining) /\
    topo_inv n locked d' (set_discard s remaining).
Proof.
  intros Hb [Hd Hv] Hs. unfold emit_source.
  destruct (decrement_vals n d (-1) (sd_get s locked)
      Hd (sd_get_NoDup s locked))
    as (d' & E & Hd' & Hv').
  { intros y Hy. exact (sd_bounded_edge n locked s y Hb Hy). }
  exists d'. rewrite E. cbn [bind]. split; [reflexivity|].
  split; [exact Hd'|]. intros v Hlt.
  rewrite (Hv' v _ (Hv v Hlt)). f_equal.
  rewrite (Permutation_length
             (preds_in_perm locked _ _ v
                (Permutation_sym (set_discard_perm s remaining Hs)))).
  rewrite preds_in_cons.
  destruct (existsb (keqb v) (sd_get s locked)); cbn [length]; lia.
Qed.

Lemma emit_sources_inv n locked (sources : list nat) :
  sd_bounded n locked -> NoDup sources ->
  forall d (ranking : list nat) remaining,
    topo_inv n locked d remaining ->
    (forall s, In s sources -> In s (set_iter remaining)) ->
    exists d' remaining',
      foldM (emit_source locked) sources (d, ranking, remaining)
      = Ok (d', ranking ++ sources, remaining') /\
      topo_inv n locked d' remaining' /\
      (forall x, In x (set_iter remaining') <->
                 In x (set_iter remaining) /\ ~ In x sources).
Proof.
  intros Hb. induction sources as [|s sources IH];
    intros Hnd d ranking remaining Hinv Hs.
  - exists d, remaining. simpl. rewrite app_nil_r.
    split; [reflexivity|]. split; [assumption|]. intros x. tauto.
  - inversion Hnd as [|? ? Hs' Hnd']; subst.
    destruct (emit_source_inv n locked d ranking remaining s Hb Hinv)
      as (d1 & E1 & Hinv1); [apply Hs; now left|].
    destruct (IH Hnd' d1 (ranking ++ [s]) (set_discard s remaining) Hinv1)
      as (d' & remaining' & E & Hinv' & Hr).
    { intros x Hx. apply set_discard_iter. split; [|apply Hs; now right].
      intros ->. contradiction. }
    exists d', remaining'. rewrite foldM_cons, E1. cbn [bind].
    rewrite E, <- app_assoc. split; [reflexivity|]. split; [assumption|].
    intros x. rewrite Hr, set_discard_iter. simpl. intuition congruence.
Qed.

Lemma topo_ordered_app locked (ranking sources : list nat) :
  topo_ordered locked ranking ->
  (forall s u, In s sources -> edge locked u s -> In u ranking) ->
  topo_ordered locked (ranking ++ sources).
Proof.
  intros Ho Hs l1 v l2 E u He. symmetry in E. apply app_eq_app in E.
  destruct E as (l & [[-> ->]|[E1 E2]]).
  - apply in_or_app. left. apply (Hs v); [|assumption].
    apply in_or_app. right. now left.
  - destruct l as [|x l]; simpl in E2.
    + rewrite app_nil_r in E1. subst l1. apply (Hs v); [|assumption].
      rewrite <- E2. now left.
    + injection E2 as <- _. exact (Ho l1 v l E1 u He).
Qed.

Lemma topo_ordered_precedes locked (ranking : list nat) (u v : nat) :
  topo_ordered locked ranking -> In v ranking -> edge locked u v ->
  precedes ranking u v.
Proof.
  intros Ho Hv He. apply in_split in Hv. destruct Hv as (l1 & l2 & E).
  apply (precedes_of_split ranking l1 l2 u v E). exact (Ho l1 v l2 E u He).
Qed.

(** While candidates remain one of them has in-degree zero, so the
    alphabetical fallback of lines 277-281 is never taken, and every
    candidate is emitted after all its predecessors. *)
Lemma topo_loop_ordered n (movie_titles : list string) locked :
  sd_bounded n locked -> acyclic locked ->
  (forall u v, edge locked u v -> u < n) ->
  n <= length movie_titles ->
  forall fuel d (ranking : list nat) remaining,
    set_len remaining < fuel ->
    topo_inv n locked d remaining ->
    Permutation (ranking ++ set_iter remaining) (range 0 n) ->
    topo_ordered locked ranking ->
    exists r, topo_loop fuel movie_titles locked d ranking remaining = Ok r /\
              topo_ordered locked r /\ Permutation r (range 0 n).
Proof.
  intros Hb Hac Hk Ht. induction fuel as [|fuel IH];
    intros d ranking remaining Hfuel Hinv Hperm Ho; [lia|].
  assert (Hrem : forall i, In i (set_iter remaining) -> i < n).
  { intros i Hi.
    assert (Hin : In i (range 0 n)).
    { apply (Permutation_in _ Hperm), in_or_app. now right. }
    apply range_In in Hin. lia. }
  destruct (list_eq_dec Nat.eq_dec (set_iter remaining) []) as [Erem|Erem].
  - exists ranking. simpl. rewrite Erem. split; [reflexivity|].
    split; [assumption|]. now rewrite Erem, app_nil_r in Hperm.
  - rewrite topo_loop_unfold by assumption.
    destruct Hinv as [Hd Hv].
    rewrite (zero_in_degree_Ok n d remaining Hd Hrem). cbn [bind].
    set (sources := filter (fun i => (dict_get_default i 1 d =? 0)%Z)
                           (set_iter remaining)).
    assert (Hsrc : forall s, In s sources <->
                             In s (set_iter remaining) /\
                             preds_in locked (set_iter remaining) s = []).
    { intros s. unfold sources. rewrite filter_In.
      split; intros [Hs Hz]; (split; [assumption|]).
      - unfold dict_get_default in Hz. rewrite (Hv s (Hrem s Hs)) in Hz.
        apply Z.eqb_eq in Hz. apply length_zero_iff_nil. lia.
      - unfold dict_get_default. rewrite (Hv s (Hrem s Hs)), Hz. reflexivity. }
    assert (Hnds : NoDup sources).
    { unfold sources. apply NoDup_filter, set_iter_NoDup. }
    destruct (acyclic_has_source locked (set_iter remaining) Hac Erem)
      as (s1 & Hs1 & Hp1).
    assert (Hin1 : In s1 sources) by (apply Hsrc; tauto).
    clearbody sources. destruct sources as [|s0 sources']; [destruct Hin1|].
    rewrite sort_by_title_Ok
      by (intros i Hi; apply Hsrc in Hi; destruct Hi as [Hi _];
          specialize (Hrem i Hi); lia).
    cbn [bind].
    set (sorted := sort_by String.ltb (title_of movie_titles)
                           (s0 :: sources')).
    assert (Hps : Permutation sorted (s0 :: sources')) by apply sort_by_perm.
    assert (Hnd : NoDup sorted)
      by exact (Permutation_NoDup (Permutation_sym Hps) Hnds).
    assert (Hss : forall s, In s sorted <->
                            In s (set_iter remaining) /\
                            preds_in locked (set_iter remaining) s = []).
    { intros s. rewrite <- Hsrc. split; apply Permutation_in;
        [assumption | now apply Permutation_sym]. }
    clearbody sorted.
    destruct (emit_sources_inv n locked sorted Hb Hnd d ranking remaining)
      as (d' & remaining' & E & Hinv' & Hr).
    { split; assumption. }
    { intros s Hs. now apply Hss in Hs. }
    rewrite E. cbn [bind]. apply IH; [|assumption| |].
    + assert (Hs0 : In s0 sorted).
      { apply (Permutation_in _ (Permutation_sym Hps)). now left. }
      assert (Hlt : S (set_len remaining') <= set_len remaining).
      { unfold set_len.
        change (length (s0 :: set_iter remaining')
                <= length (set_iter remaining)).
        apply NoDup_incl_length.
        - constructor; [|apply set_iter_NoDup]. rewrite Hr. tauto.
        - intros y [<-|Hy]; [now apply Hss in Hs0 | now apply Hr in Hy]. }
      lia.
    + rewrite <- Hperm, <- app_assoc. apply Permutation_app_head.
      apply NoDup_Permutation.
      * apply NoDup_app; [assumption | apply set_iter_NoDup |].
        intros y Hy Hy'. apply Hr in Hy'. tauto.
      * apply set_iter_NoDup.
      * intros y. rewrite in_app_iff, Hr.
        destruct (in_dec Nat.eq_dec y sorted) as [Hin|Hin].
        -- split; [intros _ | tauto]. now apply Hss in Hin.
        -- tauto.
    + apply topo_ordered_app; [assumption|].
      intros s u Hs He. apply Hss in Hs. destruct Hs as [Hs Hp].
      assert (Hu : In u (ranking ++ set_iter remaining)).
      { apply (Permutation_in _ (Permutation_sym Hperm)), range_In.
        specialize (Hk _ _ He). lia. }
      apply in_app_or in Hu. destruct Hu as [Hu|Hu]; [assumption|].
      exfalso. exact (proj1 (preds_in_nil locked _ s) Hp u Hu He).
Qed.

Lemma reaches_mono (g g' : setdict nat) (x y : nat) :
  (forall u v, edge g u v -> edge g' u v) -> reaches g x y -> reaches g' x y.
Proof.
  intros Hm. induction 1 as [|a b c Hab Hbc IH]; [constructor|].
  econstructor; [apply Hm; exact Hab | exact IH].
Qed.

Lemma reaches_last (g : setdict nat) (x y : nat) :
  reaches g x y -> x = y \/ exists u, reaches g x u /\ edge g u y.
Proof.
  induction 1 as [|a b c Hab Hbc IH]; [now left|]. right.
  destruct IH as [->|(u & Hu & He)].
  - exists a. split; [constructor | assumption].
  - exists u. split; [|assumption]. econstructor; eassumption.
Qed.

Lemma reaches_first (g : setdict nat) (x y : nat) :
  reaches g x y -> x = y \/ exists u, edge g x u /\ reaches g u y.
Proof. destruct 1 as [|b c Hab Hbc]; [now left | right; eauto]. Qed.

Lemma lock_pair_result locked (p : pair_record) locked' :
  lock_pair locked p = Ok locked' ->
  (reaches locked (pair_loser p) (pair_winner p) /\ locked' = locked) \/
  (~ reaches locked (pair_loser p) (pair_winner p) /\
   locked' = sd_add (pair_winner p) (pair_loser p) locked).
Proof.
  destruct p as [[[winner loser] margin] votes]. unfold lock_pair.
  destruct (would_create_cycle_spec locked winner loser) as (b & E & Hb).
  rewrite E. cbn [bind]. unfold pair_loser, pair_winner. simpl.
  destruct b; intros [= <-].
  - left. split; [now apply Hb | reflexivity].
  - right. split; [|reflexivity]. intros Hr. apply Hb in Hr. discriminate.
Qed.

(** Locked edges stay, and every pair is either locked or blocked by a
    path of locked edges from its loser to its winner. *)
Lemma lock_pairs_from_spec (pairs : list pair_record) :
  forall locked locked',
    foldM lock_pair pairs locked = Ok locked' ->
    (forall x y, edge locked x y -> edge locked' x y) /\
    forall p, In p pairs ->
      edge locked' (pair_winner p) (pair_loser p) \/
      reaches locked' (pair_loser p) (pair_winner p).
Proof.
  induction pairs as [|p pairs IH]; intros locked locked' E.
  - simpl in E. injection E as <-. split; [auto | intros p []].
  - rewrite foldM_cons in E. inv_bind E.
    destruct (IH _ _ E) as [Hm Hp]. apply lock_pair_result in E0.
    assert (Hm0 : forall x y, edge locked x y -> edge a x y).
    { destruct E0 as [[_ ->]|[_ ->]]; [auto|].
      intros x y He. apply edge_add. now right. }
    split; [auto|]. intros q [<-|Hq]; [|now apply Hp].
    destruct E0 as [[Hr ->]|[_ ->]].
    + right. exact (reaches_mono _ _ _ _ Hm Hr).
    + left. apply Hm, edge_add. now left.
Qed.

Lemma lock_pairs_locked_or_blocked (pairs : list pair_record) locked :
  lock_pairs pairs = Ok locked ->
  forall p, In p pairs ->
    edge locked (pair_winner p) (pair_loser p) \/
    reaches locked (pair_loser p) (pair_winner p).
Proof. intros E. exact (proj2 (lock_pairs_from_spec pairs [] locked E)). Qed.

(** The pair records are the strict majorities. *)
Lemma all_pairs_majority (n : nat) (m : matrix) (i j : nat) :
  (exists p, In p (all_pairs n m) /\ pair_winner p = i /\ pair_loser p = j)
  <-> majority n m i j.
Proof.
  unfold majority, beats. split.
  - intros (p & Hp & <- & <-). apply all_pairs_In in Hp.
    destruct Hp as (a & b & Hab & Hp). unfold pair_of in Hp.
    destruct (entry m a b >? entry m b a)%Z eqn:E1.
    + destruct Hp as [<-|[]]. unfold pair_winner, pair_loser. simpl.
      apply Z.gtb_lt in E1. lia.
    + destruct (entry m b a >? entry m a b)%Z eqn:E2; [|destruct Hp].
      destruct Hp as [<-|[]]. unfold pair_winner, pair_loser. simpl.
      apply Z.gtb_lt in E2. lia.
  - intros (Hi & Hj & Hb).
    assert (Hne : i <> j) by (intros ->; lia).
    destruct (Nat.lt_ge_cases i j) as [Hlt|Hge].
    + exists (i, j, sub64 (entry m i j) (entry m j i), entry m i j).
      split; [|split; reflexivity]. apply all_pairs_In. exists i, j.
      split; [lia|]. unfold pair_of.
      replace (entry m i j >? entry m j i)%Z with true
        by (symmetry; apply Z.gtb_lt; lia).
      now left.
    + exists (i, j, sub64 (entry m i j) (entry m j i), entry m i j).
      split; [|split; reflexivity]. apply all_pairs_In. exists j, i.
      split; [lia|]. unfold pair_of.
      replace (entry m j i >? entry m i j)%Z with false
        by (symmetry; rewrite Z.gtb_ltb; apply Z.ltb_ge; lia).
      replace (entry m i j >? entry m j i)%Z with true
        by (symmetry; apply Z.gtb_lt; lia).
      now left.
Qed.

(** [compute_ranked_pairs], stage by stage. *)
Lemma compute_ranked_pairs_ordered (movie_ids : list Z)
    (movie_titles : list string) (m : matrix) :
  let n := length movie_ids in
  mat_wf n m -> n <= length movie_titles ->
  exists ranking locked,
    compute_ranked_pairs movie_ids movie_titles m = Ok (ranking, locked) /\
    acyclic locked /\
    Permutation ranking (range 0 n) /\
    topo_ordered locked ranking /\
    (forall x y, edge locked x y -> majority n m x y) /\
    (forall x y, majority n m x y -> edge locked x y \/ reaches locked y x).
Proof.
  intros n Hwf Ht. unfold compute_ranked_pairs. fold n.
  rewrite (collect_pairs_Ok n m Hwf). cbn [bind].
  destruct (lock_pairs_acyclic (sort_pairs (all_pairs n m)))
    as (locked & El & Hac).
  rewrite El. cbn [bind].
  assert (Hmaj : forall x y, edge locked x y -> majority n m x y).
  { intros x y He.
    destruct (lock_pairs_edges _ locked x y El He) as (p & Hp & Hw & Hl).
    apply all_pairs_majority. exists p. apply sort_by_In in Hp. tauto. }
  assert (Hb : sd_bounded n locked).
  { apply (lock_pairs_bounded n _ locked) in El; [assumption|].
    intros p Hp. apply sort_by_In in Hp. now apply all_pairs_range in Hp. }
  destruct (locked_in_degree_vals n locked Hb (lock_pairs_NoDup _ _ El))
    as (d & Ed & Hd).
  { intros u v He. exact (proj1 (Hmaj _ _ He)). }
  rewrite Ed. cbn [bind].
  destruct (topo_loop_ordered n movie_titles locked Hb Hac) with
    (fuel := S n) (d := d) (ranking := @nil nat)
    (remaining := set_of_list (range 0 n)) as (r & Er & Ho & Hr).
  - intros u v He. exact (proj1 (Hmaj _ _ He)).
  - assumption.
  - unfold set_len.
    rewrite (Permutation_length (set_of_list_perm _ (range_NoDup 0 n))).
    unfold range. rewrite length_seq. lia.
  - assumption.
  - simpl. apply set_of_list_perm, range_NoDup.
  - intros l1 v l2 E. destruct l1; discriminate.
  - rewrite Er. cbn [bind]. exists r, locked.
    split; [reflexivity|]. split; [assumption|]. split; [assumption|].
    split; [assumption|]. split; [assumption|].
    intros x y Hxy. apply all_pairs_majority in Hxy.
    destruct Hxy as (p & Hp & <- & <-).
    apply (lock_pairs_locked_or_blocked _ locked El).
    now apply sort_by_In.
Qed.

End Ordered.

End TopoOrder.

Import TopoOrder.

(* ================================================================== *)
(** * What the ranking of [compute_ranked_pairs] guarantees             *)
(* ================================================================== *)

Module Tideman.
Import Condorcet.

Lemma step_rt_path {A : Type} (R : A -> A -> Prop) (x y z : A) :
  R x y -> clos_refl_trans_1n A R y z -> clos_trans_1n A R x z.
Proof.
  intros Hxy Hyz. revert x Hxy. induction Hyz as [|b c d Hbc Hcd IH];
    intros x0 Hx0.
  - now constructor.
  - econstructor 2; [exact Hx0 | now apply IH].
Qed.

Lemma rt_map {A : Type} (R R' : A -> A -> Prop) (x y : A) :
  (forall u v, R u v -> R' u v) ->
  clos_refl_trans_1n A R x y -> clos_refl_trans_1n A R' x y.
Proof.
  intros Hm. induction 1 as [|a b c Hab Hbc IH]; [constructor|].
  econstructor; [apply Hm; exact Hab | exact IH].
Qed.

Lemma acyclic_by_rank {A : Type} (R : A -> A -> Prop) (f : A -> nat) :
  (forall u v, R u v -> f u < f v) ->
  forall i, ~ clos_trans_1n A R i i.
Proof.
  intros Hf.
  assert (Hlt : forall u v, clos_trans_1n A R u v -> f u < f v).
  { induction 1 as [a b Hab|a b c Hab Hbc IH].
    - now apply Hf.
    - apply Hf in Hab. lia. }
  intros i Hi. apply Hlt in Hi. lia.
Qed.

Lemma beats_asym (m : matrix) (i j : nat) : beats m i j -> ~ beats m j i.
Proof. unfold beats. lia. Qed.

Lemma beats_irrefl (m : matrix) (i : nat) : ~ beats m i i.
Proof. unfold beats. lia. Qed.

Lemma NoDup_app_disjoint {A : Type} (l1 l2 : list A) (x : A) :
  NoDup (l1 ++ l2) -> In x l1 -> In x l2 -> False.
Proof.
  induction l1 as [|a l1 IH]; simpl; intros Hnd H1 H2; [destruct H1|].
  inversion Hnd as [|? ? Ha Hnd']; subst. destruct H1 as [->|H1].
  - apply Ha, in_or_app. now right.
  - now apply IH.
Qed.

Lemma perm_range_In (n : nat) (ranking : list nat) (i : nat) :
  Permutation ranking (range 0 n) -> In i ranking <-> i < n.
Proof.
  intros Hp. split; intros Hi.
  - apply (Permutation_in _ Hp), range_In in Hi. lia.
  - apply (Permutation_in _ (Permutation_sym Hp)), range_In. lia.
Qed.

End Tideman.

Import Tideman.

(** X1.  The ranking of [compute_ranked_pairs] is a topological order
    of the locked graph: on every [n] x [n] matrix the function returns,
    and in the ranking it returns the winner of every locked pair stands
    before the loser.  (Some candidate always has in-degree zero, so the
    alphabetical fallback of lines 277-281 is never the reason a
    candidate is placed.) *)
Theorem ranking_orders_locked_pairs `{PySet nat} (movie_ids : list Z)
    (movie_titles : list string) (m : Condorcet.matrix) :
  mat_wf (length movie_ids) m ->
  length movie_titles = length movie_ids ->
  exists ranking locked,
    Condorcet.compute_ranked_pairs movie_ids movie_titles m
    = Ok (ranking, locked) /\
    forall winner loser,
      edge locked winner loser -> precedes ranking winner loser.
Proof.
  intros Hwf Hlen.
  destruct (compute_ranked_pairs_ordered movie_ids movie_titles m Hwf)
    as (ranking & locked & E & _ & Hp & Ho & Hmaj & _); [lia|].
  exists ranking, locked. split; [exact E|]. intros winner loser He.
  apply (topo_ordered_precedes locked); [assumption| |assumption].
  apply (perm_range_In _ _ _ Hp). exact (proj1 (proj2 (Hmaj _ _ He))).
Qed.

Lemma ranking_orders_locked_pairs_witness :
  exists ranking locked,
    @Condorcet.compute_ranked_pairs SetOrders.ascending_positions
      [1; 2; 3]%Z ["C"; "B"; "A"]%string
      [[0; 2; 1]; [1; 0; 2]; [2; 1; 0]]%Z
    = Ok (ranking, locked) /\
    forall winner loser,
      edge locked winner loser -> precedes ranking winner loser.
Proof.
  apply (@ranking_orders_locked_pairs SetOrders.ascending_positions
           [1; 2; 3]%Z ["C"; "B"; "A"]%string
           [[0; 2; 1]; [1; 0; 2]; [2; 1; 0]]%Z).
  - split; [reflexivity | repeat constructor].
  - reflexivity.
Defined.

(** X2.  Only strict majorities are locked: every locked pair joins two
    different candidates of whom the winner has strictly more votes
    against the loser than the loser against the winner, and the
    opposite pair is not locked. *)
Theorem locked_pairs_are_majorities `{PySet nat} (movie_ids : list Z)
    (movie_titles : list string) (m : Condorcet.matrix) :
  mat_wf (length movie_ids) m ->
  length movie_titles = length movie_ids ->
  exists ranking locked,
    Condorcet.compute_ranked_pairs movie_ids movie_titles m
    = Ok (ranking, locked) /\
    forall winner loser,
      edge locked winner loser ->
      winner < length movie_ids /\ loser < length movie_ids /\
      winner <> loser /\
      (entry m winner loser > entry m loser winner)%Z /\
      ~ edge locked loser winner.
Proof.
  intros Hwf Hlen.
  destruct (compute_ranked_pairs_ordered movie_ids movie_titles m Hwf)
    as (ranking & locked & E & _ & _ & _ & Hmaj & _); [lia|].
  exists ranking, locked. split; [exact E|]. intros winner loser He.
  destruct (Hmaj _ _ He) as (Hw & Hl & Hb).
  split; [assumption|]. split; [assumption|]. split.
  - intros ->. exact (beats_irrefl _ _ Hb).
  - split; [exact Hb|]. intros He'. apply Hmaj in He'.
    destruct He' as (_ & _ & Hb'). exact (beats_asym _ _ _ Hb Hb').
Qed.

Lemma locked_pairs_are_majorities_witness :
  exists ranking locked,
    @Condorcet.compute_ranked_pairs SetOrders.ascending_positions
      [1; 2; 3]%Z ["C"; "B"; "A"]%string
      [[0; 2; 1]; [1; 0; 2]; [2; 1; 0]]%Z
    = Ok (ranking, locked) /\
    forall winner loser,
      edge locked winner loser ->
      winner < 3 /\ loser < 3 /\ winner <> loser /\
      (entry [[0; 2; 1]; [1; 0; 2]; [2; 1; 0]]%Z winner loser
       > entry [[0; 2; 1]; [1; 0; 2]; [2; 1; 0]]%Z loser winner)%Z /\
      ~ edge locked loser winner.
Proof.
  apply (@locked_pairs_are_majorities SetOrders.ascending_positions
           [1; 2; 3]%Z ["C"; "B"; "A"]%string
           [[0; 2; 1]; [1; 0; 2]; [2; 1; 0]]%Z).
  - split; [reflexivity | repeat constructor].
  - reflexivity.
Defined.

(** X3.  A Condorcet winner is ranked first: if candidate [w] has a
    strict majority against every other candidate, every pair it wins
    is locked, nothing is locked against it, and the ranking starts
    with [w]. *)
Theorem condorcet_winner_ranked_first `{PySet nat} (movie_ids : list Z)
    (movie_titles : list string) (m : Condorcet.matrix) (w : nat) :
  mat_wf (length movie_ids) m ->
  length movie_titles = length movie_ids ->
  w < length movie_ids ->
  (forall j, j < length movie_ids -> j <> w -> beats m w j) ->
  exists rest locked,
    Condorcet.compute_ranked_pairs movie_ids movie_titles m
    = Ok (w :: rest, locked) /\
    (forall j, j < length movie_ids -> j <> w -> edge locked w j) /\
    (forall j, ~ edge locked j w).
Proof.
  intros Hwf Hlen Hw Hall.
  destruct (compute_ranked_pairs_ordered movie_ids movie_titles m Hwf)
    as (ranking & locked & E & _ & Hp & Ho & Hmaj & Hlock); [lia|].
  assert (HA : forall u, ~ edge locked u w).
  { intros u He. destruct (Hmaj _ _ He) as (Hu & _ & Hb).
    destruct (Nat.eq_dec u w) as [->|Hne]; [exact (beats_irrefl _ _ Hb)|].
    exact (beats_asym _ _ _ Hb (Hall u Hu Hne)). }
  assert (HB : forall j, j < length movie_ids -> j <> w -> edge locked w j).
  { intros j Hj Hne.
    destruct (Hlock w j) as [He|Hr]; [repeat split; auto | assumption |].
    apply reaches_last in Hr. destruct Hr as [->|(u & _ & He)];
      [congruence | now destruct (HA u)]. }
  destruct ranking as [|x rest].
  - exfalso. assert (Hin : In w (@nil nat))
      by (apply (perm_range_In _ _ _ Hp); exact Hw).
    destruct Hin.
  - destruct (Nat.eq_dec x w) as [->|Hne].
    + exists rest, locked. auto.
    + exfalso. assert (Hx : x < length movie_ids)
        by (apply (perm_range_In _ _ _ Hp); now left).
      exact (Ho [] x rest eq_refl w (HB x Hx Hne)).
Qed.

Lemma condorcet_winner_ranked_first_witness :
  exists rest locked,
    @Condorcet.compute_ranked_pairs SetOrders.ascending_positions
      [1; 2; 3]%Z ["A"; "B"; "C"]%string
      [[0; 1; 1]; [2; 0; 2]; [2; 1; 0]]%Z
    = Ok (1 :: rest, locked) /\
    (forall j, j < 3 -> j <> 1 -> edge locked 1 j) /\
    (forall j, ~ edge locked j 1).
Proof.
  apply (@condorcet_winner_ranked_first SetOrders.ascending_positions
           [1; 2; 3]%Z ["A"; "B"; "C"]%string
           [[0; 1; 1]; [2; 0; 2]; [2; 1; 0]]%Z 1).
  - split; [reflexivity | repeat constructor].
  - reflexivity.
  - simpl. lia.
  - intros j Hj Hne. simpl in Hj.
    destruct j as [|[|[|j]]]; [reflexivity | congruence | reflexivity | lia].
Defined.

(** X4.  A Condorcet loser is ranked last: if every other candidate
    has a strict majority against candidate [x], every pair it loses is
    locked, and the ranking ends with [x]. *)
Theorem condorcet_loser_ranked_last `{PySet nat} (movie_ids : list Z)
    (movie_titles : list string) (m : Condorcet.matrix) (x : nat) :
  mat_wf (length movie_ids) m ->
  length movie_titles = length movie_ids ->
  x < length movie_ids ->
  (forall j, j < length movie_ids -> j <> x -> beats m j x) ->
  exists front locked,
    Condorcet.compute_ranked_pairs movie_ids movie_titles m
    = Ok (front ++ [x], locked) /\
    (forall j, j < length movie_ids -> j <> x -> edge locked j x) /\
    (forall j, ~ edge locked x j).
Proof.
  intros Hwf Hlen Hx Hall.
  destruct (compute_ranked_pairs_ordered movie_ids movie_titles m Hwf)
    as (ranking & locked & E & _ & Hp & Ho & Hmaj & Hlock); [lia|].
  assert (HA : forall u, ~ edge locked x u).
  { intros u He. destruct (Hmaj _ _ He) as (_ & Hu & Hb).
    destruct (Nat.eq_dec u x) as [->|Hne]; [exact (beats_irrefl _ _ Hb)|].
    exact (beats_asym _ _ _ Hb (Hall u Hu Hne)). }
  assert (HB : forall j, j < length movie_ids -> j <> x -> edge locked j x).
  { intros j Hj Hne.
    destruct (Hlock j x) as [He|Hr]; [repeat split; auto | assumption |].
    apply reaches_first in Hr. destruct Hr as [->|(u & He & _)];
      [congruence | now destruct (HA u)]. }
  assert (Hin : In x ranking) by (apply (perm_range_In _ _ _ Hp); exact Hx).
  apply in_split in Hin. destruct Hin as (l1 & l2 & ->).
  assert (Hnd : NoDup (l1 ++ x :: l2)).
  { apply (Permutation_NoDup (Permutation_sym Hp)), range_NoDup. }
  destruct l2 as [|y l2].
  - exists l1, locked. auto.
  - exfalso.
    assert (Hy : In y (l1 ++ x :: y :: l2))
      by (apply in_or_app; right; right; now left).
    assert (Hylt : y < length movie_ids)
      by (apply (perm_range_In _ _ _ Hp); exact Hy).
    assert (Hne : y <> x).
    { intros ->. apply NoDup_remove_2 in Hnd. apply Hnd, in_or_app.
      right. now left. }
    pose proof (Ho l1 x (y :: l2) eq_refl y (HB y Hylt Hne)) as Hy1.
    apply (NoDup_app_disjoint _ _ y Hnd); [assumption|]. right. now left.
Qed.

Lemma condorcet_loser_ranked_last_witness :
  exists front locked,
    @Condorcet.compute_ranked_pairs SetOrders.ascending_positions
      [1; 2; 3]%Z ["A"; "B"; "C"]%string
      [[0; 1; 1]; [2; 0; 2]; [2; 1; 0]]%Z
    = Ok (front ++ [0], locked) /\
    (forall j, j < 3 -> j <> 0 -> edge locked j 0) /\
    (forall j, ~ edge locked 0 j).
Proof.
  apply (@condorcet_loser_ranked_last SetOrders.ascending_positions
           [1; 2; 3]%Z ["A"; "B"; "C"]%string
           [[0; 1; 1]; [2; 0; 2]; [2; 1; 0]]%Z 0).
  - split; [reflexivity | repeat constructor].
  - reflexivity.
  - simpl. lia.
  - intros j Hj Hne. simpl in Hj.
    destruct j as [|[|[|j]]]; [congruence | reflexivity | reflexivity | lia].
Defined.

(** X5.  When the strict majorities contain no cycle, every one of them
    is locked and the ranking orders every pair of candidates the way
    the majority does. *)
Theorem acyclic_majorities_all_locked `{PySet nat} (movie_ids : list Z)
    (movie_titles : list string) (m : Condorcet.matrix) :
  mat_wf (length movie_ids) m ->
  length movie_titles = length movie_ids ->
  (forall i, ~ clos_trans_1n nat (majority (length movie_ids) m) i i) ->
  exists ranking locked,
    Condorcet.compute_ranked_pairs movie_ids movie_titles m
    = Ok (ranking, locked) /\
    forall i j, majority (length movie_ids) m i j ->
                edge locked i j /\ precedes ranking i j.
Proof.
  intros Hwf Hlen Hac.
  destruct (compute_ranked_pairs_ordered movie_ids movie_titles m Hwf)
    as (ranking & locked & E & _ & Hp & Ho & Hmaj & Hlock); [lia|].
  exists ranking, locked. split; [exact E|]. intros i j Hij.
  assert (He : edge locked i j).
  { destruct (Hlock i j Hij) as [He|Hr]; [assumption|]. exfalso.
    apply (Hac i), (step_rt_path _ i j i Hij).
    exact (rt_map _ _ _ _ Hmaj Hr). }
  split; [assumption|].
  apply (topo_ordered_precedes locked); [assumption| |assumption].
  apply (perm_range_In _ _ _ Hp). exact (proj1 (proj2 Hij)).
Qed.

Lemma acyclic_majorities_all_locked_witness :
  exists ranking locked,
    @Condorcet.compute_ranked_pairs SetOrders.ascending_positions
      [1; 2; 3]%Z ["A"; "B"; "C"]%string
      [[0; 1; 1]; [2; 0; 2]; [2; 1; 0]]%Z
    = Ok (ranking, locked) /\
    forall i j, majority 3 [[0; 1; 1]; [2; 0; 2]; [2; 1; 0]]%Z i j ->
                edge locked i j /\ precedes ranking i j.
Proof.
  apply (@acyclic_majorities_all_locked SetOrders.ascending_positions
           [1; 2; 3]%Z ["A"; "B"; "C"]%string
           [[0; 1; 1]; [2; 0; 2]; [2; 1; 0]]%Z).
  - split; [reflexivity | repeat constructor].
  - reflexivity.
  - apply (acyclic_by_rank _
      (fun i => match i with 1 => 0 | 2 => 1 | _ => 2 end)).
    intros u v (Hu & Hv & Hb). simpl in Hu, Hv. unfold beats in Hb.
    destruct u as [|[|[|u]]]; destruct v as [|[|[|v]]];
      cbv in Hb; try discriminate; lia.
Defined.
(* ================================================================== *)
(** * The ranks of one voter are layers                                 *)
(* ================================================================== *)

Module Layers.
Import Condorcet.

Section Layer.
Context `{PySet Z}.
Implicit Types (graph : setdict Z) (remaining main : pyset) (d : dict Z Z).

Lemma set_discard_perm_Z (x : Z) remaining :
  In x (set_iter remaining) ->
  Permutation (x :: set_iter (set_discard x remaining)) (set_iter remaining).
Proof.
  intros Hx. apply NoDup_Permutation.
  - constructor; [|apply set_iter_NoDup]. rewrite set_discard_iter. tauto.
  - apply set_iter_NoDup.
  - intros y. simpl. rewrite set_discard_iter.
    destruct (Z.eq_dec x y) as [->|Hne]; intuition congruence.
Qed.

(** [if p(y): d[y] += z] for all [y] of a list without repetitions. *)
Lemma cond_incr_vals (p : Z -> bool) (z : Z) (l : list Z) :
  NoDup l ->
  forall d,
    (forall y, In y l -> p y = true -> In y (dict_keys d)) ->
    exists d',
      foldM (fun d y => if p y then dict_incr y z d else Ok d) l d = Ok d' /\
      dict_keys d' = dict_keys d /\
      forall v, val d' v
                = (if p v && existsb (keqb v) l then val d v + z
                   else val d v)%Z.
Proof.
  induction l as [|y l IH]; intros Hnd d Hk.
  - exists d. simpl. split; [reflexivity|]. split; [reflexivity|].
    intros v. now rewrite andb_false_r.
  - inversion Hnd as [|? ? Hy Hnd']; subst. rewrite foldM_cons.
    assert (Hyl : existsb (keqb y) l = false).
    { apply not_true_is_false. rewrite existsb_keqb. exact Hy. }
    destruct (p y) eqn:Ep.
    + destruct (dict_incr_val y z d) as (d1 & E1 & Hk1 & Hv1 & Ho1).
      { apply Hk; [now left | assumption]. }
      rewrite E1. cbn [bind].
      destruct (IH Hnd' d1) as (d' & E & Hk' & Hv').
      { intros y' Hy' Hp'. rewrite Hk1. apply Hk; [now right | assumption]. }
      exists d'. split; [exact E|]. split; [congruence|].
      intros v. rewrite Hv'. cbn [existsb].
      destruct (Z.eq_dec v y) as [->|Hne].
      * rewrite Ep, Hyl, keqb_refl. simpl. exact Hv1.
      * rewrite (Ho1 v Hne).
        replace (keqb v y) with false
          by (symmetry; apply keqb_neq; exact Hne).
        reflexivity.
    + cbn [bind].
      destruct (IH Hnd' d) as (d' & E & Hk' & Hv').
      { intros y' Hy' Hp'. apply Hk; [now right | assumption]. }
      exists d'. split; [exact E|]. split; [exact Hk'|].
      intros v. rewrite Hv'. cbn [existsb].
      destruct (Z.eq_dec v y) as [->|Hne].
      * rewrite Ep. reflexivity.
      * replace (keqb v y) with false
          by (symmetry; apply keqb_neq; exact Hne).
        reflexivity.
Qed.

(** Lines 141-145 over a list of nodes. *)
Lemma component_in_degree_vals graph main (nodes : list Z) :
  forall d,
    (forall x, In x (set_iter main) -> In x (dict_keys d)) ->
    exists d',
      foldM (fun d from_node =>
               foldM (fun d to_node =>
                        if set_mem to_node main then dict_incr to_node 1 d
                        else Ok d)
                     (sd_get from_node graph) d)
            nodes d = Ok d' /\
      dict_keys d' = dict_keys d /\
      forall v, In v (set_iter main) ->
                val d' v
                = (val d v + Z.of_nat (length (preds_in graph nodes v)))%Z.
Proof.
  induction nodes as [|u nodes IH]; intros d Hk.
  - exists d. simpl. split; [reflexivity|]. split; [reflexivity|].
    intros v _. lia.
  - rewrite foldM_cons.
    destruct (cond_incr_vals (fun y => set_mem y main) 1 (sd_get u graph)
                (sd_get_NoDup u graph) d) as (d1 & E1 & Hk1 & Hv1).
    { intros y _ Hy. apply Hk. now apply set_mem_iter. }
    rewrite E1. cbn [bind].
    destruct (IH d1) as (d' & E & Hk' & Hv').
    { intros x Hx. rewrite Hk1. now apply Hk. }
    exists d'. split; [exact E|]. split; [congruence|].
    intros v Hv. rewrite (Hv' v Hv), Hv1, preds_in_cons.
    replace (set_mem v main) with true
      by (symmetry; now apply set_mem_iter).
    cbn [andb].
    destruct (existsb (keqb v) (sd_get u graph)); cbn [length]; lia.
Qed.

Lemma val_const (l : list Z) (v : Z) : val (dict_const l 0%Z) v = 0%Z.
Proof.
  unfold val, dict_get_default.
  destruct (dict_get v (dict_const l 0%Z)) as [x|] eqn:E; [|reflexivity].
  now apply dict_const_vals in E.
Qed.

Lemma component_in_degree_counts graph main :
  exists d,
    component_in_degree graph main = Ok d /\
    (forall x, In x (dict_keys d) <-> In x (set_iter main)) /\
    forall v, In v (set_iter main) ->
              val d v
              = Z.of_nat (length (preds_in graph (set_iter main) v)).
Proof.
  unfold component_in_degree.
  destruct (component_in_degree_vals graph main (set_iter main)
              (dict_const (set_iter main) 0%Z))
    as (d & E & Hk & Hv).
  { intros x Hx. now apply dict_const_keys. }
  exists d. split; [exact E|]. split.
  - intros x. rewrite Hk. apply dict_const_keys.
  - intros v Hin. rewrite (Hv v Hin), val_const. lia.
Qed.

(** Lines 157-162: one source leaves, the in-degrees follow. *)
Lemma process_source_deg graph (current_rank : Z) (rank_map : dict Z Z)
    remaining (cdeg : dict Z Z) (mid : Z) :
  deg_inv graph remaining cdeg -> In mid (set_iter remaining) ->
  exists cdeg',
    process_source graph current_rank (rank_map, remaining, cdeg) mid
    = Ok (dict_set mid current_rank rank_map, set_discard mid remaining,
          cdeg') /\
    deg_inv graph (set_discard mid remaining) cdeg'.
Proof.
  intros [Hk Hv] Hmid. unfold process_source.
  destruct (cond_incr_vals (fun y => set_mem y (set_discard mid remaining))
              (-1) (sd_get mid graph) (sd_get_NoDup mid graph) cdeg)
    as (d' & E & Hk' & Hv').
  { intros y _ Hy. apply Hk.
    apply set_mem_iter, set_discard_iter in Hy. tauto. }
  exists d'. rewrite E. cbn [bind]. split; [reflexivity|]. split.
  - intros x Hx. rewrite Hk'. apply Hk.
    apply set_discard_iter in Hx. tauto.
  - intros v Hin. rewrite Hv'.
    replace (set_mem v (set_discard mid remaining)) with true
      by (symmetry; now apply set_mem_iter).
    cbn [andb]. apply set_discard_iter in Hin. destruct Hin as [_ Hin].
    rewrite (Hv v Hin).
    rewrite (Permutation_length
               (preds_in_perm graph _ _ v
                  (Permutation_sym (set_discard_perm_Z mid remaining Hmid)))).
    rewrite preds_in_cons.
    destruct (existsb (keqb v) (sd_get mid graph)); cbn [length]; lia.
Qed.

Lemma process_sources_deg graph (current_rank : Z) (sources : list Z) :
  NoDup sources ->
  forall (rank_map : dict Z Z) remaining (cdeg : dict Z Z),
    deg_inv graph remaining cdeg ->
    (forall s, In s sources -> In s (set_iter remaining)) ->
    exists rank_map' remaining' cdeg',
      foldM (process_source graph current_rank) sources
            (rank_map, remaining, cdeg)
      = Ok (rank_map', remaining', cdeg') /\
      deg_inv graph remaining' cdeg' /\
      (forall x, In x (set_iter remaining') <->
                 In x (set_iter remaining) /\ ~ In x sources) /\
      (forall x, In x sources -> dict_get x rank_map' = Some current_rank) /\
      (forall x, ~ In x sources -> dict_get x rank_map' = dict_get x rank_map).
Proof.
  induction sources as [|s sources IH];
    intros Hnd rank_map remaining cdeg Hinv Hs.
  - exists rank_map, remaining, cdeg. split; [reflexivity|].
    split; [assumption|]. split; [intros x; simpl; tauto|].
    split; [intros x [] | reflexivity].
  - inversion Hnd as [|? ? Hs' Hnd']; subst. rewrite foldM_cons.
    destruct (process_source_deg graph current_rank rank_map remaining cdeg s
                Hinv) as (d1 & E1 & Hinv1); [apply Hs; now left|].
    rewrite E1. cbn [bind].
    destruct (IH Hnd' (dict_set s current_rank rank_map)
                 (set_discard s remaining) d1 Hinv1)
      as (rm' & rem' & d' & E & Hinv' & Hr & Hin & Hout).
    { intros x Hx. apply set_discard_iter. split; [|apply Hs; now right].
      intros ->. contradiction. }
    exists rm', rem', d'. split; [exact E|]. split; [assumption|]. split.
    + intros x. rewrite Hr, set_discard_iter. simpl. intuition congruence.
    + split.
      * intros x [<-|Hx]; [|now apply Hin].
        rewrite (Hout s Hs'). apply dict_get_set_eq.
      * intros x Hx. rewrite Hout by (intros Hx'; apply Hx; now right).
        apply dict_get_set_ne. intros ->. apply Hx. now left.
Qed.

Lemma sources_of_spec graph remaining (cdeg : dict Z Z) (s : Z) :
  deg_inv graph remaining cdeg ->
  In s (sources_of remaining cdeg) <->
  In s (set_iter remaining) /\ preds_in graph (set_iter remaining) s = [].
Proof.
  intros [_ Hv]. unfold sources_of. rewrite filter_In.
  split; intros [Hs Hz]; (split; [assumption|]).
  - change ((val cdeg s =? 0)%Z = true) in Hz. rewrite (Hv s Hs) in Hz.
    apply Z.eqb_eq in Hz. apply length_zero_iff_nil. lia.
  - change ((val cdeg s =? 0)%Z = true). rewrite (Hv s Hs), Hz. reflexivity.
Qed.

(** One round of the layered sort. *)
Lemma layer_round graph (rank_map : dict Z Z) remaining (r : Z)
    (sources : list Z) (rank_map' : dict Z Z) remaining' :
  layer_inv graph rank_map remaining r ->
  (forall s, In s sources <->
             In s (set_iter remaining) /\
             preds_in graph (set_iter remaining) s = []) ->
  (forall x, In x (set_iter remaining') <->
             In x (set_iter remaining) /\ ~ In x sources) ->
  (forall x, In x sources -> dict_get x rank_map' = Some r) ->
  (forall x, ~ In x sources -> dict_get x rank_map' = dict_get x rank_map) ->
  layer_inv graph rank_map' remaining' (r + 1).
Proof.
  intros (H0 & H1 & H2 & (La & Lb & Lc) & H6 & H5) Hsrc Hrem Hin Hout.
  assert (Hold : forall x, In x (dict_keys rank_map) ->
                           dict_get x rank_map' = dict_get x rank_map).
  { intros x Hx. apply Hout. intros Hs. apply Hsrc in Hs.
    now apply (H1 x Hx). }
  assert (Hkeep : forall x rx, dict_get x rank_map = Some rx ->
                               dict_get x rank_map' = Some rx).
  { intros x rx E. rewrite Hold; [assumption|].
    apply dict_get_keys. congruence. }
  assert (Hcase : forall x rx, dict_get x rank_map' = Some rx ->
                    (In x sources /\ rx = r) \/
                    (~ In x sources /\ dict_get x rank_map = Some rx)).
  { intros x rx E. destruct (in_dec Z.eq_dec x sources) as [Hs|Hs].
    - left. split; [assumption|]. rewrite (Hin x Hs) in E. congruence.
    - right. split; [assumption|]. now rewrite (Hout x Hs) in E. }
  split; [lia|]. split; [|split; [|split; [|split]]].
  - intros x Hx Hx'. apply Hrem in Hx'. destruct Hx' as [Hx' Hns].
    apply (H1 x); [|assumption]. apply dict_get_keys.
    rewrite <- (Hout x Hns). now apply dict_get_keys.
  - intros x rx E. destruct (Hcase x rx E) as [[_ ->]|[_ E']]; [lia|].
    specialize (H2 x rx E'). lia.
  - split; [|split].
    + intros x rx E. destruct (Hcase x rx E) as [[_ ->]|[_ E']]; [lia|].
      exact (La x rx E').
    + intros u v rv He E. destruct (Hcase v rv E) as [[Hs ->]|[_ E']].
      * apply Hsrc in Hs. destruct Hs as [Hv Hp].
        destruct (H6 u v He Hv) as [Hu|Hu].
        -- apply dict_get_keys in Hu.
           destruct (dict_get u rank_map) as [ru|] eqn:Eu; [|congruence].
           exists ru. split; [now apply Hkeep | exact (H2 u ru Eu)].
        -- exfalso. exact (proj1 (preds_in_nil graph _ v) Hp u Hu He).
      * destruct (Lb u v rv He E') as (ru & Eu & Hlt).
        exists ru. split; [now apply Hkeep | assumption].
    + intros v rv E Hrv. destruct (Hcase v rv E) as [[Hs ->]|[_ E']].
      * apply Hsrc in Hs. destruct Hs as [Hv Hp].
        destruct (H5 Hrv v Hv Hp) as (u & He & Eu).
        exists u. split; [assumption | now apply Hkeep].
      * destruct (Lc v rv E' Hrv) as (u & He & Eu).
        exists u. split; [assumption | now apply Hkeep].
  - intros u v He Hv. apply Hrem in Hv. destruct Hv as [Hv _].
    destruct (H6 u v He Hv) as [Hu|Hu].
    + left. apply dict_get_keys. rewrite (Hold u Hu).
      now apply dict_get_keys.
    + destruct (in_dec Z.eq_dec u sources) as [Hs|Hs].
      * left. apply dict_get_keys. rewrite (Hin u Hs). discriminate.
      * right. apply Hrem. tauto.
  - intros _ v Hv Hp. apply Hrem in Hv. destruct Hv as [Hv Hns].
    destruct (preds_in graph (set_iter remaining) v) as [|u l] eqn:E.
    + exfalso. apply Hns, Hsrc. tauto.
    + assert (Hu : In u (preds_in graph (set_iter remaining) v))
        by (rewrite E; now left).
      apply preds_in_In in Hu. destruct Hu as [Hu He].
      exists u. split; [assumption|].
      replace (r + 1 - 1)%Z with r by lia. apply Hin.
      destruct (in_dec Z.eq_dec u sources) as [Hs|Hs]; [assumption|].
      exfalso. apply (proj1 (preds_in_nil graph _ v) Hp u); [|assumption].
      apply Hrem. tauto.
Qed.

(** Lines 147-164 hand out layers, and stop at a cycle only. *)
Lemma rank_loop_layers graph fuel :
  forall (rank_map : dict Z Z) remaining (cdeg : dict Z Z)
         (unranked_ids : list Z) (r : Z),
    set_len remaining < fuel ->
    deg_inv graph remaining cdeg ->
    layer_inv graph rank_map remaining r ->
    exists rank_map' left,
      rank_loop fuel graph rank_map remaining cdeg unranked_ids r
      = Ok (rank_map', unranked_ids ++ left) /\
      layered graph rank_map' /\
      (acyclic graph -> left = []).
Proof.
  induction fuel as [|fuel IH];
    intros rank_map remaining cdeg unranked_ids r Hfuel Hdeg Hinv; [lia|].
  destruct (list_eq_dec Z.eq_dec (set_iter remaining) []) as [Erem|Erem].
  - exists rank_map, []. simpl. rewrite Erem, app_nil_r.
    split; [reflexivity|]. split; [apply Hinv | reflexivity].
  - rewrite rank_loop_unfold by assumption.
    pose proof (sources_of_spec graph remaining cdeg) as Hsrc.
    assert (Hnd : NoDup (sources_of remaining cdeg)).
    { unfold sources_of. apply NoDup_filter, set_iter_NoDup. }
    destruct (sources_of remaining cdeg) as [|s0 sources].
    + exists rank_map, (set_iter remaining). split; [reflexivity|].
      split; [apply Hinv|]. intros Hac. exfalso.
      destruct (acyclic_has_source graph (set_iter remaining) Hac Erem)
        as (s & Hs & Hp).
      apply (Hsrc s Hdeg). tauto.
    + destruct (process_sources_deg graph r (s0 :: sources) Hnd rank_map
                  remaining cdeg Hdeg)
        as (rm1 & rem1 & d1 & -> & Hdeg1 & Hr1 & Hin1 & Hout1).
      { intros s Hs. now apply (Hsrc s Hdeg) in Hs. }
      cbn [bind].
      apply IH; [|assumption|].
      * assert (Hlt : S (set_len rem1) <= set_len remaining).
        { unfold set_len.
          change (length (s0 :: set_iter rem1) <= length (set_iter remaining)).
          apply NoDup_incl_length.
          - constructor; [|apply set_iter_NoDup]. rewrite Hr1.
            intros [_ Hn]. apply Hn. now left.
          - intros y [<-|Hy]; [|now apply Hr1 in Hy].
            apply (Hsrc s0 Hdeg). now left. }
        lia.
      * apply (layer_round graph rank_map remaining r (s0 :: sources));
          try assumption.
        intros s. exact (Hsrc s Hdeg).
Qed.

Lemma path_map (graph : setdict Z) (R : Z -> Z -> Prop) (x y : Z) :
  (forall u v, edge graph u v -> R u v) ->
  path graph x y -> clos_trans_1n Z R x y.
Proof.
  intros Hm. induction 1 as [a b Hab|a b c Hab Hbc IH].
  - constructor. now apply Hm.
  - econstructor 2; [apply Hm; exact Hab | exact IH].
Qed.

Lemma wanted_compared (to_rank : list Z) (prefs : list pref) (x y : Z) :
  wanted to_rank prefs x y -> compared_pair to_rank prefs x y.
Proof.
  intros ([[a b] p] & Hin & Hd & Hx & Hy). exists a, b, p.
  unfold directed_edge in Hd.
  destruct (p >? 0)%Z; [injection Hd as <- <-; tauto|].
  destruct (p <? 0)%Z; [injection Hd as <- <-; tauto | discriminate].
Qed.

Lemma wanted_states (to_rank : list Z) (prefs : list pref) (x y : Z) :
  wanted to_rank prefs x y <->
  states prefs x y /\ In x to_rank /\ In y to_rank.
Proof.
  unfold wanted, states. split.
  - intros (p & Hin & Hd & Hx & Hy). eauto.
  - intros ((p & Hin & Hd) & Hx & Hy). eauto.
Qed.

Lemma states_appears (prefs : list pref) (x y : Z) :
  states prefs x y -> appears x prefs /\ appears y prefs.
Proof.
  intros ([[a b] p] & Hin & Hd). unfold directed_edge in Hd.
  split; exists a, b, p; (split; [assumption|]);
    destruct (p >? 0)%Z; try (injection Hd as <- <-; tauto);
    destruct (p <? 0)%Z; try (injection Hd as <- <-; tauto); discriminate.
Qed.

(** [compute_user_rankings] on a voter with something to rank: the
    rank map is layered over the preference graph, its keys lie in one
    connected component, and fill it when the graph has no cycle. *)
Lemma compute_user_rankings_layers (prefs : list pref) (unwatched : pyset) :
  let to_rank := movies_to_rank prefs unwatched in
  let cg := build_comparison_graph prefs (set_of_list to_rank) in
  to_rank <> [] ->
  exists graph rank_map unranked_set h c,
    compute_user_rankings prefs unwatched = Ok (rank_map, unranked_set) /\
    (forall x y, edge graph x y <-> wanted to_rank prefs x y) /\
    layered graph rank_map /\
    In h to_rank /\ is_component cg h c /\
    (forall x, In x (dict_keys rank_map) -> In x c) /\
    (acyclic graph -> forall x, In x c -> In x (dict_keys rank_map)).
Proof.
  intros to_rank cg Hne.
  destruct (compute_user_rankings_stages prefs unwatched Hne)
    as (graph & in_degree & visited & components & c & cdeg & rank_map
        & left & _ & Hg & _ & _ & _ & _ & (h & Hh & Hc) & Ed & _ & _
        & Er & _ & Hkeys & E).
  fold to_rank in Hg, Hh, Er, E. fold cg in Hc.
  set (main := set_of_list c) in *.
  set (remaining := set_of_list (set_iter main)) in *.
  destruct (component_in_degree_counts graph main) as (d & Ed' & Hdk & Hdv).
  rewrite Ed in Ed'. injection Ed' as <-.
  assert (Hrem : Permutation (set_iter remaining) (set_iter main)).
  { apply set_of_list_perm, set_iter_NoDup. }
  assert (Hrc : forall x, In x (set_iter remaining) <-> In x c).
  { intros x. unfold remaining, main. now rewrite !set_of_list_In. }
  destruct (rank_loop_layers graph (S (set_len remaining)) [] remaining cdeg
              (filter (fun mid => negb (set_mem mid main)) to_rank) 1%Z)
    as (rm' & left' & Er' & Hlay & Hac).
  - lia.
  - split.
    + intros x Hx. apply Hdk. now apply (Permutation_in _ Hrem).
    + intros v Hv. rewrite (Hdv v (Permutation_in _ Hrem Hv)).
      now rewrite (Permutation_length (preds_in_perm graph _ _ v Hrem)).
  - split; [lia|]. split; [intros x []|]. split; [discriminate|].
    split; [|split].
    + split; [discriminate|]. split; [discriminate | discriminate].
    + intros u v He Hv. right. apply Hrc. apply Hrc in Hv.
      apply Hg, wanted_compared, comparison_graph_spec in He.
      fold cg in He. destruct Hc as (_ & _ & Hc). apply Hc.
      apply Hc in Hv. apply reaches_step with v; [assumption|].
      now apply comparison_graph_symmetric.
    + lia.
  - rewrite Er in Er'. injection Er' as <- Hleft.
    apply app_inv_head in Hleft. subst left'.
    exists graph, rank_map,
      (set_of_list
         (filter (fun mid => negb (set_mem mid main)) to_rank ++ left)), h, c.
    split; [exact E|].
    split; [exact Hg|]. split; [exact Hlay|]. split; [exact Hh|].
    split; [exact Hc|]. split.
    + intros x Hx. now apply Hkeys in Hx.
    + intros Hacyc x Hx. apply Hkeys. rewrite (Hac Hacyc). simpl. tauto.
Qed.

End Layer.

End Layers.

Import Layers.

(** X6.  A voter's ranks respect the voter's statements: whenever the
    voter states that [x] is preferred to [y] and both receive a rank,
    the rank of [x] is the smaller (better) one.  Both files compute the
    same rank map. *)
Theorem ranks_respect_statements `{PySet Z} (prefs : list Condorcet.pref)
    (targets : pyset) :
  exists rank_map unranked_set,
    Condorcet.compute_user_rankings prefs targets
    = Ok (rank_map, unranked_set) /\
    Vote.compute_user_rankings prefs targets = Ok rank_map /\
    forall x y rx ry,
      states prefs x y ->
      dict_get x rank_map = Some rx -> dict_get y rank_map = Some ry ->
      (rx < ry)%Z.
Proof.
  destruct (list_eq_dec Z.eq_dec (Condorcet.movies_to_rank prefs targets) [])
    as [Enil|Hne].
  - exists [], set_empty.
    pose proof (compute_user_rankings_early prefs targets Enil) as E.
    split; [exact E|]. split; [|discriminate].
    rewrite compute_user_rankings_agree, E. reflexivity.
  - destruct (compute_user_rankings_layers prefs targets Hne)
      as (graph & rank_map & unranked_set & h & c & E & Hg & (_ & Lb & _)
          & Hh & Hc & Hk & _).
    exists rank_map, unranked_set. split; [exact E|]. split.
    + rewrite compute_user_rankings_agree, E. reflexivity.
    + intros x y rx ry Hs Ex Ey.
      assert (Hin : forall z rz, dict_get z rank_map = Some rz ->
                                 In z (Condorcet.movies_to_rank prefs targets)).
      { intros z rz Ez. apply (component_within _ prefs h c Hh Hc).
        apply Hk, dict_get_keys. congruence. }
      destruct (Lb x y ry) as (ru & Eu & Hlt); [|assumption|].
      * apply Hg, wanted_states. eauto.
      * congruence.
Qed.

(** X7.  The ranks are the layers of the voter's preference graph: a
    rank is at least 1; it is 1 exactly when the voter prefers no target
    candidate to the ranked one; and a candidate of rank [r > 1] has a
    candidate of rank [r - 1] that the voter prefers to it. *)
Theorem ranks_are_layers `{PySet Z} (prefs : list Condorcet.pref)
    (targets : pyset) :
  exists rank_map unranked_set,
    Condorcet.compute_user_rankings prefs targets
    = Ok (rank_map, unranked_set) /\
    Vote.compute_user_rankings prefs targets = Ok rank_map /\
    forall x rx,
      dict_get x rank_map = Some rx ->
      (1 <= rx)%Z /\
      (rx = 1%Z <->
       forall y, states prefs y x -> set_mem y targets = false) /\
      ((1 < rx)%Z ->
       exists y, states prefs y x /\
                 dict_get y rank_map = Some (rx - 1)%Z).
Proof.
  destruct (list_eq_dec Z.eq_dec (Condorcet.movies_to_rank prefs targets) [])
    as [Enil|Hne].
  - exists [], set_empty.
    pose proof (compute_user_rankings_early prefs targets Enil) as E.
    split; [exact E|]. split; [|discriminate].
    rewrite compute_user_rankings_agree, E. reflexivity.
  - destruct (compute_user_rankings_layers prefs targets Hne)
      as (graph & rank_map & unranked_set & h & c & E & Hg & (La & Lb & Lc)
          & Hh & Hc & Hk & _).
    exists rank_map, unranked_set. split; [exact E|]. split.
    + rewrite compute_user_rankings_agree, E. reflexivity.
    + intros x rx Ex.
      assert (Hx : In x (Condorcet.movies_to_rank prefs targets)).
      { apply (component_within _ prefs h c Hh Hc).
        apply Hk, dict_get_keys. congruence. }
      assert (Hpred : (1 < rx)%Z ->
                      exists y, states prefs y x /\
                                set_mem y targets = true /\
                                dict_get y rank_map = Some (rx - 1)%Z).
      { intros Hrx. destruct (Lc x rx Ex Hrx) as (u & He & Eu).
        apply Hg, wanted_states in He. destruct He as (Hs & Hu & _).
        apply movies_to_rank_In in Hu. exists u. tauto. }
      split; [exact (La x rx Ex)|]. split; [split|].
      * intros -> y Hs. destruct (set_mem y targets) eqn:Ey; [|reflexivity].
        exfalso. destruct (Lb y x 1%Z) as (ru & Eu & Hlt); [|assumption|].
        -- apply Hg, wanted_states. split; [assumption|].
           split; [|assumption]. apply movies_to_rank_In.
           split; [|assumption]. now apply states_appears in Hs.
        -- specialize (La y ru Eu). lia.
      * intros Hno. specialize (La x rx Ex).
        destruct (Z.eq_dec rx 1) as [->|Hne1]; [reflexivity|]. exfalso.
        destruct Hpred as (y & Hs & Ey & _); [lia|].
        rewrite (Hno y Hs) in Ey. discriminate.
      * intros Hrx. destruct (Hpred Hrx) as (y & Hs & _ & Ey). eauto.
Qed.

(** X8.  When the voter's statements contain no cycle, the layered sort
    never stops early: a whole connected component is ranked.  Some
    candidate is ranked as soon as there is one to rank, and every
    target candidate that a statement compares with a ranked one is
    ranked too. *)
Theorem acyclic_statements_rank_component `{PySet Z}
    (prefs : list Condorcet.pref) (targets : pyset) :
  (forall x, ~ clos_trans_1n Z (states prefs) x x) ->
  let to_rank := Condorcet.movies_to_rank prefs targets in
  exists rank_map unranked_set,
    Condorcet.compute_user_rankings prefs targets
    = Ok (rank_map, unranked_set) /\
    Vote.compute_user_rankings prefs targets = Ok rank_map /\
    (to_rank <> [] -> rank_map <> []) /\
    forall x y,
      In x (dict_keys rank_map) -> compared_pair to_rank prefs x y ->
      In y (dict_keys rank_map).
Proof.
  intros Hacyc to_rank.
  destruct (list_eq_dec Z.eq_dec to_rank []) as [Enil|Hne].
  - exists [], set_empty.
    pose proof (compute_user_rankings_early prefs targets Enil) as E.
    split; [exact E|]. split; [|split; [congruence | intros x y []]].
    rewrite compute_user_rankings_agree, E. reflexivity.
  - destruct (compute_user_rankings_layers prefs targets Hne)
      as (graph & rank_map & unranked_set & h & c & E & Hg & _
          & Hh & Hc & Hk & Hall).
    assert (Hac : acyclic graph).
    { intros x Hx. apply (Hacyc x). revert Hx. apply path_map.
      intros u v He. apply Hg, wanted_states in He. tauto. }
    exists rank_map, unranked_set. split; [exact E|]. split; [|split].
    + rewrite compute_user_rankings_agree, E. reflexivity.
    + intros _ Erm. destruct Hc as (_ & (rest & ->) & _).
      assert (Hin : In h (dict_keys rank_map)) by (apply (Hall Hac); now left).
      rewrite Erm in Hin. destruct Hin.
    + intros x y Hx Hxy. apply (Hall Hac). apply Hk in Hx.
      destruct Hc as (_ & _ & Hc). apply Hc. apply Hc in Hx.
      apply reaches_step with x; [assumption|].
      now apply comparison_graph_spec.
Qed.

Lemma acyclic_statements_rank_component_witness :
  exists rank_map unranked_set,
    @Condorcet.compute_user_rankings SetOrders.ascending_order
      [(1, 2, 1); (3, 2, -1)]%Z (set_of_list [1; 2; 3]%Z)
    = Ok (rank_map, unranked_set) /\
    @Vote.compute_user_rankings SetOrders.ascending_order
      [(1, 2, 1); (3, 2, -1)]%Z (set_of_list [1; 2; 3]%Z)
    = Ok rank_map /\
    (@Condorcet.movies_to_rank SetOrders.ascending_order
       [(1, 2, 1); (3, 2, -1)]%Z (set_of_list [1; 2; 3]%Z) <> [] ->
     rank_map <> []) /\
    forall x y,
      In x (dict_keys rank_map) ->
      compared_pair
        (@Condorcet.movies_to_rank SetOrders.ascending_order
           [(1, 2, 1); (3, 2, -1)]%Z (set_of_list [1; 2; 3]%Z))
        [(1, 2, 1); (3, 2, -1)]%Z x y ->
      In y (dict_keys rank_map).
Proof.
  apply (@acyclic_statements_rank_component SetOrders.ascending_order
           [(1, 2, 1); (3, 2, -1)]%Z (set_of_list [1; 2; 3]%Z)).
  apply (acyclic_by_rank _ Z.to_nat).
  intros u v (p & Hin & Hd). simpl in Hin.
  destruct Hin as [<-|[<-|[]]]; cbv in Hd; injection Hd as <- <-; cbv; lia.
Defined.
(* ================================================================== *)
(** * The matrix of a whole electorate                                  *)
(* ================================================================== *)

Module Electorate.
Import Condorcet.

Lemma contribution_pair (rank_map : dict Z Z) (a b : Z) :
  (contribution rank_map a b + contribution rank_map b a <= 1)%Z.
Proof.
  unfold contribution.
  destruct (dict_get a rank_map) as [ra|], (dict_get b rank_map) as [rb|];
    try lia.
  destruct (Z.ltb_spec ra rb), (Z.ltb_spec rb ra); lia.
Qed.

Lemma votes_for_pair (rank_maps : list (dict Z Z)) (a b : Z) :
  (votes_for rank_maps a b + votes_for rank_maps b a
   <= Z.of_nat (length rank_maps))%Z.
Proof.
  induction rank_maps as [|rm l IH]; [unfold votes_for; simpl; lia|].
  unfold votes_for in *. cbn [map fold_right length].
  rewrite Nat2Z.inj_succ. pose proof (contribution_pair rm a b). lia.
Qed.

Lemma dict_set_length {K V : Type} `{Key K} (k : K) (v : V) (d : dict K V) :
  length (dict_set k v d) <= S (length d).
Proof.
  induction d as [|[k' v'] d IH]; simpl; [lia|].
  destruct (keqb k k'); simpl; lia.
Qed.

Lemma mat_counts_of_entries (n : nat) (m : matrix) :
  mat_wf n m ->
  (forall i j, i < n -> j < n -> (0 <= entry m i j < 2 ^ 63)%Z) ->
  mat_counts m.
Proof.
  intros [Hlen Hrows] He. unfold mat_counts.
  apply Forall_forall. intros row Hrow. apply Forall_forall. intros v Hv.
  destruct (In_nth m row [] Hrow) as (i & Hi & Ei).
  assert (Hr : length row = n)
    by (rewrite Forall_forall in Hrows; now apply Hrows).
  destruct (In_nth row v 0%Z Hv) as (j & Hj & Ej).
  specialize (He i j). unfold entry in He. rewrite Ei, Ej in He.
  apply He; lia.
Qed.

Section Voters.
Context `{PySet Z}.

Lemma collect_user_rankings_returns
    (attendees : list (string * list pref)) (s : pyset) :
  exists user_rankings,
    collect_user_rankings attendees s = Ok user_rankings /\
    length user_rankings <= length attendees.
Proof.
  unfold collect_user_rankings.
  destruct (foldM_inv_prefix
              (fun (pre : list (string * list pref))
                   (ur : dict string ranking) => length ur <= length pre)
              (fun user_rankings (a : string * list pref) =>
                 let '(user_id, prefs) := a in
                 match prefs with
                 | [] => Ok user_rankings
                 | _ :: _ =>
                     '(rank_map, unranked_set) <-
                       compute_user_rankings prefs s ;;
                     Ok (dict_set user_id
                           {| rank_map := rank_map;
                              unranked_set := unranked_set |}
                           user_rankings)
                 end)
              attendees) with (s := @nil (string * ranking))
    as (ur & E & Hlen).
  - intros pre [uid prefs] ur _ Hur. rewrite length_app. simpl.
    destruct prefs as [|p prefs].
    + exists ur. split; [reflexivity | lia].
    + destruct (compute_user_rankings_returns (p :: prefs) s)
        as (rm & un & ->).
      cbn [bind]. eexists. split; [reflexivity|].
      pose proof (dict_set_length uid {| rank_map := rm; unranked_set := un |}
                    ur). lia.
  - simpl. lia.
  - exists ur. split; assumption.
Qed.

(** The matrix of a dict of rankings. *)
Lemma build_matrix_bounds (movie_ids : list Z)
    (user_rankings : dict string ranking) :
  let n := length movie_ids in
  (Z.of_nat (length user_rankings) < 2 ^ 63)%Z ->
  exists m,
    build_matrix movie_ids user_rankings = Ok m /\
    mat_wf n m /\
    (forall i, i < n -> entry m i i = 0%Z) /\
    (forall i j, i < n -> j < n ->
       (0 <= entry m i j)%Z /\
       (entry m i j + entry m j i <= Z.of_nat (length user_rankings))%Z).
Proof.
  intros n Hlt.
  destruct (fill_spec (fun e : string * ranking => rank_map (snd e))
              tally_user (fun _ _ _ _ _ _ => eq_refl) movie_ids
              user_rankings Hlt) as (m & E & Hwf & Hcell).
  exists m. split; [exact E|]. split; [exact Hwf|].
  fold n in Hcell. split.
  - intros i Hi. rewrite (Hcell i i Hi Hi). unfold cell.
    now rewrite Nat.eqb_refl.
  - intros i j Hi Hj. rewrite (Hcell i j Hi Hj), (Hcell j i Hj Hi).
    unfold cell. rewrite (Nat.eqb_sym j i).
    destruct (i =? j); [lia|].
    set (rms := map (fun e : string * ranking => rank_map (snd e))
                    user_rankings).
    pose proof (votes_for_range rms (nth i movie_ids 0%Z)
                  (nth j movie_ids 0%Z)).
    pose proof (votes_for_pair rms (nth i movie_ids 0%Z)
                  (nth j movie_ids 0%Z)) as Hp.
    unfold rms in Hp at 3. rewrite length_map in Hp. lia.
Qed.

(** [compute_condorcet_matrix], stage by stage. *)
Lemma compute_condorcet_matrix_bounds (movies : dict Z string)
    (attendees : list (string * list pref)) :
  let n := length movies in
  (Z.of_nat (length attendees) < 2 ^ 63)%Z ->
  exists titles m,
    compute_condorcet_matrix movies attendees
    = Ok (dict_keys movies, titles, m) /\
    length titles = n /\ length (dict_keys movies) = n /\
    mat_wf n m /\
    (forall i, i < n -> entry m i i = 0%Z) /\
    (forall i j, i < n -> j < n ->
       (0 <= entry m i j)%Z /\
       (entry m i j + entry m j i <= Z.of_nat (length attendees))%Z).
Proof.
  intros n Hlt. destruct (titles_Ok movies) as (titles & Et & Hlen).
  assert (Hn : length (dict_keys movies) = n)
    by (unfold dict_keys; apply length_map).
  destruct (collect_user_rankings_returns attendees
              (set_of_list (dict_keys movies))) as (ur & Eu & Hur).
  destruct (build_matrix_bounds (dict_keys movies) ur)
    as (m & Em & Hwf & Hdiag & Hb); [lia|].
  rewrite Hn in Hwf, Hdiag, Hb.
  exists titles, m. unfold compute_condorcet_matrix.
  rewrite Et. cbn [bind]. rewrite Eu. cbn [bind]. rewrite Em. cbn [bind].
  split; [reflexivity|]. split; [assumption|]. split; [assumption|].
  split; [assumption|]. split; [assumption|].
  intros i j Hi Hj. destruct (Hb i j Hi Hj). split; lia.
Qed.

End Voters.

End Electorate.

Import Electorate.

(* ================================================================== *)
(** * The two matrix builders agree                                     *)
(* ================================================================== *)

Module MatrixAgreement.

Lemma foldM_map {A B St : Type} (f : St -> B -> result St) (g : A -> B)
    (l : list A) (s : St) :
  foldM f (map g l) s = foldM (fun s x => f s (g x)) l s.
Proof.
  revert s. induction l as [|x l IH]; intros s; simpl; [reflexivity|].
  destruct (f s (g x)); simpl; [apply IH | reflexivity].
Qed.

Lemma dict_set_map {K V W : Type} `{Key K} (g : V -> W) (k : K) (v : V)
    (d : dict K V) :
  map (fun e => (fst e, g (snd e))) (dict_set k v d)
  = dict_set k (g v) (map (fun e => (fst e, g (snd e))) d).
Proof.
  induction d as [|[k' v'] d IH]; simpl; [reflexivity|].
  destruct (keqb k k'); simpl; [reflexivity | now rewrite IH].
Qed.

Section Agree.
Context `{PySet Z}.

(** What [visualize_vote.py] keeps of a user's entry. *)
Let rank_maps_of (user_rankings : dict string Condorcet.ranking)
  : dict string (dict Z Z) :=
  map (fun e => (fst e, Condorcet.rank_map (snd e))) user_rankings.

Lemma collect_agree_from (voters : list (string * list Vote.pref))
    (s : pyset) (acc : dict string Condorcet.ranking) :
  foldM
    (fun user_rankings (v : string * list Vote.pref) =>
       let '(uid, prefs) := v in
       match prefs with
       | [] => Ok user_rankings
       | _ :: _ =>
           rank_map <- Vote.compute_user_rankings prefs s ;;
           Ok (dict_set uid rank_map user_rankings)
       end)
    voters (rank_maps_of acc)
  = match
      foldM
        (fun user_rankings (a : string * list Condorcet.pref) =>
           let '(user_id, prefs) := a in
           match prefs with
           | [] => Ok user_rankings
           | _ :: _ =>
               '(rank_map, unranked_set) <-
                 Condorcet.compute_user_rankings prefs s ;;
               Ok (dict_set user_id
                     {| Condorcet.rank_map := rank_map;
                        Condorcet.unranked_set := unranked_set |}
                     user_rankings)
           end)
        voters acc
    with
    | Ok user_rankings => Ok (rank_maps_of user_rankings)
    | Raise e => Raise e
    end.
Proof.
  revert acc. induction voters as [|[uid prefs] voters IH]; intros acc.
  - reflexivity.
  - rewrite !foldM_cons. destruct prefs as [|p prefs].
    + cbn [bind]. apply IH.
    + rewrite compute_user_rankings_agree.
      destruct (Condorcet.compute_user_rankings (p :: prefs) s)
        as [[rm un]|e]; [|reflexivity].
      cbn [rank_map_part bind]. rewrite <- IH. f_equal.
      unfold rank_maps_of. now rewrite dict_set_map.
Qed.

Lemma collect_agree (voters : list (string * list Vote.pref)) (s : pyset) :
  Vote.collect_user_rankings voters s
  = match Condorcet.collect_user_rankings voters s with
    | Ok user_rankings => Ok (rank_maps_of user_rankings)
    | Raise e => Raise e
    end.
Proof. exact (collect_agree_from voters s []). Qed.

Lemma fill_agree (ids : list Z)
    (user_rankings : dict string Condorcet.ranking) (m : Condorcet.matrix) :
  Vote.fill_matrix ids (rank_maps_of user_rankings) m
  = fill Condorcet.tally_user ids user_rankings m.
Proof.
  unfold Vote.fill_matrix, fill. apply foldM_ext. intros m1 [i a].
  apply foldM_ext. intros m2 [j b]. destruct (i =? j); [reflexivity|].
  unfold rank_maps_of. rewrite foldM_map. apply foldM_ext.
  intros m3 [uid r]. reflexivity.
Qed.

(** The two builders are the same function of the candidates and the
    voters' statements. *)
Lemma compute_vote_matrix_agree (options : dict Z string)
    (voters : list (string * list Vote.pref)) :
  Vote.compute_vote_matrix options voters
  = Condorcet.compute_condorcet_matrix options voters.
Proof.
  unfold Vote.compute_vote_matrix, Condorcet.compute_condorcet_matrix.
  destruct (mapM (fun oid => dict_getitem oid options) (dict_keys options))
    as [labels|e]; [|reflexivity].
  cbn [bind]. destruct voters as [|v voters].
  - change (Condorcet.collect_user_rankings []
          (set_of_list (dict_keys options)))
      with (@Ok (dict string Condorcet.ranking) []).
    cbn [bind].
    change (Condorcet.build_matrix (dict_keys options) [])
      with (fill Condorcet.tally_user (dict_keys options) []
                 (Condorcet.mat_zeros (length (dict_keys options)))).
    rewrite fill_no_voters. reflexivity.
  - rewrite collect_agree.
    destruct (Condorcet.collect_user_rankings (v :: voters)
                (set_of_list (dict_keys options))) as [ur|e]; [|reflexivity].
    cbn [bind]. rewrite fill_agree. reflexivity.
Qed.

End Agree.

End MatrixAgreement.

Import MatrixAgreement.

(** X9.  The matrix of an electorate.  With fewer than 2^63 attendees,
    [compute_condorcet_matrix] returns the candidates in the order of
    the [movies] dict, one title per candidate and an [n] x [n] matrix
    whose diagonal is zero and whose entries are counts: no entry is
    negative, and since a voter supports at most one side of a pair,
    [m[i][j] + m[j][i]] never exceeds the number of attendees. *)
Theorem matrix_entries_are_counts `{PySet Z} (movies : dict Z string)
    (attendees : list (string * list Condorcet.pref)) :
  (Z.of_nat (length attendees) < 2 ^ 63)%Z ->
  exists titles m,
    Condorcet.compute_condorcet_matrix movies attendees
    = Ok (dict_keys movies, titles, m) /\
    length titles = length movies /\
    mat_wf (length movies) m /\ mat_counts m /\
    (forall i, i < length movies -> entry m i i = 0%Z) /\
    (forall i j, i < length movies -> j < length movies ->
       (0 <= entry m i j)%Z /\
       (entry m i j + entry m j i <= Z.of_nat (length attendees))%Z).
Proof.
  intros Hlt.
  destruct (compute_condorcet_matrix_bounds movies attendees Hlt)
    as (titles & m & E & Ht & _ & Hwf & Hdiag & Hb).
  exists titles, m. split; [exact E|]. split; [exact Ht|].
  split; [exact Hwf|]. split; [|split; assumption].
  apply (mat_counts_of_entries (length movies)); [assumption|].
  intros i j Hi Hj. destruct (Hb i j Hi Hj) as [H0 Hs].
  destruct (Hb j i Hj Hi) as [H0' _]. lia.
Qed.

Lemma matrix_entries_are_counts_witness :
  exists titles m,
    @Condorcet.compute_condorcet_matrix SetOrders.ascending_order
      [(7, "Alien"); (8, "Brazil")]%Z%string
      [("u1"%string, [(7, 8, 1)]%Z); ("u2"%string, [(8, 7, 1)]%Z)]
    = Ok ([7; 8]%Z, titles, m) /\
    length titles = 2 /\
    mat_wf 2 m /\ mat_counts m /\
    (forall i, i < 2 -> entry m i i = 0%Z) /\
    (forall i j, i < 2 -> j < 2 ->
       (0 <= entry m i j)%Z /\ (entry m i j + entry m j i <= 2)%Z).
Proof.
  apply (@matrix_entries_are_counts SetOrders.ascending_order
           [(7, "Alien"); (8, "Brazil")]%Z%string
           [("u1"%string, [(7, 8, 1)]%Z); ("u2"%string, [(8, 7, 1)]%Z)]).
  simpl. lia.
Defined.

(** X10.  The pipeline of [main] never raises: with fewer than 2^63
    attendees, whatever the tables hold, [compute_condorcet_matrix]
    returns and [compute_ranked_pairs] on what it returned returns a
    ranking that lists every candidate position once, winners of locked
    pairs first. *)
Theorem pipeline_returns_a_ranking {SZ : PySet Z} {SN : PySet nat}
    (movies : dict Z string)
    (attendees : list (string * list Condorcet.pref)) :
  (Z.of_nat (length attendees) < 2 ^ 63)%Z ->
  exists movie_ids movie_titles matrix ranking locked,
    Condorcet.compute_condorcet_matrix movies attendees
    = Ok (movie_ids, movie_titles, matrix) /\
    Condorcet.compute_ranked_pairs movie_ids movie_titles matrix
    = Ok (ranking, locked) /\
    Permutation ranking (range 0 (length movies)) /\
    forall winner loser,
      edge locked winner loser -> precedes ranking winner loser.
Proof.
  intros Hlt.
  destruct (compute_condorcet_matrix_bounds movies attendees Hlt)
    as (titles & m & E & Ht & Hn & Hwf & _ & _).
  rewrite <- Hn in Hwf.
  destruct (compute_ranked_pairs_ordered (dict_keys movies) titles m Hwf)
    as (ranking & locked & Er & _ & Hp & Ho & Hmaj & _); [lia|].
  exists (dict_keys movies), titles, m, ranking, locked.
  split; [exact E|]. split; [exact Er|]. rewrite Hn in Hp.
  split; [exact Hp|]. intros winner loser He.
  apply (topo_ordered_precedes locked); [assumption| |assumption].
  apply (perm_range_In _ _ _ Hp). destruct (Hmaj _ _ He) as (_ & Hl & _). lia.
Qed.

Lemma pipeline_returns_a_ranking_witness :
  exists movie_ids movie_titles matrix ranking locked,
    @Condorcet.compute_condorcet_matrix SetOrders.ascending_order
      [(7, "Alien"); (8, "Brazil")]%Z%string
      [("u1"%string, [(7, 8, 1)]%Z); ("u2"%string, [(8, 7, -1)]%Z)]
    = Ok (movie_ids, movie_titles, matrix) /\
    @Condorcet.compute_ranked_pairs SetOrders.ascending_positions
      movie_ids movie_titles matrix
    = Ok (ranking, locked) /\
    Permutation ranking (range 0 2) /\
    forall winner loser,
      edge locked winner loser -> precedes ranking winner loser.
Proof.
  apply (@pipeline_returns_a_ranking SetOrders.ascending_order
           SetOrders.ascending_positions
           [(7, "Alien"); (8, "Brazil")]%Z%string
           [("u1"%string, [(7, 8, 1)]%Z); ("u2"%string, [(8, 7, -1)]%Z)]).
  simpl. lia.
Defined.

(** X11.  The two matrix builders are one function: on the same
    candidates and the same statements [compute_vote_matrix] returns
    exactly what [compute_condorcet_matrix] returns, the candidate ids,
    the labels and every entry of the matrix. *)
Theorem matrix_builders_agree `{PySet Z} (options : dict Z string)
    (voters : list (string * list Vote.pref)) :
  Vote.compute_vote_matrix options voters
  = Condorcet.compute_condorcet_matrix options voters.
Proof. apply compute_vote_matrix_agree. Qed.

(* ================================================================== *)
(** * The matrix is a function of the set of voters                     *)
(* ================================================================== *)

Module VoterSet.
Import Condorcet.

Lemma dict_set_In_iff {K V : Type} `{Key K} (k u : K) (v r : V)
    (d : dict K V) :
  NoDup (dict_keys d) ->
  In (u, r) (dict_set k v d) <->
  (u = k /\ r = v) \/ (u <> k /\ In (u, r) d).
Proof.
  induction d as [|[k' v'] d IH]; simpl; intros Hnd.
  - split; [intros [[= -> ->]|[]]; tauto | intros [[-> ->]|[_ []]]; now left].
  - inversion Hnd as [|? ? Hk Hnd']; subst.
    destruct (keqb k k') eqn:E.
    + apply keqb_eq in E. subst k'. simpl. split.
      * intros [[= -> ->]|Hin]; [tauto|]. right. split; [|tauto].
        intros ->. apply Hk. apply in_map_iff. now exists (k, r).
      * intros [[-> ->]|[Hne [[= -> ->]|Hin]]]; [now left | congruence | tauto].
    + apply keqb_neq in E. simpl. rewrite (IH Hnd'). split.
      * intros [[= -> ->]|[[-> ->]|[Hne Hin]]];
        [right; split; auto | tauto | tauto].
      * intros [[-> ->]|[Hne [[= -> ->]|Hin]]]; tauto.
Qed.

Lemma sum_perm (l l' : list Z) :
  Permutation l l' -> fold_right Z.add 0%Z l = fold_right Z.add 0%Z l'.
Proof.
  induction 1 as [|x l l' Hp IH|x y l|l l' l'' H1 IH1 H2 IH2]; simpl; lia.
Qed.

Lemma votes_for_perm (rms rms' : list (dict Z Z)) (a b : Z) :
  Permutation rms rms' -> votes_for rms a b = votes_for rms' a b.
Proof.
  intros Hp. unfold votes_for. apply sum_perm. now apply Permutation_map.
Qed.

Section Voters.
Context `{PySet Z}.

(** The entries of [user_rankings]: one per user with statements. *)
Lemma collect_user_rankings_spec (attendees : list (string * list pref))
    (s : pyset) :
  (forall u p p', In (u, p) attendees -> In (u, p') attendees -> p = p') ->
  exists user_rankings,
    collect_user_rankings attendees s = Ok user_rankings /\
    NoDup (dict_keys user_rankings) /\
    forall u r,
      In (u, r) user_rankings <->
      exists p rm un,
        In (u, p) attendees /\ p <> [] /\
        compute_user_rankings p s = Ok (rm, un) /\
        r = {| rank_map := rm; unranked_set := un |}.
Proof.
  intros Hfun. unfold collect_user_rankings.
  apply (foldM_inv_prefix
           (fun (pre : list (string * list pref))
                (ur : dict string ranking) =>
              NoDup (dict_keys ur) /\
              forall u r,
                In (u, r) ur <->
                exists p rm un,
                  In (u, p) pre /\ p <> [] /\
                  compute_user_rankings p s = Ok (rm, un) /\
                  r = {| rank_map := rm; unranked_set := un |})).
  - intros pre [uid prefs] ur (post & Epost) [Hnd Hur].
    assert (Hpre : forall a, In a (pre ++ [(uid, prefs)]) -> In a attendees).
    { intros a Ha. rewrite Epost. apply in_app_or in Ha.
      apply in_or_app. destruct Ha as [Ha|[<-|[]]]; [now left|].
      right. now left. }
    destruct prefs as [|p0 prefs].
    + exists ur. split; [reflexivity|]. split; [assumption|].
      intros u r. rewrite Hur. split.
      * intros (p & rm & un & Hin & Hrest). exists p, rm, un.
        split; [apply in_or_app; now left | assumption].
      * intros (p & rm & un & Hin & Hne & Hrest). exists p, rm, un.
        apply in_app_or in Hin. destruct Hin as [Hin|[[= <- <-]|[]]];
          [tauto | congruence].
    + destruct (compute_user_rankings_returns (p0 :: prefs) s)
        as (rm0 & un0 & E0).
      rewrite E0. cbn [bind]. eexists. split; [reflexivity|].
      split; [now apply dict_set_NoDup|].
      intros u r. rewrite (dict_set_In_iff _ _ _ _ _ Hnd), Hur. split.
      * intros [[-> ->]|[Hne (p & rm & un & Hin & Hrest)]].
        -- exists (p0 :: prefs), rm0, un0.
           split; [apply in_or_app; right; now left|].
           split; [discriminate|]. split; [assumption | reflexivity].
        -- exists p, rm, un. split; [apply in_or_app; now left | assumption].
      * intros (p & rm & un & Hin & Hne & Ep & ->).
        destruct (string_dec u uid) as [->|Hu].
        -- left. split; [reflexivity|].
           assert (Hp : p = p0 :: prefs).
           { apply (Hfun uid); [now apply Hpre|].
             apply Hpre, in_or_app. right. now left. }
           subst p. rewrite E0 in Ep. now injection Ep as <- <-.
        -- right. split; [assumption|]. exists p, rm, un.
           apply in_app_or in Hin. destruct Hin as [Hin|[[= <- <-]|[]]];
             [tauto | congruence].
  - split; [constructor|]. intros u r. split; [intros []|].
    intros (p & rm & un & [] & _).
Qed.

Lemma build_matrix_perm (movie_ids : list Z)
    (ur ur' : dict string ranking) :
  (Z.of_nat (length ur) < 2 ^ 63)%Z -> Permutation ur ur' ->
  build_matrix movie_ids ur = build_matrix movie_ids ur'.
Proof.
  intros Hlt Hp.
  assert (Hlt' : (Z.of_nat (length ur') < 2 ^ 63)%Z)
    by now rewrite <- (Permutation_length Hp).
  destruct (fill_spec (fun e : string * ranking => rank_map (snd e))
              tally_user (fun _ _ _ _ _ _ => eq_refl) movie_ids ur Hlt)
    as (m & E & Hwf & Hcell).
  destruct (fill_spec (fun e : string * ranking => rank_map (snd e))
              tally_user (fun _ _ _ _ _ _ => eq_refl) movie_ids ur' Hlt')
    as (m' & E' & Hwf' & Hcell').
  change (build_matrix movie_ids ur = build_matrix movie_ids ur') in |- *.
  unfold build_matrix. unfold fill in E, E'. rewrite E, E'. f_equal.
  apply (mat_ext (length movie_ids)); [assumption | assumption|].
  intros i j Hi Hj. rewrite (Hcell i j Hi Hj), (Hcell' i j Hi Hj).
  unfold cell. destruct (i =? j); [reflexivity|].
  apply votes_for_perm. now apply Permutation_map.
Qed.

(** Attendee lists with the same members give the same matrix. *)
Lemma compute_condorcet_matrix_set (movies : dict Z string)
    (attendees attendees' : list (string * list pref)) :
  (forall u p p', In (u, p) attendees -> In (u, p') attendees -> p = p') ->
  (forall a, In a attendees <-> In a attendees') ->
  (Z.of_nat (length attendees) < 2 ^ 63)%Z ->
  compute_condorcet_matrix movies attendees
  = compute_condorcet_matrix movies attendees'.
Proof.
  intros Hfun Hsame Hlt. unfold compute_condorcet_matrix.
  destruct (mapM (fun mid => dict_getitem mid movies) (dict_keys movies))
    as [titles|e]; [|reflexivity].
  cbn [bind]. set (s := set_of_list (dict_keys movies)).
  destruct (collect_user_rankings_spec attendees s Hfun)
    as (ur & E & Hnd & Hur).
  destruct (collect_user_rankings_spec attendees' s)
    as (ur' & E' & Hnd' & Hur').
  { intros u p p' Hp Hp'. apply (Hfun u); now apply Hsame. }
  rewrite E, E'. cbn [bind].
  rewrite (build_matrix_perm (dict_keys movies) ur ur'); [reflexivity| |].
  - destruct (collect_user_rankings_returns attendees s) as (ur0 & E0 & Hlen).
    rewrite E in E0. injection E0 as <-. lia.
  - apply NoDup_Permutation.
    + apply (NoDup_map_inv fst). exact Hnd.
    + apply (NoDup_map_inv fst). exact Hnd'.
    + intros [u r]. rewrite Hur, Hur'. split;
        intros (p & rm & un & Hin & Hrest); exists p, rm, un;
        (split; [now apply Hsame | assumption]).
Qed.

End Voters.

End VoterSet.

Import VoterSet.

(** X12.  The matrix is a function of the set of voters: two lists of
    attendees with the same members give the same result, so neither
    the order in which the attendees are read nor reading one of them
    twice changes a count ([user_rankings] is a dict keyed by the user
    id).  A user's statements are the same each time they are read. *)
Theorem matrix_ignores_order_and_repeats `{PySet Z} (movies : dict Z string)
    (attendees attendees' : list (string * list Condorcet.pref)) :
  (forall u p p', In (u, p) attendees -> In (u, p') attendees -> p = p') ->
  (forall a, In a attendees <-> In a attendees') ->
  (Z.of_nat (length attendees) < 2 ^ 63)%Z ->
  Condorcet.compute_condorcet_matrix movies attendees
  = Condorcet.compute_condorcet_matrix movies attendees' /\
  Vote.compute_vote_matrix movies attendees
  = Vote.compute_vote_matrix movies attendees'.
Proof.
  intros Hfun Hsame Hlt. rewrite !compute_vote_matrix_agree.
  split; now apply compute_condorcet_matrix_set.
Qed.

Lemma matrix_ignores_order_and_repeats_witness :
  @Condorcet.compute_condorcet_matrix SetOrders.ascending_order
    [(7, "Alien"); (8, "Brazil")]%Z%string
    [("u1"%string, [(7, 8, 1)]%Z); ("u2"%string, [(8, 7, 1)]%Z)]
  = @Condorcet.compute_condorcet_matrix SetOrders.ascending_order
      [(7, "Alien"); (8, "Brazil")]%Z%string
      [("u2"%string, [(8, 7, 1)]%Z); ("u1"%string, [(7, 8, 1)]%Z);
       ("u2"%string, [(8, 7, 1)]%Z)] /\
  @Vote.compute_vote_matrix SetOrders.ascending_order
    [(7, "Alien"); (8, "Brazil")]%Z%string
    [("u1"%string, [(7, 8, 1)]%Z); ("u2"%string, [(8, 7, 1)]%Z)]
  = @Vote.compute_vote_matrix SetOrders.ascending_order
      [(7, "Alien"); (8, "Brazil")]%Z%string
      [("u2"%string, [(8, 7, 1)]%Z); ("u1"%string, [(7, 8, 1)]%Z);
       ("u2"%string, [(8, 7, 1)]%Z)].
Proof.
  apply (@matrix_ignores_order_and_repeats SetOrders.ascending_order).
  - intros u p p' [[= <- <-]|[[= <- <-]|[]]] [[= <-]|[[= <-]|[]]];
      reflexivity || discriminate.
  - intros a. simpl. tauto.
  - simpl. lia.
Defined.
(* ================================================================== *)
(** * The scores and arrows of the head-to-head graphs                  *)
(* ================================================================== *)

Module Scores.
Import Condorcet Display.

Lemma keys_are_set (n : nat) (d : dict nat Z) (k : nat) (v : Z) :
  keys_are n d -> k < n -> keys_are n (dict_set k v d).
Proof.
  intros Hd Hk i. rewrite dict_keys_set. split.
  - intros [->|Hi]; [assumption | now apply Hd].
  - intros Hi. right. now apply Hd.
Qed.

Lemma keys_are_get (n : nat) (d : dict nat Z) (k : nat) :
  keys_are n d -> k < n -> exists x, dict_get k d = Some x.
Proof.
  intros Hd Hk. destruct (dict_get k d) as [x|] eqn:E; [now exists x|].
  apply dict_get_None in E. exfalso. apply E, Hd, Hk.
Qed.

(** Lines 305-309 on a well-formed matrix. *)
Lemma score_cell_Ok (n : nat) (m : matrix) (i j : nat)
    (wins losses : dict nat Z) (w l : Z) :
  mat_wf n m -> i < n -> j < n ->
  keys_are n wins -> keys_are n losses ->
  dict_get i wins = Some w -> dict_get i losses = Some l ->
  score_cell m i j (wins, losses)
  = Ok (dict_set i (w + (if wins_against m i j then 1 else 0))%Z wins,
        dict_set i (l + (if loses_against m i j then 1 else 0))%Z losses).
Proof.
  intros Hwf Hi Hj Hkw Hkl Ew El.
  unfold score_cell, wins_against, loses_against.
  assert (Hid : forall (d : dict nat Z) x,
            dict_get i d = Some x -> dict_set i (x + 0)%Z d = d).
  { intros d x. clear. induction d as [|[k v] d IH]; simpl; [discriminate|].
    destruct (Nat.eqb_spec i k) as [->|Hne].
    - intros [= ->]. now rewrite Z.add_0_r.
    - intros E. now rewrite IH. }
  destruct (i =? j) eqn:Eij; cbn [negb andb].
  - now rewrite (Hid wins w Ew), (Hid losses l El).
  - rewrite (mat_get_Ok n m i j Hwf Hi Hj), (mat_get_Ok n m j i Hwf Hj Hi).
    cbn [bind].
    destruct (entry m i j >? entry m j i)%Z eqn:Egt.
    + rewrite (dict_incr_get i 1 w wins Ew). cbn [bind].
      replace (entry m i j <? entry m j i)%Z with false
        by (symmetry; apply Z.ltb_ge; apply Z.gtb_lt in Egt; lia).
      now rewrite (Hid losses l El).
    + rewrite (Hid wins w Ew).
      destruct (entry m i j <? entry m j i)%Z eqn:Elt.
      * rewrite (dict_incr_get i 1 l losses El). reflexivity.
      * now rewrite (Hid losses l El).
Qed.

(** One row of the double loop: only the scores of [i] change. *)
Lemma score_row (n : nat) (m : matrix) (i : nat) (cols : list nat) :
  mat_wf n m -> i < n -> (forall j, In j cols -> j < n) ->
  forall (wins losses : dict nat Z) (w l : Z),
    keys_are n wins -> keys_are n losses ->
    dict_get i wins = Some w -> dict_get i losses = Some l ->
    exists wins' losses',
      foldM (fun st j => score_cell m i j st) cols (wins, losses)
      = Ok (wins', losses') /\
      keys_are n wins' /\ keys_are n losses' /\
      dict_get i wins'
      = Some (w + Z.of_nat (length (filter (wins_against m i) cols)))%Z /\
      dict_get i losses'
      = Some (l + Z.of_nat (length (filter (loses_against m i) cols)))%Z /\
      (forall k, k <> i -> dict_get k wins' = dict_get k wins) /\
      (forall k, k <> i -> dict_get k losses' = dict_get k losses).
Proof.
  intros Hwf Hi. induction cols as [|j cols IH];
    intros Hcols wins losses w l Hkw Hkl Ew El.
  - exists wins, losses. simpl. rewrite !Z.add_0_r. tauto.
  - rewrite foldM_cons.
    rewrite (score_cell_Ok n m i j wins losses w l)
      by (auto; apply Hcols; now left).
    cbn [bind].
    destruct (IH (fun j' Hj' => Hcols j' (or_intror Hj'))
           (dict_set i (w + (if wins_against m i j then 1 else 0))%Z wins)
           (dict_set i (l + (if loses_against m i j then 1 else 0))%Z losses)
           (w + (if wins_against m i j then 1 else 0))%Z
           (l + (if loses_against m i j then 1 else 0))%Z)
      as (wins' & losses' & E & Hkw' & Hkl' & Ew' & El' & Hw & Hl).
    + now apply keys_are_set.
    + now apply keys_are_set.
    + apply dict_get_set_eq.
    + apply dict_get_set_eq.
    + exists wins', losses'. split; [exact E|]. split; [assumption|].
      split; [assumption|]. cbn [filter]. split; [|split; [|split]].
      * rewrite Ew'. f_equal.
        destruct (wins_against m i j); cbn [length]; lia.
      * rewrite El'. f_equal.
        destruct (loses_against m i j); cbn [length]; lia.
      * intros k Hk. rewrite (Hw k Hk). apply dict_get_set_ne. congruence.
      * intros k Hk. rewrite (Hl k Hk). apply dict_get_set_ne. congruence.
Qed.

(** Lines 303-309 over a list of rows. *)
Lemma score_rows (n : nat) (m : matrix) (rows : list nat) :
  mat_wf n m -> NoDup rows -> (forall i, In i rows -> i < n) ->
  forall (wins losses : dict nat Z),
    keys_are n wins -> keys_are n losses ->
    (forall i, In i rows -> dict_get i wins = Some 0%Z) ->
    (forall i, In i rows -> dict_get i losses = Some 0%Z) ->
    exists wins' losses',
      foldM (fun st i =>
               foldM (fun st j => score_cell m i j st) (range 0 n) st)
            rows (wins, losses)
      = Ok (wins', losses') /\
      (forall i, In i rows ->
         dict_get i wins'
         = Some (Z.of_nat (length (filter (wins_against m i) (range 0 n)))) /\
         dict_get i losses'
         = Some (Z.of_nat (length (filter (loses_against m i) (range 0 n))))) /\
      (forall k, ~ In k rows ->
         dict_get k wins' = dict_get k wins /\
         dict_get k losses' = dict_get k losses).
Proof.
  intros Hwf. induction rows as [|i rows IH];
    intros Hnd Hrows wins losses Hkw Hkl Hw0 Hl0.
  - exists wins, losses. split; [reflexivity|]. split; [intros i [] | auto].
  - inversion Hnd as [|? ? Hi Hnd']; subst. rewrite foldM_cons.
    destruct (score_row n m i (range 0 n) Hwf) with
      (wins := wins) (losses := losses) (w := 0%Z) (l := 0%Z)
      as (w1 & l1 & E1 & Hkw1 & Hkl1 & Ew1 & El1 & Hw1 & Hl1);
      try assumption.
    { apply Hrows. now left. }
    { intros j Hj. apply range_In in Hj. lia. }
    { apply Hw0. now left. }
    { apply Hl0. now left. }
    rewrite E1. cbn [bind].
    destruct (IH Hnd' (fun i' Hi' => Hrows i' (or_intror Hi')) w1 l1 Hkw1 Hkl1)
      as (wins' & losses' & E & Hall & Hout).
    { intros k Hk. rewrite Hw1 by (intros ->; contradiction).
      apply Hw0. now right. }
    { intros k Hk. rewrite Hl1 by (intros ->; contradiction).
      apply Hl0. now right. }
    exists wins', losses'. split; [exact E|]. split.
    + intros k [<-|Hk]; [|now apply Hall].
      destruct (Hout i Hi) as [-> ->]. rewrite Ew1, El1. split; f_equal; lia.
    + intros k Hk.
      destruct (Hout k) as [-> ->]; [intros Hin; apply Hk; now right|].
      rewrite Hw1, Hl1 by (intros ->; apply Hk; now left). tauto.
Qed.

Lemma filter_length_flat {A B : Type} (p : A -> bool) (f : A -> list B)
    (l : list A) :
  (forall x, length (f x) = if p x then 1 else 0) ->
  length (flat_map f l) = length (filter p l).
Proof.
  intros Hf. induction l as [|x l IH]; simpl; [reflexivity|].
  rewrite length_app, IH, Hf. destruct (p x); reflexivity.
Qed.

Lemma arrow_of_length (m : matrix) (i j : nat) :
  length (arrow_of m i j) = if wins_against m i j then 1 else 0.
Proof. unfold arrow_of. now destruct (wins_against m i j). Qed.

Lemma arrow_cell_Ok (n : nat) (m : matrix) (i j : nat)
    (edge_data : list arrow) :
  mat_wf n m -> i < n -> j < n ->
  arrow_cell m i j edge_data = Ok (edge_data ++ arrow_of m i j).
Proof.
  intros Hwf Hi Hj. unfold arrow_cell, arrow_of, wins_against.
  destruct (i =? j); cbn [negb andb]; [now rewrite app_nil_r|].
  rewrite (mat_get_Ok n m i j Hwf Hi Hj), (mat_get_Ok n m j i Hwf Hj Hi).
  cbn [bind]. destruct (entry m i j >? entry m j i)%Z;
    [reflexivity | now rewrite app_nil_r].
Qed.

Lemma arrows_Ok (n : nat) (m : matrix) :
  mat_wf n m -> arrows n m = Ok (all_arrows n m).
Proof.
  intros Hwf. unfold arrows, all_arrows.
  apply (foldM_append _ (fun i => flat_map (arrow_of m i) (range 0 n))).
  intros i acc Hi. apply range_In in Hi.
  apply (foldM_append _ (arrow_of m i)).
  intros j acc' Hj. apply range_In in Hj.
  apply (arrow_cell_Ok n); [assumption | lia | lia].
Qed.

Lemma all_arrows_In (n : nat) (m : matrix) (l w : nat) (margin : Z) :
  In (l, w, margin) (all_arrows n m) <->
  w < n /\ l < n /\ beats m w l /\
  margin = sub64 (entry m w l) (entry m l w).
Proof.
  unfold all_arrows. rewrite in_flat_map. split.
  - intros (i & Hi & Hin). apply in_flat_map in Hin.
    destruct Hin as (j & Hj & Hin). apply range_In in Hi, Hj.
    unfold arrow_of in Hin.
    destruct (wins_against m i j) eqn:E; [|destruct Hin].
    destruct Hin as [[= <- <- <-]|[]]. unfold wins_against in E.
    apply andb_true_iff in E. destruct E as [_ E]. apply Z.gtb_lt in E.
    unfold beats. repeat split; lia.
  - intros (Hw & Hl & Hb & ->). exists w. split; [apply range_In; lia|].
    apply in_flat_map. exists l. split; [apply range_In; lia|].
    unfold arrow_of, wins_against.
    replace (w =? l) with false
      by (symmetry; apply Nat.eqb_neq; intros ->; unfold beats in Hb; lia).
    replace (entry m w l >? entry m l w)%Z with true
      by (symmetry; apply Z.gtb_lt; unfold beats in Hb; lia).
    now left.
Qed.

(** The arrows that point to [i] are those of the row of [i]. *)
Lemma arrows_to_count (n : nat) (m : matrix) (i : nat) :
  i < n ->
  length (arrows_to i (all_arrows n m))
  = length (filter (wins_against m i) (range 0 n)).
Proof.
  intros Hi. unfold arrows_to, all_arrows. rewrite filter_flat_map.
  rewrite (flat_map_single _ (range 0 n) i).
  - rewrite filter_all.
    + apply filter_length_flat, arrow_of_length.
    + intros e He. apply in_flat_map in He. destruct He as (j & _ & He).
      unfold arrow_of in He. destruct (wins_against m i j); [|destruct He].
      destruct He as [<-|[]]. simpl. apply Nat.eqb_refl.
  - apply range_NoDup.
  - apply range_In. lia.
  - intros i' _ Hne. apply filter_none. intros e He.
    apply in_flat_map in He. destruct He as (j & _ & He).
    unfold arrow_of in He. destruct (wins_against m i' j); [|destruct He].
    destruct He as [<-|[]]. simpl. now apply Nat.eqb_neq.
Qed.

(** The arrows that leave [i] come from the rows of those who beat it. *)
Lemma arrows_from_count (n : nat) (m : matrix) (i : nat) :
  i < n ->
  length (arrows_from i (all_arrows n m))
  = length (filter (loses_against m i) (range 0 n)).
Proof.
  intros Hi. unfold arrows_from, all_arrows. rewrite filter_flat_map.
  rewrite (filter_length_flat (loses_against m i)); [reflexivity|].
  intros w. rewrite filter_flat_map.
  rewrite (flat_map_single _ (range 0 n) i).
  - unfold arrow_of, loses_against, wins_against.
    rewrite (Nat.eqb_sym i w), Z.gtb_ltb.
    destruct (negb (w =? i) && (entry m i w <? entry m w i)%Z);
      [|reflexivity].
    simpl. now rewrite Nat.eqb_refl.
  - apply range_NoDup.
  - apply range_In. lia.
  - intros j _ Hne. unfold arrow_of.
    destruct (wins_against m w j); [|reflexivity].
    simpl. now replace (j =? i) with false by (symmetry; now apply Nat.eqb_neq).
Qed.

Lemma head_to_head_Ok (n : nat) (m : matrix) :
  mat_wf n m ->
  exists wins losses,
    head_to_head n m = Ok (wins, losses) /\
    forall i, i < n ->
      dict_get i wins
      = Some (Z.of_nat (length (filter (wins_against m i) (range 0 n)))) /\
      dict_get i losses
      = Some (Z.of_nat (length (filter (loses_against m i) (range 0 n)))).
Proof.
  intros Hwf. unfold head_to_head.
  destruct (score_rows n m (range 0 n) Hwf (range_NoDup 0 n)) with
    (wins := dict_const (range 0 n) 0%Z) (losses := dict_const (range 0 n) 0%Z)
    as (wins & losses & E & Hall & _).
  - intros i Hi. apply range_In in Hi. lia.
  - apply keys_are_const.
  - apply keys_are_const.
  - intros i Hi. now apply dict_const_get.
  - intros i Hi. now apply dict_const_get.
  - exists wins, losses. split; [exact E|]. intros i Hi.
    apply Hall, range_In. lia.
Qed.

Lemma wins_losses_disjoint (n : nat) (m : matrix) (i : nat) :
  i < n ->
  length (filter (wins_against m i) (range 0 n))
  + length (filter (loses_against m i) (range 0 n)) <= n - 1.
Proof.
  intros Hlt.
  assert (G : forall l, NoDup l ->
            length (filter (wins_against m i) l)
            + length (filter (loses_against m i) l)
            + (if existsb (Nat.eqb i) l then 1 else 0) <= length l).
  { induction l as [|j l IH]; intros Hnd; simpl; [lia|].
    inversion Hnd as [|? ? Hj Hnd']; subst. specialize (IH Hnd').
    unfold wins_against, loses_against in *.
    destruct (Nat.eqb_spec i j) as [->|Hne]; cbn [negb andb orb].
    - replace (existsb (Nat.eqb j) l) with false in IH; [lia|].
      symmetry. apply not_true_is_false. intros Ex.
      apply existsb_exists in Ex. destruct Ex as (y & Hy & Ey).
      apply Nat.eqb_eq in Ey. now subst.
    - destruct (Z.gtb_spec (entry m i j) (entry m j i)),
               (Z.ltb_spec (entry m i j) (entry m j i));
        cbn [length]; lia. }
  specialize (G (range 0 n) (range_NoDup 0 n)).
  unfold range in *. rewrite length_seq in G.
  destruct (existsb (Nat.eqb i) (seq 0 (n - 0))) eqn:Ex; [lia|].
  exfalso. apply not_true_iff_false in Ex. apply Ex, existsb_exists.
  exists i. split; [apply in_seq; lia | apply Nat.eqb_refl].
Qed.

End Scores.

Import Scores.

(** X13.  The W-L score under a node of the head-to-head graph counts
    the arrows at that node.  On an [n] x [n] matrix the score loop and
    the arrow loop return; there is an arrow [loser -> winner] exactly
    for every strict majority, labelled with its margin; [wins[i]] is
    the number of arrows that point to [i], [losses[i]] the number of
    arrows that leave [i], and together they are at most [n - 1].
    ([create_loose_graph] and [create_vote_graph] share this code.) *)
Theorem scores_count_the_arrows (n : nat) (m : Condorcet.matrix) :
  mat_wf n m ->
  exists wins losses edge_data,
    Display.head_to_head n m = Ok (wins, losses) /\
    Display.arrows n m = Ok edge_data /\
    (forall loser winner margin,
       In (loser, winner, margin) edge_data <->
       winner < n /\ loser < n /\ beats m winner loser /\
       margin = sub64 (entry m winner loser) (entry m loser winner)) /\
    forall i, i < n ->
      dict_get i wins = Some (Z.of_nat (length (arrows_to i edge_data))) /\
      dict_get i losses = Some (Z.of_nat (length (arrows_from i edge_data))) /\
      length (arrows_to i edge_data) + length (arrows_from i edge_data)
      <= n - 1.
Proof.
  intros Hwf. destruct (head_to_head_Ok n m Hwf) as (wins & losses & E & Hs).
  exists wins, losses, (all_arrows n m). split; [exact E|].
  split; [now apply arrows_Ok|]. split; [apply all_arrows_In|].
  intros i Hi. destruct (Hs i Hi) as [Ew El].
  rewrite (arrows_to_count n m i Hi), (arrows_from_count n m i Hi).
  split; [exact Ew|]. split; [exact El|]. now apply wins_losses_disjoint.
Qed.

Lemma scores_count_the_arrows_witness :
  exists wins losses edge_data,
    Display.head_to_head 3 [[0; 2; 1]; [1; 0; 2]; [2; 1; 0]]%Z
    = Ok (wins, losses) /\
    Display.arrows 3 [[0; 2; 1]; [1; 0; 2]; [2; 1; 0]]%Z = Ok edge_data /\
    (forall loser winner margin,
       In (loser, winner, margin) edge_data <->
       winner < 3 /\ loser < 3 /\
       beats [[0; 2; 1]; [1; 0; 2]; [2; 1; 0]]%Z winner loser /\
       margin = sub64 (entry [[0; 2; 1]; [1; 0; 2]; [2; 1; 0]]%Z winner loser)
                      (entry [[0; 2; 1]; [1; 0; 2]; [2; 1; 0]]%Z
                         loser winner)) /\
    forall i, i < 3 ->
      dict_get i wins = Some (Z.of_nat (length (arrows_to i edge_data))) /\
      dict_get i losses = Some (Z.of_nat (length (arrows_from i edge_data))) /\
      length (arrows_to i edge_data) + length (arrows_from i edge_data)
      <= 3 - 1.
Proof.
  apply (scores_count_the_arrows 3 [[0; 2; 1]; [1; 0; 2]; [2; 1; 0]]%Z).
  split; [reflexivity | repeat constructor].
Defined.

(** X14.  The label of a node.  A title of at most 12 characters is
    shown as it is; a longer one is cut to its first 11 characters
    followed by two full stops, so a label has at most 13 characters and
    a title of exactly 13 characters is not made shorter.  Cutting a
    label again changes nothing. *)
Theorem short_title_spec {char : Type} (dot : char) (title : list char) :
  let label := Display.short_title dot title in
  (length title <= 12 -> label = title) /\
  (12 < length title ->
   label = firstn 11 title ++ [dot; dot] /\ length label = 13) /\
  length label <= 13 /\
  firstn 11 label = firstn 11 title /\
  Display.short_title dot label = label.
Proof.
  unfold Display.short_title.
  destruct (Nat.ltb_spec 12 (length title)) as [Hlong|Hshort]; cbn zeta.
  - assert (Hlen : length (firstn 11 title ++ [dot; dot]) = 13).
    { rewrite length_app, length_firstn. cbn [length]. lia. }
    split; [intros; lia|]. split; [auto|]. split; [lia|]. split.
    + rewrite firstn_app, length_firstn.
      replace (11 - Nat.min 11 (length title)) with 0 by lia.
      rewrite firstn_firstn. simpl. now rewrite app_nil_r.
    + rewrite Hlen. simpl Nat.ltb. cbn iota.
      rewrite firstn_app, length_firstn.
      replace (11 - Nat.min 11 (length title)) with 0 by lia.
      rewrite firstn_firstn. simpl. now rewrite app_nil_r.
  - split; [auto|]. split; [intros; lia|]. split; [lia|].
    split; [reflexivity|].
    destruct (Nat.ltb_spec 12 (length title)); [lia | reflexivity].
Qed.
(* ================================================================== *)
(** * What is drawn                                                     *)
(* ================================================================== *)

Module Drawn.
Import Condorcet Display.

Lemma tied_no_majority (n : nat) (m : matrix) :
  all_tied n m <-> forall i j, ~ majority n m i j.
Proof.
  unfold all_tied, majority, beats. split.
  - intros Ht i j (Hi & Hj & Hb). specialize (Ht i j Hi Hj). lia.
  - intros Hno i j Hi Hj.
    assert (H1 : ~ (entry m i j > entry m j i)%Z)
      by (intros Hb; apply (Hno i j); auto).
    assert (H2 : ~ (entry m j i > entry m i j)%Z)
      by (intros Hb; apply (Hno j i); auto).
    lia.
Qed.

Lemma tied_no_pairs (n : nat) (m : matrix) :
  all_tied n m -> all_pairs n m = [].
Proof.
  intros Ht. apply nil_of_no_elements. intros p Hp.
  apply (proj1 (tied_no_majority n m) Ht (pair_winner p) (pair_loser p)).
  apply all_pairs_majority. now exists p.
Qed.

Lemma tied_no_arrows (n : nat) (m : matrix) :
  all_tied n m <-> all_arrows n m = [].
Proof.
  split.
  - intros Ht. apply nil_of_no_elements. intros [[l w] margin] Hin.
    apply all_arrows_In in Hin. destruct Hin as (Hw & Hl & Hb & _).
    apply (proj1 (tied_no_majority n m) Ht w l). repeat split; assumption.
  - intros E. apply tied_no_majority. intros i j (Hi & Hj & Hb).
    assert (Hin : In (j, i, sub64 (entry m i j) (entry m j i))
                     (all_arrows n m))
      by (apply all_arrows_In; auto).
    rewrite E in Hin. destruct Hin.
Qed.

Lemma dict_comp_get {V : Type} (f : nat -> V) (l : list nat) (k : nat) :
  forall d : dict nat V,
    dict_get k (fold_left (fun d i => dict_set i (f i) d) l d)
    = if existsb (Nat.eqb k) l then Some (f k) else dict_get k d.
Proof.
  induction l as [|i l IH]; intros d; simpl; [reflexivity|].
  rewrite IH. destruct (Nat.eqb_spec k i) as [->|Hne]; simpl.
  - destruct (existsb (Nat.eqb i) l); [reflexivity | apply dict_get_set_eq].
  - destruct (existsb (Nat.eqb k) l); [reflexivity|].
    apply dict_get_set_ne. congruence.
Qed.

Lemma existsb_range (n k : nat) : k < n ->
  existsb (Nat.eqb k) (range 0 n) = true.
Proof.
  intros Hk. apply existsb_exists. exists k.
  split; [apply range_In; lia | apply Nat.eqb_refl].
Qed.

Section Ranked.
Context `{PySet nat}.

(** With nothing but ties no pair is locked and the ranking is the
    list of the candidates sorted by title. *)
Lemma compute_ranked_pairs_tied (movie_ids : list Z)
    (movie_titles : list string) (m : matrix) :
  let n := length movie_ids in
  mat_wf n m -> n <= length movie_titles -> all_tied n m ->
  compute_ranked_pairs movie_ids movie_titles m
  = Ok (sort_by String.ltb (title_of movie_titles)
                (set_iter (set_of_list (range 0 n))), []).
Proof.
  intros n Hwf Ht Htied. unfold compute_ranked_pairs. fold n.
  rewrite (collect_pairs_Ok n m Hwf), (tied_no_pairs n m Htied).
  cbn [bind].
  change (sort_pairs []) with (@nil pair_record).
  change (lock_pairs []) with (@Ok (setdict nat) []).
  cbn [bind].
  change (locked_in_degree n []) with (Ok (dict_const (range 0 n) 0%Z)).
  cbn [bind].
  rewrite (topo_loop_unconstrained n).
  - reflexivity.
  - assumption.
  - unfold set_len.
    rewrite (Permutation_length (set_of_list_perm _ (range_NoDup 0 n))).
    unfold range. rewrite length_seq. lia.
  - intros i Hi. apply set_of_list_In, range_In in Hi. lia.
Qed.

Lemma entry_edge (locked : setdict nat) (w l : nat) (s : pyset) :
  NoDup (dict_keys locked) ->
  In (w, s) locked -> In l (set_iter s) -> edge locked w l.
Proof.
  intros Hnd Hin Hl. unfold edge, sd_get.
  now rewrite (dict_get_of_In w s locked Hnd Hin).
Qed.

Lemma edge_entry (locked : setdict nat) (w l : nat) :
  edge locked w l ->
  exists s, In (w, s) locked /\ In l (set_iter s).
Proof.
  unfold edge, sd_get. destruct (dict_get w locked) as [s|] eqn:E; [|intros []].
  intros Hl. exists s. split; [now apply dict_get_In | assumption].
Qed.

(** Lines 422-426 on the entries of an [n] x [n] matrix. *)
Lemma locked_arrows_Ok (n : nat) (m : matrix) (locked : setdict nat) :
  mat_wf n m ->
  (forall w s l, In (w, s) locked -> In l (set_iter s) -> w < n /\ l < n) ->
  locked_arrows m locked = Ok (all_locked_arrows m locked).
Proof.
  intros Hwf Hb. unfold locked_arrows, all_locked_arrows.
  refine (foldM_append _ (arrows_of_entry m) locked [] _).
  intros [w s] acc Hin. unfold arrows_of_entry. cbn [fst snd].
  enough (G : forall l acc,
             (forall x, In x l -> In x (set_iter s)) ->
             foldM
               (fun edge_data loser =>
                  a <- mat_get m w loser ;;
                  b <- mat_get m loser w ;;
                  Ok (edge_data
                      ++ [(w, loser, Z.max 1 (sub64 a b), sub64 a b)]))
               l acc
             = Ok (acc
                   ++ map (fun loser =>
                             (w, loser,
                              Z.max 1 (sub64 (entry m w loser)
                                             (entry m loser w)),
                              sub64 (entry m w loser) (entry m loser w)))
                          l)).
  { apply G. auto. }
  induction l as [|x l IH]; intros acc' Hl.
  - simpl. now rewrite app_nil_r.
  - rewrite foldM_cons. destruct (Hb w s x Hin) as [Hw Hx];
    [apply Hl; now left|].
    rewrite (mat_get_Ok n m w x Hwf Hw Hx), (mat_get_Ok n m x w Hwf Hx Hw).
    cbn [bind]. rewrite IH by (intros y Hy; apply Hl; now right).
    simpl. now rewrite <- app_assoc.
Qed.

Lemma all_locked_arrows_In (m : matrix) (locked : setdict nat)
    (w l : nat) (weight margin : Z) :
  NoDup (dict_keys locked) ->
  In (w, l, weight, margin) (all_locked_arrows m locked) <->
  edge locked w l /\
  margin = sub64 (entry m w l) (entry m l w) /\ weight = Z.max 1 margin.
Proof.
  intros Hnd. unfold all_locked_arrows, arrows_of_entry.
  rewrite in_flat_map. split.
  - intros ([w' s] & Hin & Hmap). apply in_map_iff in Hmap.
    destruct Hmap as (l' & [= <- <- <- <-] & Hl). cbn [fst snd] in *.
    split; [exact (entry_edge locked w' l' s Hnd Hin Hl) | auto].
  - intros (He & -> & ->).
    destruct (edge_entry locked w l He) as (s & Hin & Hl).
    exists (w, s). split; [assumption|]. apply in_map_iff. now exists l.
Qed.

Lemma count_in_NoDup (i : nat) (l : list nat) :
  NoDup l ->
  length (filter (fun y => y =? i) l)
  = if existsb (Nat.eqb i) l then 1 else 0.
Proof.
  induction l as [|y l IH]; intros Hnd; simpl; [reflexivity|].
  inversion Hnd as [|? ? Hy Hnd']; subst. specialize (IH Hnd').
  rewrite (Nat.eqb_sym i y). destruct (Nat.eqb_spec y i) as [->|Hne]; simpl.
  - rewrite IH.
    replace (existsb (Nat.eqb i) l) with false; [reflexivity|].
    symmetry. apply not_true_is_false. intros Ex.
    apply existsb_exists in Ex. destruct Ex as (z & Hz & Ez).
    apply Nat.eqb_eq in Ez. now subst.
  - exact IH.
Qed.

Lemma lost_by_count (m : matrix) (locked : setdict nat) (i : nat) :
  length (lost_by i (all_locked_arrows m locked))
  = length (filter (fun item : nat * pyset => set_mem i (snd item)) locked).
Proof.
  unfold lost_by, all_locked_arrows. rewrite filter_flat_map.
  apply filter_length_flat. intros [w s]. unfold arrows_of_entry.
  cbn [fst snd].
  assert (E : forall l,
            length (filter (fun e : locked_arrow => snd (fst (fst e)) =? i)
                      (map (fun loser =>
                              (w, loser,
                               Z.max 1 (sub64 (entry m w loser)
                                              (entry m loser w)),
                               sub64 (entry m w loser) (entry m loser w)))
                           l))
            = length (filter (fun y => y =? i) l)).
  { induction l as [|y l IH]; simpl; [reflexivity|].
    destruct (y =? i); simpl; now rewrite IH. }
  rewrite E, (count_in_NoDup i _ (set_iter_NoDup s)).
  replace (existsb (Nat.eqb i) (set_iter s)) with (set_mem i s);
    [reflexivity|].
  apply eq_true_iff_eq. rewrite set_mem_iter. symmetry.
  exact (existsb_keqb (A := nat) i (set_iter s)).
Qed.

Lemma won_by_count (m : matrix) (locked : setdict nat) (i : nat) :
  NoDup (dict_keys locked) ->
  length (won_by i (all_locked_arrows m locked)) = length (sd_get i locked).
Proof.
  intros Hnd. unfold won_by, all_locked_arrows. rewrite filter_flat_map.
  assert (Hother : forall w s, w <> i ->
            filter (fun e : locked_arrow => fst (fst (fst e)) =? i)
                   (arrows_of_entry m (w, s)) = []).
  { intros w s Hne. apply filter_none. intros e He.
    unfold arrows_of_entry in He. apply in_map_iff in He.
    destruct He as (l & <- & _). simpl. now apply Nat.eqb_neq. }
  unfold sd_get. destruct (dict_get i locked) as [s|] eqn:E.
  - rewrite (flat_map_single _ locked (i, s)).
    + rewrite filter_all.
      * unfold arrows_of_entry. now rewrite length_map.
      * intros e He. unfold arrows_of_entry in He. apply in_map_iff in He.
        destruct He as (l & <- & _). simpl. apply Nat.eqb_refl.
    + apply (NoDup_map_inv fst). exact Hnd.
    + now apply dict_get_In.
    + intros [w s'] Hin Hne. apply Hother. intros ->. apply Hne.
      rewrite (dict_get_of_In i s' locked Hnd Hin) in E. congruence.
  - rewrite flat_map_nil; [reflexivity|]. intros [w s] Hin.
    apply Hother. intros ->. apply dict_get_None in E. apply E.
    apply in_map_iff. now exists (i, s).
Qed.

End Ranked.

End Drawn.

Import Drawn.

Lemma compute_ranked_pairs_NoDup `{PySet nat} (movie_ids : list Z)
    (movie_titles : list string) (m : Condorcet.matrix)
    (ranking : list nat) (locked : setdict nat) :
  Condorcet.compute_ranked_pairs movie_ids movie_titles m
  = Ok (ranking, locked) ->
  NoDup (dict_keys locked).
Proof.
  unfold Condorcet.compute_ranked_pairs. intros E.
  inv_bind E. inv_bind E. inv_bind E. inv_bind E. injection E as _ <-.
  exact (lock_pairs_NoDup _ _ E1).
Qed.

(** X15.  When every pair of candidates is tied, nothing is locked and
    the ranking is the list of all candidates in the order of their
    titles, whatever the votes were. *)
Theorem all_tied_ranked_by_title `{PySet nat} (movie_ids : list Z)
    (movie_titles : list string) (m : Condorcet.matrix) :
  mat_wf (length movie_ids) m ->
  length movie_titles = length movie_ids ->
  all_tied (length movie_ids) m ->
  exists ranking,
    Condorcet.compute_ranked_pairs movie_ids movie_titles m
    = Ok (ranking, []) /\
    Permutation ranking (range 0 (length movie_ids)) /\
    StronglySorted (title_le movie_titles) ranking.
Proof.
  intros Hwf Hlen Htied. eexists. split; [|split].
  - apply compute_ranked_pairs_tied; [assumption | lia | assumption].
  - rewrite sort_by_perm. apply set_of_list_perm, range_NoDup.
  - apply sort_by_title_sorted.
Qed.

Lemma all_tied_ranked_by_title_witness :
  exists ranking,
    @Condorcet.compute_ranked_pairs SetOrders.ascending_positions
      [1; 2; 3]%Z ["C"; "B"; "A"]%string
      [[0; 1; 2]; [1; 0; 1]; [2; 1; 0]]%Z
    = Ok (ranking, []) /\
    Permutation ranking (range 0 3) /\
    StronglySorted (title_le ["C"; "B"; "A"]%string) ranking.
Proof.
  apply (@all_tied_ranked_by_title SetOrders.ascending_positions
           [1; 2; 3]%Z ["C"; "B"; "A"]%string
           [[0; 1; 2]; [1; 0; 1]; [2; 1; 0]]%Z).
  - split; [reflexivity | repeat constructor].
  - reflexivity.
  - intros i j Hi Hj. simpl in Hi, Hj.
    destruct i as [|[|[|i]]]; destruct j as [|[|[|j]]]; try lia; reflexivity.
Defined.

(** X16.  What [create_ranked_graph] draws.  On an [n] x [n] matrix of
    counts the function's computations return; every arrow is a locked
    pair whose winner stands before its loser in the ranking; its
    margin is the difference of the two counts and is at least 1, so
    the [max(1, margin)] of line 425 is the margin itself; [wins[i]] and
    [losses[i]] count the arrows that [i] wins and loses; and the
    candidate ranked first has no loss. *)
Theorem ranked_graph_arrows `{PySet nat} (movie_ids : list Z)
    (movie_titles : list string) (m : Condorcet.matrix) :
  mat_wf (length movie_ids) m -> mat_counts m ->
  length movie_titles = length movie_ids ->
  exists data,
    Display.ranked_graph_data movie_ids movie_titles m = Ok data /\
    forall ranking edge_data wins losses,
      data = Some (ranking, edge_data, wins, losses) ->
      (forall w l weight margin,
         In (w, l, weight, margin) edge_data ->
         precedes ranking w l /\
         margin = (entry m w l - entry m l w)%Z /\
         weight = margin /\ (1 <= margin)%Z) /\
      (forall i, i < length movie_ids ->
         dict_get i wins = Some (Z.of_nat (length (won_by i edge_data))) /\
         dict_get i losses = Some (Z.of_nat (length (lost_by i edge_data)))) /\
      (forall x rest, ranking = x :: rest -> dict_get x losses = Some 0%Z).
Proof.
  intros Hwf Hcounts Hlen. set (n := length movie_ids) in *.
  destruct (compute_ranked_pairs_ordered movie_ids movie_titles m Hwf)
    as (ranking & locked & E & _ & Hp & Ho & Hmaj & _); [lia|].
  fold n in Hp, Hmaj.
  pose proof (compute_ranked_pairs_NoDup _ _ _ _ _ E) as Hnd.
  unfold Display.ranked_graph_data. rewrite E. cbn [bind]. fold n.
  rewrite (Drawn.locked_arrows_Ok n m locked Hwf).
  2:{ intros w s l Hin Hl.
      destruct (Hmaj w l (entry_edge locked w l s Hnd Hin Hl))
        as (Hw & Hl' & _).
      auto. }
  cbn [bind].
  assert (Hlosses : forall i, i < n ->
            dict_get i (Display.locked_losses n locked)
            = Some (Z.of_nat (length (lost_by i
                    (all_locked_arrows m locked))))).
  { intros i Hi. unfold Display.locked_losses.
    rewrite dict_comp_get, (existsb_range n i Hi).
    now rewrite lost_by_count. }
  destruct (all_locked_arrows m locked) as [|a0 arrows0] eqn:Earrows.
  - exists None. split; [reflexivity|]. discriminate.
  - eexists. split; [reflexivity|].
    intros ranking' edge_data wins losses [= <- <- <- <-].
    rewrite <- Earrows in *. clear Earrows. split; [|split].
    + intros w l weight margin Hin.
      apply (all_locked_arrows_In m locked w l weight margin Hnd) in Hin.
      destruct Hin as (He & -> & ->).
      destruct (Hmaj w l He) as (Hw & Hl & Hb).
      pose proof (mat_counts_entry n m w l Hwf Hcounts Hw Hl) as Hwl.
      pose proof (mat_counts_entry n m l w Hwf Hcounts Hl Hw) as Hlw.
      unfold beats in Hb.
      assert (Esub : sub64 (entry m w l) (entry m l w)
                     = (entry m w l - entry m l w)%Z).
      { unfold sub64. apply wrap64_small. unfold is_int64. lia. }
      rewrite Esub. split.
      * apply (topo_ordered_precedes locked); [assumption| |assumption].
        now apply (perm_range_In _ _ _ Hp).
      * split; [reflexivity|]. split; lia.
    + intros i Hi. split; [|now apply Hlosses].
      unfold Display.locked_wins.
      rewrite dict_comp_get, (existsb_range n i Hi).
      now rewrite won_by_count.
    + intros x rest ->.
      assert (Hx : x < n) by (apply (perm_range_In _ _ _ Hp); now left).
      rewrite (Hlosses x Hx). f_equal.
      replace (length (lost_by x (all_locked_arrows m locked))) with 0;
        [reflexivity|].
      symmetry. apply length_zero_iff_nil, filter_none.
      intros [[[w l] weight] margin] Hin.
      apply (all_locked_arrows_In m locked w l weight margin Hnd) in Hin.
      destruct Hin as (He & _). simpl. apply Nat.eqb_neq. intros ->.
      exact (Ho [] x rest eq_refl w He).
Qed.

Lemma ranked_graph_arrows_witness :
  exists data,
    @Display.ranked_graph_data SetOrders.ascending_positions
      [1; 2; 3]%Z ["C"; "B"; "A"]%string
      [[0; 2; 1]; [1; 0; 2]; [2; 1; 0]]%Z
    = Ok data /\
    forall ranking edge_data wins losses,
      data = Some (ranking, edge_data, wins, losses) ->
      (forall w l weight margin,
         In (w, l, weight, margin) edge_data ->
         precedes ranking w l /\
         margin = (entry [[0; 2; 1]; [1; 0; 2]; [2; 1; 0]]%Z w l
                   - entry [[0; 2; 1]; [1; 0; 2]; [2; 1; 0]]%Z l w)%Z /\
         weight = margin /\ (1 <= margin)%Z) /\
      (forall i, i < 3 ->
         dict_get i wins = Some (Z.of_nat (length (won_by i edge_data))) /\
         dict_get i losses = Some (Z.of_nat (length (lost_by i edge_data)))) /\
      (forall x rest, ranking = x :: rest -> dict_get x losses = Some 0%Z).
Proof.
  apply (@ranked_graph_arrows SetOrders.ascending_positions
           [1; 2; 3]%Z ["C"; "B"; "A"]%string
           [[0; 2; 1]; [1; 0; 2]; [2; 1; 0]]%Z).
  - split; [reflexivity | repeat constructor].
  - repeat constructor; lia.
  - reflexivity.
Defined.

(** X17.  Both pictures are skipped in the same case.  On an [n] x [n]
    matrix [create_loose_graph] returns early ("No edges to display!")
    exactly when every pair of candidates is tied, and so does
    [create_ranked_graph] ("No locked edges!"): as soon as one
    candidate has a strict majority against another some pair is
    locked. *)
Theorem graphs_skipped_iff_all_tied `{PySet nat} (movie_ids : list Z)
    (movie_titles : list string) (m : Condorcet.matrix) :
  mat_wf (length movie_ids) m ->
  length movie_titles = length movie_ids ->
  exists loose ranked,
    Display.loose_graph_data movie_ids m = Ok loose /\
    Display.ranked_graph_data movie_ids movie_titles m = Ok ranked /\
    (loose = None <-> all_tied (length movie_ids) m) /\
    (ranked = None <-> all_tied (length movie_ids) m).
Proof.
  intros Hwf Hlen. set (n := length movie_ids) in *.
  destruct (head_to_head_Ok n m Hwf) as (wins & losses & Eh & _).
  destruct (compute_ranked_pairs_ordered movie_ids movie_titles m Hwf)
    as (ranking & locked & E & _ & _ & _ & Hmaj & Hlock); [lia|].
  fold n in Hmaj, Hlock.
  pose proof (compute_ranked_pairs_NoDup _ _ _ _ _ E) as Hnd.
  unfold Display.loose_graph_data, Display.ranked_graph_data.
  fold n. rewrite Eh, E. cbn [bind]. rewrite (arrows_Ok n m Hwf).
  rewrite (Drawn.locked_arrows_Ok n m locked Hwf).
  2:{ intros w s l Hin Hl.
      destruct (Hmaj w l (entry_edge locked w l s Hnd Hin Hl))
        as (Hw & Hl' & _).
      auto. }
  cbn [bind].
  assert (Hedges : all_locked_arrows m locked = [] <-> all_tied n m).
  { split.
    - intros Enil. apply tied_no_majority. intros i j Hij.
      assert (He : exists u v, edge locked u v).
      { destruct (Hlock i j Hij) as [He|Hr]; [eauto|].
        apply reaches_first in Hr. destruct Hr as [->|(u & He & _)]; [|eauto].
        destruct Hij as (_ & _ & Hb). now destruct (beats_irrefl m i). }
      destruct He as (u & v & He).
      assert (Hin : In (u, v, Z.max 1 (sub64 (entry m u v) (entry m v u)),
                        sub64 (entry m u v) (entry m v u))
                       (all_locked_arrows m locked))
        by (apply all_locked_arrows_In; auto).
      rewrite Enil in Hin. destruct Hin.
    - intros Ht. apply nil_of_no_elements.
      intros [[[w l] weight] margin] Hin.
      apply (all_locked_arrows_In m locked w l weight margin Hnd) in Hin.
      destruct Hin as (He & _).
      exact (proj1 (tied_no_majority n m) Ht w l (Hmaj w l He)). }
  pose proof (tied_no_arrows n m) as Harrows.
  destruct (all_arrows n m) as [|a1 l1];
    destruct (all_locked_arrows m locked) as [|a2 l2];
    eexists; eexists; (split; [reflexivity|]); (split; [reflexivity|]);
    split; split; intros Hx;
    try reflexivity; try discriminate;
    try (now apply Harrows); try (now apply Hedges);
    try (apply Harrows in Hx; discriminate);
    try (apply Hedges in Hx; discriminate).
Qed.

Lemma graphs_skipped_iff_all_tied_witness :
  exists loose ranked,
    Display.loose_graph_data [1; 2; 3]%Z [[0; 1; 2]; [1; 0; 1]; [2; 1; 0]]%Z
    = Ok loose /\
    @Display.ranked_graph_data SetOrders.ascending_positions
      [1; 2; 3]%Z ["C"; "B"; "A"]%string [[0; 1; 2]; [1; 0; 1]; [2; 1; 0]]%Z
    = Ok ranked /\
    (loose = None <-> all_tied 3 [[0; 1; 2]; [1; 0; 1]; [2; 1; 0]]%Z) /\
    (ranked = None <-> all_tied 3 [[0; 1; 2]; [1; 0; 1]; [2; 1; 0]]%Z).
Proof.
  apply (@graphs_skipped_iff_all_tied SetOrders.ascending_positions
           [1; 2; 3]%Z ["C"; "B"; "A"]%string
           [[0; 1; 2]; [1; 0; 1]; [2; 1; 0]]%Z).
  - split; [reflexivity | repeat constructor].
  - reflexivity.
Defined.
(** X18.  [get_next_wednesday] returns the first Wednesday that is not
    before today: for every date [today] the date it formats is a
    Wednesday, lies at most six days ahead, no day from today up to it
    is a Wednesday, and it is today when today is a Wednesday.  In the
    last days before [date.max] the addition raises [OverflowError]
    instead. *)
Theorem next_wednesday_is_first_wednesday (strftime : Z -> string)
    (today : Z) :
  (1 <= today <= Calendar.max_ordinal)%Z ->
  let d := (today + (2 - Calendar.weekday today) mod 7)%Z in
  Calendar.weekday d = 2%Z /\
  (today <= d <= today + 6)%Z /\
  (forall d', (today <= d' < d)%Z -> Calendar.weekday d' <> 2%Z) /\
  (Calendar.weekday today = 2%Z -> d = today) /\
  Calendar.get_next_wednesday strftime today
  = if (d <=? Calendar.max_ordinal)%Z then Some (strftime d) else None.
Proof.
  intros Hrange d.
  assert (Hk : ((2 - Calendar.weekday today + 7) mod 7
                = (2 - Calendar.weekday today) mod 7)%Z).
  { unfold Calendar.weekday. Z.to_euclidean_division_equations. lia. }
  split; [|split; [|split; [|split]]].
  - unfold d, Calendar.weekday. Z.to_euclidean_division_equations. lia.
  - unfold d, Calendar.weekday. Z.to_euclidean_division_equations. lia.
  - intros d' Hd'. unfold d, Calendar.weekday in *.
    Z.to_euclidean_division_equations. lia.
  - unfold d, Calendar.weekday. Z.to_euclidean_division_equations. lia.
  - unfold Calendar.get_next_wednesday, Calendar.next_wednesday.
    rewrite Hk. fold d.
    replace (if ((2 - Calendar.weekday today) mod 7 =? 0)%Z then 0%Z
             else ((2 - Calendar.weekday today) mod 7)%Z)
      with ((2 - Calendar.weekday today) mod 7)%Z.
    + unfold Calendar.add_days. fold d.
      assert (Hd : (1 <= d)%Z).
      { unfold d, Calendar.weekday. Z.to_euclidean_division_equations. lia. }
      replace (1 <=? d)%Z with true by (symmetry; now apply Z.leb_le).
      cbn [andb]. now destruct (d <=? Calendar.max_ordinal)%Z.
    + destruct (Z.eqb_spec ((2 - Calendar.weekday today) mod 7) 0) as [->|];
        reflexivity.
Qed.

Lemma next_wednesday_is_first_wednesday_witness :
  let d := (739558 + (2 - Calendar.weekday 739558) mod 7)%Z in
  Calendar.weekday d = 2%Z /\
  (739558 <= d <= 739558 + 6)%Z /\
  (forall d', (739558 <= d' < d)%Z -> Calendar.weekday d' <> 2%Z) /\
  (Calendar.weekday 739558 = 2%Z -> d = 739558%Z) /\
  Calendar.get_next_wednesday (fun _ => EmptyString) 739558
  = if (d <=? Calendar.max_ordinal)%Z then Some EmptyString else None.
Proof.
  apply (next_wednesday_is_first_wednesday (fun _ => EmptyString) 739558).
  unfold Calendar.max_ordinal. lia.
Defined.
(* ================================================================== *)
(** * The command lines                                                 *)
(* ================================================================== *)

Module CliFacts.
Import Condorcet Cli.

Lemma firstn_snoc {A : Type} (l : list A) (k : nat) (a : A) :
  nth_error l k = Some a -> firstn (k + 1) l = firstn k l ++ [a].
Proof.
  revert k. induction l as [|x l IH]; intros [|k]; simpl; try discriminate.
  - now intros [= ->].
  - intros E. now rewrite (IH k E).
Qed.

(** A loop over [enumerate(l)]. *)
Lemma foldM_enumerate_gen {A St : Type} (P : nat -> St -> Prop)
    (f : St -> nat * A -> result St) (l : list A) :
  (forall k a s, nth_error l k = Some a -> P k s ->
     exists s', f s (k, a) = Ok s' /\ P (k + 1) s') ->
  forall s, P 0 s ->
  exists s', foldM f (enumerate l) s = Ok s' /\ P (length l) s'.
Proof.
  intros Hstep. unfold enumerate.
  assert (G : forall l2 l1 s,
            l = l1 ++ l2 -> P (length l1) s ->
            exists s',
              foldM f (combine (seq (length l1) (length l2)) l2) s = Ok s' /\
              P (length l) s').
  { induction l2 as [|a l2 IH]; intros l1 s El Hs.
    - exists s. simpl. split; [reflexivity|].
      rewrite El, app_nil_r. exact Hs.
    - simpl. destruct (Hstep (length l1) a s) as (s1 & E1 & H1).
      + rewrite El, nth_error_app2, Nat.sub_diag by lia. reflexivity.
      + exact Hs.
      + rewrite E1. cbn [bind].
        destruct (IH (l1 ++ [a]) s1) as (s' & E & Hs').
        * now rewrite <- app_assoc.
        * rewrite length_app. simpl. exact H1.
        * exists s'. split; [|exact Hs'].
          rewrite length_app in E. simpl in E.
          now rewrite Nat.add_1_r in E. }
  intros s Hs. exact (G l [] s eq_refl Hs).
Qed.

(** Lines 531-538 never fail: the index [i + 1] is checked first. *)
Lemma parse_arg_cases (args : list string) (o : options) (i : nat)
    (arg : string) :
  nth_error args i = Some arg ->
  exists o',
    parse_arg args o (i, arg) = Ok o' /\
    (verbose o' = false <-> verbose o = false \/ arg = "--quiet"%string) /\
    (graph_type o' = Both <->
     graph_type o = Both /\ arg <> "--loose"%string /\
     arg <> "--ranked"%string) /\
    (graph_type o' = Loose <->
     arg = "--loose"%string \/
     (graph_type o = Loose /\ arg <> "--ranked"%string)) /\
    (output_path o'
     = if (arg =? "--output")%string
       then match nth_error args (i + 1) with
            | Some v => Some v
            | None => output_path o
            end
       else output_path o).
Proof.
  intros Harg. unfold parse_arg.
  destruct (String.eqb_spec arg "--output") as [->|Hout]; cbn [andb].
  - destruct (Nat.ltb_spec (i + 1) (length args)) as [Hlt|Hge].
    + unfold getitem. destruct (nth_error args (i + 1)) as [v|] eqn:Ev.
      * cbn [bind]. eexists. split; [reflexivity|]. simpl.
        split; [|split; [|split]]; try reflexivity.
        -- split; [auto | intros [?|?]; [assumption | discriminate]].
        -- split; [intros ?; repeat split; [assumption | discriminate
                                            | discriminate] | tauto].
        -- split; [intros ?; right; split; [assumption | discriminate]|].
           intros [?|[? _]]; [discriminate | assumption].
      * apply nth_error_None in Ev. lia.
    + replace (nth_error args (i + 1)) with (@None string)
        by (symmetry; apply nth_error_None; lia).
      simpl. exists o. split; [reflexivity|].
      split; [|split; [|split]]; try reflexivity.
      * split; [auto | intros [?|?]; [assumption | discriminate]].
      * split; [intros ?; repeat split; [assumption | discriminate
                                          | discriminate] | tauto].
      * split; [intros ?; right; split; [assumption | discriminate]|].
        intros [?|[? _]]; [discriminate | assumption].
  - destruct (String.eqb_spec arg "--loose") as [->|Hloose].
    + eexists. split; [reflexivity|]. simpl.
      split; [|split; [|split]]; try reflexivity.
      * split; [auto | intros [?|?]; [assumption | discriminate]].
      * split; [discriminate | intros (_ & Hne & _); congruence].
      * split; [auto | reflexivity].
    + destruct (String.eqb_spec arg "--ranked") as [->|Hranked].
      * eexists. split; [reflexivity|]. simpl.
        split; [|split; [|split]]; try reflexivity.
        -- split; [auto | intros [?|?]; [assumption | discriminate]].
        -- split; [discriminate | intros (_ & _ & Hne); congruence].
        -- split; [discriminate|].
           intros [?|[_ Hne]]; [discriminate | congruence].
      * destruct (String.eqb_spec arg "--quiet") as [->|Hquiet].
        -- eexists. split; [reflexivity|]. simpl.
           split; [|split; [|split]]; try reflexivity.
           ++ split; [auto | reflexivity].
           ++ split; [intros ?; repeat split; [assumption | discriminate
                                               | discriminate] | tauto].
           ++ split; [intros ?; right; split; [assumption | discriminate]|].
              intros [?|[? _]]; [discriminate | assumption].
        -- exists o. split; [reflexivity|].
           split; [|split; [|split]]; try reflexivity.
           ++ split; [auto | intros [?|?]; [assumption | congruence]].
           ++ split; [intros ?; repeat split; assumption | tauto].
           ++ split; [intros ?; right; split; assumption|].
              intros [?|[? _]]; [congruence | assumption].
Qed.

End CliFacts.

Import CliFacts.

(** X19.  The command line of [visualize_condorcet.py].  Reading the
    arguments never fails (an ["--output"] in last place is skipped);
    the run is quiet exactly when ["--quiet"] occurs; both pictures are
    made exactly when neither ["--loose"] nor ["--ranked"] occurs, and
    then each goes to its default file whatever ["--output"] says; and
    the output path, when there is one, is an argument that follows an
    ["--output"]. *)
Theorem condorcet_command_line (args : list string) :
  exists o,
    Cli.parse_args args = Ok o /\
    (Cli.verbose o = false <-> In "--quiet"%string args) /\
    (Cli.graph_type o = Cli.Both <->
     ~ In "--loose"%string args /\ ~ In "--ranked"%string args) /\
    (Cli.output_path o = None <->
     forall i, nth_error args i = Some "--output"%string ->
               nth_error args (i + 1) = None) /\
    (forall v, Cli.output_path o = Some v ->
       exists i, nth_error args i = Some "--output"%string /\
                 nth_error args (i + 1) = Some v) /\
    (~ In "--loose"%string args -> ~ In "--ranked"%string args ->
     Cli.pictures o
     = [(Cli.Loose, "condorcet_loose.png"%string);
        (Cli.Ranked, "condorcet_ranked.png"%string)]).
Proof.
  destruct (foldM_enumerate_gen
              (fun k o =>
                 (Cli.verbose o = false <->
                  In "--quiet"%string (firstn k args)) /\
                 (Cli.graph_type o = Cli.Both <->
                  ~ In "--loose"%string (firstn k args) /\
                  ~ In "--ranked"%string (firstn k args)) /\
                 (Cli.output_path o = None <->
                  forall i, i < k ->
                    nth_error args i = Some "--output"%string ->
                    nth_error args (i + 1) = None) /\
                 (forall v, Cli.output_path o = Some v ->
                    exists i, nth_error args i = Some "--output"%string /\
                              nth_error args (i + 1) = Some v))
              (Cli.parse_arg args) args) with (s := Cli.defaults)
    as (o & E & Hv & Hg & Hn & Hs).
  - intros k a o Ha (Hv & Hg & Hn & Hs).
    destruct (parse_arg_cases args o k a Ha) as (o' & E & Hv' & Hg' & _ & Ho').
    exists o'. split; [exact E|].
    rewrite (firstn_snoc args k a Ha).
    split; [|split; [|split]].
    + rewrite Hv', Hv, in_app_iff. simpl. intuition congruence.
    + rewrite Hg', Hg, !in_app_iff. simpl. intuition congruence.
    + rewrite Ho'. destruct (String.eqb_spec a "--output") as [->|Hne].
      * destruct (nth_error args (k + 1)) as [v|] eqn:Ev.
        -- split; [discriminate|]. intros Hall.
           specialize (Hall k ltac:(lia) Ha). congruence.
        -- rewrite Hn. split.
           ++ intros Hall i Hi Hi'.
              destruct (Nat.eq_dec i k) as [->|Hik]; [assumption|].
              apply Hall; [lia | assumption].
           ++ intros Hall i Hi. apply Hall. lia.
      * rewrite Hn. split.
        -- intros Hall i Hi Hi'.
           destruct (Nat.eq_dec i k) as [->|Hik]; [congruence|].
           apply Hall; [lia | assumption].
        -- intros Hall i Hi. apply Hall. lia.
    + intros v. rewrite Ho'.
      destruct (String.eqb_spec a "--output") as [->|Hne]; [|apply Hs].
      destruct (nth_error args (k + 1)) as [v'|] eqn:Ev; [|apply Hs].
      intros [= <-]. now exists k.
  - simpl. split; [|split; [|split]].
    + split; [discriminate | intros []].
    + split; [intros _; split; intros [] | reflexivity].
    + split; [intros _ i Hi; lia | reflexivity].
    + discriminate.
  - rewrite firstn_all in Hv, Hg. exists o. split; [exact E|].
    split; [exact Hv|]. split; [exact Hg|]. split.
    + rewrite Hn. split.
      * intros Hall i Hi. apply Hall; [|assumption].
        apply nth_error_Some. congruence.
      * intros Hall i _. apply Hall.
    + split; [exact Hs|]. intros Hl Hr.
      assert (Hb : Cli.graph_type o = Cli.Both) by (apply Hg; tauto).
      unfold Cli.pictures, Cli.path_for. rewrite Hb.
      destruct (Cli.output_path o) as [s|]; [|reflexivity].
      now rewrite !andb_false_r.
Qed.

Module VoteCli.
Import Cli.

Section Loop.
Variable int : string -> option Z.

(** More rounds than arguments left are never used. *)
Lemma vote_loop_fuel (args : list string) :
  forall fuel fuel' i o,
    length args - i < fuel -> length args - i < fuel' ->
    vote_loop int fuel args i o = vote_loop int fuel' args i o.
Proof.
  induction fuel as [|fuel IH]; intros fuel' i o Hf Hf'; [lia|].
  destruct fuel' as [|fuel']; [lia|]. simpl.
  destruct (Nat.ltb_spec i (length args)) as [Hi|Hi]; [|reflexivity].
  destruct (nth_error args i) as [arg|]; [|reflexivity].
  destruct ((arg =? "--db")%string && (i + 1 <? length args)).
  { destruct (nth_error args (i + 1)); [|reflexivity]. apply IH; lia. }
  destruct ((arg =? "--vote-id")%string && (i + 1 <? length args)).
  { destruct (nth_error args (i + 1)) as [v|]; [|reflexivity].
    destruct (int v); [|reflexivity]. apply IH; lia. }
  destruct ((arg =? "--output")%string && (i + 1 <? length args)).
  { destruct (nth_error args (i + 1)); [|reflexivity]. apply IH; lia. }
  apply IH; lia.
Qed.

(** The loop at index [length pre + i] sees what a loop at index [i]
    sees on the arguments after [pre]. *)
Lemma vote_loop_shift (pre rest : list string) :
  forall fuel i j o,
    j = length pre + i ->
    vote_loop int fuel (pre ++ rest) j o = vote_loop int fuel rest i o.
Proof.
  induction fuel as [|fuel IH]; intros i j o Hj; [reflexivity|]. simpl.
  assert (E1 : (j <? length (pre ++ rest)) = (i <? length rest)).
  { rewrite length_app.
    destruct (Nat.ltb_spec i (length rest)),
             (Nat.ltb_spec j (length pre + length rest));
      reflexivity || lia. }
  assert (E2 : nth_error (pre ++ rest) j = nth_error rest i).
  { rewrite nth_error_app2 by lia. f_equal. lia. }
  assert (E3 : (j + 1 <? length (pre ++ rest)) = (i + 1 <? length rest)).
  { rewrite length_app.
    destruct (Nat.ltb_spec (i + 1) (length rest)),
             (Nat.ltb_spec (j + 1) (length pre + length rest));
      reflexivity || lia. }
  assert (E4 : nth_error (pre ++ rest) (j + 1) = nth_error rest (i + 1)).
  { rewrite nth_error_app2 by lia. f_equal. lia. }
  rewrite E1, E2, E3, E4.
  destruct (i <? length rest); [|reflexivity].
  destruct (nth_error rest i) as [arg|]; [|reflexivity].
  destruct ((arg =? "--db")%string && (i + 1 <? length rest)).
  { destruct (nth_error rest (i + 1)); [|reflexivity]. apply IH. lia. }
  destruct ((arg =? "--vote-id")%string && (i + 1 <? length rest)).
  { destruct (nth_error rest (i + 1)) as [v|]; [|reflexivity].
    destruct (int v); [|reflexivity]. apply IH. lia. }
  destruct ((arg =? "--output")%string && (i + 1 <? length rest)).
  { destruct (nth_error rest (i + 1)); [|reflexivity]. apply IH. lia. }
  apply IH. lia.
Qed.

Lemma parse_from_nil (o : vote_options) : parse_from int o [] = Done o.
Proof. reflexivity. Qed.

Lemma parse_from_last (o : vote_options) (a : string) :
  parse_from int o [a] = Done o.
Proof.
  unfold parse_from. simpl. now rewrite !andb_false_r.
Qed.

Lemma parse_from_two (o : vote_options) (a v : string) (rest : list string) :
  parse_from int o (a :: v :: rest)
  = if (a =? "--db")%string then
      parse_from int {| db_path := Some v; vote_id := vote_id o;
                        vote_output := vote_output o |} rest
    else if (a =? "--vote-id")%string then
      match int v with
      | Some z =>
          parse_from int {| db_path := db_path o; vote_id := Some z;
                            vote_output := vote_output o |} rest
      | None => Failed ValueError
      end
    else if (a =? "--output")%string then
      parse_from int {| db_path := db_path o; vote_id := vote_id o;
                        vote_output := Some v |} rest
    else parse_from int o (v :: rest).
Proof.
  unfold parse_from.
  change (vote_loop int (S (length (a :: v :: rest))) (a :: v :: rest) 0 o)
    with (if (a =? "--db")%string && true then
            vote_loop int (S (S (length rest))) (a :: v :: rest) 2
              {| db_path := Some v; vote_id := vote_id o;
                 vote_output := vote_output o |}
          else if (a =? "--vote-id")%string && true then
            match int v with
            | None => Failed ValueError
            | Some z =>
                vote_loop int (S (S (length rest))) (a :: v :: rest) 2
                  {| db_path := db_path o; vote_id := Some z;
                     vote_output := vote_output o |}
            end
          else if (a =? "--output")%string && true then
            vote_loop int (S (S (length rest))) (a :: v :: rest) 2
              {| db_path := db_path o; vote_id := vote_id o;
                 vote_output := Some v |}
          else vote_loop int (S (S (length rest))) (a :: v :: rest) 1 o).
  rewrite !andb_true_r.
  assert (H2 : forall o',
            vote_loop int (S (S (length rest))) (a :: v :: rest) 2 o'
            = vote_loop int (S (length rest)) rest 0 o').
  { intros o'.
    etransitivity;
      [exact (vote_loop_shift [a; v] rest (S (S (length rest))) 0 2 o' eq_refl)
      | apply vote_loop_fuel; lia]. }
  assert (H1 : vote_loop int (S (S (length rest))) (a :: v :: rest) 1 o
               = vote_loop int (S (length (v :: rest))) (v :: rest) 0 o).
  { exact (vote_loop_shift [a] (v :: rest) (S (S (length rest))) 0 1 o
             eq_refl). }
  destruct (a =? "--db")%string; [apply H2|].
  destruct (a =? "--vote-id")%string;
    [destruct (int v); [apply H2 | reflexivity]|].
  destruct (a =? "--output")%string; [apply H2 | exact H1].
Qed.

(** The loop ends, and no index is out of range. *)
Lemma parse_from_ends (n : nat) :
  forall args o,
    length args <= n ->
    parse_from int o args <> Failed BadIndex /\
    parse_from int o args <> Failed OutOfFuel.
Proof.
  induction n as [|n IH]; intros args o Hlen.
  - destruct args; [|simpl in Hlen; lia]. split; discriminate.
  - destruct args as [|a [|v rest]].
    + split; discriminate.
    + rewrite parse_from_last. split; discriminate.
    + rewrite parse_from_two. simpl in Hlen.
      destruct (a =? "--db")%string; [apply IH; lia|].
      destruct (a =? "--vote-id")%string.
      { destruct (int v); [apply IH; lia | split; discriminate]. }
      destruct (a =? "--output")%string; apply IH; simpl; lia.
Qed.

End Loop.

End VoteCli.

Import VoteCli.

(** X20.  The command line of [visualize_vote.py].  The argument after
    ["--db"], ["--vote-id"] or ["--output"] is the option's value and is
    not read as an option itself; an argument in last place has no
    value and is skipped, like every argument that is not one of the
    three options; a vote id that [int] rejects ends the run with
    [ValueError].  The loop ends without an index out of range, and the
    three values are returned only with a database path and an output
    path that are not empty. *)
Theorem vote_command_line (int : string -> option Z) (o : Cli.vote_options) :
  Cli.parse_from int o [] = Cli.Done o /\
  (forall a, Cli.parse_from int o [a] = Cli.Done o) /\
  (forall v rest,
     Cli.parse_from int o ("--db"%string :: v :: rest)
     = Cli.parse_from int
         {| Cli.db_path := Some v; Cli.vote_id := Cli.vote_id o;
            Cli.vote_output := Cli.vote_output o |} rest) /\
  (forall v rest,
     Cli.parse_from int o ("--vote-id"%string :: v :: rest)
     = match int v with
       | Some z =>
           Cli.parse_from int
             {| Cli.db_path := Cli.db_path o; Cli.vote_id := Some z;
                Cli.vote_output := Cli.vote_output o |} rest
       | None => Cli.Failed Cli.ValueError
       end) /\
  (forall v rest,
     Cli.parse_from int o ("--output"%string :: v :: rest)
     = Cli.parse_from int
         {| Cli.db_path := Cli.db_path o; Cli.vote_id := Cli.vote_id o;
            Cli.vote_output := Some v |} rest) /\
  (forall a v rest,
     a <> "--db"%string -> a <> "--vote-id"%string ->
     a <> "--output"%string ->
     Cli.parse_from int o (a :: v :: rest)
     = Cli.parse_from int o (v :: rest)) /\
  (forall args,
     Cli.parse_vote_args int args <> Cli.Failed Cli.BadIndex /\
     Cli.parse_vote_args int args <> Cli.Failed Cli.OutOfFuel) /\
  (forall args db id out,
     Cli.parse_vote_args int args = Cli.Done (db, id, out) ->
     db <> EmptyString /\ out <> EmptyString).
Proof.
  split; [apply parse_from_nil|]. split; [apply parse_from_last|].
  split; [intros v rest; now rewrite parse_from_two|].
  split; [intros v rest; now rewrite parse_from_two|].
  split; [intros v rest; now rewrite parse_from_two|].
  split.
  { intros a v rest Hdb Hid Hout. rewrite parse_from_two.
    apply String.eqb_neq in Hdb, Hid, Hout. now rewrite Hdb, Hid, Hout. }
  split.
  - intros args. unfold Cli.parse_vote_args.
    destruct (parse_from_ends int (length args) args
                {| Cli.db_path := None; Cli.vote_id := None;
                   Cli.vote_output := None |} (le_n _)) as [H1 H2].
    destruct (Cli.parse_from int _ args) as [o'|f].
    + unfold Cli.check_usage.
      destruct (Cli.db_path o'), (Cli.vote_id o'), (Cli.vote_output o');
        try (split; discriminate).
      destruct (_ || _); split; discriminate.
    + split; congruence.
  - intros args db id out. unfold Cli.parse_vote_args.
    destruct (Cli.parse_from int _ args) as [o'|f]; [|discriminate].
    unfold Cli.check_usage.
    destruct (Cli.db_path o') as [d|], (Cli.vote_id o') as [z|],
             (Cli.vote_output o') as [t|]; try discriminate.
    destruct (String.eqb_spec d EmptyString),
      (String.eqb_spec t EmptyString); simpl;
      try discriminate.
    intros [= <- _ <-]. split; assumption.
Qed.
(* ================================================================== *)
(** * The ranking does not depend on the order of the sets              *)
(* ================================================================== *)

Module Deterministic.
Import Condorcet.

Section SortedUnique.
Context {A K : Type} (ltb : K -> K -> bool) `{!StrictTotal ltb}.
Variable key : A -> K.

(** A sorted list whose keys are all different is determined by its
    elements. *)
Lemma sorted_perm_eq (l l' : list A) :
  (forall x y, In x l -> In y l -> key x = key y -> x = y) ->
  StronglySorted (key_le ltb key) l -> StronglySorted (key_le ltb key) l' ->
  Permutation l l' -> l = l'.
Proof.
  intros Hinj Hs. revert l'.
  induction Hs as [|a t Ht IH Ha]; intros l' Hs' Hp.
  - now apply Permutation_nil in Hp.
  - destruct l' as [|b t'].
    { apply Permutation_sym, Permutation_nil in Hp. discriminate. }
    inversion Hs' as [|? ? Ht' Hb]; subst.
    assert (E : a = b).
    { assert (Hin_a : In a (b :: t'))
        by (apply (Permutation_in _ Hp); now left).
      assert (Hin_b : In b (a :: t))
        by (apply (Permutation_in _ (Permutation_sym Hp)); now left).
      destruct Hin_a as [Hab|Hat]; [now symmetry|].
      destruct Hin_b as [Hba|Hbt]; [assumption|].
      rewrite Forall_forall in Ha, Hb.
      apply Hinj; [now left | now right |].
      apply (ltb_total (ltb := ltb)); [exact (Hb a Hat) | exact (Ha b Hbt)]. }
    subst b. f_equal. apply IH.
    + intros x y Hx Hy. apply Hinj; now right.
    + assumption.
    + exact (Permutation_cons_inv Hp).
Qed.

Lemma sort_by_unique (l l' : list A) :
  (forall x y, In x l -> In y l -> key x = key y -> x = y) ->
  Permutation l l' -> sort_by ltb key l = sort_by ltb key l'.
Proof.
  intros Hinj Hp. apply sorted_perm_eq.
  - intros x y Hx Hy. apply sort_by_In in Hx, Hy. now apply Hinj.
  - now apply sort_by_sorted.
  - now apply sort_by_sorted.
  - rewrite !sort_by_perm. exact Hp.
Qed.

End SortedUnique.

Lemma title_of_inj (movie_titles : list string) (i j : nat) :
  NoDup movie_titles -> i < length movie_titles -> j < length movie_titles ->
  title_of movie_titles i = title_of movie_titles j -> i = j.
Proof.
  intros Hnd Hi Hj E. unfold title_of in E.
  exact (proj1 (NoDup_nth movie_titles EmptyString) Hnd i j Hi Hj E).
Qed.

Lemma reaches_transfer {A : Type} `{Key A} (S1 S2 : PySet A)
    (g1 : @setdict A S1) (g2 : @setdict A S2) (x y : A) :
  (forall u v, @edge A _ S1 g1 u v -> @edge A _ S2 g2 u v) ->
  @reaches A _ S1 g1 x y -> @reaches A _ S2 g2 x y.
Proof.
  intros Hm. induction 1 as [|a b c Hab Hbc IH]; [constructor|].
  econstructor; [apply Hm; exact Hab | exact IH].
Qed.

Section TwoSets.
Context {A : Type} `{Key A}.
Variables S1 S2 : PySet A.

Lemma same_edges_reaches (g1 : @setdict A S1) (g2 : @setdict A S2)
    (x y : A) :
  same_edges S1 S2 g1 g2 ->
  (@reaches A _ S1 g1 x y <-> @reaches A _ S2 g2 x y).
Proof.
  intros Hs. split; apply reaches_transfer; intros u v; apply Hs.
Qed.

Lemma preds_in_same (g1 : @setdict A S1) (g2 : @setdict A S2)
    (nodes1 nodes2 : list A) (v : A) :
  same_edges S1 S2 g1 g2 ->
  (forall x, In x nodes1 <-> In x nodes2) ->
  (preds_in g1 nodes1 v = [] <-> preds_in g2 nodes2 v = []).
Proof.
  intros Hs Hn. rewrite !preds_in_nil.
  split; intros Hp u Hu He; apply (Hp u); try apply Hn; try apply Hs;
    assumption.
Qed.

End TwoSets.

Section TwoOrders.
Variables S1 S2 : PySet nat.

Lemma lock_pairs_same (pairs : list pair_record) :
  forall (g1 : @setdict nat S1) (g2 : @setdict nat S2) g1' g2',
    foldM (@lock_pair S1) pairs g1 = Ok g1' ->
    foldM (@lock_pair S2) pairs g2 = Ok g2' ->
    same_edges S1 S2 g1 g2 -> same_edges S1 S2 g1' g2'.
Proof.
  induction pairs as [|p pairs IH]; intros g1 g2 g1' g2' E1 E2 Hs.
  - simpl in E1, E2. injection E1 as <-. injection E2 as <-. exact Hs.
  - rewrite foldM_cons in E1. rewrite foldM_cons in E2.
    inv_bind E1. inv_bind E2.
    apply (IH _ _ _ _ E1 E2).
    apply lock_pair_result in E, E0.
    pose proof (same_edges_reaches S1 S2 g1 g2 (pair_loser p)
                  (pair_winner p) Hs)
      as Hr.
    destruct E as [[R1 ->]|[R1 ->]], E0 as [[R2 ->]|[R2 ->]];
      try tauto.
    intros u v. rewrite !edge_add. specialize (Hs u v). tauto.
Qed.

(** The topological loop walks its sets in two orders and builds the
    same list. *)
Lemma topo_loop_same n (movie_titles : list string)
    (g1 : @setdict nat S1) (g2 : @setdict nat S2) :
  sd_bounded n g1 -> sd_bounded n g2 -> acyclic g1 ->
  same_edges S1 S2 g1 g2 ->
  length movie_titles = n -> NoDup movie_titles ->
  forall fuel d1 d2 (ranking : list nat) rem1 rem2,
    topo_inv n g1 d1 rem1 -> topo_inv n g2 d2 rem2 ->
    (forall x, In x (set_iter rem1) <-> In x (set_iter rem2)) ->
    (forall x, In x (set_iter rem1) -> x < n) ->
    @topo_loop S1 fuel movie_titles g1 d1 ranking rem1
    = @topo_loop S2 fuel movie_titles g2 d2 ranking rem2.
Proof.
  intros Hb1 Hb2 Hac Hs Hlen Hnd.
  induction fuel as [|fuel IH];
    intros d1 d2 ranking rem1 rem2 Hinv1 Hinv2 Hrem Hlt; [reflexivity|].
  assert (Hlt2 : forall x, In x (set_iter rem2) -> x < n).
  { intros x Hx. apply Hlt, Hrem, Hx. }
  destruct (list_eq_dec Nat.eq_dec (set_iter rem1) []) as [E1|E1].
  - assert (E2 : set_iter rem2 = []).
    { destruct (set_iter rem2) as [|x l] eqn:E; [reflexivity|].
      exfalso. assert (Hx : In x (set_iter rem1)) by (apply Hrem; now left).
      rewrite E1 in Hx. destruct Hx. }
    simpl. rewrite E1, E2. reflexivity.
  - assert (E2 : set_iter rem2 <> []).
    { intros E. destruct (set_iter rem1) as [|x l] eqn:E'; [now apply E1|].
      assert (Hx : In x (set_iter rem2)) by (apply Hrem; now left).
      rewrite E in Hx. destruct Hx. }
    rewrite !topo_loop_unfold by assumption.
    destruct Hinv1 as [Hd1 Hv1], Hinv2 as [Hd2 Hv2].
    rewrite (zero_in_degree_Ok n d1 rem1 Hd1 Hlt).
    rewrite (zero_in_degree_Ok n d2 rem2 Hd2 Hlt2). cbn [bind].
    set (src1 := filter (fun i => (dict_get_default i 1 d1 =? 0)%Z)
                        (set_iter rem1)).
    set (src2 := filter (fun i => (dict_get_default i 1 d2 =? 0)%Z)
                        (set_iter rem2)).
    assert (Hsrc1 : forall s, In s src1 <->
                              In s (set_iter rem1) /\
                              preds_in g1 (set_iter rem1) s = []).
    { intros s. unfold src1. rewrite filter_In.
      split; intros [Hin Hz]; (split; [assumption|]).
      - unfold dict_get_default in Hz. rewrite (Hv1 s (Hlt s Hin)) in Hz.
        apply Z.eqb_eq in Hz. apply length_zero_iff_nil. lia.
      - unfold dict_get_default. rewrite (Hv1 s (Hlt s Hin)), Hz.
        reflexivity. }
    assert (Hsrc2 : forall s, In s src2 <->
                              In s (set_iter rem2) /\
                              preds_in g2 (set_iter rem2) s = []).
    { intros s. unfold src2. rewrite filter_In.
      split; intros [Hin Hz]; (split; [assumption|]).
      - unfold dict_get_default in Hz. rewrite (Hv2 s (Hlt2 s Hin)) in Hz.
        apply Z.eqb_eq in Hz. apply length_zero_iff_nil. lia.
      - unfold dict_get_default. rewrite (Hv2 s (Hlt2 s Hin)), Hz.
        reflexivity. }
    assert (Hnd1 : NoDup src1) by (apply NoDup_filter, set_iter_NoDup).
    assert (Hnd2 : NoDup src2) by (apply NoDup_filter, set_iter_NoDup).
    assert (Hperm : Permutation src1 src2).
    { apply NoDup_Permutation; [assumption..|].
      intros s. rewrite Hsrc1, Hsrc2, (Hrem s).
      rewrite (preds_in_same S1 S2 g1 g2 _ _ s Hs Hrem). reflexivity. }
    destruct (acyclic_has_source g1 (set_iter rem1) Hac E1)
      as (s1 & Hs1 & Hp1).
    assert (Hin1 : In s1 src1) by (apply Hsrc1; tauto).
    assert (Hin2 : In s1 src2) by exact (Permutation_in _ Hperm Hin1).
    clearbody src1 src2.
    destruct src1 as [|a1 src1']; [destruct Hin1|].
    destruct src2 as [|a2 src2']; [destruct Hin2|].
    rewrite !sort_by_title_Ok.
    2:{ intros i Hi. apply Hsrc2 in Hi. destruct Hi as [Hi _].
        specialize (Hlt2 i Hi). lia. }
    2:{ intros i Hi. apply Hsrc1 in Hi. destruct Hi as [Hi _].
        specialize (Hlt i Hi). lia. }
    cbn [bind].
    assert (Esort : sort_by String.ltb (title_of movie_titles) (a2 :: src2')
                    = sort_by String.ltb (title_of movie_titles)
                              (a1 :: src1')).
    { symmetry. apply sort_by_unique; [exact _| |assumption].
      intros x y Hx Hy. apply title_of_inj; [assumption| |].
      - apply Hsrc1 in Hx. destruct Hx as [Hx _]. specialize (Hlt x Hx). lia.
      - apply Hsrc1 in Hy. destruct Hy as [Hy _]. specialize (Hlt y Hy). lia. }
    rewrite Esort.
    set (sorted := sort_by String.ltb (title_of movie_titles) (a1 :: src1')).
    assert (Hps : Permutation sorted (a1 :: src1')) by apply sort_by_perm.
    assert (Hnds : NoDup sorted)
      by exact (Permutation_NoDup (Permutation_sym Hps) Hnd1).
    assert (Hss : forall s, In s sorted -> In s (set_iter rem1)).
    { intros s Hin. apply (Permutation_in _ Hps) in Hin.
      now apply Hsrc1 in Hin. }
    clearbody sorted.
    destruct (@emit_sources_inv S1 n g1 sorted Hb1 Hnds d1 ranking rem1)
      as (d1' & rem1' & Ee1 & Hinv1' & Hr1).
    { split; assumption. }
    { assumption. }
    destruct (@emit_sources_inv S2 n g2 sorted Hb2 Hnds d2 ranking rem2)
      as (d2' & rem2' & Ee2 & Hinv2' & Hr2).
    { split; assumption. }
    { intros s Hin. apply Hrem, Hss, Hin. }
    rewrite Ee1, Ee2. cbn [bind]. apply IH; [assumption..| |].
    + intros x. rewrite Hr1, Hr2, (Hrem x). reflexivity.
    + intros x Hx. apply Hr1 in Hx. apply Hlt. tauto.
Qed.

(** [compute_ranked_pairs] with two orders of iteration. *)
Lemma compute_ranked_pairs_same (movie_ids : list Z)
    (movie_titles : list string) (m : matrix) :
  mat_wf (length movie_ids) m ->
  length movie_titles = length movie_ids ->
  NoDup movie_titles ->
  exists ranking locked1 locked2,
    @compute_ranked_pairs S1 movie_ids movie_titles m
    = Ok (ranking, locked1) /\
    @compute_ranked_pairs S2 movie_ids movie_titles m
    = Ok (ranking, locked2) /\
    same_edges S1 S2 locked1 locked2.
Proof.
  intros Hwf Hlen Hnd. set (n := length movie_ids) in *.
  destruct (@compute_ranked_pairs_ordered S1 movie_ids movie_titles m)
    as (r1 & g1 & E1 & Hac1 & _ & _ & Hmaj1 & _); [assumption|fold n; lia|].
  destruct (@compute_ranked_pairs_ordered S2 movie_ids movie_titles m)
    as (r2 & g2 & E2 & Hac2 & _ & _ & Hmaj2 & _); [assumption|fold n; lia|].
  fold n in Hmaj1, Hmaj2.
  exists r1, g1, g2. split; [assumption|].
  pose proof E1 as F1. pose proof E2 as F2.
  unfold compute_ranked_pairs in F1, F2. fold n in F1, F2.
  rewrite (collect_pairs_Ok n m Hwf) in F1, F2. cbn [bind] in F1, F2.
  inv_bind F1. inv_bind F2. rename a into l1, a0 into l2.
  rename E into El1, E0 into El2.
  inv_bind F1. inv_bind F2. rename a into d1, a0 into d2.
  rename E into Ed1, E0 into Ed2.
  inv_bind F1. inv_bind F2. rename a into t1, a0 into t2.
  rename E into Et1, E0 into Et2.
  injection F1 as <- <-. injection F2 as <- <-.
  assert (Hs : same_edges S1 S2 l1 l2).
  { apply (lock_pairs_same _ [] [] l1 l2 El1 El2). intros u v.
    unfold edge, sd_get. simpl. tauto. }
  assert (Hb1 : sd_bounded n l1).
  { apply (lock_pairs_bounded n _ l1) in El1; [assumption|].
    intros p Hp. apply sort_by_In in Hp. now apply all_pairs_range in Hp. }
  assert (Hb2 : sd_bounded n l2).
  { apply (lock_pairs_bounded n _ l2) in El2; [assumption|].
    intros p Hp. apply sort_by_In in Hp. now apply all_pairs_range in Hp. }
  destruct (@locked_in_degree_vals S1 n l1 Hb1 (lock_pairs_NoDup _ _ El1))
    as (d1' & Ed1' & Hd1).
  { intros u v He. exact (proj1 (Hmaj1 _ _ He)). }
  destruct (@locked_in_degree_vals S2 n l2 Hb2 (lock_pairs_NoDup _ _ El2))
    as (d2' & Ed2' & Hd2).
  { intros u v He. exact (proj1 (Hmaj2 _ _ He)). }
  rewrite Ed1 in Ed1'. injection Ed1' as <-.
  rewrite Ed2 in Ed2'. injection Ed2' as <-.
  assert (Et : Ok t1 = Ok t2).
  { rewrite <- Et1, <- Et2.
    apply (topo_loop_same n movie_titles l1 l2); try assumption.
    - intros x. rewrite !set_of_list_In. reflexivity.
    - intros x Hx. apply set_of_list_In, range_In in Hx. lia. }
  injection Et as <-. split; [assumption | exact Hs].
Qed.

End TwoOrders.

End Deterministic.

Import Deterministic.

(** X21.  The ranking does not depend on the order in which Python
    iterates over its sets.  When no two candidates have the same
    title, [compute_ranked_pairs] run with any two implementations of
    the sets returns the same ranking and locks the same pairs: sorting
    the sources by title (line 284) makes the result deterministic. *)
Theorem ranking_independent_of_set_order (S1 S2 : PySet nat)
    (movie_ids : list Z) (movie_titles : list string)
    (m : Condorcet.matrix) :
  mat_wf (length movie_ids) m ->
  length movie_titles = length movie_ids ->
  NoDup movie_titles ->
  exists ranking locked1 locked2,
    @Condorcet.compute_ranked_pairs S1 movie_ids movie_titles m
    = Ok (ranking, locked1) /\
    @Condorcet.compute_ranked_pairs S2 movie_ids movie_titles m
    = Ok (ranking, locked2) /\
    forall winner loser,
      @edge nat _ S1 locked1 winner loser
      <-> @edge nat _ S2 locked2 winner loser.
Proof.
  intros Hwf Hlen Hnd.
  destruct (compute_ranked_pairs_same S1 S2 movie_ids movie_titles m
              Hwf Hlen Hnd) as (ranking & l1 & l2 & E1 & E2 & Hs).
  exists ranking, l1, l2. split; [assumption|]. split; [assumption|].
  exact Hs.
Qed.

Lemma ranking_independent_of_set_order_witness :
  exists ranking locked1 locked2,
    @Condorcet.compute_ranked_pairs SetOrders.ascending_positions
      [1; 2; 3]%Z ["C"; "B"; "A"]%string
      [[0; 2; 1]; [1; 0; 2]; [2; 1; 0]]%Z
    = Ok (ranking, locked1) /\
    @Condorcet.compute_ranked_pairs (SetOrders.insertion_order nat)
      [1; 2; 3]%Z ["C"; "B"; "A"]%string
      [[0; 2; 1]; [1; 0; 2]; [2; 1; 0]]%Z
    = Ok (ranking, locked2) /\
    forall winner loser,
      @edge nat _ SetOrders.ascending_positions locked1 winner loser
      <-> @edge nat _ (SetOrders.insertion_order nat) locked2 winner loser.
Proof.
  apply (ranking_independent_of_set_order SetOrders.ascending_positions
           (SetOrders.insertion_order nat)
           [1; 2; 3]%Z ["C"; "B"; "A"]%string
           [[0; 2; 1]; [1; 0; 2]; [2; 1; 0]]%Z).
  - split; [reflexivity | repeat constructor].
  - reflexivity.
  - repeat constructor; simpl; intuition discriminate.
Defined.
(* ================================================================== *)
(** * Rows and numbers of the ranked graph                              *)
(* ================================================================== *)

Module Rows.
Import Condorcet Display.

Lemma index_nth (x : nat) (l : list nat) (k : nat) :
  index x l = Some k -> nth_error l k = Some x.
Proof.
  revert k. induction l as [|y l IH]; intros k E; simpl in E; [discriminate|].
  destruct (Nat.eqb_spec y x) as [->|Hne].
  - injection E as <-. reflexivity.
  - destruct (index x l) as [k'|]; [|discriminate].
    injection E as <-. simpl. now apply IH.
Qed.

Lemma index_In (x : nat) (l : list nat) :
  In x l -> exists k, index x l = Some k.
Proof.
  induction l as [|y l IH]; intros Hin; [destruct Hin|]. simpl.
  destruct (Nat.eqb_spec y x) as [->|Hne]; [now exists 0|].
  destruct Hin as [->|Hin]; [congruence|].
  destruct (IH Hin) as (k & ->). now exists (S k).
Qed.

Lemma index_None (x : nat) (l : list nat) :
  index x l = None -> ~ In x l.
Proof.
  intros E Hin. destruct (index_In x l Hin) as (k & Hk). congruence.
Qed.

(** In a list without repetitions the position kept for a node by the
    loop over [enumerate] is its first position. *)
Lemma rows_from (movie_titles : list string) (l : list nat) :
  forall start (d : dict nat nat),
    NoDup l -> (forall x, In x l -> x < length movie_titles) ->
    exists d',
      foldM
        (fun pos (item : nat * nat) =>
           let '(rank_pos, node_idx) := item in
           title <- getitem movie_titles node_idx ;;
           Ok (dict_set node_idx rank_pos pos))
        (combine (seq start (length l)) l) d = Ok d' /\
      forall x, dict_get x d'
                = match index x l with
                  | Some k => Some (start + k)
                  | None => dict_get x d
                  end.
Proof.
  induction l as [|y l IH]; intros start d Hnd Hlt.
  - exists d. split; [reflexivity|]. intros x. reflexivity.
  - inversion Hnd as [|? ? Hy Hnd']; subst.
    cbn [length seq combine]. rewrite foldM_cons.
    rewrite (getitem_Ok movie_titles y EmptyString) by (apply Hlt; now left).
    cbn [bind].
    destruct (IH (S start) (dict_set y start d) Hnd') as (d' & E & Hd').
    { intros x Hx. apply Hlt. now right. }
    exists d'. split; [exact E|]. intros x. rewrite Hd'. simpl.
    destruct (Nat.eqb_spec y x) as [->|Hne].
    + destruct (index x l) as [k|] eqn:Ek.
      * apply index_nth, nth_error_In in Ek. contradiction.
      * rewrite dict_get_set_eq. f_equal. lia.
    + destruct (index x l) as [k|]; simpl; [f_equal; lia|].
      apply dict_get_set_ne. congruence.
Qed.

Lemma rows_Ok (movie_titles : list string) (ranking : list nat) :
  NoDup ranking -> (forall x, In x ranking -> x < length movie_titles) ->
  exists pos,
    rows movie_titles ranking = Ok pos /\
    forall x, dict_get x pos = index x ranking.
Proof.
  intros Hnd Hlt.
  destruct (rows_from movie_titles ranking 0 [] Hnd Hlt) as (pos & E & Hp).
  exists pos. split; [exact E|]. intros x. rewrite Hp.
  destruct (index x ranking); reflexivity.
Qed.

Lemma precedes_index (l : list nat) (x y i j : nat) :
  NoDup l -> precedes l x y ->
  index x l = Some i -> index y l = Some j -> i < j.
Proof.
  intros Hnd (l1 & l2 & l3 & ->) Ei Ej.
  apply index_nth in Ei, Ej.
  assert (Hi : nth_error (l1 ++ x :: l2 ++ y :: l3) (length l1) = Some x).
  { rewrite nth_error_app2 by lia. now rewrite Nat.sub_diag. }
  assert (Hj : nth_error (l1 ++ x :: l2 ++ y :: l3)
                         (length l1 + S (length l2)) = Some y).
  { rewrite nth_error_app2 by lia.
    replace (length l1 + S (length l2) - length l1) with (S (length l2))
      by lia.
    simpl. rewrite nth_error_app2 by lia. now rewrite Nat.sub_diag. }
  rewrite NoDup_nth_error in Hnd.
  assert (i = length l1).
  { apply Hnd; [|congruence]. apply nth_error_Some. congruence. }
  assert (j = length l1 + S (length l2)).
  { apply Hnd; [|congruence]. apply nth_error_Some. congruence. }
  lia.
Qed.

End Rows.

Import Rows.

(** X22.  Rows and numbers of the ranked graph.  For the ranking of
    [compute_ranked_pairs] the loop that places the nodes returns, and
    for every candidate the two lookups of the labelling loop succeed
    (no [KeyError], no [ValueError]): the candidate in row [r] (counted
    from 0) of the picture is the one the ranking has in place [r], it
    is numbered [r + 1], and every locked arrow leads from a row to a
    row below it. *)
Theorem ranked_graph_rows `{PySet nat} (movie_ids : list Z)
    (movie_titles : list string) (m : Condorcet.matrix) :
  mat_wf (length movie_ids) m ->
  length movie_titles = length movie_ids ->
  exists ranking locked pos,
    Condorcet.compute_ranked_pairs movie_ids movie_titles m
    = Ok (ranking, locked) /\
    Display.rows movie_titles ranking = Ok pos /\
    (forall i, i < length movie_ids ->
       exists row,
         Display.label_of ranking pos i = Some (row, row + 1) /\
         row < length movie_ids /\ nth_error ranking row = Some i) /\
    (forall winner loser rw rl,
       edge locked winner loser ->
       dict_get winner pos = Some rw -> dict_get loser pos = Some rl ->
       rw < rl).
Proof.
  intros Hwf Hlen.
  destruct (compute_ranked_pairs_ordered movie_ids movie_titles m)
    as (ranking & locked & E & _ & Hperm & Ho & Hmaj & _);
    [assumption | lia |].
  assert (Hnd : NoDup ranking).
  { apply (Permutation_NoDup (Permutation_sym Hperm)), range_NoDup. }
  assert (Hin : forall x, In x ranking <-> x < length movie_ids).
  { intros x. split; intros Hx.
    - apply (Permutation_in _ Hperm), range_In in Hx. lia.
    - apply (Permutation_in _ (Permutation_sym Hperm)), range_In. lia. }
  destruct (rows_Ok movie_titles ranking Hnd) as (pos & Ep & Hpos).
  { intros x Hx. apply Hin in Hx. lia. }
  exists ranking, locked, pos. split; [exact E|]. split; [exact Ep|]. split.
  - intros i Hi. apply Hin in Hi.
    destruct (index_In i ranking Hi) as (row & Er).
    exists row. unfold Display.label_of. rewrite Hpos, Er.
    split; [reflexivity|]. apply index_nth in Er. split; [|exact Er].
    assert (Hr : row < length ranking) by (apply nth_error_Some; congruence).
    rewrite (Permutation_length Hperm) in Hr. unfold range in Hr.
    rewrite length_seq in Hr. lia.
  - intros w l rw rl He Ew El. rewrite Hpos in Ew, El.
    apply (precedes_index ranking w l rw rl Hnd); [|assumption..].
    apply (topo_ordered_precedes locked ranking w l Ho); [|exact He].
    apply Hin. destruct (Hmaj w l He) as (_ & Hl & _). exact Hl.
Qed.

Lemma ranked_graph_rows_witness :
  exists ranking locked pos,
    @Condorcet.compute_ranked_pairs SetOrders.ascending_positions
      [1; 2; 3]%Z ["C"; "B"; "A"]%string
      [[0; 2; 1]; [1; 0; 2]; [2; 1; 0]]%Z
    = Ok (ranking, locked) /\
    Display.rows ["C"; "B"; "A"]%string ranking = Ok pos /\
    (forall i, i < 3 ->
       exists row,
         Display.label_of ranking pos i = Some (row, row + 1) /\
         row < 3 /\ nth_error ranking row = Some i) /\
    (forall winner loser rw rl,
       edge locked winner loser ->
       dict_get winner pos = Some rw -> dict_get loser pos = Some rl ->
       rw < rl).
Proof.
  apply (@ranked_graph_rows SetOrders.ascending_positions
           [1; 2; 3]%Z ["C"; "B"; "A"]%string
           [[0; 2; 1]; [1; 0; 2]; [2; 1; 0]]%Z).
  - split; [reflexivity | repeat constructor].
  - reflexivity.
Defined.
(* ================================================================== *)
(** * A voter's ranks and the order of the sets                         *)
(* ================================================================== *)

Module VoterOrder.
Import Condorcet.

Lemma mem_same {A : Type} (S1 S2 : PySet A) (s1 : @pyset A S1)
    (s2 : @pyset A S2) (x : A) :
  (In x (@set_iter A S1 s1) <-> In x (@set_iter A S2 s2)) ->
  @set_mem A S1 x s1 = @set_mem A S2 x s2.
Proof.
  intros Hi.
  destruct (@set_mem A S1 x s1) eqn:E1, (@set_mem A S2 x s2) eqn:E2;
    try reflexivity.
  - apply set_mem_iter, Hi, set_mem_iter in E1. congruence.
  - apply set_mem_iter, Hi, set_mem_iter in E2. congruence.
Qed.

Section TwoRuns.
Variables S1 S2 : PySet Z.

(** The layered sort walks its sets in two orders and hands out the
    same ranks. *)
Lemma rank_loop_same (g1 : @setdict Z S1) (g2 : @setdict Z S2) :
  same_edges S1 S2 g1 g2 ->
  forall fuel (rm1 rm2 : dict Z Z) rem1 rem2 (cdeg1 cdeg2 : dict Z Z)
         (u1 u2 : list Z) (r : Z),
    @set_len Z S1 rem1 < fuel ->
    @deg_inv S1 g1 rem1 cdeg1 -> @deg_inv S2 g2 rem2 cdeg2 ->
    (forall x, In x (set_iter rem1) <-> In x (set_iter rem2)) ->
    same_ranks rm1 rm2 ->
    exists rm1' rm2' left1 left2,
      @rank_loop S1 fuel g1 rm1 rem1 cdeg1 u1 r = Ok (rm1', u1 ++ left1) /\
      @rank_loop S2 fuel g2 rm2 rem2 cdeg2 u2 r = Ok (rm2', u2 ++ left2) /\
      same_ranks rm1' rm2' /\
      (forall x, In x left1 <-> In x left2).
Proof.
  intros Hs. induction fuel as [|fuel IH];
    intros rm1 rm2 rem1 rem2 cdeg1 cdeg2 u1 u2 r Hfuel Hd1 Hd2 Hrem Hrm;
    [lia|].
  destruct (list_eq_dec Z.eq_dec (set_iter rem1) []) as [E1|E1].
  - assert (E2 : set_iter rem2 = []).
    { destruct (set_iter rem2) as [|x l] eqn:E; [reflexivity|].
      exfalso. assert (Hx : In x (set_iter rem1)) by (apply Hrem; now left).
      rewrite E1 in Hx. destruct Hx. }
    exists rm1, rm2, [], []. simpl. rewrite E1, E2, !app_nil_r.
    split; [reflexivity|]. split; [reflexivity|].
    split; [assumption | reflexivity].
  - assert (E2 : set_iter rem2 <> []).
    { intros E. destruct (set_iter rem1) as [|x l] eqn:E'; [now apply E1|].
      assert (Hx : In x (set_iter rem2)) by (apply Hrem; now left).
      rewrite E in Hx. destruct Hx. }
    rewrite (@rank_loop_unfold S1) by assumption.
    rewrite (@rank_loop_unfold S2) by assumption.
    pose proof (fun s => @sources_of_spec S1 g1 rem1 cdeg1 s Hd1) as Hsrc1.
    pose proof (fun s => @sources_of_spec S2 g2 rem2 cdeg2 s Hd2) as Hsrc2.
    assert (Hnd1 : NoDup (@sources_of S1 rem1 cdeg1)).
    { unfold sources_of. apply NoDup_filter, set_iter_NoDup. }
    assert (Hnd2 : NoDup (@sources_of S2 rem2 cdeg2)).
    { unfold sources_of. apply NoDup_filter, set_iter_NoDup. }
    set (src1 := @sources_of S1 rem1 cdeg1) in *.
    set (src2 := @sources_of S2 rem2 cdeg2) in *.
    assert (Hsame : forall s, In s src1 <-> In s src2).
    { intros s. rewrite Hsrc1, Hsrc2, (Hrem s).
      rewrite (preds_in_same S1 S2 g1 g2 _ _ s Hs Hrem). reflexivity. }
    clearbody src1 src2.
    destruct src1 as [|a1 src1], src2 as [|a2 src2].
    + exists rm1, rm2, (set_iter rem1), (set_iter rem2).
      split; [reflexivity|]. split; [reflexivity|].
      split; [assumption | exact Hrem].
    + exfalso. apply (Hsame a2). now left.
    + exfalso. apply (Hsame a1). now left.
    + destruct (@process_sources_deg S1 g1 r (a1 :: src1) Hnd1 rm1 rem1
                  cdeg1 Hd1)
        as (rm1' & rem1' & d1' & -> & Hd1' & Hr1 & Hin1 & Hout1).
      { intros s Hin. now apply Hsrc1 in Hin. }
      destruct (@process_sources_deg S2 g2 r (a2 :: src2) Hnd2 rm2 rem2
                  cdeg2 Hd2)
        as (rm2' & rem2' & d2' & -> & Hd2' & Hr2 & Hin2 & Hout2).
      { intros s Hin. now apply Hsrc2 in Hin. }
      cbn [bind]. apply IH; [|assumption|assumption| |].
      * assert (Hlt : S (@set_len Z S1 rem1') <= @set_len Z S1 rem1).
        { unfold set_len.
          change (length (a1 :: set_iter rem1') <= length (set_iter rem1)).
          apply NoDup_incl_length.
          - constructor; [|apply set_iter_NoDup]. rewrite Hr1.
            intros [_ Hn]. apply Hn. now left.
          - intros y [<-|Hy]; [|now apply Hr1 in Hy].
            apply Hsrc1. now left. }
        lia.
      * intros x. rewrite Hr1, Hr2, (Hrem x), (Hsame x). reflexivity.
      * intros x. destruct (in_dec Z.eq_dec x (a1 :: src1)) as [Hi|Hn].
        -- rewrite (Hin1 x Hi), (Hin2 x (proj1 (Hsame x) Hi)). reflexivity.
        -- rewrite (Hout1 x Hn).
           rewrite (Hout2 x (fun Hx => Hn (proj2 (Hsame x) Hx))).
           apply Hrm.
Qed.

(** [compute_user_rankings] with two orders of iteration, for a voter
    whose statements link all the candidates they mention. *)
Lemma compute_user_rankings_same (prefs : list pref)
    (t1 : @pyset Z S1) (t2 : @pyset Z S2) :
  (forall x, @set_mem Z S1 x t1 = @set_mem Z S2 x t2) ->
  connected_statements prefs (fun x => @set_mem Z S1 x t1 = true) ->
  exists rm1 un1 rm2 un2,
    @compute_user_rankings S1 prefs t1 = Ok (rm1, un1) /\
    @compute_user_rankings S2 prefs t2 = Ok (rm2, un2) /\
    same_ranks rm1 rm2 /\
    forall x, @set_mem Z S1 x un1 = @set_mem Z S2 x un2.
Proof.
  intros Hmem Hconn.
  set (to_rank1 := @movies_to_rank S1 prefs t1).
  set (to_rank2 := @movies_to_rank S2 prefs t2).
  assert (Hto : forall x, In x to_rank1 <-> In x to_rank2).
  { intros x. unfold to_rank1, to_rank2.
    rewrite !movies_to_rank_In, (Hmem x). reflexivity. }
  destruct (list_eq_dec Z.eq_dec to_rank1 []) as [N1|N1].
  - assert (N2 : to_rank2 = []).
    { destruct to_rank2 as [|x l] eqn:E; [reflexivity|].
      exfalso. assert (Hx : In x to_rank1) by (apply Hto; now left).
      rewrite N1 in Hx. destruct Hx. }
    exists [], set_empty, [], set_empty.
    split; [exact (compute_user_rankings_early prefs t1 N1)|].
    split; [exact (compute_user_rankings_early prefs t2 N2)|].
    split; [intros x; reflexivity|].
    intros x. now rewrite !set_mem_empty.
  - assert (N2 : to_rank2 <> []).
    { intros E. destruct to_rank1 as [|x l] eqn:E'; [now apply N1|].
      assert (Hx : In x to_rank2) by (apply Hto; now left).
      rewrite E in Hx. destruct Hx. }
    destruct (@compute_user_rankings_stages S1 prefs t1 N1)
      as (graph1 & in_degree1 & visited1 & components1 & c1 & cdeg1
          & rank_map1 & left1 & _ & Hg1 & _ & _ & _ & _ & (h1 & Hh1 & Hc1)
          & Ed1 & _ & _ & Er1 & _ & _ & F1).
    destruct (@compute_user_rankings_stages S2 prefs t2 N2)
      as (graph2 & in_degree2 & visited2 & components2 & c2 & cdeg2
          & rank_map2 & left2 & _ & Hg2 & _ & _ & _ & _ & (h2 & Hh2 & Hc2)
          & Ed2 & _ & _ & Er2 & _ & _ & F2).
    fold to_rank1 in Hg1, Hh1, Hc1, Er1, F1.
    fold to_rank2 in Hg2, Hh2, Hc2, Er2, F2.
    assert (Hs : same_edges S1 S2 graph1 graph2).
    { intros u v. rewrite Hg1, Hg2. unfold wanted.
      split; intros (p & Hp & Hd & Hu & Hv); exists p;
        (split; [assumption|]); (split; [assumption|]);
        split; now apply Hto. }
    assert (Hmember : forall x, In x to_rank1 <->
                                appears x prefs /\
                                @set_mem Z S1 x t1 = true).
    { intros x. apply movies_to_rank_In. }
    assert (Hcmp1 : forall u v,
               compares prefs (fun x => @set_mem Z S1 x t1 = true) u v ->
               compared_pair to_rank1 prefs u v).
    { intros u v (a & b & p & Hp & Ha & Hb & Huv). exists a, b, p.
      split; [assumption|].
      split; [apply Hmember; split; [exists a, b, p; tauto | assumption]|].
      split; [apply Hmember; split; [exists a, b, p; tauto | assumption]|].
      assumption. }
    assert (Hcmp2 : forall u v,
               compares prefs (fun x => @set_mem Z S1 x t1 = true) u v ->
               compared_pair to_rank2 prefs u v).
    { intros u v Huv. apply Hcmp1 in Huv.
      destruct Huv as (a & b & p & Hp & Ha & Hb & Huv). exists a, b, p.
      split; [assumption|]. split; [now apply Hto|].
      split; [now apply Hto | assumption]. }
    assert (Hall1 : forall x, In x c1 <-> In x to_rank1).
    { intros x. split.
      - apply (component_within to_rank1 prefs h1 c1 Hh1 Hc1).
      - intros Hx. destruct Hc1 as (_ & _ & Hc1). apply Hc1.
        apply Hmember in Hh1, Hx.
        apply (rt_map (compares prefs (fun x => @set_mem Z S1 x t1 = true))).
        + intros u v Huv. apply comparison_graph_spec. now apply Hcmp1.
        + apply Hconn; tauto. }
    assert (Hall2 : forall x, In x c2 <-> In x to_rank2).
    { intros x. split.
      - apply (component_within to_rank2 prefs h2 c2 Hh2 Hc2).
      - intros Hx. destruct Hc2 as (_ & _ & Hc2). apply Hc2.
        apply Hto, Hmember in Hh2, Hx.
        apply (rt_map (compares prefs (fun x => @set_mem Z S1 x t1 = true))).
        + intros u v Huv. apply comparison_graph_spec. now apply Hcmp2.
        + apply Hconn; tauto. }
    set (main1 := @set_of_list Z S1 c1) in *.
    set (main2 := @set_of_list Z S2 c2) in *.
    set (rem1 := @set_of_list Z S1 (set_iter main1)) in *.
    set (rem2 := @set_of_list Z S2 (set_iter main2)) in *.
    assert (Hrc1 : forall x, In x (set_iter rem1) <-> In x c1).
    { intros x. unfold rem1, main1. now rewrite !set_of_list_In. }
    assert (Hrc2 : forall x, In x (set_iter rem2) <-> In x c2).
    { intros x. unfold rem2, main2. now rewrite !set_of_list_In. }
    assert (Hrem : forall x, In x (set_iter rem1) <-> In x (set_iter rem2)).
    { intros x. rewrite Hrc1, Hrc2, Hall1, Hall2. apply Hto. }
    assert (Hd1 : @deg_inv S1 graph1 rem1 cdeg1).
    { destruct (@component_in_degree_counts S1 graph1 main1)
        as (d & Ed' & Hdk & Hdv).
      rewrite Ed1 in Ed'. injection Ed' as <-.
      assert (Hp : Permutation (set_iter rem1) (set_iter main1))
        by (apply set_of_list_perm, set_iter_NoDup).
      split.
      - intros x Hx. apply Hdk. now apply (Permutation_in _ Hp).
      - intros v Hv. rewrite (Hdv v (Permutation_in _ Hp Hv)).
        now rewrite (Permutation_length (preds_in_perm graph1 _ _ v Hp)). }
    assert (Hd2 : @deg_inv S2 graph2 rem2 cdeg2).
    { destruct (@component_in_degree_counts S2 graph2 main2)
        as (d & Ed' & Hdk & Hdv).
      rewrite Ed2 in Ed'. injection Ed' as <-.
      assert (Hp : Permutation (set_iter rem2) (set_iter main2))
        by (apply set_of_list_perm, set_iter_NoDup).
      split.
      - intros x Hx. apply Hdk. now apply (Permutation_in _ Hp).
      - intros v Hv. rewrite (Hdv v (Permutation_in _ Hp Hv)).
        now rewrite (Permutation_length (preds_in_perm graph2 _ _ v Hp)). }
    assert (Hlen : @set_len Z S2 rem2 = @set_len Z S1 rem1).
    { unfold set_len. apply Permutation_length, NoDup_Permutation;
        [apply set_iter_NoDup | apply set_iter_NoDup |].
      intros x. symmetry. apply Hrem. }
    rewrite Hlen in Er2.
    destruct (rank_loop_same graph1 graph2 Hs (S (@set_len Z S1 rem1))
                [] [] rem1 rem2 cdeg1 cdeg2
                (filter (fun mid => negb (set_mem mid main1)) to_rank1)
                (filter (fun mid => negb (set_mem mid main2)) to_rank2)
                1%Z)
      as (rm1' & rm2' & l1 & l2 & R1 & R2 & Hrm & Hl);
      [lia | assumption | assumption | assumption | intros x; reflexivity |].
    rewrite Er1 in R1. injection R1 as <- Hl1. apply app_inv_head in Hl1.
    rewrite Er2 in R2. injection R2 as <- Hl2. apply app_inv_head in Hl2.
    subst l1 l2.
    eexists rank_map1, _, rank_map2, _.
    split; [exact F1|]. split; [exact F2|]. split; [exact Hrm|].
    intros x. apply mem_same. rewrite !set_of_list_In, !in_app_iff.
    rewrite !filter_In, !negb_true_iff, !set_mem_false.
    unfold main1, main2. rewrite !set_of_list_In.
    rewrite (Hl x), (Hto x), Hall1, Hall2, (Hto x). reflexivity.
Qed.

End TwoRuns.

End VoterOrder.

Import VoterOrder.

(** X23.  A voter's ranks and the order of the sets.  When the voter's
    statements link all the target candidates they mention (the voter
    has one connected component), [compute_user_rankings] run with any
    two implementations of Python's sets gives every candidate the same
    rank and leaves the same candidates unranked; so does the copy in
    [visualize_vote.py]. *)
Theorem ranks_independent_of_set_order (S1 S2 : PySet Z)
    (prefs : list Condorcet.pref) (t1 : @pyset Z S1) (t2 : @pyset Z S2) :
  (forall x, @set_mem Z S1 x t1 = @set_mem Z S2 x t2) ->
  connected_statements prefs (fun x => @set_mem Z S1 x t1 = true) ->
  exists rm1 un1 rm2 un2,
    @Condorcet.compute_user_rankings S1 prefs t1 = Ok (rm1, un1) /\
    @Condorcet.compute_user_rankings S2 prefs t2 = Ok (rm2, un2) /\
    @Vote.compute_user_rankings S1 prefs t1 = Ok rm1 /\
    @Vote.compute_user_rankings S2 prefs t2 = Ok rm2 /\
    (forall x, dict_get x rm1 = dict_get x rm2) /\
    (forall x, @set_mem Z S1 x un1 = @set_mem Z S2 x un2).
Proof.
  intros Hmem Hconn.
  destruct (compute_user_rankings_same S1 S2 prefs t1 t2 Hmem Hconn)
    as (rm1 & un1 & rm2 & un2 & E1 & E2 & Hrm & Hun).
  exists rm1, un1, rm2, un2.
  split; [exact E1|]. split; [exact E2|].
  split; [rewrite compute_user_rankings_agree, E1; reflexivity|].
  split; [rewrite compute_user_rankings_agree, E2; reflexivity|].
  split; [exact Hrm | exact Hun].
Qed.

Lemma ranks_independent_of_set_order_witness :
  exists rm1 un1 rm2 un2,
    @Condorcet.compute_user_rankings SetOrders.ascending_order
      [(1, 2, 1)]%Z (@set_of_list Z SetOrders.ascending_order [1; 2]%Z)
    = Ok (rm1, un1) /\
    @Condorcet.compute_user_rankings (SetOrders.insertion_order Z)
      [(1, 2, 1)]%Z (@set_of_list Z (SetOrders.insertion_order Z) [1; 2]%Z)
    = Ok (rm2, un2) /\
    @Vote.compute_user_rankings SetOrders.ascending_order
      [(1, 2, 1)]%Z (@set_of_list Z SetOrders.ascending_order [1; 2]%Z)
    = Ok rm1 /\
    @Vote.compute_user_rankings (SetOrders.insertion_order Z)
      [(1, 2, 1)]%Z (@set_of_list Z (SetOrders.insertion_order Z) [1; 2]%Z)
    = Ok rm2 /\
    (forall x, dict_get x rm1 = dict_get x rm2) /\
    (forall x, @set_mem Z SetOrders.ascending_order x un1
               = @set_mem Z (SetOrders.insertion_order Z) x un2).
Proof.
  apply (ranks_independent_of_set_order SetOrders.ascending_order
           (SetOrders.insertion_order Z) [(1, 2, 1)]%Z
           (@set_of_list Z SetOrders.ascending_order [1; 2]%Z)
           (@set_of_list Z (SetOrders.insertion_order Z) [1; 2]%Z)).
  - intros x. reflexivity.
  - intros x y (a & b & p & [E|[]] & Hx) _ (a' & b' & p' & [E'|[]] & Hy) _.
    injection E as <- <- <-. injection E' as <- <- <-.
    assert (H12 : compares [(1, 2, 1)]%Z
                    (fun x => @set_mem Z SetOrders.ascending_order x
                                (@set_of_list Z SetOrders.ascending_order
                                              [1; 2]%Z) = true)
                    1%Z 2%Z).
    { exists 1%Z, 2%Z, 1%Z. split; [now left|].
      split; [reflexivity|]. split; [reflexivity|]. now left. }
    assert (H21 : compares [(1, 2, 1)]%Z
                    (fun x => @set_mem Z SetOrders.ascending_order x
                                (@set_of_list Z SetOrders.ascending_order
                                              [1; 2]%Z) = true)
                    2%Z 1%Z).
    { exists 1%Z, 2%Z, 1%Z. split; [now left|].
      split; [reflexivity|]. split; [reflexivity|]. now right. }
    destruct Hx as [->| ->], Hy as [->| ->].
    + constructor.
    + econstructor 2; [exact H12 | constructor].
    + econstructor 2; [exact H21 | constructor].
    + constructor.
Defined.
(* ================================================================== *)
(** * The matrix and the order of the sets                              *)
(* ================================================================== *)

Module MatrixOrder.
Import Condorcet.

Lemma connected_statements_ext (prefs : list pref) (m1 m2 : Z -> Prop) :
  (forall x, m1 x <-> m2 x) ->
  connected_statements prefs m1 -> connected_statements prefs m2.
Proof.
  intros Hm Hc x y Hx Mx Hy My.
  apply (rt_map (compares prefs m1)).
  - intros u v (a & b & p & Hp & Ha & Hb & Huv). exists a, b, p.
    split; [assumption|]. split; [now apply Hm|].
    split; [now apply Hm | assumption].
  - apply Hc; try assumption; now apply Hm.
Qed.

Section TwoRuns.
Variables S1 S2 : PySet Z.

Lemma dict_set_same (u : string) (r1 : @ranking S1) (r2 : @ranking S2)
    (d1 : dict string (@ranking S1)) (d2 : dict string (@ranking S2)) :
  same_ranks (@rank_map S1 r1) (@rank_map S2 r2) ->
  Forall2 (same_entry S1 S2) d1 d2 ->
  Forall2 (same_entry S1 S2) (dict_set u r1 d1) (dict_set u r2 d2).
Proof.
  intros Hr. induction 1 as [|[k1 v1] [k2 v2] d1 d2 [Hk Hv] Hd IH]; simpl.
  - constructor; [split; [reflexivity | exact Hr] | constructor].
  - simpl in Hk. subst k2. destruct (String.eqb u k1).
    + constructor; [split; [reflexivity | exact Hr] | exact Hd].
    + constructor; [split; [reflexivity | exact Hv] | exact IH].
Qed.

Lemma collect_user_rankings_same (movie_ids : list Z)
    (attendees : list (string * list pref)) :
  (forall u p, In (u, p) attendees ->
               connected_statements p (fun x => In x movie_ids)) ->
  exists ur1 ur2,
    @collect_user_rankings S1 attendees (@set_of_list Z S1 movie_ids)
    = Ok ur1 /\
    @collect_user_rankings S2 attendees (@set_of_list Z S2 movie_ids)
    = Ok ur2 /\
    Forall2 (same_entry S1 S2) ur1 ur2.
Proof.
  unfold collect_user_rankings.
  generalize (@nil (string * @ranking S1)) (@nil (string * @ranking S2))
             (Forall2_nil (same_entry S1 S2)).
  induction attendees as [|[u p] attendees IH]; intros d1 d2 Hd Hconn.
  - exists d1, d2. repeat split; assumption.
  - rewrite !foldM_cons.
    assert (Hrest : forall u' p', In (u', p') attendees ->
                      connected_statements p' (fun x => In x movie_ids)).
    { intros u' p' Hin. apply (Hconn u' p'). now right. }
    destruct p as [|q p].
    + cbn [bind]. now apply IH.
    + destruct (compute_user_rankings_same S1 S2 (q :: p)
                  (@set_of_list Z S1 movie_ids)
                  (@set_of_list Z S2 movie_ids))
        as (rm1 & un1 & rm2 & un2 & E1 & E2 & Hrm & _).
      { intros x. apply mem_same. now rewrite !set_of_list_In. }
      { apply (connected_statements_ext _ (fun x => In x movie_ids)).
        - intros x. now rewrite set_mem_of_list.
        - apply (Hconn u). now left. }
      rewrite E1, E2. cbn [bind]. apply IH; [|assumption].
      apply dict_set_same; assumption.
Qed.

Lemma tally_users_same (i j : nat) (a b : Z)
    (ur1 : dict string (@ranking S1)) (ur2 : dict string (@ranking S2)) :
  Forall2 (same_entry S1 S2) ur1 ur2 ->
  forall m,
    foldM (@tally_user S1 i j a b) ur1 m
    = foldM (@tally_user S2 i j a b) ur2 m.
Proof.
  induction 1 as [|e1 e2 ur1 ur2 [_ Hv] Hd IH]; intros m; [reflexivity|].
  rewrite !foldM_cons.
  assert (E : @tally_user S1 i j a b m e1 = @tally_user S2 i j a b m e2).
  { unfold tally_user. cbv zeta. rewrite (Hv a), (Hv b). reflexivity. }
  rewrite E. destruct (@tally_user S2 i j a b m e2); [|reflexivity].
  cbn [bind]. apply IH.
Qed.

Lemma build_matrix_same (movie_ids : list Z)
    (ur1 : dict string (@ranking S1)) (ur2 : dict string (@ranking S2)) :
  Forall2 (same_entry S1 S2) ur1 ur2 ->
  @build_matrix S1 movie_ids ur1 = @build_matrix S2 movie_ids ur2.
Proof.
  intros Hd. unfold build_matrix. apply foldM_ext. intros m [i a].
  apply foldM_ext. intros m' [j b].
  destruct (i =? j); [reflexivity|]. now apply tally_users_same.
Qed.

Lemma compute_condorcet_matrix_same (movies : dict Z string)
    (attendees : list (string * list pref)) :
  (forall u p, In (u, p) attendees ->
               connected_statements p (fun x => In x (dict_keys movies))) ->
  @compute_condorcet_matrix S1 movies attendees
  = @compute_condorcet_matrix S2 movies attendees.
Proof.
  intros Hconn. unfold compute_condorcet_matrix.
  destruct (mapM (fun mid => dict_getitem mid movies) (dict_keys movies))
    as [titles|e]; [|reflexivity].
  cbn [bind].
  destruct (collect_user_rankings_same (dict_keys movies) attendees Hconn)
    as (ur1 & ur2 & E1 & E2 & Hd).
  rewrite E1, E2. cbn [bind].
  now rewrite (build_matrix_same (dict_keys movies) ur1 ur2 Hd).
Qed.

End TwoRuns.

End MatrixOrder.

Import MatrixOrder.

(** X24.  The matrix and the order of the sets.  When the statements of
    every voter link all the candidates of the ballot that the voter
    mentions, the result of [compute_condorcet_matrix], and of
    [compute_vote_matrix], is the same for any two implementations of
    Python's sets: the same candidates, labels and counts. *)
Theorem matrix_independent_of_set_order (S1 S2 : PySet Z)
    (movies : dict Z string)
    (attendees : list (string * list Condorcet.pref)) :
  (forall u p, In (u, p) attendees ->
               connected_statements p (fun x => In x (dict_keys movies))) ->
  @Condorcet.compute_condorcet_matrix S1 movies attendees
  = @Condorcet.compute_condorcet_matrix S2 movies attendees /\
  @Vote.compute_vote_matrix S1 movies attendees
  = @Vote.compute_vote_matrix S2 movies attendees.
Proof.
  intros Hconn.
  pose proof (compute_condorcet_matrix_same S1 S2 movies attendees Hconn)
    as E.
  split; [exact E|]. rewrite !compute_vote_matrix_agree. exact E.
Qed.

Lemma matrix_independent_of_set_order_witness :
  @Condorcet.compute_condorcet_matrix SetOrders.ascending_order
    [(1, "A"); (2, "B")]%Z%string [("u"%string, [(1, 2, 1)]%Z)]
  = @Condorcet.compute_condorcet_matrix (SetOrders.insertion_order Z)
      [(1, "A"); (2, "B")]%Z%string [("u"%string, [(1, 2, 1)]%Z)] /\
  @Vote.compute_vote_matrix SetOrders.ascending_order
    [(1, "A"); (2, "B")]%Z%string [("u"%string, [(1, 2, 1)]%Z)]
  = @Vote.compute_vote_matrix (SetOrders.insertion_order Z)
      [(1, "A"); (2, "B")]%Z%string [("u"%string, [(1, 2, 1)]%Z)].
Proof.
  apply (matrix_independent_of_set_order SetOrders.ascending_order
           (SetOrders.insertion_order Z)
           [(1, "A"); (2, "B")]%Z%string [("u"%string, [(1, 2, 1)]%Z)]).
  intros u p [E|[]]. injection E as <- <-.
  intros x y (a & b & q & [E|[]] & Hx) _ (a' & b' & q' & [E'|[]] & Hy) _.
  injection E as <- <- <-. injection E' as <- <- <-.
  assert (H12 : compares [(1, 2, 1)]%Z (fun x => In x [1; 2]%Z) 1%Z 2%Z).
  { exists 1%Z, 2%Z, 1%Z. split; [now left|].
    split; [now left|]. split; [right; now left | now left]. }
  assert (H21 : compares [(1, 2, 1)]%Z (fun x => In x [1; 2]%Z) 2%Z 1%Z).
  { exists 1%Z, 2%Z, 1%Z. split; [now left|].
    split; [now left|]. split; [right; now left | now right]. }
  destruct Hx as [->| ->], Hy as [->| ->].
  - constructor.
  - econstructor 2; [exact H12 | constructor].
  - econstructor 2; [exact H21 | constructor].
  - constructor.
Defined.
(** X25.  The whole computation is deterministic.  With fewer than 2^63
    voters whose statements each link all the candidates they mention,
    and candidates that all have different titles, a second run of
    [compute_condorcet_matrix] and [compute_ranked_pairs] under other
    implementations of Python's sets returns the same matrix and the
    same ranking as the first. *)
Theorem pipeline_independent_of_set_order (SZ1 SZ2 : PySet Z)
    (SN1 SN2 : PySet nat) (movies : dict Z string)
    (attendees : list (string * list Condorcet.pref))
    (movie_ids : list Z) (movie_titles : list string)
    (matrix : Condorcet.matrix) :
  (Z.of_nat (length attendees) < 2 ^ 63)%Z ->
  (forall u p, In (u, p) attendees ->
               connected_statements p (fun x => In x (dict_keys movies))) ->
  @Condorcet.compute_condorcet_matrix SZ1 movies attendees
  = Ok (movie_ids, movie_titles, matrix) ->
  NoDup movie_titles ->
  @Condorcet.compute_condorcet_matrix SZ2 movies attendees
  = Ok (movie_ids, movie_titles, matrix) /\
  exists ranking locked1 locked2,
    @Condorcet.compute_ranked_pairs SN1 movie_ids movie_titles matrix
    = Ok (ranking, locked1) /\
    @Condorcet.compute_ranked_pairs SN2 movie_ids movie_titles matrix
    = Ok (ranking, locked2) /\
    forall winner loser,
      @edge nat _ SN1 locked1 winner loser
      <-> @edge nat _ SN2 locked2 winner loser.
Proof.
  intros Hlt Hconn E Hnd.
  split.
  - rewrite <- (compute_condorcet_matrix_same SZ1 SZ2 movies attendees Hconn).
    exact E.
  - destruct (@compute_condorcet_matrix_bounds SZ1 movies attendees Hlt)
      as (titles & m & E' & Hlen & Hk & Hwf & _).
    rewrite E in E'. injection E' as -> -> ->.
    apply (compute_ranked_pairs_same SN1 SN2 (dict_keys movies) titles m).
    + now rewrite Hk.
    + now rewrite Hk.
    + assumption.
Qed.

Lemma pipeline_independent_of_set_order_witness :
  @Condorcet.compute_condorcet_matrix (SetOrders.insertion_order Z)
    [(1, "A"); (2, "B")]%Z%string [("u"%string, [(1, 2, 1)]%Z)]
  = Ok ([1; 2]%Z, ["A"; "B"]%string, [[0; 1]; [0; 0]]%Z) /\
  exists ranking locked1 locked2,
    @Condorcet.compute_ranked_pairs SetOrders.ascending_positions
      [1; 2]%Z ["A"; "B"]%string [[0; 1]; [0; 0]]%Z
    = Ok (ranking, locked1) /\
    @Condorcet.compute_ranked_pairs (SetOrders.insertion_order nat)
      [1; 2]%Z ["A"; "B"]%string [[0; 1]; [0; 0]]%Z
    = Ok (ranking, locked2) /\
    forall winner loser,
      @edge nat _ SetOrders.ascending_positions locked1 winner loser
      <-> @edge nat _ (SetOrders.insertion_order nat) locked2 winner loser.
Proof.
  apply (pipeline_independent_of_set_order SetOrders.ascending_order
           (SetOrders.insertion_order Z) SetOrders.ascending_positions
           (SetOrders.insertion_order nat)
           [(1, "A"); (2, "B")]%Z%string [("u"%string, [(1, 2, 1)]%Z)]).
  - simpl. lia.
  - intros u p [E|[]]. injection E as <- <-.
    intros x y (a & b & q & [E|[]] & Hx) _ (a' & b' & q' & [E'|[]] & Hy) _.
    injection E as <- <- <-. injection E' as <- <- <-.
    assert (H12 : compares [(1, 2, 1)]%Z (fun x => In x [1; 2]%Z) 1%Z 2%Z).
    { exists 1%Z, 2%Z, 1%Z. split; [now left|].
      split; [now left|]. split; [right; now left | now left]. }
    assert (H21 : compares [(1, 2, 1)]%Z (fun x => In x [1; 2]%Z) 2%Z 1%Z).
    { exists 1%Z, 2%Z, 1%Z. split; [now left|].
      split; [now left|]. split; [right; now left | now right]. }
    destruct Hx as [->| ->], Hy as [->| ->].
    + constructor.
    + econstructor 2; [exact H12 | constructor].
    + econstructor 2; [exact H21 | constructor].
    + constructor.
  - reflexivity.
  - repeat constructor; simpl; intuition discriminate.
Defined.
